(** * md-mermaid-converter: the block locator, the content namer, the path
      resolver and the two rewrite strategies of [convert_mermaid.py]

    A Python [str] is a sequence of Unicode code points; offsets into it are
    code-point offsets.  Text is therefore a list of code points, and all
    offsets and lengths are natural numbers. *)

From Stdlib Require Import String Ascii DecimalString.
From Stdlib Require Import NArith Arith Lia Bool List.
Import ListNotations.

Set Implicit Arguments.

(* ================================================================== *)
(** * Text: Python [str] *)
(* ================================================================== *)

Definition char := N.
Definition text := list char.

(** A literal of the source file, as code points. *)
Definition str (s : string) : text := map N_of_ascii (list_ascii_of_string s).

Definition nl : char := 10%N.
Definition backtick : char := 96%N.

Definition char_eqb (a b : char) : bool := N.eqb a b.

Fixpoint text_eqb (a b : text) : bool :=
  match a, b with
  | [], [] => true
  | x :: a', y :: b' => char_eqb x y && text_eqb a' b'
  | _, _ => false
  end.

(** [str.isspace] on one code point, which is also what [\s] matches in a
    [str] pattern: the ASCII controls 9-13 and 28-31, the space, and the
    Unicode separators. *)
Definition isspace (c : char) : bool :=
  ((9 <=? c) && (c <=? 13) || (28 <=? c) && (c <=? 32)
   || (c =? 133) || (c =? 160) || (c =? 5760)
   || (8192 <=? c) && (c <=? 8202)
   || (c =? 8232) || (c =? 8233) || (c =? 8239) || (c =? 8287)
   || (c =? 12288))%N.

(** [t[a:b]] and [t[a:]] for non-negative indices: out-of-range indices are
    clipped and an inverted range is empty. *)
Definition slice (t : text) (a b : nat) : text := firstn (b - a) (skipn a t).
Definition slice_from (t : text) (a : nat) : text := skipn a t.

Fixpoint startswith (p t : text) : bool :=
  match p, t with
  | [], _ => true
  | x :: p', y :: t' => char_eqb x y && startswith p' t'
  | _ :: _, [] => false
  end.

(** [t.find(sub)]: the lowest index where [sub] occurs, [None] for -1. *)
Fixpoint find (sub t : text) {struct t} : option nat :=
  if startswith sub t then Some 0
  else match t with
       | [] => None
       | _ :: t' => option_map S (find sub t')
       end.

(** [t.find(sub, start)]. *)
Definition find_from (sub t : text) (start : nat) : option nat :=
  if length t <? start then None
  else option_map (fun i => start + i) (find sub (skipn start t)).

(** [sub in t]. *)
Definition contains (sub t : text) : bool :=
  match find sub t with Some _ => true | None => false end.

(** ["".join(parts)]. *)
Definition join_parts (parts : list text) : text := concat parts.

(** [str.strip()] with no argument. *)
Fixpoint lstrip (t : text) : text :=
  match t with
  | c :: t' => if isspace c then lstrip t' else t
  | [] => []
  end.
Definition strip (t : text) : text := rev (lstrip (rev (lstrip t))).

(** [str.lower()].  The program only compares lowered text with the ASCII
    literals ["per-file"] and ["svg"]; no code point outside [A-Z] lowers to
    one of their letters, so lowering the ASCII capitals decides the same
    comparisons. *)
Definition lower_char (c : char) : char :=
  if ((65 <=? c) && (c <=? 90))%N then (c + 32)%N else c.
Definition lower (t : text) : text := map lower_char t.

(** [str(n)] for a non-negative integer. *)
Definition dec (n : nat) : text := str (NilZero.string_of_uint (Nat.to_uint n)).

(* ================================================================== *)
(** * The [re] module: a backtracking matcher

    [run r s] lists every way [r] can match from the state [s], in the order
    in which a backtracking matcher tries them; the match [re] reports is the
    first.  Greedy repetition lists the longest first, lazy repetition the
    shortest first. *)
(* ================================================================== *)

(** One-character items: a literal, [\s], [.] under DOTALL, [[^c]]. *)
Inductive cset :=
| One (c : char)
| Whitespace
| AnyChar
| NoneOf (c : char).

Definition cset_mem (cs : cset) (c : char) : bool :=
  match cs with
  | One d => char_eqb c d
  | Whitespace => isspace c
  | AnyChar => true
  | NoneOf d => negb (char_eqb c d)
  end.

Inductive regex :=
| Eps
| Chr (cs : cset)
| Bol                       (* [^] under MULTILINE *)
| Seq (a b : regex)
| Star (cs : cset)          (* [x*]  *)
| LazyStar (cs : cset)      (* [x*?] *)
| Opt (a : regex)           (* [a?]  *)
| Group (a : regex).        (* capture group 1 *)

Definition lit (t : text) : regex :=
  fold_right (fun c r => Seq (Chr (One c)) r) Eps t.

Definition cat (rs : list regex) : regex := fold_right Seq Eps rs.

(** A matcher state: the offset reached, the character before it (for [^]),
    the text still ahead, and what group 1 captured. *)
Record mstate := MState {
  m_pos : nat;
  m_prev : option char;
  m_rest : text;
  m_group : option text
}.

Definition at_bol (prev : option char) : bool :=
  match prev with
  | None => true
  | Some c => char_eqb c nl
  end.

Fixpoint star (cs : cset) (pos : nat) (prev : option char) (rest : text)
    (g : option text) : list mstate :=
  match rest with
  | x :: xs =>
      if cset_mem cs x
      then star cs (S pos) (Some x) xs g ++ [MState pos prev rest g]
      else [MState pos prev rest g]
  | [] => [MState pos prev rest g]
  end.

Fixpoint lazy_star (cs : cset) (pos : nat) (prev : option char) (rest : text)
    (g : option text) : list mstate :=
  MState pos prev rest g ::
  match rest with
  | x :: xs =>
      if cset_mem cs x then lazy_star cs (S pos) (Some x) xs g else []
  | [] => []
  end.

Fixpoint run (r : regex) (s : mstate) : list mstate :=
  match r with
  | Eps => [s]
  | Chr cs =>
      match m_rest s with
      | x :: xs =>
          if cset_mem cs x
          then [MState (S (m_pos s)) (Some x) xs (m_group s)]
          else []
      | [] => []
      end
  | Bol => if at_bol (m_prev s) then [s] else []
  | Seq a b => flat_map (run b) (run a s)
  | Star cs => star cs (m_pos s) (m_prev s) (m_rest s) (m_group s)
  | LazyStar cs => lazy_star cs (m_pos s) (m_prev s) (m_rest s) (m_group s)
  | Opt a => run a s ++ [s]
  | Group a =>
      map (fun s' =>
             MState (m_pos s') (m_prev s') (m_rest s')
                    (Some (firstn (m_pos s' - m_pos s) (m_rest s))))
          (run a s)
  end.

(** A match object: [m.start()], [m.end()], [m.group(1)]. *)
Record rmatch := RMatch {
  m_start : nat;
  m_end : nat;
  m_group1 : text
}.

(** The match that starts exactly at the given offset, if there is one. *)
Definition match_at (r : regex) (pos : nat) (prev : option char) (rest : text)
    : option rmatch :=
  match run r (MState pos prev rest None) with
  | s :: _ =>
      Some (RMatch pos (m_pos s)
                   (match m_group s with Some g => g | None => [] end))
  | [] => None
  end.

(** [re.search]: the match at the lowest offset that has one. *)
Fixpoint search_from (r : regex) (pos : nat) (prev : option char) (rest : text)
    : option rmatch :=
  match match_at r pos prev rest with
  | Some m => Some m
  | None =>
      match rest with
      | x :: xs => search_from r (S pos) (Some x) xs
      | [] => None
      end
  end.

Definition re_search (r : regex) (t : text) : option rmatch :=
  search_from r 0 None t.

(** [finditer]: matches found left to right, each search resuming where the
    previous match ended.  [skip] counts the characters of the last match
    that still lie ahead.  (The pattern of this program cannot match the
    empty string, so the special treatment [re] gives to empty matches is
    never exercised.) *)
Fixpoint finditer_from (r : regex) (pos : nat) (prev : option char)
    (rest : text) (skip : nat) : list rmatch :=
  match skip with
  | S k =>
      match rest with
      | x :: xs => finditer_from r (S pos) (Some x) xs k
      | [] => []
      end
  | O =>
      match match_at r pos prev rest with
      | Some m =>
          m :: match rest with
               | x :: xs =>
                   finditer_from r (S pos) (Some x) xs (m_end m - pos - 1)
               | [] => []
               end
      | None =>
          match rest with
          | x :: xs => finditer_from r (S pos) (Some x) xs 0
          | [] => []
          end
      end
  end.

Definition finditer (r : regex) (t : text) : list rmatch :=
  finditer_from r 0 None t 0.

(* ================================================================== *)
(** * Constants *)
(* ================================================================== *)

Definition fence : text := [backtick; backtick; backtick].
Definition open_fence : text := fence ++ str "mermaid".
Definition close_fence : text := nl :: fence.

(** [^```mermaid\s*\n(.*?)\n```\s*] with DOTALL and MULTILINE. *)
Definition MERMAID_BLOCK_RE : regex :=
  cat [Bol; lit open_fence; Star Whitespace; Chr (One nl);
       Group (LazyStar AnyChar); lit close_fence; Star Whitespace].

Definition MARKER_PREFIX : text := str "<!-- mmd-rendered:".
Definition DEFAULT_OUT_DIR : text := str "docs/_assets/mermaid".
Definition LOOKAHEAD_REPLACE : nat := 600.
Definition LOOKAHEAD_APPEND : nat := 400.

(** [^\s*!\[[^\]]*\]\([^\)]*mermaid[^\)]*\)\s*\n?] with MULTILINE, the
    pattern [replace_blocks_with_images] searches the lookahead for. *)
Definition IMAGE_LINK_RE : regex :=
  cat [Bol; Star Whitespace; lit (str "![");
       Star (NoneOf 93%N); lit (str "](");
       Star (NoneOf 41%N); lit (str "mermaid"); Star (NoneOf 41%N);
       lit (str ")"); Star Whitespace; Opt (Chr (One nl))].

(* ================================================================== *)
(** * Block Locator *)
(* ================================================================== *)

Definition span := (nat * nat)%type.

(** [find_mermaid_blocks]: the list of [((start, end), code)]. *)
Definition find_mermaid_blocks (md_text : text) : list (span * text) :=
  map (fun m => ((m_start m, m_end m), m_group1 m))
      (finditer MERMAID_BLOCK_RE md_text).

Definition doc1 : text :=
  str "intro" ++ [nl] ++ open_fence ++ [nl] ++ str "graph TD; A-->B;" ++ [nl]
  ++ fence ++ [nl] ++ str "tail".

(* ================================================================== *)
(** * [hashlib.sha1] and [str.encode("utf-8")] *)
(* ================================================================== *)

Definition byte := N.

(** UTF-8 encoding of one code point.  [None] is the [UnicodeEncodeError]
    Python raises on a surrogate (a value above 0x10FFFF is not a code point
    at all). *)
Definition utf8_char (c : char) : option (list byte) :=
  (if c <? 128 then Some [c]
   else if c <? 2048 then
     Some [N.lor 192 (N.shiftr c 6); N.lor 128 (N.land c 63)]
   else if c <? 65536 then
     if (55296 <=? c) && (c <=? 57343) then None
     else Some [N.lor 224 (N.shiftr c 12);
                N.lor 128 (N.land (N.shiftr c 6) 63);
                N.lor 128 (N.land c 63)]
   else if c <? 1114112 then
     Some [N.lor 240 (N.shiftr c 18);
           N.lor 128 (N.land (N.shiftr c 12) 63);
           N.lor 128 (N.land (N.shiftr c 6) 63);
           N.lor 128 (N.land c 63)]
   else None)%N.

Fixpoint encode_utf8 (s : text) : option (list byte) :=
  match s with
  | [] => Some []
  | c :: s' =>
      match utf8_char c, encode_utf8 s' with
      | Some b, Some bs => Some (b ++ bs)
      | _, _ => None
      end
  end.

Module SHA1.

Definition mask32 : N := 4294967295%N.
Definition add32 (a b : N) : N := N.land (a + b) mask32.
Definition not32 (a : N) : N := N.lxor a mask32.
Definition rotl (k : N) (a : N) : N :=
  N.land (N.lor (N.shiftl a k) (N.shiftr a (32 - k))) mask32.

(** The big-endian bytes of [v], [n] of them. *)
Fixpoint be_bytes (n : nat) (v : N) : list byte :=
  match n with
  | O => []
  | S n' => N.land (N.shiftr v (8 * N.of_nat n')) 255 :: be_bytes n' v
  end.

(** Message padding: 0x80, zero bytes up to 56 modulo 64, then the length
    in bits as a 64-bit big-endian integer. *)
Definition pad (msg : list byte) : list byte :=
  let l := length msg in
  let zeros := (64 - (l + 9) mod 64) mod 64 in
  msg ++ 128%N :: repeat 0%N zeros ++ be_bytes 8 (8 * N.of_nat l).

Fixpoint word_of (bs : list byte) (acc : N) : N :=
  match bs with
  | [] => acc
  | b :: bs' => word_of bs' (N.lor (N.shiftl acc 8) b)
  end.

(** [n] big-endian 32-bit words from the front of [bs]. *)
Fixpoint words (n : nat) (bs : list byte) : list N :=
  match n with
  | O => []
  | S n' => word_of (firstn 4 bs) 0 :: words n' (skipn 4 bs)
  end.

(** The message schedule, kept newest first: [w[t]] is computed from
    [w[t-3]], [w[t-8]], [w[t-14]] and [w[t-16]]. *)
Fixpoint schedule (n : nat) (ws : list N) : list N :=
  match n with
  | O => ws
  | S n' =>
      let w := rotl 1 (N.lxor (N.lxor (nth 2 ws 0%N) (nth 7 ws 0%N))
                              (N.lxor (nth 13 ws 0%N) (nth 15 ws 0%N))) in
      schedule n' (w :: ws)
  end.

Definition state := (N * N * N * N * N)%type.

Definition f_k (t : nat) (b c d : N) : N * N :=
  if t <? 20 then (N.lor (N.land b c) (N.land (not32 b) d), 1518500249%N)
  else if t <? 40 then (N.lxor (N.lxor b c) d, 1859775393%N)
  else if t <? 60 then
    (N.lor (N.lor (N.land b c) (N.land b d)) (N.land c d), 2400959708%N)
  else (N.lxor (N.lxor b c) d, 3395469782%N).

Fixpoint rounds (t : nat) (ws : list N) (st : state) : state :=
  match ws with
  | [] => st
  | w :: ws' =>
      let '(a, b, c, d, e) := st in
      let '(f, k) := f_k t b c d in
      let tmp := add32 (add32 (add32 (add32 (rotl 5 a) f) e) k) w in
      rounds (S t) ws' (tmp, a, rotl 30 b, c, d)
  end.

Definition compress (h : state) (block : list byte) : state :=
  let ws := rev (schedule 64 (rev (words 16 block))) in
  let '(a, b, c, d, e) := rounds 0 ws h in
  let '(h0, h1, h2, h3, h4) := h in
  (add32 h0 a, add32 h1 b, add32 h2 c, add32 h3 d, add32 h4 e).

Fixpoint blocks (n : nat) (bs : list byte) (h : state) : state :=
  match n with
  | O => h
  | S n' => blocks n' (skipn 64 bs) (compress h (firstn 64 bs))
  end.

Definition init : state :=
  (1732584193%N, 4023233417%N, 2562383102%N, 271733878%N, 3285377520%N).

Definition digest (msg : list byte) : list byte :=
  let p := pad msg in
  let '(h0, h1, h2, h3, h4) := blocks (length p / 64) p init in
  be_bytes 4 h0 ++ be_bytes 4 h1 ++ be_bytes 4 h2 ++ be_bytes 4 h3
  ++ be_bytes 4 h4.

End SHA1.

Definition hex_digit (n : N) : char :=
  (if n <? 10 then 48 + n else 87 + n)%N.

(** [.hexdigest()]: two lowercase hexadecimal digits per byte. *)
Definition hexdigest (d : list byte) : text :=
  flat_map (fun b => [hex_digit (N.shiftr b 4); hex_digit (N.land b 15)]) d.

(** [hash_text]: [hashlib.sha1(s.encode("utf-8")).hexdigest()[:10]]. *)
Definition hash_text (s : text) : option text :=
  match encode_utf8 s with
  | Some bs => Some (slice (hexdigest (SHA1.digest bs)) 0 10)
  | None => None
  end.

(* ================================================================== *)
(** * [pathlib]: pure paths

    A path is its anchor (drive and root) and its components.  The host
    convention is a [flavour]: the separator, the alternative separator
    ([/] on Windows) and the function splitting the anchor off a string. *)
(* ================================================================== *)

Record flavour := Flavour {
  sep : char;
  altsep : option char;
  splitroot : text -> text * text
}.

Record path := MkPath {
  anchor : text;
  parts : list text
}.

Definition slash : char := 47%N.
Definition dot : char := 46%N.

(** [t.split(c)]. *)
Fixpoint split_on (c : char) (t : text) : list text :=
  match t with
  | [] => [[]]
  | x :: t' =>
      if char_eqb x c then [] :: split_on c t'
      else match split_on c t' with
           | p :: ps => (x :: p) :: ps
           | [] => [[x]]
           end
  end.

(** [t.replace(a, b)] for single characters. *)
Definition replace_char (a b : char) (t : text) : text :=
  map (fun x => if char_eqb x a then b else x) t.

(** [sep.join(parts)]. *)
Fixpoint join_with (s : char) (ps : list text) : text :=
  match ps with
  | [] => []
  | [p] => p
  | p :: ps' => p ++ s :: join_with s ps'
  end.

Definition is_part (x : text) : bool :=
  negb (text_eqb x []) && negb (text_eqb x [dot]).

(** [Path(s)]: empty and [.] components are dropped. *)
Definition Path (fl : flavour) (s : text) : path :=
  let s1 := match altsep fl with
            | Some a => replace_char a (sep fl) s
            | None => s
            end in
  let '(anc, rel) := splitroot fl s1 in
  MkPath anc (filter is_part (split_on (sep fl) rel)).

(** [str(p)]. *)
Definition path_str (fl : flavour) (p : path) : text :=
  match anchor p, parts p with
  | [], [] => [dot]
  | a, ps => a ++ join_with (sep fl) ps
  end.

(** [p / key]: an anchored [key] replaces [p]. *)
Definition joinpath (fl : flavour) (p : path) (key : text) : path :=
  let k := Path fl key in
  match anchor k with
  | [] => MkPath (anchor p) (parts p ++ parts k)
  | _ => k
  end.

(** [p.as_posix()]: [str(p)] with the host separator replaced by [/]. *)
Definition as_posix (fl : flavour) (p : path) : text :=
  replace_char (sep fl) slash (path_str fl p).

(** [p.name], [p.stem], [p.parent]. *)
Definition name (p : path) : text := last (parts p) [].

Fixpoint rfind_char_from (c : char) (t : text) (i : nat) (acc : option nat)
    : option nat :=
  match t with
  | [] => acc
  | x :: t' => rfind_char_from c t' (S i) (if char_eqb x c then Some i else acc)
  end.

Definition stem (p : path) : text :=
  let n := name p in
  match rfind_char_from dot n 0 None with
  | Some i => if (0 <? i) && (S i <? length n) then firstn i n else n
  | None => n
  end.

Definition parent (p : path) : path := MkPath (anchor p) (removelast (parts p)).

(** The POSIX flavour; [posixpath.splitroot] keeps exactly two leading
    slashes as a root of their own. *)
Definition posix_splitroot (t : text) : text * text :=
  match t with
  | c1 :: r1 =>
      if char_eqb c1 slash then
        match r1 with
        | c2 :: r2 =>
            if char_eqb c2 slash then
              match r2 with
              | c3 :: _ => if char_eqb c3 slash then ([slash], r1)
                           else ([slash; slash], r2)
              | [] => ([slash; slash], r2)
              end
            else ([slash], r1)
        | [] => ([slash], r1)
        end
      else ([], t)
  | [] => ([], [])
  end.

Definition posix : flavour := Flavour slash None posix_splitroot.

(* ================================================================== *)
(** * Rewrite Engine *)
(* ================================================================== *)

(** [f"![{alt}]({rel})\n"] with [alt = md_file.stem + " diagram"]. *)
Definition image_line (md_file : path) (rel : text) : text :=
  str "![" ++ (stem md_file ++ str " diagram") ++ str "](" ++ rel
  ++ str ")" ++ [nl].

(** The value of [skip_extra] at the end of one iteration of
    [replace_blocks_with_images]. *)
Definition replace_skip_extra (lookahead image_name : text) : nat :=
  match find (MARKER_PREFIX ++ image_name) lookahead with
  | Some marker_idx =>
      match find_from (str "-->") lookahead marker_idx with
      | Some end_marker =>
          let end_after := end_marker + 3 in
          if (end_after <? length lookahead)
             && text_eqb (slice lookahead end_after (end_after + 1)) [nl]
          then end_after + 1
          else end_after
      | None => 0
      end
  | None =>
      match re_search IMAGE_LINK_RE lookahead with
      | Some m => if m_start m =? 0 then m_end m else 0
      | None => 0
      end
  end.

(** The loop of [replace_blocks_with_images], over
    [zip(images_written, image_paths_rel)], with its two variables. *)
Fixpoint replace_loop (md_text : text) (md_file : path)
    (pairs : list ((span * path) * text)) (parts : list text) (last : nat)
    : list text * nat :=
  match pairs with
  | [] => (parts, last)
  | (((start, end_), out_path), rel) :: pairs' =>
      let parts := parts ++ [slice md_text last start] in
      let lookahead := slice md_text end_ (end_ + LOOKAHEAD_REPLACE) in
      let skip_extra := replace_skip_extra lookahead (name out_path) in
      let parts := parts ++ [image_line md_file rel] in
      replace_loop md_text md_file pairs' parts (end_ + skip_extra)
  end.

Definition replace_blocks_with_images (md_text : text) (md_file : path)
    (images_written : list (span * path)) (image_paths_rel : list text)
    : text :=
  let '(parts, last) :=
    replace_loop md_text md_file (combine images_written image_paths_rel)
                 [] 0 in
  join_parts (parts ++ [slice_from md_text last]).

(** [f"\n![{alt}]({rel})\n{MARKER_PREFIX}{image_name} -->\n"]. *)
Definition appended_text (md_file : path) (rel image_name : text) : text :=
  [nl] ++ str "![" ++ (stem md_file ++ str " diagram") ++ str "](" ++ rel
  ++ str ")" ++ [nl] ++ MARKER_PREFIX ++ image_name ++ str " -->" ++ [nl].

Fixpoint append_loop (md_text : text) (md_file : path)
    (pairs : list ((span * path) * text)) (parts : list text) (last : nat)
    : list text * nat :=
  match pairs with
  | [] => (parts, last)
  | (((start, end_), out_path), rel) :: pairs' =>
      let parts := parts ++ [slice md_text last end_] in
      let image_name := name out_path in
      let lookahead := slice md_text end_ (end_ + LOOKAHEAD_APPEND) in
      if contains image_name lookahead || contains MARKER_PREFIX lookahead
      then append_loop md_text md_file pairs' parts end_
      else
        let parts := parts ++ [appended_text md_file rel image_name] in
        append_loop md_text md_file pairs' parts end_
  end.

Definition add_images_after_blocks (md_text : text) (md_file : path)
    (images_written : list (span * path)) (image_paths_rel : list text)
    : text :=
  let '(parts, last) :=
    append_loop md_text md_file (combine images_written image_paths_rel)
                [] 0 in
  join_parts (parts ++ [slice_from md_text last]).

(* ================================================================== *)
(** * Document Processor

    What [process_file] needs from outside is a parameter of the section:
    the host's path flavour, the state of the file system with its
    [exists] test, [Path.resolve], [Path.cwd], [os.path.relpath] and
    [render_mermaid].  Each of them can raise: [exists] an [OSError] (a
    name too long for the host), [Path.resolve] and [Path.cwd] an [OSError]
    or a [RuntimeError], [os.path.relpath] a [ValueError] (two drives on
    Windows); nothing in [process_file] catches these.  [render_mermaid]
    returns, or raises one of the two exceptions [process_file] catches
    ([RuntimeError], [OSError]), or raises another one, which escapes (the
    [UnicodeDecodeError] of [subprocess.run] on output of [mmdc] that does
    not decode).  The text returned by [md_file.read_text] is the argument
    [text]. *)
(* ================================================================== *)

Inductive render_result :=
| Rendered
| RenderRaised (msg : text)
| RenderEscaped.

(** The lines [process_file] prints. *)
Inductive event :=
| EvDry (out_path : path)
| EvSkip (out_path : path)
| EvOk (out_path : path)
| EvErr (idx : nat) (msg : text)
| EvBak
| EvMdUpdated
| EvMdAppended.

Record outcome (fs : Type) := Outcome {
  blocks_found : nat;
  images_count : nat;
  printed : list event;
  written_back : option text;
  fs_after : fs
}.

Section DocumentProcessor.

Variable fl : flavour.
Variable fs : Type.
Variable path_exists : fs -> path -> option bool.
Variable render_mermaid : text -> path -> text -> fs -> render_result * fs.
Variable resolve : path -> option path.
Variable cwd : option path.
Variable relpath : path -> path -> option text.

(** Lines 241-254: [(images_base, rel_base_from_md)]; [None] when
    [resolve], [cwd] or [relpath] raises. *)
Definition resolve_placement (md_file : path) (out_dir : option path)
    (images_dir_rel : option text) : option (path * path) :=
  match images_dir_rel with
  | Some d =>
      if text_eqb (lower (strip d)) (str "per-file") then
        match resolve (joinpath fl (parent md_file)
                                (stem md_file ++ str "_images")) with
        | Some images_base =>
            Some (images_base, Path fl (stem md_file ++ str "_images"))
        | None => None
        end
      else if text_eqb (strip d) [] || text_eqb (strip d) (str ".") then
        match resolve (parent md_file) with
        | Some images_base => Some (images_base, Path fl (str "."))
        | None => None
        end
      else
        match resolve (joinpath fl (parent md_file) d) with
        | Some images_base => Some (images_base, Path fl d)
        | None => None
        end
  | None =>
      match cwd with
      | Some here =>
          let default_out := joinpath fl here DEFAULT_OUT_DIR in
          match resolve (match out_dir with
                         | Some o => o
                         | None => default_out
                         end) with
          | Some images_base =>
              match relpath images_base (parent md_file) with
              | Some r => Some (images_base, Path fl r)
              | None => None
              end
          | None => None
          end
      | None => None
      end
  end.

(** Line 261: [(rel_base_from_md / image_name).as_posix()]. *)
Definition rel_path_of (rel_base_from_md : path) (image_name : text) : text :=
  as_posix fl (joinpath fl rel_base_from_md image_name).

(** Lines 257-259: the image file name of block [idx] with source [code];
    [None] when [hash_text] raises. *)
Definition image_name_of (md_file : path) (fmt : text) (idx : nat)
    (code : text) : option text :=
  match hash_text code with
  | Some h =>
      let ext := if text_eqb (lower fmt) (str "svg")
                 then str ".svg" else str ".png" in
      Some (stem md_file ++ str "-mermaid-" ++ dec idx ++ str "-" ++ h ++ ext)
  | None => None
  end.

(** The variables the loop over the blocks updates. *)
Record loop_state := LoopState {
  images_written : list (span * path);
  image_paths_rel : list text;
  events : list event;
  the_fs : fs
}.

Definition record_image (st : loop_state) (sp : span) (out_path : path)
    (rel_path : text) (ev : event) (w : fs) : loop_state :=
  LoopState (images_written st ++ [(sp, out_path)])
            (image_paths_rel st ++ [rel_path])
            (events st ++ [ev]) w.

(** One iteration of the loop at lines 256-280.  [None] is an exception
    that nothing catches: the [UnicodeEncodeError] of [hash_text], the
    [OSError] of [out_path.exists()], which is evaluated before [force] is
    looked at, or what [render_mermaid] raises beside [RuntimeError] and
    [OSError]. *)
Definition block_step (md_file images_base rel_base_from_md : path)
    (fmt : text) (dry_run force : bool) (st : loop_state)
    (idx : nat) (block : span * text) : option loop_state :=
  let '(sp, code) := block in
  match image_name_of md_file fmt idx code with
  | None => None
  | Some image_name =>
      let out_path := joinpath fl images_base image_name in
      let rel_path := rel_path_of rel_base_from_md image_name in
      if dry_run then
        Some (record_image st sp out_path rel_path (EvDry out_path) (the_fs st))
      else
        match path_exists (the_fs st) out_path with
        | None => None
        | Some there =>
            if there && negb force then
              Some (record_image st sp out_path rel_path (EvSkip out_path)
                                 (the_fs st))
            else
              match render_mermaid code out_path fmt (the_fs st) with
              | (Rendered, w) =>
                  Some (record_image st sp out_path rel_path (EvOk out_path) w)
              | (RenderRaised msg, w) =>
                  Some (LoopState (images_written st) (image_paths_rel st)
                                  (events st ++ [EvErr idx (strip msg)]) w)
              | (RenderEscaped, _) => None
              end
        end
  end.

(** [for idx, block in enumerate(blocks, start=idx)]. *)
Fixpoint block_loop (md_file images_base rel_base_from_md : path)
    (fmt : text) (dry_run force : bool) (st : loop_state) (idx : nat)
    (blocks : list (span * text)) : option loop_state :=
  match blocks with
  | [] => Some st
  | b :: blocks' =>
      match block_step md_file images_base rel_base_from_md fmt dry_run
                       force st idx b with
      | Some st' =>
          block_loop md_file images_base rel_base_from_md fmt dry_run force
                     st' (S idx) blocks'
      | None => None
      end
  end.

Definition backup_events (backup : bool) : list event :=
  if backup then [EvBak] else [].

(** [process_file] of the module as an importer sees it, every name
    bound; [None] when an exception escapes it. *)
Definition process_file (md_file : path) (text_read : text)
    (out_dir : option path) (images_dir_rel : option text) (fmt mode : text)
    (dry_run backup force : bool) (w : fs) : option (outcome fs) :=
  let blocks := find_mermaid_blocks text_read in
  match blocks with
  | [] => Some (Outcome 0 0 [] None w)
  | _ :: _ =>
      match resolve_placement md_file out_dir images_dir_rel with
      | None => None
      | Some (images_base, rel_base_from_md) =>
      match block_loop md_file images_base rel_base_from_md fmt dry_run force
                       (LoopState [] [] [] w) 1 blocks with
      | None => None
      | Some st =>
          let counts := Outcome (length blocks) (length (images_written st)) in
          if text_eqb mode (str "render_replace") then
            let new_text :=
              replace_blocks_with_images text_read md_file
                (images_written st) (image_paths_rel st) in
            if negb dry_run && negb (text_eqb new_text text_read) then
              Some (counts (events st ++ backup_events backup ++ [EvMdUpdated])
                           (Some new_text) (the_fs st))
            else Some (counts (events st) None (the_fs st))
          else if text_eqb mode (str "render_keep") then
            let new_text :=
              add_images_after_blocks text_read md_file
                (images_written st) (image_paths_rel st) in
            if negb (text_eqb new_text text_read) && negb dry_run then
              Some (counts (events st ++ backup_events backup ++ [EvMdAppended])
                           (Some new_text) (the_fs st))
            else Some (counts (events st) None (the_fs st))
          else Some (counts (events st) None (the_fs st))
      end
      end
  end.

End DocumentProcessor.

(* ================================================================== *)
(** * Vocabulary of the properties *)
(* ================================================================== *)

(** The character before an offset, given the text before it. *)
Definition last_char (a : text) : option char :=
  match a with [] => None | _ => Some (last a 0%N) end.

(** The match of [r] that starts at offset [q] of [t]. *)
Definition match_in (r : regex) (t : text) (q : nat) : option rmatch :=
  match_at r q (last_char (firstn q t)) (skipn q t).

Definition span_of (m : rmatch) : span := (m_start m, m_end m).

(** Spans that lie at or after [lo], are non-empty, and each of which ends
    before the next begins. *)
Fixpoint ordered_from (lo : nat) (sps : list span) : Prop :=
  match sps with
  | [] => True
  | (s, e) :: l => lo <= s /\ s < e /\ ordered_from e l
  end.

Definition no_match_between (r : regex) (t : text) (lo hi : nat) : Prop :=
  forall q, lo <= q < hi -> match_in r t q = None.

(** [sps] are matches of [r] in [t], and [r] matches nowhere from [lo] on
    outside them. *)
Fixpoint gaps_free (r : regex) (t : text) (lo : nat) (sps : list span) : Prop :=
  match sps with
  | [] => no_match_between r t lo (S (length t))
  | (s, e) :: l =>
      no_match_between r t lo s /\ match_in r t s <> None /\ gaps_free r t e l
  end.

(** Offset [q] of [t] begins a line. *)
Definition line_start (t : text) (q : nat) : Prop :=
  q = 0 \/ nth_error t (q - 1) = Some nl.

(** [rest] begins with a fenced block: the opening fence, white space, a
    line break, the source [c], a line break and three backticks, white
    space, and then [tail]. *)
Definition block_shape (rest ws1 c ws2 tail : text) : Prop :=
  rest = open_fence ++ ws1 ++ nl :: c ++ close_fence ++ ws2 ++ tail
  /\ forallb isspace ws1 = true /\ forallb isspace ws2 = true.

(** A code point [str.encode("utf-8")] accepts. *)
Definition is_scalar (c : char) : bool :=
  ((c <? 55296) || (57343 <? c) && (c <? 1114112))%N.
Definition encodable (t : text) : bool := forallb is_scalar t.

Definition is_lower_hex (c : char) : bool :=
  ((48 <=? c) && (c <=? 57) || (97 <=? c) && (c <=? 102))%N.

(** [x] is one path component under [fl]: not empty, not [.], free of
    separators, and without drive or root. *)
Definition is_sep (fl : flavour) (c : char) : bool :=
  char_eqb c (sep fl)
  || match altsep fl with Some a => char_eqb c a | None => false end.

Definition is_component (fl : flavour) (x : text) : bool :=
  is_part x && negb (existsb (is_sep fl) x)
  && text_eqb (fst (splitroot fl x)) [] && text_eqb (snd (splitroot fl x)) x.

(** The text [replace_blocks_with_images] produces from the offset [last]
    on: the loop unrolled, without the list of parts. *)
Fixpoint replace_out (md_text : text) (md_file : path)
    (pairs : list ((span * path) * text)) (last : nat) : text :=
  match pairs with
  | [] => slice_from md_text last
  | (((start, end_), out_path), rel) :: pairs' =>
      slice md_text last start ++ image_line md_file rel
      ++ replace_out md_text md_file pairs'
           (end_ + replace_skip_extra
                     (slice md_text end_ (end_ + LOOKAHEAD_REPLACE))
                     (name out_path))
  end.

(** The test [add_images_after_blocks] makes before it appends. *)
Definition already_rendered (md_text : text) (end_ : nat) (image_name : text)
    : bool :=
  let lookahead := slice md_text end_ (end_ + LOOKAHEAD_APPEND) in
  contains image_name lookahead || contains MARKER_PREFIX lookahead.

Fixpoint append_out (md_text : text) (md_file : path)
    (pairs : list ((span * path) * text)) (last : nat) : text :=
  match pairs with
  | [] => slice_from md_text last
  | (((start, end_), out_path), rel) :: pairs' =>
      slice md_text last end_
      ++ (if already_rendered md_text end_ (name out_path) then []
          else appended_text md_file rel (name out_path))
      ++ append_out md_text md_file pairs' end_
  end.

(** One run of the locator followed by a rewrite, every located block
    paired in order with an image reference [(out_path, rel_path)]. *)
Definition locate_and_replace (md_file : path) (refs : list (path * text))
    (t : text) : text :=
  replace_blocks_with_images t md_file
    (combine (map fst (find_mermaid_blocks t)) (map fst refs)) (map snd refs).

Definition locate_and_append (md_file : path) (refs : list (path * text))
    (t : text) : text :=
  add_images_after_blocks t md_file
    (combine (map fst (find_mermaid_blocks t)) (map fst refs)) (map snd refs).

(** Where [replace_blocks_with_images] resumes copying after a block that
    ends at [end_]. *)
Definition resume_offset (md_text : text) (end_ : nat) (image_name : text)
    : nat :=
  end_ + replace_skip_extra (slice md_text end_ (end_ + LOOKAHEAD_REPLACE))
                            image_name.

(** The text at offset [q] begins a line, or does not begin with an opening
    fence. *)
Definition resumes_cleanly (t : text) (q : nat) : bool :=
  (q =? 0)
  || match nth_error t (q - 1) with
     | Some c => char_eqb c nl
     | None => false
     end
  || negb (startswith open_fence (skipn q t)).

(** What follows on the closing fence's own line, and whether the fence is
    alone on it: the spec's wording of the closing delimiter. *)
Fixpoint rest_of_line (t : text) : text :=
  match t with
  | [] => []
  | c :: t' => if char_eqb c nl then [] else c :: rest_of_line t'
  end.

Definition closing_fence_alone (md_text : text) (s : nat) (ws1 code : text)
    : bool :=
  forallb isspace
    (rest_of_line
       (skipn (s + length (open_fence ++ ws1 ++ nl :: code ++ close_fence))
              md_text)).

(** A block whose closing backticks are followed by a language tag. *)
Definition doc_tagged_close : text :=
  open_fence ++ [nl] ++ str "A" ++ [nl] ++ fence ++ str "js" ++ [nl].

(** The loop state before any block, and a state continued by what a later
    part of the loop added to it. *)
Definition fresh {fs : Type} (w : fs) : loop_state fs := LoopState [] [] [] w.

Definition extend {fs : Type} (st st' : loop_state fs) : loop_state fs :=
  LoopState (images_written st ++ images_written st')
            (image_paths_rel st ++ image_paths_rel st')
            (events st ++ events st') (the_fs st').

(** Example documents and sources. *)
Definition doc_md : path := Path posix (str "a/b/doc.md").

(** A document rewritten in append mode whose diagram has since changed from
    [A] to [B]: the marker of the old image is still there. *)
Definition doc_stale_marker : text :=
  open_fence ++ [nl] ++ str "B" ++ [nl] ++ fence ++ [nl]
  ++ str "![d diagram](d-mermaid-1-6dcd4ce23d.png)" ++ [nl]
  ++ MARKER_PREFIX ++ str "d-mermaid-1-6dcd4ce23d.png -->" ++ [nl].

Definition source_1 : text := str "graph TD; A-->B2942700;".
Definition source_2 : text := str "graph TD; A-->B2995856;".

(** Three blocks, and a renderer that fails on the second. *)
Definition doc_three_blocks : text :=
  open_fence ++ [nl] ++ str "A" ++ [nl] ++ fence ++ [nl]
  ++ open_fence ++ [nl] ++ str "B" ++ [nl] ++ fence ++ [nl]
  ++ open_fence ++ [nl] ++ str "C" ++ [nl] ++ fence ++ [nl].

Definition render_fails_on_B (code : text) (out_path : path) (fmt : text)
    (w : list path) : render_result * list path :=
  if text_eqb code (str "B") then (RenderRaised (str "mmdc failed: boom "), w)
  else (Rendered, out_path :: w).

Definition path_eqb (p q : path) : bool :=
  text_eqb (anchor p) (anchor q)
  && (length (parts p) =? length (parts q))
  && forallb (fun xy => text_eqb (fst xy) (snd xy)) (combine (parts p) (parts q)).

Definition listed (w : list path) (p : path) : option bool :=
  Some (existsb (path_eqb p) w).

Definition doc_images_dir : path := MkPath [] [str "a"; str "b"; str "doc_images"].
Definition image_A : path :=
  MkPath [] [str "a"; str "b"; str "doc_images"; str "doc-mermaid-1-6dcd4ce23d.png"].
Definition image_C : path :=
  MkPath [] [str "a"; str "b"; str "doc_images"; str "doc-mermaid-3-32096c2e0e.png"].

Definition state_after_A : loop_state (list path) :=
  LoopState [((0, 17), image_A)]
            [str "doc_images/doc-mermaid-1-6dcd4ce23d.png"]
            [EvOk image_A] [image_A].

Definition root_dir : path := MkPath [slash] [].

(** [os.path.relpath(p, start)] of a POSIX host whose current directory is
    the root, for paths without [..]: both are made absolute, the common
    leading components are dropped, and what is left of [start] is climbed
    with [..]; it does not raise. *)
Fixpoint drop_common (a b : list text) : list text * list text :=
  match a, b with
  | x :: a', y :: b' => if text_eqb x y then drop_common a' b' else (a, b)
  | _, _ => (a, b)
  end.

Definition relpath_from_root (p start : path) : option text :=
  let '(up, down) := drop_common (parts start) (parts p) in
  match repeat (str "..") (length up) ++ down with
  | [] => Some [dot]
  | rel => Some (join_with slash rel)
  end.

(** A renderer that always raises, one that always succeeds, and a file
    system in which every path exists. *)
Definition render_always_fails (code : text) (out_path : path) (fmt : text)
    (w : unit) : render_result * unit :=
  (RenderRaised (str "mmdc not found"), w).

Definition render_always_succeeds (code : text) (out_path : path) (fmt : text)
    (w : unit) : render_result * unit :=
  (Rendered, w).

Definition nothing_exists (w : unit) (p : path) : option bool := Some false.
Definition everything_exists (w : unit) (p : path) : option bool := Some true.

Definition image_doc1 : path :=
  MkPath [] [str "a"; str "b"; str "doc_images"; str "doc-mermaid-1-9960dae465.png"].

Definition doc1_replaced : text :=
  str "intro" ++ [nl]
  ++ str "![doc diagram](doc_images/doc-mermaid-1-9960dae465.png)" ++ [nl]
  ++ str "tail".

(** [rest] begins with something the block pattern matches, given whether
    the offset begins a line. *)
Definition has_block (bol : bool) (rest : text) : Prop :=
  bol = true
  /\ exists ws1 c tail,
       forallb isspace ws1 = true
       /\ rest = open_fence ++ ws1 ++ nl :: c ++ close_fence ++ tail.

(** Whether the offset after the prefix [a] begins a line, [b] telling it
    for the empty prefix. *)
Definition bol_after (b : bool) (a : text) : bool :=
  match a with
  | [] => b
  | _ => at_bol (last_char a)
  end.

(** No block starts anywhere in [u], [b] telling whether [u] itself begins a
    line. *)
Definition clean (b : bool) (u : text) : Prop :=
  forall a r, u = a ++ r -> ~ has_block (bol_after b a) r.

Definition no_newline (t : text) : bool :=
  negb (existsb (fun c => char_eqb c nl) t).

(** After every block paired with a reference, copying resumes at the start
    of a line or at text that is not an opening fence. *)
Definition resumes_cleanly_after (md_text : text)
    (pairs : list (span * path)) : bool :=
  forallb (fun p => resumes_cleanly md_text
                      (resume_offset md_text (snd (fst p)) (name (snd p))))
          pairs.

(** A block followed by an indented fence: the white space after the closing
    fence, up to the indented fence, belongs to the first block's span. *)
Definition doc_indented_fence : text :=
  open_fence ++ [nl] ++ str "A" ++ [nl] ++ fence ++ [nl]
  ++ str "  " ++ open_fence ++ [nl] ++ str "B" ++ [nl] ++ fence ++ [nl].

Definition ref_doc1 : path * text :=
  (image_doc1, str "doc_images/doc-mermaid-1-9960dae465.png").

Definition ref_A : path * text :=
  (image_A, str "doc_images/doc-mermaid-1-6dcd4ce23d.png").

(** The ends of the paired spans do not decrease, from [lo] up to [hi]. *)
Fixpoint ends_within (lo : nat) (pairs : list ((span * path) * text))
    (hi : nat) : Prop :=
  match pairs with
  | [] => lo <= hi
  | p :: ps => lo <= snd (fst (fst p)) /\ ends_within (snd (fst (fst p))) ps hi
  end.

(** No paired block is taken for rendered already. *)
Definition none_rendered (md_text : text)
    (pairs : list ((span * path) * text)) : bool :=
  forallb (fun p => negb (already_rendered md_text (snd (fst (fst p)))
                                            (name (snd (fst p)))))
          pairs.

(** Every appended image line is short enough for the marker prefix after
    it to end within the lookahead. *)
Definition short_links (md_file : path)
    (pairs : list ((span * path) * text)) : bool :=
  forallb (fun p => length (stem md_file) + length (snd p) + 33
                    <=? LOOKAHEAD_APPEND)
          pairs.

(** [pairs'] are the blocks of [pairs] at their places in the rewritten
    text: the same references, each end moved by the length [off] of what
    was inserted before it, and taken before or after the line break that
    was inserted at it. *)
Fixpoint same_blocks_after (md_file : path) (off : nat)
    (pairs pairs' : list ((span * path) * text)) : Prop :=
  match pairs, pairs' with
  | [], [] => True
  | p :: ps, p' :: ps' =>
      snd (fst p') = snd (fst p) /\ snd p' = snd p
      /\ (snd (fst (fst p')) = snd (fst (fst p)) + off
          \/ snd (fst (fst p')) = snd (fst (fst p)) + off + 1)
      /\ same_blocks_after md_file
           (off + length (appended_text md_file (snd p) (name (snd (fst p)))))
           ps ps'
  | _, _ => False
  end.

(** A one-block document and a reference whose embedded path is 400
    characters of directory name followed by the file name. *)
Definition doc_A : text :=
  open_fence ++ [nl] ++ str "A" ++ [nl] ++ fence ++ [nl].

Definition long_rel : text :=
  repeat 97%N 400 ++ str "/doc-mermaid-1-6dcd4ce23d.png".

Definition long_ref : path * text := (image_A, long_rel).

(** The block pattern read off directly: what the first match from an
    offset is, as the length matched and the source captured.  [ws_len] is
    the length of the leading white space; [close_at] finds the first line
    break followed by three backticks and takes the white space after them;
    [open_ws] is [\s*\n] with its backtracking, longest white space first. *)
Fixpoint ws_len (t : text) : nat :=
  match t with
  | x :: xs => if isspace x then S (ws_len xs) else 0
  | [] => 0
  end.

Definition close_at (rest : text) : option (nat * text) :=
  match find close_fence rest with
  | Some j => Some (j + 4 + ws_len (skipn (j + 4) rest), firstn j rest)
  | None => None
  end.

Definition longer (r : option (nat * text)) : option (nat * text) :=
  match r with
  | Some (n, c) => Some (S n, c)
  | None => None
  end.

Definition nl_then (rest : text) : option (nat * text) :=
  match rest with
  | x :: xs => if char_eqb x nl then longer (close_at xs) else None
  | [] => None
  end.

Fixpoint open_ws (rest : text) : option (nat * text) :=
  match rest with
  | x :: xs =>
      if isspace x then
        match open_ws xs with
        | Some r => longer (Some r)
        | None => nl_then rest
        end
      else nl_then rest
  | [] => nl_then rest
  end.

Definition block_at (bol : bool) (rest : text) : option (nat * text) :=
  if bol && startswith open_fence rest then
    match open_ws (skipn 10 rest) with
    | Some (n, c) => Some (10 + n, c)
    | None => None
    end
  else None.

(** What a list of matcher states reports first. *)
Definition first_proj (l : list mstate) : option (nat * option text) :=
  match l with
  | s :: _ => Some (m_pos s, m_group s)
  | [] => None
  end.

(** The state after the literal [t] has been read. *)
Fixpoint after_lit (t : text) (s : mstate) : mstate :=
  match t with
  | [] => s
  | c :: t' =>
      after_lit t' (MState (S (m_pos s)) (Some c) (tl (m_rest s)) (m_group s))
  end.

Definition at_offset (n : nat) (r : option (nat * text))
    : option (nat * option text) :=
  match r with
  | Some (k, c) => Some (n + k, Some c)
  | None => None
  end.

(** What [Group] records: the text read since the state [s0]. *)
Definition capture (s0 s' : mstate) : mstate :=
  MState (m_pos s') (m_prev s') (m_rest s')
         (Some (firstn (m_pos s' - m_pos s0) (m_rest s0))).

Definition tail2 : regex := Seq (lit close_fence) (Seq (Star Whitespace) Eps).
Definition tail1 : regex := Seq (Group (LazyStar AnyChar)) tail2.
Definition tail0 : regex := Seq (Chr (One nl)) tail1.

(** Going from the continuation [x] of a text to [x'] brings no line break
    followed by three backticks into reach of any non-empty end of [v]. *)
Definition no_new_fence (v x x' : text) : Prop :=
  forall u w, v = u ++ w -> w <> [] ->
              find close_fence (w ++ x) = None ->
              find close_fence (w ++ x') = None.

Definition has_nonspace (t : text) : bool :=
  existsb (fun c => negb (isspace c)) t.

Definition no_backtick (t : text) : bool :=
  negb (existsb (fun c => char_eqb c backtick) t).

(** The text at offset [q] begins a line, or does not begin with three
    backticks. *)
Definition resumes_bare (t : text) (q : nat) : bool :=
  (q =? 0)
  || match nth_error t (q - 1) with
     | Some c => char_eqb c nl
     | None => false
     end
  || negb (startswith fence (skipn q t)).

(** What the proof about append mode needs of the paired blocks, one after
    the other from the offset [lo]: each ends after [lo] and inside the
    text, the text after it resumes on a line of its own or not with three
    backticks, it is not taken for rendered, and the text appended for it
    has no backtick. *)
Fixpoint junctions_ok (md_text : text) (md_file : path) (lo : nat)
    (pairs : list ((span * path) * text)) : Prop :=
  match pairs with
  | [] => True
  | p :: ps =>
      lo < snd (fst (fst p)) /\ snd (fst (fst p)) <= length md_text
      /\ resumes_bare md_text (snd (fst (fst p))) = true
      /\ already_rendered md_text (snd (fst (fst p))) (name (snd (fst p)))
         = false
      /\ no_backtick (appended_text md_file (snd p) (name (snd (fst p)))) = true
      /\ junctions_ok md_text md_file (snd (fst (fst p))) ps
  end.

(** [l] is what a left-to-right scan for [r] finds in [t] from [lo] on. *)
Fixpoint scan_spec (r : regex) (t : text) (lo : nat) (l : list rmatch)
    : Prop :=
  match l with
  | [] => no_match_between r t lo (S (length t))
  | m :: l' =>
      lo <= m_start m /\ no_match_between r t lo (m_start m)
      /\ match_in r t (m_start m) = Some m
      /\ scan_spec r t (m_end m) l'
  end.

(** The blocks of a text paired in order with image references
    [(out_path, rel_path)]: the pairs the two rewrites go through. *)
Definition pairs_of (ms : list rmatch) (refs : list (path * text))
    : list ((span * path) * text) :=
  combine (combine (map span_of ms) (map fst refs)) (map snd refs).

(** The matches of the original text moved to their places in the text
    rewritten in append mode: [off] is the length of what was inserted
    before, and a match that got a reference takes in the line break
    inserted after it. *)
Fixpoint shifted (md_file : path) (off : nat) (refs : list (path * text))
    (ms : list rmatch) : list rmatch :=
  match ms with
  | [] => []
  | m :: ms' =>
      match refs with
      | r :: refs' =>
          RMatch (m_start m + off) (m_end m + off + 1) (m_group1 m)
          :: shifted md_file
               (off + length (appended_text md_file (snd r) (name (fst r))))
               refs' ms'
      | [] =>
          RMatch (m_start m + off) (m_end m + off) (m_group1 m)
          :: shifted md_file off [] ms'
      end
  end.

(** The text [p] stands before offset [lo] of [t] in place of what [t] has
    there, and an opening fence at [lo] begins a line after the one exactly
    when it does after the other. *)
Definition bol_agrees (p t : text) (lo : nat) : Prop :=
  at_bol (last_char p) && startswith open_fence (skipn lo t)
  = at_bol (last_char (firstn lo t)) && startswith open_fence (skipn lo t).

(** What append mode needs of a document and its references: no paired
    block is taken for rendered, every image line is short, after every
    paired block the text resumes on a line of its own or not with three
    backticks, and no appended text has a backtick. *)
Definition appends_once (md_file : path) (refs : list (path * text))
    (t : text) : bool :=
  let pairs := pairs_of (finditer MERMAID_BLOCK_RE t) refs in
  none_rendered t pairs && short_links md_file pairs
  && forallb (fun p => resumes_bare t (snd (fst (fst p)))) pairs
  && forallb (fun p => no_backtick
                         (appended_text md_file (snd p) (name (snd (fst p)))))
             pairs.

(** Every paired block is taken for rendered already. *)
Definition all_rendered (md_text : text)
    (pairs : list ((span * path) * text)) : bool :=
  forallb (fun p => already_rendered md_text (snd (fst (fst p)))
                                     (name (snd (fst p))))
          pairs.

(* ================================================================== *)
(** * Vocabulary of the further properties *)
(* ================================================================== *)

(** The kinds of line the loop of [process_file] prints. *)
Definition is_err (e : event) : bool :=
  match e with EvErr _ _ => true | _ => false end.

Definition is_dry (e : event) : bool :=
  match e with EvDry _ => true | _ => false end.

Definition is_skip (e : event) : bool :=
  match e with EvSkip _ => true | _ => false end.

(** [l] is [l'] with some of its elements left out. *)
Inductive subseq {A : Type} : list A -> list A -> Prop :=
| subseq_nil : subseq [] []
| subseq_keep x l l' : subseq l l' -> subseq (x :: l) (x :: l')
| subseq_drop x l l' : subseq l l' -> subseq l (x :: l').

(** The path [process_file] passes to the renderer for the block numbered
    [idx] (from 1) with source [code]. *)
Definition out_path_of (fl : flavour) (md_file images_base : path)
    (fmt : text) (idx : nat) (code : text) : option path :=
  match image_name_of md_file fmt idx code with
  | Some image_name => Some (joinpath fl images_base image_name)
  | None => None
  end.

(** Every image the blocks of [blocks], numbered from [idx], would be
    written to exists already. *)
Fixpoint all_exist (fl : flavour) (fs : Type)
    (path_exists : fs -> path -> option bool) (w : fs)
    (md_file images_base : path)
    (fmt : text) (idx : nat) (blocks : list (span * text)) : bool :=
  match blocks with
  | [] => true
  | (_, code) :: blocks' =>
      match out_path_of fl md_file images_base fmt idx code with
      | Some p => match path_exists w p with
                  | Some there => there
                  | None => false
                  end
      | None => false
      end
      && all_exist fl path_exists w md_file images_base fmt (S idx) blocks'
  end.

(* ================================================================== *)
(** * Reading and writing the document

    [md_file.read_text(encoding="utf-8")] decodes the bytes of the file
    strictly and, reading in text mode with universal newlines, turns every
    [\r\n] and every other [\r] into [\n];
    [md_file.write_text(new_text, encoding="utf-8", newline="\n")] encodes
    the text and writes line breaks as they are. *)
(* ================================================================== *)

Definition cr : char := 13%N.

Definition is_cont (b : byte) : bool := ((128 <=? b) && (b <=? 191))%N.

(** The code point of a two-, three- or four-byte sequence; [None] when the
    sequence is not well formed (a wrong continuation byte, an overlong
    form, a surrogate, a value above 0x10FFFF). *)
Definition decode2 (b0 b1 : byte) : option char :=
  (if (194 <=? b0) && (b0 <=? 223) && is_cont b1
   then Some (N.lor (N.shiftl (N.land b0 31) 6) (N.land b1 63))
   else None)%N.

Definition decode3 (b0 b1 b2 : byte) : option char :=
  (if (224 <=? b0) && (b0 <=? 239) && is_cont b1 && is_cont b2
      && negb ((b0 =? 224) && (b1 <? 160))
      && negb ((b0 =? 237) && (159 <? b1))
   then Some (N.lor (N.shiftl (N.land b0 15) 12)
                    (N.lor (N.shiftl (N.land b1 63) 6) (N.land b2 63)))
   else None)%N.

Definition decode4 (b0 b1 b2 b3 : byte) : option char :=
  (if (240 <=? b0) && (b0 <=? 244) && is_cont b1 && is_cont b2 && is_cont b3
      && negb ((b0 =? 240) && (b1 <? 144))
      && negb ((b0 =? 244) && (143 <? b1))
   then Some (N.lor (N.shiftl (N.land b0 7) 18)
                    (N.lor (N.shiftl (N.land b1 63) 12)
                           (N.lor (N.shiftl (N.land b2 63) 6)
                                  (N.land b3 63))))
   else None)%N.

Definition cons_char (c : option char) (t : option text) : option text :=
  match c, t with
  | Some c, Some t => Some (c :: t)
  | _, _ => None
  end.

(** [bytes.decode("utf-8")], strict: [None] is the [UnicodeDecodeError]. *)
Fixpoint decode_utf8 (bs : list byte) : option text :=
  match bs with
  | [] => Some []
  | b0 :: r0 =>
      if (b0 <? 128)%N then cons_char (Some b0) (decode_utf8 r0)
      else if (b0 <? 224)%N then
        match r0 with
        | b1 :: r1 => cons_char (decode2 b0 b1) (decode_utf8 r1)
        | [] => None
        end
      else if (b0 <? 240)%N then
        match r0 with
        | b1 :: b2 :: r2 => cons_char (decode3 b0 b1 b2) (decode_utf8 r2)
        | _ => None
        end
      else
        match r0 with
        | b1 :: b2 :: b3 :: r3 =>
            cons_char (decode4 b0 b1 b2 b3) (decode_utf8 r3)
        | _ => None
        end
  end.

(** Universal newlines on reading. *)
Fixpoint translate_newlines (t : text) : text :=
  match t with
  | [] => []
  | c :: t' =>
      if char_eqb c cr then
        match t' with
        | d :: t'' =>
            if char_eqb d nl then nl :: translate_newlines t''
            else nl :: translate_newlines t'
        | [] => [nl]
        end
      else c :: translate_newlines t'
  end.

Definition read_text (content : list byte) : option text :=
  match decode_utf8 content with
  | Some t => Some (translate_newlines t)
  | None => None
  end.

Definition write_text (t : text) : option (list byte) := encode_utf8 t.

Definition no_cr (t : text) : bool :=
  negb (existsb (fun c => char_eqb c cr) t).

(* ================================================================== *)
(** * [pathlib]: suffixes *)
(* ================================================================== *)

(** [p.suffix]: the name from its last dot on, when that dot is neither the
    first nor the last character of the name. *)
Definition suffix (p : path) : text :=
  let n := name p in
  match rfind_char_from dot n 0 None with
  | Some i => if (0 <? i) && (S i <? length n) then skipn i n else []
  | None => []
  end.

(** [p.with_suffix(s)]; [None] is the [ValueError] raised for a suffix with
    a separator, a suffix that does not start with a dot or is only a dot,
    and a path without a name. *)
Definition with_suffix (fl : flavour) (p : path) (s : text) : option path :=
  if existsb (is_sep fl) s then None
  else if negb (text_eqb s []) && negb (startswith [dot] s)
          || text_eqb s [dot] then None
  else
    let n := name p in
    if text_eqb n [] then None
    else
      let old_suffix := suffix p in
      let n' := if text_eqb old_suffix [] then n ++ s
                else firstn (length n - length old_suffix) n ++ s in
      Some (MkPath (anchor p) (removelast (parts p) ++ [n'])).

(* ================================================================== *)
(** * The Gateway: [get_mmdc_cmd], [ensure_mmdc_available],
      [render_mermaid]

    The host is a parameter: the environment, [os.path.exists],
    [shutil.which], [platform.system()], [os.path.join], and the calls that
    touch the file system or start a process, each of which returns or
    raises [OSError]. *)
(* ================================================================== *)

(** [if x:] for an optional string: neither [None] nor empty. *)
Definition truthy (o : option text) : bool :=
  match o with
  | Some (_ :: _) => true
  | _ => false
  end.

(** What [subprocess.run] did: the process exited, or the call raised
    [OSError], or it timed out. *)
Record completed := Completed {
  returncode : Z;
  proc_stdout : text;
  proc_stderr : text
}.

Inductive run_outcome :=
| Exited (p : completed)
| RunOSError (msg : text)
| RunTimeout.

Section Gateway.

Variable environ_get : text -> option text.
Variable os_path_exists : text -> bool.
Variable shutil_which : text -> option text.
Variable platform_system : text.
Variable os_path_join : text -> list text -> text.

Definition which (cmd : text) : option text := shutil_which cmd.

(** Lines 49-53: the candidates found on [PATH]. *)
Definition path_candidates : list text :=
  flat_map (fun name => match which name with
                        | Some exe => if truthy (Some exe) then [exe] else []
                        | None => []
                        end)
           [str "mmdc"; str "mmdc.cmd"].

(** Lines 56-61: the candidate under [APPDATA], on Windows. *)
Definition appdata_candidates : list text :=
  if text_eqb platform_system (str "Windows") then
    match environ_get (str "APPDATA") with
    | Some appdata =>
        if truthy (Some appdata) then
          let cand := os_path_join appdata [str "npm"; str "mmdc.cmd"] in
          if os_path_exists cand then [cand] else []
        else []
    | None => []
    end
  else [].

(** [MERMAID_CLI] is set, not empty, and names something that exists. *)
Definition env_cli_usable : bool :=
  match environ_get (str "MERMAID_CLI") with
  | Some cli => truthy (Some cli) && os_path_exists cli
  | None => false
  end.

Definition get_mmdc_cmd : option (list text) :=
  let env_cli := environ_get (str "MERMAID_CLI") in
  match env_cli with
  | Some cli =>
      if truthy env_cli && os_path_exists cli then Some [cli]
      else match path_candidates ++ appdata_candidates with
           | [] => None
           | c :: _ => Some [c]
           end
  | None =>
      match path_candidates ++ appdata_candidates with
      | [] => None
      | c :: _ => Some [c]
      end
  end.

Variable subprocess_run : list text -> run_outcome.

Definition ensure_mmdc_available : bool :=
  match get_mmdc_cmd with
  | None => false
  | Some cmd =>
      match subprocess_run (cmd ++ [str "-v"]) with
      | Exited _ => true
      | RunOSError _ => false
      | RunTimeout => false
      end
  end.

End Gateway.

(** [s.strip() or t.strip()]. *)
Definition strip_or (s t : text) : text :=
  match strip s with
  | [] => strip t
  | x => x
  end.

(** What [subprocess.run(cmd, capture_output=True, text=True)] did at line
    130: the process ran to its end, or the call raised [OSError], or it
    raised [UnicodeDecodeError] on output that does not decode. *)
Inductive mmdc_run :=
| MmdcExited (proc : completed)
| MmdcOSError (msg : text)
| MmdcUnicodeDecodeError.

(** The file system calls of [render_mermaid], each with the state it
    leaves, also when it raises; a message stands for an [OSError]. *)
Record render_host (fs : Type) := RenderHost {
  mkdir_parents : path -> fs -> option text * fs;
  make_tempdir : fs -> (text + path) * fs;
  write_source : path -> text -> fs -> option text * fs;
  find_mmdc : fs -> option (list text);
  run_mmdc : list text -> fs -> mmdc_run * fs;
  remove_tempdir : path -> fs -> fs
}.

Definition NO_MMDC : text :=
  str "mmdc not found; ensure Mermaid CLI is installed and on PATH or set MERMAID_CLI".

Section Render.

Variable fl : flavour.
Variable fs : Type.
Variable host : render_host fs.

(** Lines 126-127: the path handed to [mmdc] after [-o]; [None] is the
    [ValueError] of [with_suffix]. *)
Definition render_target (out_path : path) (fmt : text) : option path :=
  if text_eqb (lower fmt) (str "svg") then with_suffix fl out_path (str ".svg")
  else Some out_path.

(** Line 129. *)
Definition mmdc_command (base_cmd : list text) (src out_path : path)
    (background : text) : list text :=
  base_cmd ++ [str "-i"; path_str fl src; str "-o"; path_str fl out_path;
               str "-b"; background].

Inductive render_exit :=
| RenderReturned
| RenderRuntimeError (msg : text)
| RenderOSError (msg : text)
| RenderValueError
| RenderUnicodeDecodeError.

(** The body of the [with] statement, lines 117-132, in the temporary
    directory [td].  Writing the source raises [UnicodeEncodeError], a
    [ValueError], when the source cannot be encoded. *)
Definition render_in_tempdir (code : text) (out_path : path)
    (fmt background : text) (td : path) (w : fs) : render_exit * fs :=
  let src := joinpath fl td (str "diagram.mmd") in
  if negb (encodable code) then (RenderValueError, w)
  else
    match write_source host src code w with
    | (Some msg, w1) => (RenderOSError msg, w1)
    | (None, w1) =>
        match find_mmdc host w1 with
        | None => (RenderRuntimeError NO_MMDC, w1)
        | Some base_cmd =>
            match render_target out_path fmt with
            | None => (RenderValueError, w1)
            | Some target =>
                match run_mmdc host
                        (mmdc_command base_cmd src target background) w1 with
                | (MmdcOSError msg, w2) => (RenderOSError msg, w2)
                | (MmdcUnicodeDecodeError, w2) =>
                    (RenderUnicodeDecodeError, w2)
                | (MmdcExited proc, w2) =>
                    match returncode proc with
                    | Z0 => (RenderReturned, w2)
                    | _ =>
                        (RenderRuntimeError
                           (str "mmdc failed: "
                            ++ strip_or (proc_stderr proc)
                                        (proc_stdout proc)),
                         w2)
                    end
                end
            end
        end
    end.

(** [render_mermaid]: the output directory is made first, the temporary
    directory is removed however the body ends. *)
Definition render_mermaid_on (code : text) (out_path : path)
    (fmt background : text) (w : fs) : render_exit * fs :=
  match mkdir_parents host (parent out_path) w with
  | (Some msg, w0) => (RenderOSError msg, w0)
  | (None, w0) =>
      match make_tempdir host w0 with
      | (inl msg, w1) => (RenderOSError msg, w1)
      | (inr td, w1) =>
          let '(r, w2) := render_in_tempdir code out_path fmt background
                                            td w1 in
          (r, remove_tempdir host td w2)
      end
  end.

(** What [process_file] sees of a call [render_mermaid(code, out_path,
    fmt=fmt)]: line 278 catches [RuntimeError] and [OSError] and prints
    [str(e)]; a [ValueError], such as [UnicodeDecodeError], escapes. *)
Definition seen_by_process_file (r : render_exit) : render_result :=
  match r with
  | RenderReturned => Rendered
  | RenderRuntimeError msg => RenderRaised msg
  | RenderOSError msg => RenderRaised msg
  | RenderValueError => RenderEscaped
  | RenderUnicodeDecodeError => RenderEscaped
  end.

Definition render_mermaid_of (code : text) (out_path : path) (fmt : text)
    (w : fs) : render_result * fs :=
  let '(r, w') := render_mermaid_on code out_path fmt (str "transparent") w in
  (seen_by_process_file r, w').

End Render.

(** A host on which [mmdc] runs and writes its output, except for the
    second image of a document: there its output does not decode. *)
Definition host_undecodable_on_2 : render_host (list path) :=
  RenderHost
    (fun dir w => (None, w))
    (fun w => (inr (MkPath [slash] [str "tmp"; str "td"]), w))
    (fun src code w => (None, w))
    (fun w => Some [str "mmdc"])
    (fun cmd w =>
       if existsb (contains (str "-mermaid-2-")) cmd
       then (MmdcUnicodeDecodeError, w)
       else (MmdcExited (Completed Z0 [] []), Path posix (nth 4 cmd []) :: w))
    (fun td w => w).

(* ================================================================== *)
(** * [_create_backup] *)
(* ================================================================== *)

(** Line 386: [md_file.with_suffix(md_file.suffix + f".bak-{ts}")], [ts]
    being the time stamp [strftime] returned. *)
Definition backup_path (fl : flavour) (md_file : path) (ts : text)
    : option path :=
  with_suffix fl md_file (suffix md_file ++ str ".bak-" ++ ts).

Inductive backup_exit :=
| BackupPrinted (bak : path)        (* [[BAK] {bak}] *)
| BackupFailed (msg : text)         (* [[BAK] failed for ...], on stderr *)
| BackupValueError.                 (* [with_suffix] raised *)

(** [copy2] returns, or raises [OSError] or [shutil.Error] with a message,
    both of which [_create_backup] catches; either way it leaves a state,
    which after a failure may hold a part of the copy. *)
Definition create_backup (fl : flavour) (fs : Type)
    (copy2 : path -> path -> fs -> option text * fs) (md_file : path)
    (ts : text) (w : fs) : backup_exit * fs :=
  match backup_path fl md_file ts with
  | None => (BackupValueError, w)
  | Some bak =>
      match copy2 md_file bak w with
      | (None, w') => (BackupPrinted bak, w')
      | (Some msg, w') => (BackupFailed msg, w')
      end
  end.

(* ================================================================== *)
(** * [main]: the operation mode *)
(* ================================================================== *)

(** The namespace [parse_args] returns. *)
Record cli_args := CliArgs {
  a_input : text;
  a_recursive : bool;
  a_out_dir : option text;
  a_images_dir : option text;
  a_format : text;
  a_render : bool;
  a_export : bool;
  a_keep_source : bool;
  a_backup : bool;
  a_force : bool;
  a_replace : bool;
  a_add : bool;
  a_dry_run : bool
}.

(** Lines 350-361: [op_mode]; [None] is the branch that prints the error
    about [--replace] and [--add] and returns 2. *)
Definition op_mode_of (a : cli_args) : option text :=
  if a_render a then
    Some (if a_keep_source a then str "render_keep" else str "render_replace")
  else if a_export a then Some (str "export_only")
  else if a_replace a || a_add a then
    if a_replace a && a_add a then None
    else Some (if a_add a then str "render_keep" else str "render_replace")
  else Some (str "export_only").

(* ================================================================== *)
(** * [iter_markdown_files]

    The file system below the given path is a tree of directories and
    files; the entries of a directory are listed in the order [scandir]
    gives them, their names distinct.  There are no symbolic links and no
    directory refuses to be read. *)
(* ================================================================== *)

Inductive node :=
| File
| Dir (entries : list entry)
with entry :=
| Entry (entry_name : text) (entry_node : node).

Definition name_of (e : entry) : text :=
  match e with Entry nm _ => nm end.

Definition node_of (e : entry) : node :=
  match e with Entry _ n => n end.

Definition is_file (n : node) : bool :=
  match n with File => true | Dir _ => false end.

(** [parent_path._make_child_relpath(name)]. *)
Definition child_path (p : path) (nm : text) : path :=
  MkPath (anchor p) (parts p ++ [nm]).

Definition endswith (sfx t : text) : bool :=
  (length sfx <=? length t) && text_eqb (skipn (length t - length sfx) t) sfx.

(** [fnmatch] of a name against [*.md]: the name ends with [.md], whatever
    the case of the letters where the host's paths ignore case. *)
Definition matches_md (case_sensitive : bool) (nm : text) : bool :=
  endswith (str ".md") (if case_sensitive then nm else lower nm).

(** The entries of one directory that [*.md] selects. *)
Definition glob_here (case_sensitive : bool) (p : path)
    (entries : list entry) : list (path * node) :=
  map (fun e => (child_path p (name_of e), node_of e))
      (filter (fun e => matches_md case_sensitive (name_of e)) entries).

(** The directories [**] visits from [p]: [p] itself, then what lies below
    each of its subdirectories, in the order of the entries. *)
Fixpoint walk (p : path) (n : node) : list (path * list entry) :=
  match n with
  | File => []
  | Dir entries =>
      (p, entries)
      :: (fix each (es : list entry) :=
            match es with
            | [] => []
            | Entry nm child :: es' => walk (child_path p nm) child ++ each es'
            end) entries
  end.

(** [path.glob("**/*.md")] and [path.glob("*.md")] on a directory. *)
Definition path_glob (case_sensitive recursive : bool) (p : path)
    (entries : list entry) : list (path * node) :=
  if recursive then
    flat_map (fun d => glob_here case_sensitive (fst d) (snd d))
             (walk p (Dir entries))
  else glob_here case_sensitive p entries.

(** [str.lower] as far as the comparison with [.md] and [.markdown] can
    tell: besides the ASCII capitals only the Kelvin sign lowers to one of
    their letters. *)
Definition lower_suffix_char (c : char) : char :=
  if (c =? 8490)%N then 107%N else lower_char c.

Definition has_markdown_suffix (p : path) : bool :=
  let s := map lower_suffix_char (suffix p) in
  text_eqb s (str ".md") || text_eqb s (str ".markdown").

(** [iter_markdown_files(path, recursive)], [n] being what is at [path]. *)
Definition iter_markdown_files (case_sensitive : bool) (p : path)
    (n : option node) (recursive : bool) : list path :=
  match n with
  | Some File => if has_markdown_suffix p then [p] else []
  | Some (Dir entries) =>
      map fst (filter (fun r => is_file (snd r))
                      (path_glob case_sensitive recursive p entries))
  | None => []
  end.

(** [n'] is what is found below [n] by the names [names]. *)
Inductive reaches : node -> list text -> node -> Prop :=
| reaches_here n : reaches n [] n
| reaches_below entries nm child names n' :
    In (Entry nm child) entries -> reaches child names n' ->
    reaches (Dir entries) (nm :: names) n'.

(* ================================================================== *)
(** * The module, statement by statement

    The functions of the file are bound as the module runs from top to
    bottom; [main] is called from the statement guarded by
    [__name__ == "__main__"]. *)
(* ================================================================== *)

Inductive top_stmt :=
| TopImport
| TopAssign (nm : string)
| TopDef (nm : string)
| TopRunMain.

Definition module_body : list top_stmt :=
  [TopImport;
   TopAssign "MERMAID_BLOCK_RE"; TopAssign "MARKER_PREFIX";
   TopAssign "DEFAULT_OUT_DIR"; TopAssign "LOOKAHEAD_REPLACE";
   TopAssign "LOOKAHEAD_APPEND";
   TopDef "which"; TopDef "get_mmdc_cmd"; TopDef "ensure_mmdc_available";
   TopDef "hash_text"; TopDef "find_mermaid_blocks"; TopDef "render_mermaid";
   TopDef "replace_blocks_with_images"; TopDef "add_images_after_blocks";
   TopDef "process_file"; TopDef "iter_markdown_files"; TopDef "main";
   TopRunMain;
   TopDef "_create_backup"]%string.

(** The names bound when the guarded statement calls [main]; [None] when
    the module is imported, where the statement does nothing. *)
Fixpoint bound_at_main (as_script : bool) (body : list top_stmt)
    (bound : list string) : option (list string) :=
  match body with
  | [] => None
  | TopImport :: body' => bound_at_main as_script body' bound
  | TopAssign nm :: body' => bound_at_main as_script body' (nm :: bound)
  | TopDef nm :: body' => bound_at_main as_script body' (nm :: bound)
  | TopRunMain :: body' =>
      if as_script then Some bound else bound_at_main as_script body' bound
  end.

(** The names bound once the whole module has run. *)
Fixpoint bound_at_end (body : list top_stmt) (bound : list string)
    : list string :=
  match body with
  | [] => bound
  | TopAssign nm :: body' | TopDef nm :: body' => bound_at_end body' (nm :: bound)
  | _ :: body' => bound_at_end body' bound
  end.

(** Whether [nm] is bound when [process_file] runs: under [main] called by
    the script itself, or called by an importer after the import. *)
Definition is_bound (as_script : bool) (nm : string) : bool :=
  match bound_at_main as_script module_body [] with
  | Some bound => existsb (String.eqb nm) bound
  | None => existsb (String.eqb nm) (bound_at_end module_body [])
  end.

(** How a call of [process_file] ends: it returns, or the write-back raises
    [NameError], or an exception escapes before the write-back (from the
    placement, [hash_text], [exists] or the renderer). *)
Inductive py_exit (A : Type) :=
| Returned (a : A)
| RaisedNameError (nm : string) (printed_before : list event)
| RaisedBeforeWrite.

Arguments Returned {A} a.
Arguments RaisedNameError {A} nm printed_before.
Arguments RaisedBeforeWrite {A}.

Section ProcessFileIn.

Variable fl : flavour.
Variable fs : Type.
Variable path_exists : fs -> path -> option bool.
Variable render_mermaid : text -> path -> text -> fs -> render_result * fs.
Variable resolve : path -> option path.
Variable cwd : option path.
Variable relpath : path -> path -> option text.

(** Lines 284-288 and 291-295: the write-back with its call of the global
    [_create_backup], looked up when the call is made. *)
Definition write_back_in (create_backup_bound : bool) (backup : bool)
    (counts : list event -> option text -> fs -> outcome fs)
    (evs : list event) (md_line : event) (new_text : text) (w : fs)
    : py_exit (outcome fs) :=
  if backup then
    if create_backup_bound
    then Returned (counts (evs ++ [EvBak] ++ [md_line]) (Some new_text) w)
    else RaisedNameError "_create_backup" evs
  else Returned (counts (evs ++ [md_line]) (Some new_text) w).

(** [process_file] with the exceptions that escape it. *)
Definition process_file_in (create_backup_bound : bool) (md_file : path)
    (text_read : text) (out_dir : option path)
    (images_dir_rel : option text) (fmt mode : text)
    (dry_run backup force : bool) (w : fs) : py_exit (outcome fs) :=
  let blocks := find_mermaid_blocks text_read in
  match blocks with
  | [] => Returned (Outcome 0 0 [] None w)
  | _ :: _ =>
      match resolve_placement fl resolve cwd relpath md_file out_dir
                              images_dir_rel with
      | None => RaisedBeforeWrite
      | Some (images_base, rel_base_from_md) =>
      match block_loop fl path_exists render_mermaid md_file images_base
                       rel_base_from_md fmt dry_run force
                       (LoopState [] [] [] w) 1 blocks with
      | None => RaisedBeforeWrite
      | Some st =>
          let counts := Outcome (length blocks) (length (images_written st)) in
          if text_eqb mode (str "render_replace") then
            let new_text :=
              replace_blocks_with_images text_read md_file
                (images_written st) (image_paths_rel st) in
            if negb dry_run && negb (text_eqb new_text text_read) then
              write_back_in create_backup_bound backup counts (events st)
                            EvMdUpdated new_text (the_fs st)
            else Returned (counts (events st) None (the_fs st))
          else if text_eqb mode (str "render_keep") then
            let new_text :=
              add_images_after_blocks text_read md_file
                (images_written st) (image_paths_rel st) in
            if negb (text_eqb new_text text_read) && negb dry_run then
              write_back_in create_backup_bound backup counts (events st)
                            EvMdAppended new_text (the_fs st)
            else Returned (counts (events st) None (the_fs st))
          else Returned (counts (events st) None (the_fs st))
      end
      end
  end.

End ProcessFileIn.

(* ================================================================== *)
(** * [main]

    [process_file] with the file it reads and writes, and the loop of
    [main] over the files [iter_markdown_files] yields. *)
(* ================================================================== *)

(** The exceptions that escape [process_file] and so [main]: the
    [NameError] of the write-back, what [read_text] and [write_text] raise,
    the [ValueError] of [with_suffix], and what escapes before the
    write-back ([RaisedBeforeWrite]). *)
Inductive raised :=
| NameError (nm : string)
| UnicodeDecodeError
| UnicodeEncodeError
| ValueError
| OSError
| BeforeWrite.

Inductive may_raise (A : Type) :=
| Done (a : A)
| Raise (e : raised).

Arguments Done {A} a.
Arguments Raise {A} e.

(** What [main] prints: its two error lines (on [stderr]), the lines of
    [process_file] for one file, and the last line with the two totals. *)
Inductive main_line :=
| MainModeError
| MainMmdcMissing
| MainFile (md : path) (evs : list event)
| MainDone (total_files total_blocks : nat).

Section Main.

Variable fl : flavour.
Variable fs : Type.
Variable path_exists : fs -> path -> option bool.
Variable render_mermaid : text -> path -> text -> fs -> render_result * fs.
Variable resolve : path -> option path.
Variable cwd : option path.
Variable relpath : path -> path -> option text.

(** The bytes of a file, [None] when opening or reading it raises
    [OSError]; writing a file, [None] when that raises [OSError]. *)
Variable read_bytes : fs -> path -> option (list byte).
Variable write_bytes : path -> list byte -> fs -> option fs.
Variable copy2 : path -> path -> fs -> option text * fs.
(** [datetime.now().strftime("%Y%m%d-%H%M%S")]. *)
Variable strftime_now : fs -> text.
(** Whether the name [_create_backup] is bound when [main] runs. *)
Variable create_backup_bound : bool.

(** Lines 284-288 and 291-295 with their effects: the backup, then the
    document, then the line printed (part of [printed o] already). *)
Definition write_document (md_file : path) (backup : bool)
    (o : outcome fs) (new_text : text) : may_raise (outcome fs) :=
  let after_backup :=
    if backup
    then match create_backup fl copy2 md_file (strftime_now (fs_after o))
                              (fs_after o) with
         | (BackupValueError, _) => None
         | (_, w1) => Some w1
         end
    else Some (fs_after o) in
  match after_backup with
  | None => Raise ValueError
  | Some w1 =>
      match write_text new_text with
      | None => Raise UnicodeEncodeError
      | Some content =>
          match write_bytes md_file content w1 with
          | None => Raise OSError
          | Some w2 =>
              Done (Outcome (blocks_found o) (images_count o) (printed o)
                            (written_back o) w2)
          end
      end
  end.

(** [process_file(md_file, ...)] from the file system: line 233 reads the
    document, the rest is [process_file_in], the write-back applied. *)
Definition process_file_io (md_file : path) (out_dir : option path)
    (images_dir_rel : option text) (fmt mode : text)
    (dry_run backup force : bool) (w : fs) : may_raise (outcome fs) :=
  match read_bytes w md_file with
  | None => Raise OSError
  | Some content =>
      match read_text content with
      | None => Raise UnicodeDecodeError
      | Some text_read =>
          match process_file_in fl path_exists render_mermaid resolve cwd
                  relpath create_backup_bound md_file text_read out_dir
                  images_dir_rel fmt mode dry_run backup force w with
          | RaisedNameError nm _ => Raise (NameError nm)
          | RaisedBeforeWrite => Raise BeforeWrite
          | Returned o =>
              match written_back o with
              | None => Done o
              | Some new_text => write_document md_file backup o new_text
              end
          end
      end
  end.

(** Lines 367-373: the loop over the files, [files] being the paths the
    generator yields in the course of it. *)
Fixpoint main_loop (out_dir : option path) (images_dir_rel : option text)
    (fmt mode : text) (dry_run backup force : bool) (files : list path)
    (total_blocks total_files : nat) (lines : list main_line) (w : fs)
    : may_raise (nat * nat * list main_line * fs) :=
  match files with
  | [] => Done (total_blocks, total_files, lines, w)
  | md :: rest =>
      match process_file_io md out_dir images_dir_rel fmt mode dry_run
                            backup force w with
      | Raise e => Raise e
      | Done o =>
          let b := blocks_found o in
          let lines' := lines ++ [MainFile md (printed o)] in
          if 0 <? b
          then main_loop out_dir images_dir_rel fmt mode dry_run backup
                         force rest (total_blocks + b) (total_files + 1)
                         lines' (fs_after o)
          else main_loop out_dir images_dir_rel fmt mode dry_run backup
                         force rest total_blocks total_files lines'
                         (fs_after o)
      end
  end.

(** The calls of [process_file] the loop makes: the outcome of each, the
    next call starting in the state the one before left. *)
Inductive processed (out_dir : option path) (images_dir_rel : option text)
    (fmt mode : text) (dry_run backup force : bool)
    : list path -> fs -> list (outcome fs) -> fs -> Prop :=
| processed_nil (w : fs) :
    processed out_dir images_dir_rel fmt mode dry_run backup force [] w [] w
| processed_cons (md : path) (rest : list path) (w : fs) (o : outcome fs)
    (outs : list (outcome fs)) (w' : fs) :
    process_file_io md out_dir images_dir_rel fmt mode dry_run backup force w
    = Done o ->
    processed out_dir images_dir_rel fmt mode dry_run backup force rest
              (fs_after o) outs w' ->
    processed out_dir images_dir_rel fmt mode dry_run backup force
              (md :: rest) w (o :: outs) w'.

Variable environ_get : text -> option text.
Variable os_path_exists : text -> bool.
Variable shutil_which : text -> option text.
Variable platform_system : text.
Variable os_path_join : text -> list text -> text.
Variable subprocess_run : list text -> run_outcome.

(** Line 347: [Path(args.out_dir).resolve() if args.out_dir else None];
    [resolve] can raise. *)
Definition main_out_dir (a : cli_args) : may_raise (option path) :=
  if truthy (a_out_dir a) then
    match a_out_dir a with
    | Some s =>
        match resolve (Path fl s) with
        | Some d => Done (Some d)
        | None => Raise OSError
        end
    | None => Done None
    end
  else Done None.

(** [main] after [parse_args]: the exit code, the lines printed and the
    state left. *)
Definition main_on (a : cli_args) (files : list path) (w : fs)
    : may_raise (N * list main_line * fs) :=
  match main_out_dir a with
  | Raise e => Raise e
  | Done out_dir =>
  let images_dir_rel := a_images_dir a in
  match op_mode_of a with
  | None => Done (2%N, [MainModeError], w)
  | Some op_mode =>
      if negb (a_dry_run a)
         && negb (ensure_mmdc_available environ_get os_path_exists
                    shutil_which platform_system os_path_join
                    subprocess_run)
      then Done (2%N, [MainMmdcMissing], w)
      else
        match main_loop out_dir images_dir_rel (a_format a) op_mode
                        (a_dry_run a) (a_backup a) (a_force a) files 0 0 []
                        w with
        | Raise e => Raise e
        | Done (total_blocks, total_files, lines, w') =>
            Done (0%N, lines ++ [MainDone total_files total_blocks], w')
        end
  end
  end.

End Main.

(** A run of [main] on one document: the bytes of [doc_three_blocks] under
    [doc_md], every write accepted. *)
Definition doc_bytes : list byte :=
  match encode_utf8 doc_three_blocks with
  | Some content => content
  | None => []
  end.

Definition one_document (w : list path) (p : path) : option (list byte) :=
  if path_eqb p doc_md then Some doc_bytes else None.

Definition accept_write (p : path) (content : list byte) (w : list path)
    : option (list path) := Some w.

Definition copy_made (src dst : path) (w : list path)
    : option text * list path :=
  (None, dst :: w).

Definition args_render_keep (dry_run backup : bool) : cli_args :=
  CliArgs (str "a/b/doc.md") false None (Some (str "per-file")) (str "png")
          true false true backup false false false dry_run.

(** The same run with the images under the default directory of the
    working directory ([--images-dir] not given). *)
Definition args_global (dry_run : bool) : cli_args :=
  CliArgs (str "a/b/doc.md") false None None (str "png")
          true false true false false false false dry_run.

(** The lines [main] prints for a file of a dry run. *)
Definition is_dry_line (l : main_line) : bool :=
  match l with
  | MainFile _ evs => forallb is_dry evs
  | _ => false
  end.

(** The number of blocks of the document [doc] gives for a file. *)
Definition blocks_in (doc : path -> text) (md : path) : nat :=
  length (find_mermaid_blocks (doc md)).

(* ================================================================== *)
(** * Replacing after appending *)
(* ================================================================== *)

Definition space : char := 32%N.

(** What replacing needs of a paired block to undo what appending added
    after it: in the original text nothing is skipped after the block, the
    appended text ends within the lookahead taken one character into it,
    and image line, marker prefix and file name hold no [-->]. *)
Definition migrates_pair (md_file : path) (t : text)
    (p : (span * path) * text) : bool :=
  let end_ := snd (fst (fst p)) in
  let image_name := name (snd (fst p)) in
  (replace_skip_extra (slice t end_ (end_ + LOOKAHEAD_REPLACE)) image_name
   =? 0)
  && (length (appended_text md_file (snd p) image_name)
      <=? LOOKAHEAD_REPLACE + 1)
  && negb (contains (str "-->")
             (image_line md_file (snd p) ++ MARKER_PREFIX ++ image_name)).

Definition migrates (md_file : path) (refs : list (path * text)) (t : text)
    : bool :=
  forallb (migrates_pair md_file t)
          (pairs_of (finditer MERMAID_BLOCK_RE t) refs).

Unset Implicit Arguments.

(* ================================================================== *)
(** * Lemmas: text *)
(* ================================================================== *)




Lemma char_eqb_eq a b : char_eqb a b = true <-> a = b.
Proof. apply N.eqb_eq. Qed.

Lemma char_eqb_refl a : char_eqb a a = true.
Proof. apply N.eqb_refl. Qed.

Lemma text_eqb_eq a b : text_eqb a b = true <-> a = b.
Proof.
  revert b; induction a as [|x a IH]; intros [|y b]; simpl;
    try (split; [discriminate | discriminate]); try tauto.
  rewrite andb_true_iff, char_eqb_eq, IH.
  split; [intros [-> ->]; reflexivity | intros H; inversion H; auto].
Qed.

Lemma text_eqb_refl a : text_eqb a a = true.
Proof. apply text_eqb_eq; reflexivity. Qed.

Lemma startswith_iff p t : startswith p t = true <-> exists r, t = p ++ r.
Proof.
  revert t; induction p as [|x p IH]; intros t; simpl.
  - split; [exists t; reflexivity | reflexivity].
  - destruct t as [|y t].
    + split; [discriminate | intros [r H]; discriminate].
    + rewrite andb_true_iff, char_eqb_eq, IH. split.
      * intros [-> [r ->]]; exists r; reflexivity.
      * intros [r H]; inversion H; subst; split; [reflexivity | exists r; reflexivity].
Qed.

Lemma startswith_app p r : startswith p (p ++ r) = true.
Proof. apply startswith_iff; exists r; reflexivity. Qed.

(* ================================================================== *)
(** * Lemmas: the matcher *)
(* ================================================================== *)

Lemma in_run_seq a b s s' :
  In s' (run (Seq a b) s) <-> exists s1, In s1 (run a s) /\ In s' (run b s1).
Proof. simpl; apply in_flat_map. Qed.

Lemma in_run_chr cs s s' :
  In s' (run (Chr cs) s) <->
  exists x, cset_mem cs x = true /\ m_rest s = x :: m_rest s'
            /\ m_pos s' = S (m_pos s) /\ m_prev s' = Some x
            /\ m_group s' = m_group s.
Proof.
  simpl; destruct s as [p pv rest g]; simpl; split.
  - destruct rest as [|x xs]; [intros []|].
    destruct (cset_mem cs x) eqn:E; [|intros []].
    intros [<-|[]]; exists x; simpl; auto.
  - intros (x & Hm & -> & Hp & Hv & Hg); rewrite Hm.
    destruct s' as [p' pv' rest' g']; simpl in *; subst; left; reflexivity.
Qed.

Lemma in_run_lit t s s' :
  In s' (run (lit t) s) <->
  m_rest s = t ++ m_rest s' /\ m_pos s' = m_pos s + length t
  /\ m_group s' = m_group s
  /\ match t with [] => s' = s | _ => m_prev s' = Some (last t 0%N) end.
Proof.
  revert s; induction t as [|c t IH]; intros s.
  - simpl; split.
    + intros [<-|[]]; rewrite Nat.add_0_r; auto.
    + intros (_ & _ & _ & ->); left; reflexivity.
  - change (lit (c :: t)) with (Seq (Chr (One c)) (lit t)).
    rewrite in_run_seq; split.
    + intros (s1 & H1 & H2). apply in_run_chr in H1. apply IH in H2.
      destruct H1 as (x & Hx & Hr & Hp & Hv & Hg).
      destruct H2 as (Hr2 & Hp2 & Hg2 & Hl).
      simpl in Hx; apply char_eqb_eq in Hx; subst x.
      rewrite Hr, Hr2, Hp2, Hp, Hg2, Hg. simpl.
      repeat split; try lia.
      destruct t; [subst s1; assumption | assumption].
    + intros (Hr & Hp & Hg & Hl).
      exists (MState (S (m_pos s)) (Some c) (t ++ m_rest s') (m_group s)).
      split.
      * apply in_run_chr; exists c; simpl; rewrite char_eqb_refl; auto.
      * apply IH; simpl. repeat split; auto; try (simpl in Hp; lia).
        destruct t; [|exact Hl].
        destruct s'; simpl in *; subst; f_equal; lia.
Qed.

Lemma in_star cs pos prev rest g s' :
  In s' (star cs pos prev rest g) <->
  exists w, forallb (cset_mem cs) w = true /\ rest = w ++ m_rest s'
            /\ m_pos s' = pos + length w /\ m_group s' = g
            /\ m_prev s' = match w with [] => prev | _ => Some (last w 0%N) end.
Proof.
  revert pos prev; induction rest as [|x xs IH]; intros pos prev; simpl.
  - split.
    + intros [<-|[]]; exists []; simpl; repeat split; auto.
    + intros (w & _ & Hw & Hp & Hg & Hv).
      destruct w; [|discriminate]. simpl in *.
      destruct s'; simpl in *; subst; left; f_equal; lia.
  - destruct (cset_mem cs x) eqn:E.
    + rewrite in_app_iff, IH; simpl; split.
      * intros [(w & Hf & Hw & Hp & Hg & Hv)|[<-|[]]].
        -- exists (x :: w); simpl; rewrite E, Hf, Hw; repeat split; auto; try lia.
           rewrite Hv; destruct w; reflexivity.
        -- exists []; simpl; repeat split; auto.
      * intros (w & Hf & Hw & Hp & Hg & Hv). destruct w as [|y w].
        -- right; left. destruct s'; simpl in *; subst; f_equal; lia.
        -- left; simpl in *; inversion Hw; subst y.
           apply andb_true_iff in Hf; destruct Hf as [_ Hf].
           exists w; repeat split; auto; try lia.
           rewrite Hv; destruct w; reflexivity.
    + simpl; split.
      * intros [<-|[]]; exists []; simpl; repeat split; auto.
      * intros (w & Hf & Hw & Hp & Hg & Hv). destruct w as [|y w].
        -- left. destruct s'; simpl in *; subst; f_equal; lia.
        -- simpl in *; inversion Hw; subst y; rewrite E in Hf; discriminate.
Qed.

Lemma in_lazy_star cs pos prev rest g s' :
  In s' (lazy_star cs pos prev rest g) <->
  exists w, forallb (cset_mem cs) w = true /\ rest = w ++ m_rest s'
            /\ m_pos s' = pos + length w /\ m_group s' = g
            /\ m_prev s' = match w with [] => prev | _ => Some (last w 0%N) end.
Proof.
  revert pos prev; induction rest as [|x xs IH]; intros pos prev; simpl.
  - split.
    + intros [<-|[]]; exists []; simpl; repeat split; auto.
    + intros (w & _ & Hw & Hp & Hg & Hv).
      destruct w; [|discriminate]. simpl in *.
      destruct s'; simpl in *; subst; left; f_equal; lia.
  - destruct (cset_mem cs x) eqn:E.
    + rewrite IH; simpl; split.
      * intros [<-|(w & Hf & Hw & Hp & Hg & Hv)].
        -- exists []; simpl; repeat split; auto.
        -- exists (x :: w); simpl; rewrite E, Hf, Hw; repeat split; auto; try lia.
           rewrite Hv; destruct w; reflexivity.
      * intros (w & Hf & Hw & Hp & Hg & Hv). destruct w as [|y w].
        -- left. destruct s'; simpl in *; subst; f_equal; lia.
        -- right; simpl in *; inversion Hw; subst y.
           apply andb_true_iff in Hf; destruct Hf as [_ Hf].
           exists w; repeat split; auto; try lia.
           rewrite Hv; destruct w; reflexivity.
    + simpl; split.
      * intros [<-|[]]; exists []; simpl; repeat split; auto.
      * intros (w & Hf & Hw & Hp & Hg & Hv). destruct w as [|y w].
        -- left. destruct s'; simpl in *; subst; f_equal; lia.
        -- simpl in *; inversion Hw; subst y; rewrite E in Hf; discriminate.
Qed.

Lemma mermaid_re_unfold :
  MERMAID_BLOCK_RE =
  Seq Bol (Seq (lit open_fence) (Seq (Star Whitespace) (Seq (Chr (One nl))
    (Seq (Group (LazyStar AnyChar)) (Seq (lit close_fence) (Seq (Star Whitespace) Eps)))))).
Proof. reflexivity. Qed.

Lemma in_run_mermaid s s' :
  In s' (run MERMAID_BLOCK_RE s) ->
  at_bol (m_prev s) = true /\
  exists ws1 c ws2,
    block_shape (m_rest s) ws1 c ws2 (m_rest s')
    /\ m_group s' = Some c
    /\ m_pos s' = m_pos s + length (open_fence ++ ws1 ++ nl :: c ++ close_fence ++ ws2).
Proof.
  rewrite mermaid_re_unfold.
  intros H.
  apply in_run_seq in H; destruct H as (s1 & H1 & H).
  apply in_run_seq in H; destruct H as (s2 & H2 & H).
  apply in_run_seq in H; destruct H as (s3 & H3 & H).
  apply in_run_seq in H; destruct H as (s4 & H4 & H).
  apply in_run_seq in H; destruct H as (s5 & H5 & H).
  apply in_run_seq in H; destruct H as (s6 & H6 & H).
  apply in_run_seq in H; destruct H as (s7 & H7 & H).
  simpl in H1. destruct (at_bol (m_prev s)) eqn:Eb; [|destruct H1].
  destruct H1 as [<-|[]].
  apply in_run_lit in H2; destruct H2 as (R2 & P2 & G2 & _).
  simpl in H3; apply in_star in H3; destruct H3 as (ws1 & F1 & R3 & P3 & G3 & _).
  apply in_run_chr in H4; destruct H4 as (x & Hx & R4 & P4 & _ & G4).
  simpl in Hx; apply char_eqb_eq in Hx; subst x.
  simpl in H5; apply in_map_iff in H5; destruct H5 as (s5' & E5 & H5).
  apply in_lazy_star in H5; destruct H5 as (c & _ & R5 & P5 & _ & _).
  apply in_run_lit in H6; destruct H6 as (R6 & P6 & G6 & _).
  simpl in H7; apply in_star in H7; destruct H7 as (ws2 & F2 & R7 & P7 & G7 & _).
  simpl in H; destruct H as [<-|[]].
  split; [reflexivity|].
  exists ws1, c, ws2.
  subst s5; simpl in *.
  assert (Hc : firstn (m_pos s5' - m_pos s4) (m_rest s4) = c).
  { rewrite P5, R5. replace (m_pos s4 + length c - m_pos s4) with (length c + 0) by lia.
    rewrite firstn_app_2; simpl; apply app_nil_r. }
  repeat split; auto.
  - rewrite R2, R3, R4, R5, R6, R7. reflexivity.
  - rewrite G7, G6. f_equal. exact Hc.
  - rewrite P7, P6, P5, P4, P3, P2.
    rewrite !length_app; simpl; rewrite !length_app; simpl. lia.
Qed.

Lemma run_mermaid_nonempty s ws1 c tail :
  at_bol (m_prev s) = true ->
  forallb isspace ws1 = true ->
  m_rest s = open_fence ++ ws1 ++ nl :: c ++ close_fence ++ tail ->
  run MERMAID_BLOCK_RE s <> [].
Proof.
  intros Hb F1 Hr.
  set (p := m_pos s). set (g := m_group s).
  set (s2 := MState (p + length open_fence) (Some (last open_fence 0%N))
                    (ws1 ++ nl :: c ++ close_fence ++ tail) g).
  set (s3 := MState (m_pos s2 + length ws1)
                    (match ws1 with [] => m_prev s2 | _ => Some (last ws1 0%N) end)
                    (nl :: c ++ close_fence ++ tail) g).
  set (s4 := MState (S (m_pos s3)) (Some nl) (c ++ close_fence ++ tail) g).
  set (s5' := MState (m_pos s4 + length c)
                     (match c with [] => m_prev s4 | _ => Some (last c 0%N) end)
                     (close_fence ++ tail) g).
  set (s5 := MState (m_pos s5') (m_prev s5') (m_rest s5')
                    (Some (firstn (m_pos s5' - m_pos s4) (m_rest s4)))).
  set (s6 := MState (m_pos s5 + length close_fence) (Some (last close_fence 0%N))
                    tail (m_group s5)).
  assert (H : In s6 (run MERMAID_BLOCK_RE s)).
  { rewrite mermaid_re_unfold.
    apply in_run_seq; exists s; split; [simpl; rewrite Hb; left; reflexivity|].
    apply in_run_seq; exists s2; split.
    { apply in_run_lit; simpl; repeat split; auto. }
    apply in_run_seq; exists s3; split.
    { simpl; apply in_star; exists ws1; simpl; repeat split; auto. }
    apply in_run_seq; exists s4; split.
    { apply in_run_chr; exists nl; simpl; repeat split; auto. }
    apply in_run_seq; exists s5; split.
    { simpl; apply in_map_iff; exists s5'; split; [reflexivity|].
      apply in_lazy_star; exists c; simpl; repeat split; auto.
      clear; induction c; simpl; auto. }
    apply in_run_seq; exists s6; split.
    { apply in_run_lit; simpl; repeat split; auto. }
    apply in_run_seq; exists s6; split.
    { simpl; apply in_star; exists []; simpl; repeat split; auto. }
    simpl; left; reflexivity. }
  intros E; rewrite E in H; destruct H.
Qed.

(* ================================================================== *)
(** * Lemmas: [finditer] *)
(* ================================================================== *)

Lemma last_char_snoc a x : last_char (a ++ [x]) = Some x.
Proof.
  unfold last_char. destruct (a ++ [x]) eqn:E.
  - destruct a; discriminate.
  - rewrite <- E, last_last; reflexivity.
Qed.

Lemma firstn_exact (a b : text) : firstn (length a) (a ++ b) = a.
Proof.
  replace (length a) with (length a + 0) by lia.
  rewrite firstn_app_2; simpl; apply app_nil_r.
Qed.

Lemma skipn_exact (a b : text) : skipn (length a) (a ++ b) = b.
Proof.
  rewrite skipn_app, skipn_all, Nat.sub_diag; reflexivity.
Qed.

Lemma match_in_split r a rest :
  match_in r (a ++ rest) (length a) = match_at r (length a) (last_char a) rest.
Proof. unfold match_in; rewrite firstn_exact, skipn_exact; reflexivity. Qed.

Lemma match_at_start r pos prev rest m :
  match_at r pos prev rest = Some m -> m_start m = pos.
Proof.
  unfold match_at; destruct (run r _); [discriminate|].
  intros H; inversion H; reflexivity.
Qed.

Lemma match_at_mermaid pos prev rest m :
  match_at MERMAID_BLOCK_RE pos prev rest = Some m ->
  at_bol prev = true /\ m_start m = pos /\
  exists ws1 ws2 tail,
    block_shape rest ws1 (m_group1 m) ws2 tail
    /\ m_end m = pos + length (open_fence ++ ws1 ++ nl :: m_group1 m ++ close_fence ++ ws2).
Proof.
  unfold match_at.
  destruct (run MERMAID_BLOCK_RE (MState pos prev rest None)) as [|s' l] eqn:E;
    [discriminate|].
  intros H; inversion H; subst m; clear H; simpl.
  assert (Hin : In s' (run MERMAID_BLOCK_RE (MState pos prev rest None)))
    by (rewrite E; left; reflexivity).
  apply in_run_mermaid in Hin; simpl in Hin.
  destruct Hin as (Hb & ws1 & c & ws2 & Hs & Hg & Hp).
  split; [exact Hb|]. split; [reflexivity|].
  exists ws1, ws2, (m_rest s'). rewrite Hg. split; assumption.
Qed.

Lemma match_at_mermaid_bounds pos prev rest m :
  match_at MERMAID_BLOCK_RE pos prev rest = Some m ->
  pos + 15 <= m_end m /\ m_end m <= pos + length rest.
Proof.
  intros H; apply match_at_mermaid in H.
  destruct H as (_ & _ & ws1 & ws2 & tail & (Hr & _ & _) & He).
  rewrite He, Hr. rewrite !length_app; simpl; rewrite !length_app; simpl.
  rewrite !length_app; simpl. lia.
Qed.

Section Finditer.
Variable r : regex.
Hypothesis r_progress : forall pos prev rest m,
  match_at r pos prev rest = Some m -> pos < m_end m <= pos + length rest.

Lemma finditer_from_ordered rest : forall pos prev skip,
  ordered_from (pos + skip) (map span_of (finditer_from r pos prev rest skip))
  /\ Forall (fun m => m_end m <= pos + length rest)
            (finditer_from r pos prev rest skip).
Proof.
  induction rest as [|x xs IH]; intros pos prev skip.
  - destruct skip; simpl; [|split; [exact I|constructor]].
    destruct (match_at r pos prev []) eqn:E; [|split; [exact I|constructor]].
    apply r_progress in E; simpl in E; lia.
  - destruct skip as [|k]; simpl.
    + destruct (match_at r pos prev (x :: xs)) as [m|] eqn:E.
      * pose proof (match_at_start _ _ _ _ _ E) as Hs.
        apply r_progress in E; simpl in E.
        destruct (IH (S pos) (Some x) (m_end m - pos - 1)) as [Ho Hf].
        simpl; split.
        -- unfold span_of at 1; simpl. rewrite Hs.
           repeat split; try lia.
           replace (S pos + (m_end m - pos - 1)) with (m_end m) in Ho by lia.
           exact Ho.
        -- constructor; [lia|].
           eapply Forall_impl; [|exact Hf]. simpl; intros; lia.
      * destruct (IH (S pos) (Some x) 0) as [Ho Hf]. split.
        -- destruct (map span_of _) as [|[s e] l]; [exact I|].
           simpl in *; intuition lia.
        -- eapply Forall_impl; [|exact Hf]. simpl; intros; lia.
    + destruct (IH (S pos) (Some x) k) as [Ho Hf]. split.
      * replace (pos + S k) with (S pos + k) by lia; exact Ho.
      * eapply Forall_impl; [|exact Hf]. simpl; intros; lia.
Qed.

Lemma gaps_free_step t lo sps :
  match_in r t lo = None -> gaps_free r t (S lo) sps -> gaps_free r t lo sps.
Proof.
  intros Hn; destruct sps as [|[s e] l]; simpl.
  - intros H q Hq. destruct (Nat.eq_dec q lo); [subst; exact Hn | apply H; lia].
  - intros (H & Hm & Hg); repeat split; auto.
    intros q Hq. destruct (Nat.eq_dec q lo); [subst; exact Hn | apply H; lia].
Qed.

Lemma finditer_from_gaps t rest : forall a skip,
  t = a ++ rest ->
  gaps_free r t (length a + skip)
            (map span_of (finditer_from r (length a) (last_char a) rest skip)).
Proof.
  induction rest as [|x xs IH]; intros a skip Ht.
  - assert (Hl : length t = length a) by (subst t; rewrite app_nil_r; reflexivity).
    destruct skip; simpl.
    + destruct (match_at r (length a) (last_char a) []) eqn:E.
      * apply r_progress in E; simpl in E; lia.
      * simpl. intros q Hq. replace q with (length a) by lia.
        subst t; rewrite match_in_split; exact E.
    + intros q Hq; lia.
  - assert (Ht' : t = (a ++ [x]) ++ xs) by (rewrite <- app_assoc; exact Ht).
    assert (Hl : length (a ++ [x]) = S (length a))
      by (rewrite length_app; simpl; lia).
    destruct skip as [|k]; simpl.
    + destruct (match_at r (length a) (last_char a) (x :: xs)) as [m|] eqn:E.
      * pose proof (match_at_start _ _ _ _ _ E) as Hs.
        pose proof (r_progress _ _ _ _ E) as Hp; simpl in Hp.
        simpl. unfold span_of at 1; rewrite Hs. repeat split.
        -- intros q Hq; lia.
        -- subst t; rewrite match_in_split, E; discriminate.
        -- specialize (IH (a ++ [x]) (m_end m - length a - 1) Ht').
           rewrite Hl, last_char_snoc in IH.
           replace (S (length a) + (m_end m - length a - 1)) with (m_end m) in IH by lia.
           exact IH.
      * specialize (IH (a ++ [x]) 0 Ht').
        rewrite Hl, last_char_snoc, Nat.add_0_r in IH.
        rewrite Nat.add_0_r. apply gaps_free_step; [|exact IH].
        subst t; rewrite match_in_split; exact E.
    + specialize (IH (a ++ [x]) k Ht').
      rewrite Hl, last_char_snoc in IH.
      replace (length a + S k) with (S (length a) + k) by lia. exact IH.
Qed.

Lemma finditer_from_in t rest : forall a skip m,
  t = a ++ rest ->
  In m (finditer_from r (length a) (last_char a) rest skip) ->
  match_in r t (m_start m) = Some m.
Proof.
  induction rest as [|x xs IH]; intros a skip m Ht.
  - destruct skip; simpl; [|intros []].
    destruct (match_at r (length a) (last_char a) []) eqn:E; [|intros []].
    apply r_progress in E; simpl in E; lia.
  - assert (Ht' : t = (a ++ [x]) ++ xs) by (rewrite <- app_assoc; exact Ht).
    assert (Hl : length (a ++ [x]) = S (length a))
      by (rewrite length_app; simpl; lia).
    destruct skip as [|k]; simpl.
    + destruct (match_at r (length a) (last_char a) (x :: xs)) as [m0|] eqn:E.
      * intros [<-|Hin].
        -- rewrite (match_at_start _ _ _ _ _ E). subst t.
           rewrite match_in_split; exact E.
        -- specialize (IH (a ++ [x]) (m_end m0 - length a - 1) m Ht').
           rewrite Hl, last_char_snoc in IH. auto.
      * intros Hin. specialize (IH (a ++ [x]) 0 m Ht').
        rewrite Hl, last_char_snoc in IH. auto.
    + intros Hin. specialize (IH (a ++ [x]) k m Ht').
      rewrite Hl, last_char_snoc in IH. auto.
Qed.
End Finditer.

Lemma mermaid_progress pos prev rest m :
  match_at MERMAID_BLOCK_RE pos prev rest = Some m ->
  pos < m_end m <= pos + length rest.
Proof. intros H; apply match_at_mermaid_bounds in H; lia. Qed.

Lemma spans_of_blocks t :
  map fst (find_mermaid_blocks t) = map span_of (finditer MERMAID_BLOCK_RE t).
Proof. unfold find_mermaid_blocks; rewrite map_map; reflexivity. Qed.

Lemma ordered_from_length lo sps bound :
  ordered_from lo sps -> Forall (fun sp => snd sp <= bound) sps ->
  sps = [] \/ lo + length sps <= bound.
Proof.
  revert lo; induction sps as [|[s e] l IH]; intros lo Ho Hf; [left; reflexivity|].
  right. simpl in Ho; destruct Ho as (H1 & H2 & H3).
  inversion Hf as [|? ? Hb Hl]; subst; simpl in *.
  destruct (IH e H3 Hl) as [->|H]; simpl; lia.
Qed.

Lemma last_char_firstn t : forall q c,
  q <= length t -> last_char (firstn q t) = Some c ->
  0 < q /\ nth_error t (q - 1) = Some c.
Proof.
  induction t as [|x t IH]; intros q c Hq H.
  - destruct q; simpl in *; [discriminate | lia].
  - destruct q as [|q]; [discriminate|]. split; [lia|].
    simpl in Hq. destruct q as [|q].
    + simpl in *. inversion H; reflexivity.
    + assert (Hl : last_char (firstn (S q) t) = Some c).
      { unfold last_char in *. simpl firstn in *.
        destruct t as [|y t']; [simpl in Hq; lia|]. simpl in H |- *. exact H. }
      apply IH in Hl; [|lia]. destruct Hl as [_ Hl].
      replace (S (S q) - 1) with (S q) by lia.
      replace (S q - 1) with q in Hl by lia. exact Hl.
Qed.

Lemma at_bol_line_start t q :
  q <= length t -> at_bol (last_char (firstn q t)) = true -> line_start t q.
Proof.
  intros Hq H. destruct (last_char (firstn q t)) as [c|] eqn:E.
  - apply last_char_firstn in E; [|exact Hq]. destruct E as [_ E].
    simpl in H; apply char_eqb_eq in H; subst c. right; exact E.
  - left. destruct q; [reflexivity|]. destruct t; [simpl in Hq; lia|discriminate].
Qed.

Lemma find_some_iff sub t :
  find sub t <> None <-> exists a b, t = a ++ sub ++ b.
Proof.
  induction t as [|x t IH]; simpl.
  - destruct (startswith sub []) eqn:E.
    + split; [|discriminate]. intros _. apply startswith_iff in E.
      destruct E as [r E]. exists [], r; exact E.
    + split; [intros H; exfalso; apply H; reflexivity|].
      intros (a & b & H). destruct a; [|discriminate]. simpl in H.
      rewrite H, startswith_app in E; discriminate.
  - destruct (startswith sub (x :: t)) eqn:E.
    + split; [|discriminate]. intros _. apply startswith_iff in E.
      destruct E as [r E]. exists [], r; exact E.
    + split.
      * intros H. destruct (find sub t) eqn:F; [|exfalso; apply H; reflexivity].
        destruct IH as [IH _]. destruct IH as (a & b & Ht); [discriminate|].
        exists (x :: a), b; rewrite Ht; reflexivity.
      * intros (a & b & H). destruct a as [|y a].
        -- simpl in H. rewrite H, startswith_app in E; discriminate.
        -- assert (Ht : t = a ++ sub ++ b) by (inversion H; reflexivity).
           clear H. destruct IH as [_ IH].
           destruct (find sub t); [simpl; discriminate|].
           exfalso; apply IH; [exists a, b; assumption | reflexivity].
Qed.

Lemma contains_app a sub b : contains sub (a ++ sub ++ b) = true.
Proof.
  unfold contains. destruct (find sub (a ++ sub ++ b)) eqn:E; [reflexivity|].
  exfalso. revert E. apply find_some_iff. exists a, b; reflexivity.
Qed.

Lemma contains_iff sub t :
  contains sub t = true <-> exists a b, t = a ++ sub ++ b.
Proof.
  rewrite <- find_some_iff. unfold contains.
  destruct (find sub t); split; congruence.
Qed.

Lemma block_in_match t s e c :
  In ((s, e), c) (find_mermaid_blocks t) ->
  exists m, match_in MERMAID_BLOCK_RE t s = Some m
            /\ m_start m = s /\ m_end m = e /\ m_group1 m = c.
Proof.
  unfold find_mermaid_blocks. intros H. apply in_map_iff in H.
  destruct H as (m & Hm & Hin). inversion Hm; subst.
  exists m. repeat split.
  apply (finditer_from_in MERMAID_BLOCK_RE mermaid_progress t t [] 0 m eq_refl Hin).
Qed.

(* ================================================================== *)
(** * Lemmas: the rewrite loops *)
(* ================================================================== *)

Lemma join_parts_app a b : join_parts (a ++ b) = join_parts a ++ join_parts b.
Proof. apply concat_app. Qed.

Lemma join_parts_one a : join_parts [a] = a.
Proof. unfold join_parts; simpl; apply app_nil_r. Qed.

Lemma slice_0 t e : slice t 0 e = firstn e t.
Proof. unfold slice; rewrite Nat.sub_0_r; reflexivity. Qed.

Lemma slice_then_rest t a b :
  a <= b -> slice t a b ++ slice_from t b = slice_from t a.
Proof.
  intros Hab. unfold slice, slice_from.
  replace b with ((b - a) + a) at 2 by lia.
  rewrite <- skipn_skipn. apply firstn_skipn.
Qed.

Lemma replace_loop_out t md pairs : forall parts last,
  join_parts (fst (replace_loop t md pairs parts last)
              ++ [slice_from t (snd (replace_loop t md pairs parts last))])
  = join_parts parts ++ replace_out t md pairs last.
Proof.
  induction pairs as [|[[[s e] op] rel] ps IH]; intros parts last;
    cbn [replace_loop replace_out fst snd].
  - rewrite join_parts_app, join_parts_one; reflexivity.
  - rewrite IH, !join_parts_app, !join_parts_one, <- !app_assoc. reflexivity.
Qed.

Lemma replace_blocks_out t md iw rels :
  replace_blocks_with_images t md iw rels
  = replace_out t md (combine iw rels) 0.
Proof.
  unfold replace_blocks_with_images.
  pose proof (replace_loop_out t md (combine iw rels) [] 0) as H.
  destruct (replace_loop t md (combine iw rels) [] 0) as [p l].
  exact H.
Qed.

Lemma append_loop_out t md pairs : forall parts last,
  join_parts (fst (append_loop t md pairs parts last)
              ++ [slice_from t (snd (append_loop t md pairs parts last))])
  = join_parts parts ++ append_out t md pairs last.
Proof.
  induction pairs as [|[[[s e] op] rel] ps IH]; intros parts last;
    cbn [append_loop append_out fst snd].
  - rewrite join_parts_app, join_parts_one; reflexivity.
  - unfold already_rendered.
    destruct (contains (name op) (slice t e (e + LOOKAHEAD_APPEND))
              || contains MARKER_PREFIX (slice t e (e + LOOKAHEAD_APPEND))).
    + rewrite IH, !join_parts_app, !join_parts_one, <- !app_assoc. reflexivity.
    + rewrite IH, !join_parts_app, !join_parts_one, <- !app_assoc. reflexivity.
Qed.

Lemma add_images_out t md iw rels :
  add_images_after_blocks t md iw rels = append_out t md (combine iw rels) 0.
Proof.
  unfold add_images_after_blocks.
  pose proof (append_loop_out t md (combine iw rels) [] 0) as H.
  destruct (append_loop t md (combine iw rels) [] 0) as [p l].
  exact H.
Qed.

(* ================================================================== *)
(** * Lemmas: the digest *)
(* ================================================================== *)

Lemma be_bytes_length n v : length (SHA1.be_bytes n v) = n.
Proof. induction n; simpl; congruence. Qed.

Lemma be_bytes_small n v : Forall (fun b => (b < 256)%N) (SHA1.be_bytes n v).
Proof.
  induction n; simpl; constructor; auto.
  change 255%N with (N.ones 8). rewrite N.land_ones.
  apply N.mod_lt. discriminate.
Qed.

Lemma digest_length msg : length (SHA1.digest msg) = 20.
Proof.
  unfold SHA1.digest.
  destruct (SHA1.blocks _ _ _) as [[[[h0 h1] h2] h3] h4].
  rewrite !length_app, !be_bytes_length. reflexivity.
Qed.

Lemma digest_small msg : Forall (fun b => (b < 256)%N) (SHA1.digest msg).
Proof.
  unfold SHA1.digest.
  destruct (SHA1.blocks _ _ _) as [[[[h0 h1] h2] h3] h4].
  repeat (apply Forall_app; split); apply be_bytes_small.
Qed.

Lemma hex_digit_lower n : (n < 16)%N -> is_lower_hex (hex_digit n) = true.
Proof.
  intros H. unfold is_lower_hex, hex_digit.
  destruct (N.ltb_spec n 10).
  - apply orb_true_iff; left. apply andb_true_iff; split; apply N.leb_le; lia.
  - apply orb_true_iff; right. apply andb_true_iff; split; apply N.leb_le; lia.
Qed.

Lemma hexdigest_length d : length (hexdigest d) = 2 * length d.
Proof.
  unfold hexdigest. induction d as [|b d IH]; [reflexivity|].
  cbn [flat_map app length]. rewrite IH. lia.
Qed.

Lemma hexdigest_lower d :
  Forall (fun b => (b < 256)%N) d -> forallb is_lower_hex (hexdigest d) = true.
Proof.
  unfold hexdigest. induction 1 as [|b d Hb Hd IH]; [reflexivity|].
  cbn [flat_map app forallb]. rewrite IH, !hex_digit_lower; [reflexivity| |].
  - change 15%N with (N.ones 4). rewrite N.land_ones.
    apply N.mod_lt. discriminate.
  - rewrite N.shiftr_div_pow2. change (2 ^ 4)%N with 16%N.
    apply N.Div0.div_lt_upper_bound. lia.
Qed.

Lemma forallb_firstn {A} (f : A -> bool) n l :
  forallb f l = true -> forallb f (firstn n l) = true.
Proof.
  revert n; induction l as [|x l IH]; intros [|n]; simpl; auto.
  intros H; apply andb_true_iff in H; destruct H as [-> H]; simpl; auto.
Qed.

Lemma hash_text_form s h :
  hash_text s = Some h ->
  exists bs, encode_utf8 s = Some bs
             /\ h = firstn 10 (hexdigest (SHA1.digest bs))
             /\ length h = 10 /\ forallb is_lower_hex h = true.
Proof.
  unfold hash_text. destruct (encode_utf8 s) as [bs|]; [|discriminate].
  intros H; inversion H; subst h; clear H.
  exists bs. rewrite slice_0. repeat split.
  - rewrite length_firstn, hexdigest_length, digest_length. reflexivity.
  - apply forallb_firstn, hexdigest_lower, digest_small.
Qed.

Lemma encodable_encode t : encodable t = true -> encode_utf8 t <> None.
Proof.
  induction t as [|c t IH]; simpl; [discriminate|].
  intros H; apply andb_true_iff in H; destruct H as [Hc Ht].
  specialize (IH Ht). destruct (encode_utf8 t); [|congruence].
  assert (Hs : (c < 55296 \/ 57343 < c /\ c < 1114112)%N).
  { unfold is_scalar in Hc. apply orb_true_iff in Hc. destruct Hc as [Hc|Hc].
    - left; apply N.ltb_lt; exact Hc.
    - right. apply andb_true_iff in Hc. destruct Hc as [A B].
      split; apply N.ltb_lt; assumption. }
  clear Hc. unfold utf8_char.
  destruct (N.ltb_spec c 128); [discriminate|].
  destruct (N.ltb_spec c 2048); [discriminate|].
  destruct (N.ltb_spec c 65536).
  - destruct ((55296 <=? c) && (c <=? 57343))%N eqn:E4; [|discriminate].
    exfalso. apply andb_true_iff in E4; destruct E4 as [A B].
    apply N.leb_le in A, B. lia.
  - destruct (N.ltb_spec c 1114112); [discriminate|]. exfalso; lia.
Qed.

Lemma app4_inv (a b c d x y z : text) :
  a ++ b ++ c ++ d ++ x ++ z = a ++ b ++ c ++ d ++ y ++ z -> x = y.
Proof.
  intros E. do 4 apply app_inv_head in E. apply app_inv_tail in E. exact E.
Qed.

(* ================================================================== *)
(** * Lemmas: paths *)
(* ================================================================== *)

Lemma replace_char_id a b t :
  existsb (fun x => char_eqb x a) t = false -> replace_char a b t = t.
Proof.
  unfold replace_char. induction t as [|x t IH]; simpl; [reflexivity|].
  intros H. apply orb_false_iff in H. destruct H as [-> H].
  rewrite IH; auto.
Qed.

Lemma replace_char_sep a b t c :
  In c (replace_char a b t) -> c = a -> c = b.
Proof.
  unfold replace_char. intros H E. apply in_map_iff in H.
  destruct H as (x & Hx & _). destruct (char_eqb x a) eqn:F; [congruence|].
  subst. rewrite char_eqb_refl in F. discriminate.
Qed.

Lemma split_on_nosep c t :
  existsb (fun x => char_eqb x c) t = false -> split_on c t = [t].
Proof.
  induction t as [|x t IH]; simpl; [reflexivity|].
  intros H. apply orb_false_iff in H. destruct H as [-> H].
  rewrite IH; auto.
Qed.

Lemma is_sep_false fl x :
  existsb (is_sep fl) x = false ->
  existsb (fun c => char_eqb c (sep fl)) x = false
  /\ match altsep fl with
     | Some a => existsb (fun c => char_eqb c a) x = false
     | None => True
     end.
Proof.
  unfold is_sep. induction x as [|c x IH]; simpl.
  - destruct (altsep fl); auto.
  - intros H. apply orb_false_iff in H. destruct H as [H1 H2].
    apply orb_false_iff in H1. destruct H1 as [-> H1].
    destruct (IH H2) as [-> Ha]. split; [reflexivity|].
    destruct (altsep fl); [|exact I]. rewrite H1, Ha. reflexivity.
Qed.

Lemma path_of_component fl x :
  is_component fl x = true -> Path fl x = MkPath [] [x].
Proof.
  unfold is_component. intros H.
  apply andb_true_iff in H. destruct H as [H H4].
  apply andb_true_iff in H. destruct H as [H H3].
  apply andb_true_iff in H. destruct H as [H1 H2].
  apply negb_true_iff in H2. apply text_eqb_eq in H3, H4.
  destruct (is_sep_false fl x H2) as [Hs Ha].
  unfold Path.
  assert (E : match altsep fl with
              | Some a => replace_char a (sep fl) x
              | None => x
              end = x).
  { destruct (altsep fl); [apply replace_char_id; exact Ha | reflexivity]. }
  rewrite E. destruct (splitroot fl x) as [anc rel]. simpl in H3, H4. subst.
  rewrite split_on_nosep by exact Hs. simpl. rewrite H1. reflexivity.
Qed.

Lemma component_as_posix fl x :
  is_component fl x = true -> replace_char (sep fl) slash x = x.
Proof.
  unfold is_component. intros H.
  apply andb_true_iff in H. destruct H as [H _].
  apply andb_true_iff in H. destruct H as [H _].
  apply andb_true_iff in H. destruct H as [_ H2].
  apply negb_true_iff in H2.
  apply replace_char_id. apply (is_sep_false fl x H2).
Qed.

Lemma split_on_free c t :
  Forall (fun p => existsb (fun x => char_eqb x c) p = false) (split_on c t).
Proof.
  induction t as [|a t IH]; cbn [split_on].
  - constructor; [reflexivity | constructor].
  - destruct (char_eqb a c) eqn:E.
    + constructor; [reflexivity | exact IH].
    + destruct (split_on c t) as [|p ps].
      * constructor; [cbn [existsb]; rewrite E; reflexivity | constructor].
      * inversion IH as [|? ? Hp Hps]; subst.
        constructor; [cbn [existsb]; rewrite E, Hp; reflexivity | exact Hps].
Qed.

(** No component of a path holds the host's separator. *)
Lemma Path_parts_free fl s :
  Forall (fun p => existsb (fun x => char_eqb x (sep fl)) p = false)
         (parts (Path fl s)).
Proof.
  unfold Path. destruct (splitroot fl _) as [anc rel]. cbn [parts].
  apply Forall_forall. intros x Hin. apply filter_In in Hin.
  destruct Hin as [Hin _].
  exact (proj1 (Forall_forall _ _) (split_on_free _ _) x Hin).
Qed.

Lemma replace_join_with a b ps :
  Forall (fun p => existsb (fun x => char_eqb x a) p = false) ps ->
  replace_char a b (join_with a ps) = join_with b ps.
Proof.
  induction ps as [|p ps IH]; intros H; [reflexivity|].
  inversion H as [|? ? Hp Hps]; subst. destruct ps as [|q ps].
  - cbn [join_with]. apply replace_char_id; exact Hp.
  - change (join_with a (p :: q :: ps)) with (p ++ a :: join_with a (q :: ps)).
    change (join_with b (p :: q :: ps)) with (p ++ b :: join_with b (q :: ps)).
    unfold replace_char. rewrite map_app. cbn [map]. rewrite char_eqb_refl.
    fold (replace_char a b p).
    fold (replace_char a b (join_with a (q :: ps))).
    rewrite (replace_char_id a b p Hp), (IH Hps). reflexivity.
Qed.

(** The embedded path of an image: the anchor of the base, if it has one,
    and then the components of the base and the file name, joined by
    forward slashes. *)
Lemma embedded_path_form fl rel_base image_name :
  is_component fl image_name = true ->
  Forall (fun p => existsb (fun x => char_eqb x (sep fl)) p = false)
         (parts rel_base) ->
  rel_path_of fl rel_base image_name
  = replace_char (sep fl) slash (anchor rel_base)
    ++ join_with slash (parts rel_base ++ [image_name]).
Proof.
  intros Hn Hf. unfold rel_path_of, joinpath, as_posix.
  rewrite (path_of_component fl _ Hn). cbn [anchor parts].
  assert (Hall : Forall (fun p => existsb (fun x => char_eqb x (sep fl)) p
                                  = false)
                        (parts rel_base ++ [image_name])).
  { apply Forall_app. split; [exact Hf|]. constructor; [|constructor].
    unfold is_component in Hn.
    apply andb_true_iff in Hn. destruct Hn as [Hn _].
    apply andb_true_iff in Hn. destruct Hn as [Hn _].
    apply andb_true_iff in Hn. destruct Hn as [_ Hn].
    apply negb_true_iff in Hn. exact (proj1 (is_sep_false fl _ Hn)). }
  unfold path_str. cbn [anchor parts].
  destruct (parts rel_base ++ [image_name]) as [|q qs] eqn:Ep.
  { destruct (parts rel_base); discriminate. }
  assert (E : match anchor rel_base with
              | [] => anchor rel_base ++ join_with (sep fl) (q :: qs)
              | _ :: _ => anchor rel_base ++ join_with (sep fl) (q :: qs)
              end = anchor rel_base ++ join_with (sep fl) (q :: qs))
    by (destruct (anchor rel_base); reflexivity).
  destruct (anchor rel_base) as [|a0 an] eqn:Ea.
  - cbn [app replace_char map]. apply replace_join_with. exact Hall.
  - unfold replace_char at 1. rewrite map_app.
    fold (replace_char (sep fl) slash (a0 :: an)).
    fold (replace_char (sep fl) slash (join_with (sep fl) (q :: qs))).
    rewrite (replace_join_with _ _ _ Hall). reflexivity.
Qed.

(* ================================================================== *)
(** * Lemmas: the loop over the blocks *)
(* ================================================================== *)

Section LoopLemmas.

Variable fl : flavour.
Variable fs : Type.
Variable path_exists : fs -> path -> option bool.
Variable render_mermaid : text -> path -> text -> fs -> render_result * fs.
Variables (md_file images_base rel_base : path) (fmt : text).
Variables (dry_run force : bool).

Let step := block_step fl path_exists render_mermaid md_file images_base
                       rel_base fmt dry_run force.
Let loop := block_loop fl path_exists render_mermaid md_file images_base
                       rel_base fmt dry_run force.

Lemma extend_fresh (st : loop_state fs) : extend st (fresh (the_fs st)) = st.
Proof.
  destruct st; unfold extend, fresh; simpl. rewrite !app_nil_r. reflexivity.
Qed.

Lemma extend_assoc (a b c : loop_state fs) : extend (extend a b) c = extend a (extend b c).
Proof. unfold extend; simpl. rewrite !app_assoc. reflexivity. Qed.

Lemma step_frame (st : loop_state fs) idx b :
  step st idx b = option_map (extend st) (step (fresh (the_fs st)) idx b).
Proof.
  unfold step, block_step. destruct b as [sp code].
  destruct (image_name_of md_file fmt idx code) as [nm|]; [|reflexivity].
  destruct dry_run; [reflexivity|]. cbn [fresh the_fs].
  destruct (path_exists (the_fs st) _) as [there|]; [|reflexivity].
  destruct (there && negb force); [reflexivity|].
  destruct (render_mermaid code _ fmt (the_fs st)) as [[|msg|] w'];
    [reflexivity| |reflexivity].
  unfold extend; simpl. rewrite !app_nil_r. reflexivity.
Qed.

Lemma step_fs (st : loop_state fs) idx b st' :
  step (fresh (the_fs st)) idx b = Some st' ->
  step (fresh (the_fs (extend st st'))) idx b
  = step (fresh (the_fs st')) idx b.
Proof. reflexivity. Qed.

Lemma loop_frame blocks : forall st idx,
  loop st idx blocks
  = option_map (extend st) (loop (fresh (the_fs st)) idx blocks).
Proof.
  induction blocks as [|b bs IH]; intros st idx.
  - simpl. rewrite extend_fresh. reflexivity.
  - unfold loop in *. cbn [block_loop]. fold step.
    rewrite (step_frame st idx b).
    destruct (step (fresh (the_fs st)) idx b) as [st1|]; [|reflexivity].
    cbn [option_map]. rewrite (IH (extend st st1)), (IH st1).
    cbn [extend the_fs].
    destruct (block_loop _ _ _ _ _ _ _ _ _ (fresh (the_fs st1)) (S idx) bs);
      [|reflexivity].
    cbn [option_map]. rewrite extend_assoc. reflexivity.
Qed.

Lemma loop_app pre : forall post st idx,
  loop st idx (pre ++ post)
  = match loop st idx pre with
    | Some st' => loop st' (idx + length pre) post
    | None => None
    end.
Proof.
  induction pre as [|b bs IH]; intros post st idx.
  - simpl. rewrite Nat.add_0_r. reflexivity.
  - unfold loop in *. cbn [app block_loop length].
    destruct (block_step _ _ _ _ _ _ _ _ _ st idx b) as [st1|]; [|reflexivity].
    rewrite IH. replace (S idx + length bs) with (idx + S (length bs)) by lia.
    reflexivity.
Qed.

(** The loop returns when the sources can be encoded, [exists] does not
    raise and the renderer raises nothing but what is caught. *)
Lemma step_total st idx sp code :
  encodable code = true ->
  (forall w p, path_exists w p <> None) ->
  (forall c p f w, fst (render_mermaid c p f w) <> RenderEscaped) ->
  step st idx (sp, code) <> None.
Proof.
  intros He Hex Hr. unfold step, block_step, image_name_of, hash_text.
  pose proof (encodable_encode code He) as Hn.
  destruct (encode_utf8 code); [|congruence].
  destruct dry_run; [discriminate|].
  match goal with
  | |- context [path_exists ?w ?p] =>
      pose proof (Hex w p) as Hx; destruct (path_exists w p) as [there|];
      [|congruence]
  end.
  destruct (there && negb force); [discriminate|].
  match goal with
  | |- context [render_mermaid ?c ?p ?f ?w] =>
      pose proof (Hr c p f w) as Hy;
      destruct (render_mermaid c p f w) as [[|msg|] w']
  end; cbn [fst] in Hy; congruence.
Qed.

Lemma loop_total blocks : forall st idx,
  Forall (fun b => encodable (snd b) = true) blocks ->
  (forall w p, path_exists w p <> None) ->
  (forall c p f w, fst (render_mermaid c p f w) <> RenderEscaped) ->
  loop st idx blocks <> None.
Proof.
  induction blocks as [|[sp code] bs IH]; intros st idx Hf Hex Hr;
    [discriminate|].
  inversion Hf as [|? ? Hc Hbs]; subst. simpl in Hc.
  unfold loop in *. cbn [block_loop]. fold step.
  pose proof (step_total st idx sp code Hc Hex Hr) as Hs.
  destruct (step st idx (sp, code)) as [st1|]; [|congruence].
  apply IH; assumption.
Qed.

End LoopLemmas.

Lemma encodable_app a b :
  encodable (a ++ b) = encodable a && encodable b.
Proof. apply forallb_app. Qed.

Lemma blocks_encodable t :
  encodable t = true ->
  Forall (fun b => encodable (snd b) = true) (find_mermaid_blocks t).
Proof.
  intros He. apply Forall_forall. intros [[s e] c] Hin. simpl.
  apply block_in_match in Hin. destruct Hin as (m & Hm & _ & _ & Hc).
  unfold match_in in Hm. apply match_at_mermaid in Hm.
  destruct Hm as (_ & _ & ws1 & ws2 & tail & (Hr & _ & _) & _).
  rewrite Hc in Hr.
  rewrite <- (firstn_skipn s t), Hr in He.
  rewrite !encodable_app in He. cbn [encodable forallb] in He.
  fold (encodable (c ++ close_fence ++ ws2 ++ tail)) in He.
  rewrite encodable_app in He.
  repeat (apply andb_true_iff in He; destruct He as [? He]).
  repeat match goal with H : _ && _ = true |- _ =>
    apply andb_true_iff in H; destruct H end.
  assumption.
Qed.

Lemma replace_no_pairs t md rels : replace_blocks_with_images t md [] rels = t.
Proof. rewrite replace_blocks_out. reflexivity. Qed.

Lemma append_no_pairs t md rels : add_images_after_blocks t md [] rels = t.
Proof. rewrite add_images_out. reflexivity. Qed.

(* ================================================================== *)
(** * Lemmas: where a block can start *)
(* ================================================================== *)

Lemma match_at_some_iff pos prev rest :
  match_at MERMAID_BLOCK_RE pos prev rest <> None
  <-> has_block (at_bol prev) rest.
Proof.
  split.
  - destruct (match_at MERMAID_BLOCK_RE pos prev rest) as [m|] eqn:E;
      [|intros H; exfalso; apply H; reflexivity].
    intros _. apply match_at_mermaid in E.
    destruct E as (Hb & _ & ws1 & ws2 & tail & (Hr & F1 & _) & _).
    split; [exact Hb|]. exists ws1, (m_group1 m), (ws2 ++ tail).
    split; [exact F1 | exact Hr].
  - intros (Hb & ws1 & c & tail & F1 & Hr).
    pose proof (run_mermaid_nonempty (MState pos prev rest None) ws1 c tail
                  Hb F1 Hr) as Hn.
    unfold match_at. destruct (run MERMAID_BLOCK_RE _); [congruence|discriminate].
Qed.

Lemma match_in_some_iff t q :
  match_in MERMAID_BLOCK_RE t q <> None
  <-> has_block (at_bol (last_char (firstn q t))) (skipn q t).
Proof. apply match_at_some_iff. Qed.

Lemma no_block_iff_clean t :
  find_mermaid_blocks t = [] <-> clean true t.
Proof.
  split.
  - intros Hnil a r Ht Hb.
    pose proof (finditer_from_gaps MERMAID_BLOCK_RE mermaid_progress t t [] 0
                  eq_refl) as Hg.
    change (finditer_from MERMAID_BLOCK_RE (length []) (last_char []) t 0)
      with (finditer MERMAID_BLOCK_RE t) in Hg.
    rewrite <- spans_of_blocks, Hnil in Hg. simpl in Hg.
    assert (Hm : match_in MERMAID_BLOCK_RE t (length a) <> None).
    { apply match_in_some_iff. subst t. rewrite firstn_exact, skipn_exact.
      destruct a; exact Hb. }
    apply Hm, Hg. subst t. rewrite length_app. lia.
  - intros Hc. destruct (find_mermaid_blocks t) as [|[[s e] c] l] eqn:E;
      [reflexivity|]. exfalso.
    assert (Hin : In ((s, e), c) (find_mermaid_blocks t))
      by (rewrite E; left; reflexivity).
    apply block_in_match in Hin. destruct Hin as (m & Hm & _).
    assert (Hs : match_in MERMAID_BLOCK_RE t s <> None) by congruence.
    apply match_in_some_iff in Hs.
    apply (Hc (firstn s t) (skipn s t)); [symmetry; apply firstn_skipn|].
    destruct (firstn s t) eqn:F; [|exact Hs].
    simpl in Hs |- *. exact Hs.
Qed.

Lemma last_char_app x l : l <> [] -> last_char (x ++ l) = last_char l.
Proof.
  intros Hl. unfold last_char.
  destruct (x ++ l) eqn:E.
  - destruct x; [simpl in E; congruence | discriminate].
  - rewrite <- E. destruct l as [|y l']; [congruence|].
    f_equal. clear E Hl. induction x as [|z x IH]; [reflexivity|].
    simpl. destruct (x ++ y :: l') eqn:F; [destruct x; discriminate|].
    exact IH.
Qed.

Lemma bol_after_app b x l :
  bol_after b (x ++ l) = bol_after (bol_after b x) l.
Proof.
  destruct l as [|y l].
  - rewrite app_nil_r. reflexivity.
  - unfold bol_after at 1 3.
    destruct (x ++ y :: l) eqn:E; [destruct x; discriminate|].
    rewrite <- E, last_char_app by discriminate. reflexivity.
Qed.

Lemma clean_app b x y :
  (forall a r, x = a ++ r -> r <> [] -> ~ has_block (bol_after b a) (r ++ y)) ->
  clean (bol_after b x) y -> clean b (x ++ y).
Proof.
  intros H1 H2 a r E Hb.
  apply app_eq_app in E. destruct E as (l & [[Hx Hr] | [Ha Hy]]).
  - destruct l as [|z l].
    + rewrite app_nil_r in Hx. simpl in Hr. subst a r.
      apply (H2 [] y eq_refl). exact Hb.
    + subst r. apply (H1 a (z :: l) Hx); [discriminate | exact Hb].
  - subst a. rewrite bol_after_app in Hb. apply (H2 l r Hy). exact Hb.
Qed.

Lemma has_block_starts b r :
  has_block b r -> b = true /\ startswith open_fence r = true.
Proof.
  intros (Hb & ws1 & c & tail & _ & ->). split; [exact Hb|].
  apply startswith_app.
Qed.

(** A prefix free of [x] ends before the first [x]. *)
Lemma prefix_before_char (r p w z : text) (x : char) :
  r ++ x :: z = p ++ w -> ~ In x p -> exists r2, r = p ++ r2.
Proof.
  revert r; induction p as [|y p IH]; intros r E Hn.
  - exists r; reflexivity.
  - destruct r as [|y' r].
    + simpl in E. injection E as E1 _. subst y. exfalso; apply Hn; left; reflexivity.
    + simpl in E. injection E as E1 E2. subst y'.
      destruct (IH r E2) as [r2 ->]; [intros H; apply Hn; right; exact H|].
      exists r2; reflexivity.
Qed.

Lemma no_newline_app a b : no_newline (a ++ b) = no_newline a && no_newline b.
Proof. unfold no_newline. rewrite existsb_app, negb_orb. reflexivity. Qed.

Lemma no_newline_in t : no_newline t = true -> ~ In nl t.
Proof.
  unfold no_newline. intros H Hin. apply negb_true_iff in H.
  assert (E : existsb (fun c => char_eqb c nl) t = true)
    by (apply existsb_exists; exists nl; split; [exact Hin | apply char_eqb_refl]).
  congruence.
Qed.

Lemma last_char_in a c : last_char a = Some c -> In c a.
Proof.
  unfold last_char. destruct a as [|x a]; [discriminate|].
  intros H; injection H as <-.
  revert x; induction a as [|y a IH]; intros x; [left; reflexivity|].
  right. apply IH.
Qed.

Lemma image_line_split md rel :
  image_line md rel
  = (str "![" ++ stem md ++ str " diagram" ++ str "](" ++ rel ++ str ")")
    ++ [nl].
Proof. unfold image_line. rewrite <- !app_assoc. reflexivity. Qed.

Lemma image_line_clean md rel b y :
  no_newline (stem md) = true -> no_newline rel = true ->
  clean true y -> clean b (image_line md rel ++ y).
Proof.
  intros Hs Hr Hy. rewrite image_line_split.
  set (j := str "![" ++ stem md ++ str " diagram" ++ str "](" ++ rel ++ str ")").
  assert (Hj : no_newline j = true).
  { subst j. rewrite !no_newline_app, Hs, Hr. reflexivity. }
  apply clean_app.
  - intros a r E Hne Hb. apply has_block_starts in Hb. destruct Hb as [Hbol Hst].
    destruct a as [|x a].
    + simpl in E. subst r. subst j.
      change (str "![") with [33%N; 91%N] in Hst.
      cbn [app] in Hst. discriminate Hst.
    + assert (Hin : In nl (x :: a)).
      { cbn [bol_after] in Hbol.
        destruct (last_char (x :: a)) as [c|] eqn:El; [|discriminate].
        simpl in Hbol. apply char_eqb_eq in Hbol. subst c.
        apply last_char_in; exact El. }
      apply app_eq_app in E. destruct E as (l & [[E1 E2] | [E1 E2]]).
      * apply (no_newline_in j Hj). rewrite E1. apply in_or_app; left; exact Hin.
      * destruct l as [|z l].
        -- rewrite app_nil_r in E1. simpl in E2. subst r.
           apply (no_newline_in j Hj). rewrite <- E1. exact Hin.
        -- destruct l; [|destruct l; discriminate].
           simpl in E2. injection E2 as _ E2. congruence.
  - rewrite bol_after_app. exact Hy.
Qed.

Lemma skipn_split (t : text) last (a r : text) :
  last <= length t -> skipn last t = a ++ r ->
  firstn (last + length a) t = firstn last t ++ a
  /\ skipn (last + length a) t = r
  /\ last + length a <= length t.
Proof.
  intros Hl E.
  assert (Ht : t = (firstn last t ++ a) ++ r)
    by (rewrite <- app_assoc, <- E; symmetry; apply firstn_skipn).
  assert (Hlen : length (firstn last t ++ a) = last + length a)
    by (rewrite length_app, length_firstn; lia).
  repeat split.
  - rewrite Ht at 1. rewrite <- Hlen. apply firstn_exact.
  - rewrite Ht at 1. rewrite <- Hlen. apply skipn_exact.
  - apply (f_equal (@length char)) in Ht.
    rewrite !length_app, length_firstn in Ht. lia.
Qed.

Lemma last_char_firstn_some (t : text) q c :
  0 < q <= length t -> nth_error t (q - 1) = Some c ->
  last_char (firstn q t) = Some c.
Proof.
  intros Hq Hn.
  destruct (last_char (firstn q t)) as [c'|] eqn:E.
  - apply last_char_firstn in E; [|lia]. destruct E as [_ E]. congruence.
  - exfalso. unfold last_char in E.
    destruct (firstn q t) eqn:F; [|discriminate].
    apply (f_equal (@length char)) in F. rewrite length_firstn in F. simpl in F. lia.
Qed.

Lemma bol_at (t : text) last (a r : text) :
  last <= length t -> skipn last t = a ++ r ->
  resumes_cleanly t last = true -> bol_after true a = true ->
  startswith open_fence r = true ->
  at_bol (last_char (firstn (last + length a) t)) = true.
Proof.
  intros Hl E Hres Hbol Hst.
  destruct (skipn_split t last a r Hl E) as (Hf & _ & _). rewrite Hf.
  destruct a as [|x a].
  - rewrite app_nil_r. simpl in E.
    unfold resumes_cleanly in Hres. rewrite E, Hst in Hres.
    cbn [negb] in Hres. rewrite orb_false_r in Hres.
    destruct last as [|k]; [reflexivity|].
    cbn [Nat.eqb orb] in Hres.
    destruct (nth_error t (S k - 1)) as [c|] eqn:En; [|discriminate].
    rewrite (last_char_firstn_some t (S k) c); [exact Hres | lia | exact En].
  - rewrite last_char_app by discriminate. exact Hbol.
Qed.

Lemma bang_not_in_opening ws1 :
  forallb isspace ws1 = true -> ~ In 33%N (open_fence ++ ws1 ++ [nl]).
Proof.
  intros F H. apply in_app_or in H. destruct H as [H|H].
  - vm_compute in H. intuition discriminate.
  - apply in_app_or in H. destruct H as [H|H].
    + rewrite forallb_forall in F. specialize (F _ H). discriminate.
    + simpl in H. destruct H as [H|[]]. discriminate.
Qed.

Lemma gap_no_block t lo last s y :
  no_match_between MERMAID_BLOCK_RE t lo s -> lo <= last ->
  match_in MERMAID_BLOCK_RE t s <> None ->
  resumes_cleanly t last = true ->
  (exists z, y = 33%N :: z) ->
  forall a r, slice t last s = a ++ r -> r <> [] ->
              ~ has_block (bol_after true a) (r ++ y).
Proof.
  intros Hgap Hlo Hs Hres (z & ->) a r E Hne Hb.
  unfold slice in E.
  assert (Hlen : length (a ++ r) <= s - last).
  { rewrite <- E, length_firstn. lia. }
  assert (Hr : 0 < length r) by (destruct r; [congruence | simpl; lia]).
  rewrite length_app in Hlen.
  assert (Hlast : last <= length t).
  { destruct (Nat.le_gt_cases last (length t)) as [H|H]; [exact H|].
    rewrite skipn_all2 in E by lia. rewrite firstn_nil in E.
    destruct a; [simpl in E; subst r; simpl in Hr; lia | discriminate]. }
  assert (E' : skipn last t = a ++ (r ++ skipn s t)).
  { rewrite <- (firstn_skipn (s - last) (skipn last t)) at 1.
    rewrite E, skipn_skipn, <- app_assoc.
    replace (s - last + last) with s by lia. reflexivity. }
  destruct (skipn_split t last a _ Hlast E') as (_ & Hsk & _).
  pose proof Hb as Hb'. destruct Hb' as (Hbol & ws1 & c & tail & F1 & Hry).
  assert (Hp : exists r2, r = (open_fence ++ ws1 ++ [nl]) ++ r2).
  { apply (prefix_before_char r (open_fence ++ ws1 ++ [nl])
                                (c ++ close_fence ++ tail) z 33%N).
    - etransitivity; [exact Hry|]. rewrite <- !app_assoc. reflexivity.
    - apply bang_not_in_opening; exact F1. }
  destruct Hp as [r2 Hr2].
  apply match_in_some_iff in Hs.
  destruct Hs as (_ & ws1' & c' & tail' & F1' & Hs').
  assert (Hq : match_in MERMAID_BLOCK_RE t (last + length a) <> None).
  { apply match_in_some_iff. split.
    - apply (bol_at t last a (r ++ skipn s t) Hlast E' Hres Hbol).
      rewrite Hr2, <- !app_assoc. apply startswith_app.
    - exists ws1, (r2 ++ open_fence ++ ws1' ++ nl :: c'), tail'.
      split; [exact F1|]. rewrite Hsk, Hr2, Hs'.
      repeat (rewrite <- app_assoc); cbn [app];
        repeat (rewrite <- app_assoc); reflexivity. }
  apply Hq, Hgap. lia.
Qed.

Lemma tail_clean t lo last :
  no_match_between MERMAID_BLOCK_RE t lo (S (length t)) -> lo <= last ->
  resumes_cleanly t last = true -> clean true (skipn last t).
Proof.
  intros Hgap Hlo Hres a r E Hb.
  destruct (Nat.le_gt_cases last (length t)) as [Hl|Hl].
  - destruct (skipn_split t last a r Hl E) as (_ & Hsk & Hq).
    pose proof (has_block_starts _ _ Hb) as [Hbol Hst].
    assert (Hm : match_in MERMAID_BLOCK_RE t (last + length a) <> None).
    { apply match_in_some_iff. rewrite Hsk.
      rewrite (bol_at t last a r Hl E Hres Hbol Hst).
      rewrite Hbol in Hb. exact Hb. }
    apply Hm, Hgap. lia.
  - rewrite skipn_all2 in E by lia.
    destruct a; [|discriminate]. simpl in E. subst r.
    apply has_block_starts in Hb. destruct Hb as [_ Hb]. discriminate.
Qed.

Lemma replace_out_clean t md :
  no_newline (stem md) = true ->
  forall pairs lo last,
    gaps_free MERMAID_BLOCK_RE t lo (map (fun p => fst (fst p)) pairs) ->
    lo <= last -> resumes_cleanly t last = true ->
    forallb (fun p => no_newline (snd p)) pairs = true ->
    resumes_cleanly_after t (map fst pairs) = true ->
    clean true (replace_out t md pairs last).
Proof.
  intros Hstem pairs.
  induction pairs as [|[[[s e] op] rel] ps IH]; intros lo last Hg Hlo Hres Hnl Hra.
  - simpl in Hg |- *. apply (tail_clean t lo last Hg Hlo Hres).
  - cbn [map fst gaps_free] in Hg. destruct Hg as (Hgap & Hs & Hg).
    cbn [forallb snd] in Hnl. apply andb_true_iff in Hnl. destruct Hnl as [Hrel Hnl].
    unfold resumes_cleanly_after in Hra. cbn [map forallb fst snd] in Hra.
    apply andb_true_iff in Hra. destruct Hra as [Hr1 Hra].
    cbn [replace_out].
    assert (Hrest : clean true
              (replace_out t md ps
                 (e + replace_skip_extra (slice t e (e + LOOKAHEAD_REPLACE))
                                         (name op)))).
    { apply (IH e); auto. lia. }
    apply clean_app.
    + apply (gap_no_block t lo last s); auto.
      rewrite image_line_split.
      change (str "![") with [33%N; 91%N]. cbn [app]. eexists; reflexivity.
    + apply image_line_clean; assumption.
Qed.

Lemma combine_fst_all {A B} (l : list A) (l' : list B) :
  length l <= length l' -> map fst (combine l l') = l.
Proof.
  revert l'; induction l as [|x l IH]; intros [|y l'] H; simpl in *;
    try reflexivity; try lia.
  rewrite IH by lia. reflexivity.
Qed.

Lemma forallb_combine_snd {A B} (f : B -> bool) (l : list A) (l' : list B) :
  forallb f l' = true -> forallb (fun p => f (snd p)) (combine l l') = true.
Proof.
  revert l'; induction l as [|x l IH]; intros [|y l'] H; simpl in *;
    try reflexivity.
  apply andb_true_iff in H. destruct H as [-> H]. simpl. apply IH; exact H.
Qed.

Lemma forallb_map_snd {A B} (f : B -> bool) (l : list (A * B)) :
  forallb f (map snd l) = forallb (fun p => f (snd p)) l.
Proof. induction l as [|x l IH]; simpl; [reflexivity | rewrite IH; reflexivity]. Qed.

(* ================================================================== *)
(** * Lemmas: append mode run again *)
(* ================================================================== *)

(** When every paired block is taken for rendered, nothing is inserted. *)
Lemma append_out_noop u md hi pairs : forall last,
  ends_within last pairs hi ->
  forallb (fun p => already_rendered u (snd (fst (fst p))) (name (snd (fst p))))
          pairs = true ->
  append_out u md pairs last = slice_from u last.
Proof.
  induction pairs as [|[[[s e] op] rel] ps IH]; intros last He Hd;
    cbn [append_out]; [reflexivity|].
  cbn [ends_within fst snd] in He. destruct He as [Hle He].
  cbn [forallb fst snd] in Hd. apply andb_true_iff in Hd. destruct Hd as [Hd Hds].
  rewrite Hd, (IH e He Hds). apply slice_then_rest; exact Hle.
Qed.

Lemma appended_text_split md rel nm :
  appended_text md rel nm
  = (nl :: str "![" ++ stem md ++ str " diagram" ++ str "](" ++ rel ++ str ")"
        ++ [nl])
    ++ MARKER_PREFIX ++ (nm ++ str " -->" ++ [nl]).
Proof. unfold appended_text. cbn [app]. rewrite <- !app_assoc. reflexivity. Qed.

Lemma appended_text_head_length md rel :
  length (nl :: str "![" ++ stem md ++ str " diagram" ++ str "](" ++ rel
             ++ str ")" ++ [nl])
  = length (stem md) + length rel + 15.
Proof. cbn [length]. rewrite !length_app. simpl. lia. Qed.

Lemma contains_firstn_app n a sub b :
  length a + length sub <= n -> contains sub (firstn n (a ++ sub ++ b)) = true.
Proof.
  intros H. apply contains_iff.
  exists a, (firstn (n - length a - length sub) b).
  rewrite firstn_app. replace (firstn n a) with a by (symmetry; apply firstn_all2; lia).
  f_equal. rewrite firstn_app.
  replace (firstn (n - length a) sub) with sub
    by (symmetry; apply firstn_all2; lia).
  reflexivity.
Qed.

(** The appended text is recognised from its first or second character. *)
Lemma appended_text_detected u x md rel nm rest e' any_name :
  u = x ++ appended_text md rel nm ++ rest ->
  length (stem md) + length rel + 33 <= LOOKAHEAD_APPEND ->
  e' = length x \/ e' = length x + 1 ->
  already_rendered u e' any_name = true.
Proof.
  intros Hu Hshort He. unfold already_rendered.
  apply orb_true_iff; right. unfold slice.
  replace (e' + LOOKAHEAD_APPEND - e') with LOOKAHEAD_APPEND by lia.
  rewrite Hu, appended_text_split.
  pose proof (appended_text_head_length md rel) as Hl.
  set (h := str "![" ++ stem md ++ str " diagram" ++ str "](" ++ rel ++ str ")"
            ++ [nl]) in *.
  change (length MARKER_PREFIX) with 18 in *.
  destruct He as [-> | ->].
  - rewrite skipn_exact, <- !app_assoc.
    apply (contains_firstn_app LOOKAHEAD_APPEND (nl :: h) MARKER_PREFIX).
    change (length MARKER_PREFIX) with 18. lia.
  - replace (x ++ ((nl :: h) ++ MARKER_PREFIX ++ nm ++ str " -->" ++ [nl]) ++ rest)
      with ((x ++ [nl]) ++ h ++ MARKER_PREFIX ++ (nm ++ str " -->" ++ [nl]) ++ rest).
    + replace (length x + 1) with (length (x ++ [nl]))
        by (rewrite length_app; reflexivity).
      rewrite skipn_exact.
      apply (contains_firstn_app LOOKAHEAD_APPEND h MARKER_PREFIX).
      change (length MARKER_PREFIX) with 18.
      cbn [length] in Hl. lia.
    + repeat (rewrite <- app_assoc); cbn [app];
        repeat (rewrite <- app_assoc); reflexivity.
Qed.

Lemma ends_within_le lo pairs hi : ends_within lo pairs hi -> lo <= hi.
Proof.
  revert lo; induction pairs as [|p ps IH]; intros lo H; simpl in H; [exact H|].
  destruct H as [H1 H2]. apply IH in H2. lia.
Qed.

Lemma slice_length (t : text) a b :
  a <= b -> b <= length t -> length (slice t a b) = b - a.
Proof.
  intros Hab Hb. unfold slice. rewrite length_firstn, length_skipn. lia.
Qed.

Lemma appended_text_nonempty md rel nm : 1 <= length (appended_text md rel nm).
Proof. unfold appended_text. cbn [app length]. lia. Qed.

(** The second application, on the text [u] the first one produced: [p] is
    the part of [u] built before the offset [last] of the original, [off]
    the length of what was inserted into it. *)
Lemma append_again_noop t md u : forall pairs pairs' last p off last',
  u = p ++ append_out t md pairs last ->
  length p = last + off -> last' <= last + off ->
  ends_within last pairs (length t) ->
  none_rendered t pairs = true -> short_links md pairs = true ->
  same_blocks_after md off pairs pairs' ->
  append_out u md pairs' last' = slice_from u last'.
Proof.
  induction pairs as [|[[[s e] op] rel] ps IH];
    intros pairs' last p off last' Hu Hp Hl He Hf Hs Hsame.
  - destruct pairs'; [reflexivity | destruct Hsame].
  - destruct pairs' as [|[[[s' e'] op'] rel'] ps']; [destruct Hsame|].
    cbn [same_blocks_after fst snd] in Hsame.
    destruct Hsame as (-> & -> & He' & Hsame).
    cbn [ends_within fst snd] in He. destruct He as [Hle He].
    pose proof (ends_within_le _ _ _ He) as Hte.
    cbn [none_rendered forallb fst snd] in Hf.
    apply andb_true_iff in Hf. destruct Hf as [Hf1 Hf].
    apply negb_true_iff in Hf1.
    cbn [short_links forallb snd] in Hs.
    apply andb_true_iff in Hs. destruct Hs as [Hs1 Hs].
    apply Nat.leb_le in Hs1.
    cbn [append_out] in Hu. rewrite Hf1 in Hu.
    set (j := appended_text md rel (name op)) in *.
    assert (Hx : length (p ++ slice t last e) = e + off).
    { rewrite length_app, slice_length by assumption. lia. }
    assert (Hd : already_rendered u e' (name op) = true).
    { apply (appended_text_detected u (p ++ slice t last e) md rel (name op)
               (append_out t md ps e)).
      - rewrite Hu, <- !app_assoc. reflexivity.
      - exact Hs1.
      - rewrite Hx. exact He'. }
    cbn [append_out]. rewrite Hd. cbn [app].
    pose proof (appended_text_nonempty md rel (name op)) as Hj. fold j in Hj.
    rewrite (IH ps' e (p ++ slice t last e ++ j) (off + length j) e').
    + apply slice_then_rest. lia.
    + rewrite Hu, <- !app_assoc. reflexivity.
    + rewrite !length_app, slice_length by assumption. lia.
    + lia.
    + exact He.
    + exact Hf.
    + exact Hs.
    + exact Hsame.
Qed.

(* ================================================================== *)
(** * Lemmas: the first match, computed directly *)
(* ================================================================== *)

Lemma first_proj_app l1 l2 :
  first_proj (l1 ++ l2)
  = match first_proj l1 with Some r => Some r | None => first_proj l2 end.
Proof. destruct l1; reflexivity. Qed.

Lemma after_lit_fields t : forall s,
  m_pos (after_lit t s) = m_pos s + length t
  /\ m_rest (after_lit t s) = skipn (length t) (m_rest s)
  /\ m_group (after_lit t s) = m_group s.
Proof.
  induction t as [|c t IH]; intros s; simpl.
  - rewrite Nat.add_0_r. auto.
  - destruct (IH (MState (S (m_pos s)) (Some c) (tl (m_rest s)) (m_group s)))
      as (H1 & H2 & H3). simpl in *. rewrite H1, H2, H3.
    repeat split; [lia|]. destruct (m_rest s); [|reflexivity].
    simpl. apply skipn_nil.
Qed.

Lemma run_lit_list t : forall s,
  run (lit t) s = if startswith t (m_rest s) then [after_lit t s] else [].
Proof.
  induction t as [|c t IH]; intros s.
  - reflexivity.
  - change (lit (c :: t)) with (Seq (Chr (One c)) (lit t)).
    cbn [run startswith after_lit]. destruct s as [p pv rest g]; cbn [m_rest m_pos m_group].
    destruct rest as [|x xs]; [reflexivity|].
    cbn [cset_mem tl]. unfold char_eqb. rewrite (N.eqb_sym x c).
    destruct (N.eqb c x) eqn:E; cbn [flat_map andb]; [|reflexivity].
    apply N.eqb_eq in E. subst x.
    rewrite app_nil_r, IH. reflexivity.
Qed.

Lemma flat_map_eps l : flat_map (run Eps) l = l.
Proof.
  induction l as [|s l IH]; [reflexivity|].
  cbn [flat_map]. rewrite IH. reflexivity.
Qed.

Lemma star_ws_first rest : forall pos prev g,
  exists s', hd_error (star Whitespace pos prev rest g) = Some s'
             /\ m_pos s' = pos + ws_len rest /\ m_group s' = g
             /\ m_rest s' = skipn (ws_len rest) rest.
Proof.
  induction rest as [|x xs IH]; intros pos prev g; cbn [star ws_len cset_mem].
  - eexists; split; [reflexivity|]. simpl. rewrite Nat.add_0_r. auto.
  - destruct (isspace x).
    + destruct (IH (S pos) (Some x) g) as (s' & H & Hp & Hg & Hr).
      exists s'. destruct (star Whitespace (S pos) (Some x) xs g); [discriminate|].
      simpl in H |- *. repeat split; auto. lia.
    + eexists; split; [reflexivity|]. simpl. rewrite Nat.add_0_r. auto.
Qed.

Lemma tail3_first s :
  first_proj (run (Seq (Star Whitespace) Eps) s)
  = Some (m_pos s + ws_len (m_rest s), m_group s).
Proof.
  cbn [run]. rewrite flat_map_eps.
  destruct (star_ws_first (m_rest s) (m_pos s) (m_prev s) (m_group s))
    as (s' & H & Hp & Hg & _).
  destruct (star _ _ _ _ _); [discriminate|]. simpl in H. inversion H; subst.
  simpl. rewrite Hp, Hg. reflexivity.
Qed.

Lemma tail2_first s :
  first_proj (run (Seq (lit close_fence) (Seq (Star Whitespace) Eps)) s)
  = if startswith close_fence (m_rest s)
    then Some (m_pos s + 4 + ws_len (skipn 4 (m_rest s)), m_group s)
    else None.
Proof.
  change (run (Seq (lit close_fence) (Seq (Star Whitespace) Eps)) s)
    with (flat_map (run (Seq (Star Whitespace) Eps)) (run (lit close_fence) s)).
  rewrite run_lit_list.
  destruct (startswith close_fence (m_rest s)); [|reflexivity].
  cbn [flat_map]. rewrite app_nil_r, tail3_first.
  destruct (after_lit_fields close_fence s) as (H1 & H2 & H3).
  rewrite H1, H2, H3. reflexivity.
Qed.

Lemma lazy_first s0 rest : forall pre pos prev g,
  m_rest s0 = pre ++ rest -> pos = m_pos s0 + length pre ->
  first_proj (flat_map (run tail2)
                (map (capture s0) (lazy_star AnyChar pos prev rest g)))
  = match find close_fence rest with
    | Some j => Some (pos + j + 4 + ws_len (skipn (j + 4) rest),
                      Some (pre ++ firstn j rest))
    | None => None
    end.
Proof.
  induction rest as [|x xs IH]; intros pre pos prev g Hr Hp.
  - cbn [lazy_star map flat_map]. rewrite app_nil_r.
    unfold tail2. rewrite tail2_first. reflexivity.
  - cbn [lazy_star cset_mem map flat_map]. rewrite first_proj_app.
    unfold tail2 at 1. rewrite tail2_first. cbn [capture m_rest m_pos m_group].
    cbn [find]. destruct (startswith close_fence (x :: xs)) eqn:E.
    + rewrite Nat.add_0_r. cbn [firstn]. rewrite app_nil_r.
      do 3 f_equal. rewrite Hr, Hp.
      replace (m_pos s0 + length pre - m_pos s0) with (length pre) by lia.
      apply firstn_exact.
    + rewrite (IH (pre ++ [x]) (S pos) (Some x) g).
      * destruct (find close_fence xs) as [j|]; [|reflexivity].
        cbn [option_map]. rewrite <- app_assoc. cbn [app firstn skipn Nat.add].
        do 3 f_equal. lia.
      * rewrite Hr, <- app_assoc. reflexivity.
      * rewrite length_app. simpl. lia.
Qed.

Lemma tail0_first s :
  first_proj (run tail0 s) = at_offset (m_pos s) (nl_then (m_rest s)).
Proof.
  unfold tail0, tail1.
  change (run (Seq (Chr (One nl)) (Seq (Group (LazyStar AnyChar)) tail2)) s)
    with (flat_map (run (Seq (Group (LazyStar AnyChar)) tail2))
                   (run (Chr (One nl)) s)).
  cbn [run]. destruct s as [p pv rest g]. cbn [m_rest m_pos m_group m_prev].
  destruct rest as [|x xs]; [reflexivity|].
  cbn [cset_mem nl_then]. destruct (char_eqb x nl); [|reflexivity].
  cbn [flat_map]. rewrite app_nil_r.
  change (fun s' : mstate =>
            MState (m_pos s') (m_prev s') (m_rest s')
              (Some (firstn (m_pos s' - m_pos (MState (S p) (Some x) xs g))
                            (m_rest (MState (S p) (Some x) xs g)))))
    with (capture (MState (S p) (Some x) xs g)).
  cbn [m_pos m_prev m_rest m_group].
  rewrite (lazy_first (MState (S p) (Some x) xs g) xs [] (S p) (Some x) g);
    [|reflexivity | simpl; lia].
  unfold close_at. destruct (find close_fence xs) as [j|]; [|reflexivity].
  cbn [longer at_offset app]. do 2 f_equal. lia.
Qed.

Lemma tailW_first rest : forall pos prev g,
  first_proj (flat_map (run tail0) (star Whitespace pos prev rest g))
  = at_offset pos (open_ws rest).
Proof.
  induction rest as [|x xs IH]; intros pos prev g.
  - cbn [star flat_map]. rewrite app_nil_r, tail0_first. reflexivity.
  - cbn [star cset_mem open_ws]. destruct (isspace x).
    + rewrite flat_map_app, first_proj_app, IH.
      destruct (open_ws xs) as [[n c]|].
      * cbn [at_offset longer]. do 2 f_equal. lia.
      * cbn [at_offset flat_map]. rewrite app_nil_r, tail0_first. reflexivity.
    + cbn [flat_map]. rewrite app_nil_r, tail0_first. reflexivity.
Qed.

Lemma match_at_first_proj r pos prev rest :
  match_at r pos prev rest
  = match first_proj (run r (MState pos prev rest None)) with
    | Some (e, g) =>
        Some (RMatch pos e (match g with Some c => c | None => [] end))
    | None => None
    end.
Proof. unfold match_at. destruct (run r _); reflexivity. Qed.

Lemma match_at_direct pos prev rest :
  match_at MERMAID_BLOCK_RE pos prev rest
  = match block_at (at_bol prev) rest with
    | Some (n, c) => Some (RMatch pos (pos + n) c)
    | None => None
    end.
Proof.
  rewrite match_at_first_proj.
  change MERMAID_BLOCK_RE
    with (Seq Bol (Seq (lit open_fence) (Seq (Star Whitespace) tail0))).
  change (run (Seq Bol (Seq (lit open_fence) (Seq (Star Whitespace) tail0)))
              (MState pos prev rest None))
    with (flat_map (run (Seq (lit open_fence) (Seq (Star Whitespace) tail0)))
                   (run Bol (MState pos prev rest None))).
  cbn [run m_prev]. unfold block_at.
  destruct (at_bol prev); [|reflexivity].
  cbn [flat_map andb]. rewrite app_nil_r.
  change (run (Seq (lit open_fence) (Seq (Star Whitespace) tail0))
              (MState pos prev rest None))
    with (flat_map (run (Seq (Star Whitespace) tail0))
                   (run (lit open_fence) (MState pos prev rest None))).
  rewrite run_lit_list. cbn [m_rest].
  destruct (startswith open_fence rest); [|reflexivity].
  cbn [flat_map]. rewrite app_nil_r.
  destruct (after_lit_fields open_fence (MState pos prev rest None))
    as (H1 & H2 & H3).
  change (run (Seq (Star Whitespace) tail0)
              (after_lit open_fence (MState pos prev rest None)))
    with (flat_map (run tail0)
            (run (Star Whitespace)
                 (after_lit open_fence (MState pos prev rest None)))).
  cbn [run]. rewrite tailW_first, H1, H2. cbn [m_pos m_rest].
  change (length open_fence) with 10.
  destruct (open_ws (skipn 10 rest)) as [[n c]|]; [|reflexivity].
  cbn [at_offset]. do 2 f_equal. lia.
Qed.

(* ================================================================== *)
(** * Lemmas: a match whose continuation changes *)
(* ================================================================== *)

Lemma startswith_app_long sub p x :
  length sub <= length p -> startswith sub (p ++ x) = startswith sub p.
Proof.
  revert p; induction sub as [|c sub IH]; intros p H; [reflexivity|].
  destruct p as [|y p]; [simpl in H; lia|].
  cbn [app startswith]. rewrite IH by (simpl in H; lia). reflexivity.
Qed.

Lemma find_stable sub p x y : forall j,
  find sub (p ++ x) = Some j -> j + length sub <= length p ->
  find sub (p ++ y) = Some j.
Proof.
  induction p as [|a p IH]; intros j Hf Hj.
  - simpl in Hj. assert (length sub = 0) by lia.
    destruct sub; [|discriminate]. destruct j; [|lia].
    destruct y; reflexivity.
  - cbn [app find] in Hf |- *.
    assert (Hs : startswith sub (a :: p ++ y) = startswith sub (a :: p ++ x)).
    { change (a :: p ++ y) with ((a :: p) ++ y).
      change (a :: p ++ x) with ((a :: p) ++ x).
      rewrite !startswith_app_long by lia. reflexivity. }
    rewrite Hs. destruct (startswith sub (a :: p ++ x)); [exact Hf|].
    destruct (find sub (p ++ x)) as [k|] eqn:E; [|discriminate].
    cbn [option_map] in Hf. injection Hf as <-.
    rewrite (IH k eq_refl); [reflexivity | simpl in Hj; lia].
Qed.

Lemma find_some_at sub t j :
  find sub t = Some j -> j <= length t /\ startswith sub (skipn j t) = true.
Proof.
  revert j; induction t as [|x t IH]; intros j; cbn [find].
  - destruct (startswith sub []) eqn:E; [|discriminate].
    intros H; injection H as <-. split; [lia | exact E].
  - destruct (startswith sub (x :: t)) eqn:E.
    + intros H; injection H as <-. split; [lia | exact E].
    + destruct (find sub t) as [k|]; [|discriminate].
      cbn [option_map]. intros H; injection H as <-.
      destruct (IH k eq_refl) as [H1 H2]. split; [simpl; lia | exact H2].
Qed.

Lemma ws_len_le t : ws_len t <= length t.
Proof. induction t as [|x t IH]; simpl; [lia|]. destruct (isspace x); simpl; lia. Qed.

Lemma ws_len_app v x :
  forallb isspace v = true -> ws_len (v ++ x) = length v + ws_len x.
Proof.
  induction v as [|c v IH]; [reflexivity|]. cbn [forallb app ws_len length].
  intros H. apply andb_true_iff in H. destruct H as [-> H].
  rewrite IH by exact H. reflexivity.
Qed.

Lemma ws_len_exact v x :
  ws_len (v ++ x) = length v -> forallb isspace v = true /\ ws_len x = 0.
Proof.
  induction v as [|c v IH]; cbn [app ws_len length forallb].
  - intros H. split; [reflexivity | exact H].
  - destruct (isspace c); [|discriminate].
    intros H. injection H as H. apply IH in H. exact H.
Qed.

Lemma close_at_ext v x x' c :
  close_at (v ++ x) = Some (length v, c) ->
  close_at (v ++ x') = Some (length v + ws_len x', c).
Proof.
  unfold close_at. destruct (find close_fence (v ++ x)) as [j|] eqn:E;
    [|discriminate].
  intros H. injection H as Hn Hc.
  pose proof (ws_len_le (skipn (j + 4) (v ++ x))) as Hw.
  assert (Hj : j + 4 <= length v) by lia.
  rewrite (find_stable close_fence v x x' j E)
    by (change (length close_fence) with 4; exact Hj).
  rewrite skipn_app in Hn |- *.
  replace (j + 4 - length v) with 0 in * by lia. cbn [skipn] in *.
  assert (Hv : ws_len (skipn (j + 4) v ++ x) = length (skipn (j + 4) v))
    by (rewrite length_skipn; lia).
  apply ws_len_exact in Hv. destruct Hv as [Hv _].
  rewrite (ws_len_app _ x' Hv), length_skipn.
  rewrite firstn_app in Hc |- *.
  replace (j - length v) with 0 in * by lia. cbn [firstn] in *.
  rewrite Hc. f_equal. f_equal. lia.
Qed.

Lemma nl_is_space x : char_eqb x nl = true -> isspace x = true.
Proof. intros H. apply char_eqb_eq in H. subst x. reflexivity. Qed.

Lemma no_new_fence_tail a v x x' :
  no_new_fence (a :: v) x x' -> no_new_fence v x x'.
Proof.
  intros H u w Hv Hw. apply (H (a :: u) w); [rewrite Hv; reflexivity | exact Hw].
Qed.

Lemma open_ws_none v x x' :
  has_nonspace v = true -> no_new_fence v x x' ->
  open_ws (v ++ x) = None -> open_ws (v ++ x') = None.
Proof.
  induction v as [|a v IH]; intros Hn Hnc Ho; [discriminate|].
  cbn [app open_ws] in Ho |- *.
  destruct (isspace a) eqn:Ea.
  - destruct (open_ws (v ++ x)) as [[n c]|] eqn:Eo; [discriminate|].
    cbn [has_nonspace existsb] in Hn. rewrite Ea in Hn. cbn [negb orb] in Hn.
    rewrite (IH Hn (no_new_fence_tail _ _ _ _ Hnc) eq_refl).
    cbn [nl_then] in Ho |- *. destruct (char_eqb a nl); [|reflexivity].
    unfold close_at in Ho |- *.
    destruct (find close_fence (v ++ x)) as [j|] eqn:Ef; [discriminate|].
    rewrite (Hnc [a] v eq_refl); [reflexivity | | exact Ef].
    intros ->. discriminate.
  - cbn [nl_then]. destruct (char_eqb a nl) eqn:En; [|reflexivity].
    apply nl_is_space in En. congruence.
Qed.

Lemma close_at_min r n c : close_at r = Some (n, c) -> 4 <= n.
Proof.
  unfold close_at. destruct (find close_fence r); [|discriminate].
  intros H; injection H as <- _. lia.
Qed.

Lemma close_at_nonspace v x c :
  close_at (v ++ x) = Some (length v, c) -> has_nonspace v = true.
Proof.
  unfold close_at. destruct (find close_fence (v ++ x)) as [j|] eqn:E;
    [|discriminate].
  intros H. injection H as Hn _.
  assert (Hj : j + 4 <= length v) by lia.
  apply find_some_at in E. destruct E as [_ E].
  rewrite skipn_app in E. replace (j - length v) with 0 in E by lia.
  cbn [skipn] in E.
  assert (Hl : 4 <= length (skipn j v)) by (rewrite length_skipn; lia).
  destruct (skipn j v) as [|a [|b l]] eqn:Es; try (simpl in Hl; lia).
  cbn [app startswith close_fence fence] in E.
  apply andb_true_iff in E. destruct E as [_ E].
  apply andb_true_iff in E. destruct E as [E _].
  apply char_eqb_eq in E. subst b.
  rewrite <- (firstn_skipn j v), Es. unfold has_nonspace.
  rewrite existsb_app. apply orb_true_iff. right.
  cbn [existsb]. apply orb_true_iff. right. reflexivity.
Qed.

Lemma open_ws_min r n c : open_ws r = Some (n, c) -> 5 <= n.
Proof.
  assert (Hnl : forall r n c, nl_then r = Some (n, c) -> 5 <= n).
  { intros r0 n0 c0. unfold nl_then. destruct r0 as [|x xs]; [discriminate|].
    destruct (char_eqb x nl); [|discriminate].
    destruct (close_at xs) as [[k c']|] eqn:E; [|discriminate].
    apply close_at_min in E. cbn [longer]. intros H; injection H as <- _. lia. }
  revert n c; induction r as [|x xs IH]; intros n c; cbn [open_ws].
  - apply Hnl.
  - destruct (isspace x); [|apply Hnl].
    destruct (open_ws xs) as [[k c']|]; [|apply Hnl].
    cbn [longer]. intros H; injection H as <- _. specialize (IH k c' eq_refl). lia.
Qed.

Lemma open_ws_ext v x x' c :
  no_new_fence v x x' ->
  open_ws (v ++ x) = Some (length v, c) ->
  open_ws (v ++ x') = Some (length v + ws_len x', c).
Proof.
  induction v as [|a v IH]; intros Hnc Ho.
  - apply open_ws_min in Ho. simpl in Ho. lia.
  - cbn [app open_ws length] in Ho |- *.
    assert (Hnl : nl_then (a :: v ++ x) = Some (S (length v), c) ->
                  open_ws (v ++ x) = None ->
                  open_ws (v ++ x') = None
                  /\ nl_then (a :: v ++ x')
                     = Some (S (length v) + ws_len x', c)).
    { cbn [nl_then]. destruct (char_eqb a nl); [|discriminate].
      destruct (close_at (v ++ x)) as [[k c']|] eqn:Ec; [|discriminate].
      cbn [longer]. intros H Hnone. injection H as -> ->.
      split.
      - apply (open_ws_none v x x'); auto.
        + apply (close_at_nonspace v x c Ec).
        + apply (no_new_fence_tail a); exact Hnc.
      - rewrite (close_at_ext v x x' c Ec). reflexivity. }
    destruct (isspace a) eqn:Ea.
    + destruct (open_ws (v ++ x)) as [[n c']|] eqn:Eo.
      * cbn [longer] in Ho. injection Ho as -> ->.
        rewrite (IH (no_new_fence_tail _ _ _ _ Hnc) eq_refl). reflexivity.
      * destruct (Hnl Ho eq_refl) as [-> ->]. reflexivity.
    + exfalso. cbn [nl_then] in Ho.
      destruct (char_eqb a nl) eqn:En; [|discriminate].
      apply nl_is_space in En. congruence.
Qed.

Lemma block_at_ext b x x' c :
  no_new_fence (skipn 10 b) x x' ->
  block_at true (b ++ x) = Some (length b, c) ->
  block_at true (b ++ x') = Some (length b + ws_len x', c).
Proof.
  unfold block_at. cbn [andb]. intros Hnc.
  destruct (startswith open_fence (b ++ x)) eqn:Es; [|discriminate].
  destruct (open_ws (skipn 10 (b ++ x))) as [[n c']|] eqn:Eo; [|discriminate].
  intros H. injection H as Hn ->.
  assert (Hb : 10 <= length b) by lia.
  rewrite startswith_app_long in Es |- * by (change (length open_fence) with 10; lia).
  rewrite Es. rewrite skipn_app in Eo |- *.
  replace (10 - length b) with 0 in * by lia.
  change (skipn 0 x) with x in Eo. change (skipn 0 x') with x'.
  assert (Hl : length (skipn 10 b) = n) by (rewrite length_skipn; lia).
  remember (skipn 10 b) as v eqn:Ev. rewrite <- Hl in Eo.
  rewrite (open_ws_ext v x x' c Hnc Eo), Hl. f_equal. f_equal. lia.
Qed.

Lemma no_backtick_in t : no_backtick t = true -> ~ In backtick t.
Proof.
  unfold no_backtick. intros H Hin. apply negb_true_iff in H.
  assert (E : existsb (fun c => char_eqb c backtick) t = true)
    by (apply existsb_exists; exists backtick; split;
        [exact Hin | apply char_eqb_refl]).
  congruence.
Qed.

Lemma last_char_snoc_inv a c : last_char a = Some c -> exists a0, a = a0 ++ [c].
Proof.
  unfold last_char. destruct a as [|x a]; [discriminate|].
  intros H. injection H as H. exists (removelast (x :: a)).
  rewrite <- H. apply (@app_removelast_last char (x :: a) 0%N). discriminate.
Qed.

(** Inserting text without backticks creates a line break followed by three
    backticks only where the text after it begins with three backticks; if
    the text before then ends with a line break, there was one already. *)
Lemma insert_one a j r :
  no_backtick j = true -> 2 <= length j ->
  (startswith fence r = true -> last_char a = Some nl) ->
  contains close_fence (a ++ j ++ r) = true ->
  contains close_fence (a ++ r) = true.
Proof.
  intros Hj Hlen Hjunc Hc.
  pose proof (no_backtick_in j Hj) as Hnb.
  apply contains_iff in Hc. destruct Hc as (p & q & E).
  apply contains_iff.
  apply app_eq_app in E. destruct E as (l & [[Ea El] | [Ep El]]).
  - destruct l as [|l1 [|l2 [|l3 [|l4 l']]]].
    + exfalso. simpl in El. destruct j as [|j1 [|j2 j']]; try (simpl in Hlen; lia).
      injection El as _ E2 _. apply Hnb. right; left. symmetry; exact E2.
    + exfalso. destruct j as [|j1 j']; [simpl in Hlen; lia|].
      injection El as _ E2 _. apply Hnb. left. symmetry; exact E2.
    + exfalso. destruct j as [|j1 j']; [simpl in Hlen; lia|].
      injection El as _ _ E3 _. apply Hnb. left. symmetry; exact E3.
    + exfalso. destruct j as [|j1 j']; [simpl in Hlen; lia|].
      injection El as _ _ _ E4 _. apply Hnb. left. symmetry; exact E4.
    + injection El as <- <- <- <- _.
      exists p, (l' ++ r). rewrite Ea, <- !app_assoc. reflexivity.
  - apply app_eq_app in El. destruct El as (l2 & [[Ej Er] | [El Er]]).
    + destruct l2 as [|c1 [|c2 l2']].
      * simpl in Er. exists a, q. rewrite <- Er. reflexivity.
      * injection Er as <- Er.
        assert (Hs : startswith fence r = true)
          by (rewrite <- Er; reflexivity).
        destruct (last_char_snoc_inv a nl (Hjunc Hs)) as [a0 ->].
        exists a0, q. rewrite <- Er, <- !app_assoc. reflexivity.
      * exfalso. injection Er as _ E2 _. apply Hnb. rewrite Ej.
        apply in_or_app. right. right. left. symmetry; exact E2.
    + exists (a ++ l2), q. rewrite Er, <- !app_assoc. reflexivity.
Qed.

Lemma last_char_slice (t : text) lo e c :
  lo < e <= length t -> nth_error t (e - 1) = Some c ->
  last_char (slice t lo e) = Some c.
Proof.
  intros He Hn.
  assert (H : firstn e t = firstn lo t ++ slice t lo e).
  { unfold slice. rewrite <- (firstn_skipn lo t) at 1.
    rewrite firstn_app, length_firstn.
    replace (Nat.min lo (length t)) with lo by lia.
    rewrite firstn_firstn. replace (Nat.min e lo) with lo by lia. reflexivity. }
  assert (Hne : slice t lo e <> []).
  { intros E. apply (f_equal (@length char)) in E.
    rewrite slice_length in E by lia. simpl in E. lia. }
  rewrite <- (last_char_app (firstn lo t) _ Hne), <- H.
  apply last_char_firstn_some; [lia | exact Hn].
Qed.

Lemma resumes_bare_junction (t : text) e :
  0 < e -> resumes_bare t e = true -> startswith fence (skipn e t) = true ->
  nth_error t (e - 1) = Some nl.
Proof.
  unfold resumes_bare. intros He H Hs. rewrite Hs in H.
  cbn [negb] in H. rewrite orb_false_r in H.
  destruct e; [lia|]. cbn [Nat.eqb orb] in H.
  destruct (nth_error t (S e - 1)) as [c|]; [|discriminate].
  apply char_eqb_eq in H. subst c. reflexivity.
Qed.

Lemma appended_text_long md rel nm : 2 <= length (appended_text md rel nm).
Proof.
  unfold appended_text. rewrite !length_app. simpl. lia.
Qed.

Lemma fence_not_created t md : forall ps lo v,
  junctions_ok t md lo ps ->
  contains close_fence (v ++ append_out t md ps lo) = true ->
  contains close_fence (v ++ skipn lo t) = true.
Proof.
  induction ps as [|[[[s e] op] rel] ps IH]; intros lo v Hj Hc; [exact Hc|].
  cbn [junctions_ok fst snd] in Hj.
  destruct Hj as (Hlo & Hle & Hres & Hfresh & Hnb & Hj).
  cbn [append_out] in Hc. rewrite Hfresh in Hc.
  set (j := appended_text md rel (name op)) in *.
  replace (v ++ slice t lo e ++ j ++ append_out t md ps e)
    with ((v ++ slice t lo e ++ j) ++ append_out t md ps e) in Hc
    by (rewrite <- !app_assoc; reflexivity).
  apply (IH e _ Hj) in Hc.
  replace ((v ++ slice t lo e ++ j) ++ skipn e t)
    with ((v ++ slice t lo e) ++ j ++ skipn e t) in Hc
    by (rewrite <- !app_assoc; reflexivity).
  apply insert_one in Hc.
  - rewrite <- app_assoc in Hc.
    change (skipn e t) with (slice_from t e) in Hc.
    rewrite slice_then_rest in Hc by lia. exact Hc.
  - exact Hnb.
  - apply appended_text_long.
  - intros Hs.
    pose proof (resumes_bare_junction t e ltac:(lia) Hres Hs) as Hn.
    rewrite last_char_app.
    + apply last_char_slice; [lia | exact Hn].
    + intros E. apply (f_equal (@length char)) in E.
      rewrite slice_length in E by lia. simpl in E. lia.
Qed.

(* ------------------------------------------------------------------ *)
(** ** Lemmas: what a left-to-right scan finds *)
(* ------------------------------------------------------------------ *)

Section Scan.
Variable r : regex.
Hypothesis r_progress : forall pos prev rest m,
  match_at r pos prev rest = Some m -> pos < m_end m <= pos + length rest.

Lemma match_in_bounds t q m :
  match_in r t q = Some m -> m_start m = q /\ q < m_end m <= length t.
Proof.
  unfold match_in. intros H.
  pose proof (match_at_start _ _ _ _ _ H) as Hs.
  apply r_progress in H. rewrite length_skipn in H. split; [exact Hs | lia].
Qed.

Lemma scan_spec_step t lo l :
  match_in r t lo = None -> scan_spec r t (S lo) l -> scan_spec r t lo l.
Proof.
  intros Hn. destruct l as [|m l]; cbn [scan_spec].
  - intros H q Hq.
    destruct (Nat.eq_dec q lo); [subst; exact Hn | apply H; lia].
  - intros (Hlo & H & Hm & Hs). repeat split; [lia | | exact Hm | exact Hs].
    intros q Hq.
    destruct (Nat.eq_dec q lo); [subst; exact Hn | apply H; lia].
Qed.

Lemma finditer_from_scan t rest : forall a skip,
  t = a ++ rest ->
  scan_spec r t (length a + skip)
            (finditer_from r (length a) (last_char a) rest skip).
Proof.
  induction rest as [|x xs IH]; intros a skip Ht.
  - assert (Hl : length t = length a)
      by (subst t; rewrite app_nil_r; reflexivity).
    destruct skip; cbn [finditer_from].
    + destruct (match_at r (length a) (last_char a) []) eqn:E.
      * apply r_progress in E; simpl in E; lia.
      * cbn [scan_spec]. intros q Hq. replace q with (length a) by lia.
        subst t; rewrite match_in_split; exact E.
    + cbn [scan_spec]. intros q Hq; lia.
  - assert (Ht' : t = (a ++ [x]) ++ xs) by (rewrite <- app_assoc; exact Ht).
    assert (Hl : length (a ++ [x]) = S (length a))
      by (rewrite length_app; simpl; lia).
    destruct skip as [|k]; cbn [finditer_from].
    + destruct (match_at r (length a) (last_char a) (x :: xs)) as [m|] eqn:E.
      * pose proof (match_at_start _ _ _ _ _ E) as Hs.
        pose proof (r_progress _ _ _ _ E) as Hp; simpl in Hp.
        cbn [scan_spec]. rewrite Hs. repeat split.
        -- lia.
        -- intros q Hq; lia.
        -- subst t; rewrite match_in_split; exact E.
        -- specialize (IH (a ++ [x]) (m_end m - length a - 1) Ht').
           rewrite Hl, last_char_snoc in IH.
           replace (S (length a) + (m_end m - length a - 1)) with (m_end m)
             in IH by lia.
           exact IH.
      * specialize (IH (a ++ [x]) 0 Ht').
        rewrite Hl, last_char_snoc, Nat.add_0_r in IH.
        rewrite Nat.add_0_r. apply scan_spec_step; [|exact IH].
        subst t; rewrite match_in_split; exact E.
    + specialize (IH (a ++ [x]) k Ht').
      rewrite Hl, last_char_snoc in IH.
      replace (length a + S k) with (S (length a) + k) by lia. exact IH.
Qed.

Lemma finditer_scan t : scan_spec r t 0 (finditer r t).
Proof. exact (finditer_from_scan t t [] 0 eq_refl). Qed.

(** The scan is determined by what it finds. *)
Lemma scan_spec_finditer_from t rest : forall a skip l,
  t = a ++ rest ->
  scan_spec r t (length a + skip) l ->
  finditer_from r (length a) (last_char a) rest skip = l.
Proof.
  induction rest as [|x xs IH]; intros a skip l Ht Hs.
  - assert (Hl : length t = length a)
      by (subst t; rewrite app_nil_r; reflexivity).
    assert (Hnil : l = []).
    { destruct l as [|m l]; [reflexivity|]. exfalso.
      cbn [scan_spec] in Hs. destruct Hs as (Hlo & _ & Hm & _).
      apply match_in_bounds in Hm. lia. }
    subst l. destruct skip; cbn [finditer_from]; [|reflexivity].
    destruct (match_at r (length a) (last_char a) []) eqn:E; [|reflexivity].
    apply r_progress in E; simpl in E; lia.
  - assert (Ht' : t = (a ++ [x]) ++ xs) by (rewrite <- app_assoc; exact Ht).
    assert (Hl : length (a ++ [x]) = S (length a))
      by (rewrite length_app; simpl; lia).
    destruct skip as [|k]; cbn [finditer_from].
    + rewrite Nat.add_0_r in Hs.
      assert (Hm0 : match_in r t (length a)
                    = match_at r (length a) (last_char a) (x :: xs))
        by (subst t; apply match_in_split).
      destruct l as [|m l].
      * cbn [scan_spec] in Hs. rewrite <- Hm0, Hs.
        -- specialize (IH (a ++ [x]) 0 [] Ht').
           rewrite Hl, last_char_snoc in IH. apply IH.
           cbn [scan_spec]. intros q Hq. apply Hs. lia.
        -- subst t. rewrite length_app. simpl. lia.
      * cbn [scan_spec] in Hs. destruct Hs as (Hlo & Hgap & Hm & Hs).
        destruct (Nat.eq_dec (m_start m) (length a)) as [Heq|Hne].
        -- pose proof (match_in_bounds _ _ _ Hm) as [_ Hb].
           rewrite Heq in Hm, Hb. rewrite <- Hm0, Hm. f_equal.
           specialize (IH (a ++ [x]) (m_end m - length a - 1) l Ht').
           rewrite Hl, last_char_snoc in IH. apply IH.
           replace (S (length a) + (m_end m - length a - 1)) with (m_end m)
             by lia.
           exact Hs.
        -- rewrite <- Hm0, Hgap by lia.
           specialize (IH (a ++ [x]) 0 (m :: l) Ht').
           rewrite Hl, last_char_snoc in IH. apply IH.
           cbn [scan_spec]. repeat split; [lia | | exact Hm | exact Hs].
           intros q Hq. apply Hgap. lia.
    + specialize (IH (a ++ [x]) k l Ht').
      rewrite Hl, last_char_snoc in IH. apply IH.
      replace (S (length a) + k) with (length a + S k) by lia. exact Hs.
Qed.

Lemma scan_spec_finditer t l : scan_spec r t 0 l -> finditer r t = l.
Proof. exact (scan_spec_finditer_from t t [] 0 l eq_refl). Qed.

Lemma scan_spec_lower t lo lo' l :
  lo' <= lo -> no_match_between r t lo' lo ->
  scan_spec r t lo l -> scan_spec r t lo' l.
Proof.
  intros Hle Hgap. destruct l as [|m l]; cbn [scan_spec].
  - intros H q Hq. destruct (Nat.lt_ge_cases q lo); [apply Hgap | apply H]; lia.
  - intros (Hlo & H & Hm & Hs). repeat split; [lia | | exact Hm | exact Hs].
    intros q Hq. destruct (Nat.lt_ge_cases q lo); [apply Hgap | apply H]; lia.
Qed.
End Scan.

(* ------------------------------------------------------------------ *)
(** ** Lemmas: the blocks of a text rewritten in append mode *)
(* ------------------------------------------------------------------ *)

Lemma firstn_slice (t : text) q e :
  q <= e -> firstn e t = firstn q t ++ slice t q e.
Proof.
  intros H. unfold slice. rewrite firstn_skipn_comm.
  replace (q + (e - q)) with e by lia.
  rewrite <- (firstn_skipn q (firstn e t)) at 1.
  rewrite firstn_firstn. replace (Nat.min q e) with q by lia. reflexivity.
Qed.

Lemma slice_split (t : text) lo q e :
  lo <= q <= e -> slice t lo e = slice t lo q ++ slice t q e.
Proof.
  intros H. unfold slice at 1 2.
  rewrite (firstn_slice (skipn lo t) (q - lo) (e - lo)) by lia.
  f_equal. unfold slice. rewrite skipn_skipn.
  replace (e - lo - (q - lo)) with (e - q) by lia.
  replace (q - lo + lo) with q by lia. reflexivity.
Qed.

Lemma skipn_slice (t : text) q e :
  q <= e -> skipn q t = slice t q e ++ skipn e t.
Proof.
  intros H. symmetry. exact (slice_then_rest t q e H).
Qed.

Lemma has_nonspace_app_r (a b : text) :
  has_nonspace b = true -> has_nonspace (a ++ b) = true.
Proof.
  unfold has_nonspace. intros H. rewrite existsb_app, H. apply orb_true_r.
Qed.

Lemma has_nonspace_skipn_le (t : text) n m :
  n <= m -> has_nonspace (skipn m t) = true -> has_nonspace (skipn n t) = true.
Proof.
  intros Hle H. replace m with ((m - n) + n) in H by lia.
  rewrite <- skipn_skipn in H.
  rewrite <- (firstn_skipn (m - n) (skipn n t)). apply has_nonspace_app_r.
  exact H.
Qed.

Lemma open_ws_nonspace v x c :
  open_ws (v ++ x) = Some (length v, c) -> has_nonspace v = true.
Proof.
  induction v as [|a v IH]; intros Ho.
  - apply open_ws_min in Ho. simpl in Ho. lia.
  - cbn [app open_ws length] in Ho. unfold has_nonspace. cbn [existsb].
    destruct (isspace a) eqn:Ea; [|reflexivity]. cbn [negb orb].
    assert (Hnl : nl_then (a :: v ++ x) = Some (S (length v), c) ->
                  has_nonspace v = true).
    { cbn [nl_then]. destruct (char_eqb a nl); [|discriminate].
      destruct (close_at (v ++ x)) as [[k c']|] eqn:Ec; [|discriminate].
      cbn [longer]. intros H. injection H as -> ->.
      exact (close_at_nonspace v x c Ec). }
    destruct (open_ws (v ++ x)) as [[n c']|] eqn:Eo.
    + cbn [longer] in Ho. injection Ho as -> ->. exact (IH eq_refl).
    + exact (Hnl Ho).
Qed.

Lemma block_at_some b rest n c :
  block_at b rest = Some (n, c) ->
  b = true /\ startswith open_fence rest = true /\ 15 <= n
  /\ open_ws (skipn 10 rest) = Some (n - 10, c).
Proof.
  unfold block_at. destruct b; [|discriminate]. cbn [andb].
  destruct (startswith open_fence rest); [|discriminate].
  destruct (open_ws (skipn 10 rest)) as [[k c']|] eqn:Eo; [|discriminate].
  intros H. injection H as <- <-. apply open_ws_min in Eo as Hk.
  repeat split; [lia|]. f_equal. f_equal. lia.
Qed.

Lemma block_at_nonspace b x c :
  block_at true (b ++ x) = Some (length b, c) ->
  has_nonspace (skipn 10 b) = true.
Proof.
  intros H. apply block_at_some in H. destruct H as (_ & _ & Hn & Ho).
  rewrite skipn_app in Ho. replace (10 - length b) with 0 in Ho by lia.
  change (skipn 0 x) with x in Ho.
  apply (open_ws_nonspace _ x c). rewrite length_skipn. exact Ho.
Qed.

Lemma block_at_bol b b' rest :
  b' && startswith open_fence rest = b && startswith open_fence rest ->
  block_at b' rest = block_at b rest.
Proof. unfold block_at. intros ->. reflexivity. Qed.

(** No line break followed by three backticks comes into reach of an end of
    the text before a block's end when the text is appended there. *)
Lemma no_new_fence_slice t md ps e j pre v :
  firstn e t = pre ++ v -> e <= length t ->
  resumes_bare t e = true -> no_backtick j = true -> 2 <= length j ->
  junctions_ok t md e ps ->
  no_new_fence v (skipn e t) (j ++ append_out t md ps e).
Proof.
  intros Hv He Hres Hj Hlen Hjs u w Huw Hw Hfind.
  destruct (find close_fence (w ++ j ++ append_out t md ps e)) as [k|] eqn:E;
    [exfalso | reflexivity].
  assert (Hc : contains close_fence ((w ++ j) ++ append_out t md ps e) = true)
    by (unfold contains; rewrite <- app_assoc, E; reflexivity).
  apply (fence_not_created t md ps e _ Hjs) in Hc.
  rewrite <- app_assoc in Hc. apply insert_one in Hc; auto.
  - unfold contains in Hc. rewrite Hfind in Hc. discriminate.
  - intros Hs.
    assert (He0 : 0 < e).
    { destruct e; [|lia]. exfalso. cbn [firstn] in Hv.
      symmetry in Hv. apply app_eq_nil in Hv. destruct Hv as [_ Hv].
      rewrite Huw in Hv. apply app_eq_nil in Hv. destruct Hv as [_ Hv].
      exact (Hw Hv). }
    pose proof (resumes_bare_junction t e He0 Hres Hs) as Hn.
    apply (last_char_firstn_some t e nl) in Hn; [|lia].
    rewrite Hv, Huw, app_assoc, last_char_app in Hn by exact Hw. exact Hn.
Qed.

(** A place where the pattern does not match still does not match when the
    text after it changes without bringing a closing fence into reach. *)
Lemma match_at_none_ext pos pos' prev prev' v x x' :
  10 <= length v -> has_nonspace (skipn 10 v) = true ->
  no_new_fence (skipn 10 v) x x' ->
  at_bol prev' && startswith open_fence v
  = at_bol prev && startswith open_fence v ->
  match_at MERMAID_BLOCK_RE pos prev (v ++ x) = None ->
  match_at MERMAID_BLOCK_RE pos' prev' (v ++ x') = None.
Proof.
  intros Hlen Hns Hnc Hb. rewrite !match_at_direct.
  assert (Hnone : block_at (at_bol prev) (v ++ x) = None ->
                  block_at (at_bol prev') (v ++ x') = None).
  { unfold block_at.
    rewrite !startswith_app_long
      by (change (length open_fence) with 10; exact Hlen).
    rewrite Hb.
    destruct (at_bol prev && startswith open_fence v); [|reflexivity].
    rewrite !skipn_app. replace (10 - length v) with 0 by lia.
    change (skipn 0 x) with x. change (skipn 0 x') with x'.
    destruct (open_ws (skipn 10 v ++ x)) as [[n c]|] eqn:Eo; [discriminate|].
    intros _. rewrite (open_ws_none _ x x' Hns Hnc Eo). reflexivity. }
  destruct (block_at (at_bol prev) (v ++ x)) as [[n c]|]; [discriminate|].
  intros _. rewrite (Hnone eq_refl). reflexivity.
Qed.

(** A match that ends where the text changes ends, in the changed text,
    after the white space the new continuation begins with. *)
Lemma match_at_some_ext pos pos' prev prev' b x x' c :
  no_new_fence (skipn 10 b) x x' ->
  at_bol prev' && startswith open_fence b
  = at_bol prev && startswith open_fence b ->
  match_at MERMAID_BLOCK_RE pos prev (b ++ x)
  = Some (RMatch pos (pos + length b) c) ->
  match_at MERMAID_BLOCK_RE pos' prev' (b ++ x')
  = Some (RMatch pos' (pos' + (length b + ws_len x')) c).
Proof.
  intros Hnc Hb. rewrite !match_at_direct.
  destruct (block_at (at_bol prev) (b ++ x)) as [[n c']|] eqn:E; [|discriminate].
  intros H. injection H as Hn ->.
  assert (n = length b) by lia. subst n.
  pose proof (block_at_some _ _ _ _ E) as (Hbol & Hs & Hlen & _).
  rewrite Hbol in E, Hb.
  rewrite startswith_app_long in Hs
    by (change (length open_fence) with 10; lia).
  rewrite Hs in Hb. cbn [andb] in Hb. rewrite andb_true_r in Hb.
  rewrite Hb. rewrite (block_at_ext b x x' c Hnc E). reflexivity.
Qed.

Lemma ws_len_appended md rel nm z : ws_len (appended_text md rel nm ++ z) = 1.
Proof. reflexivity. Qed.

Lemma pairs_of_nil_r ms : pairs_of ms [] = [].
Proof. unfold pairs_of. cbn [map]. rewrite combine_nil. reflexivity. Qed.

Lemma startswith_open_fence_head a rest :
  char_eqb a backtick = false -> startswith open_fence (a :: rest) = false.
Proof.
  intros H. cbn [open_fence fence app startswith].
  change (char_eqb backtick a) with (N.eqb backtick a).
  unfold char_eqb in H. rewrite N.eqb_sym, H. reflexivity.
Qed.

(** No block begins inside the appended text. *)
Lemma inside_appended p j rest i :
  no_backtick j = true -> i < length j ->
  match_in MERMAID_BLOCK_RE (p ++ j ++ rest) (length p + i) = None.
Proof.
  intros Hj Hi.
  assert (E : p ++ j ++ rest = (p ++ firstn i j) ++ (skipn i j ++ rest)).
  { rewrite <- (firstn_skipn i j) at 1. rewrite <- !app_assoc. reflexivity. }
  assert (Hl : length (p ++ firstn i j) = length p + i)
    by (rewrite length_app, length_firstn; lia).
  rewrite E, <- Hl, match_in_split, match_at_direct.
  destruct (skipn i j) as [|a l] eqn:Es.
  - apply (f_equal (@length char)) in Es. rewrite length_skipn in Es.
    simpl in Es. lia.
  - assert (Ha : char_eqb a backtick = false).
    { destruct (char_eqb a backtick) eqn:Ea; [|reflexivity]. exfalso.
      apply char_eqb_eq in Ea. subst a.
      apply (no_backtick_in j Hj). rewrite <- (firstn_skipn i j), Es.
      apply in_or_app. right. left. reflexivity. }
    unfold block_at. cbn [app].
    rewrite (startswith_open_fence_head a _ Ha), andb_false_r. reflexivity.
Qed.

Section AppendScan.
Variable t : text.
Variable md : path.

Lemma bol_agrees_slice p lo q :
  lo <= q -> q <= length t -> bol_agrees p t lo ->
  bol_agrees (p ++ slice t lo q) t q.
Proof.
  intros Hq Hle Hb. destruct (Nat.eq_dec q lo) as [->|Hne].
  - unfold slice. rewrite Nat.sub_diag. cbn [firstn]. rewrite app_nil_r.
    exact Hb.
  - assert (Hs : slice t lo q <> []).
    { intros E. apply (f_equal (@length char)) in E.
      rewrite slice_length in E by lia. simpl in E. lia. }
    unfold bol_agrees.
    rewrite (firstn_slice t lo q) by lia.
    rewrite !last_char_app by exact Hs. reflexivity.
Qed.

Lemma bol_agrees_appended p e j :
  0 < e <= length t -> resumes_bare t e = true ->
  last_char (p ++ j) = Some nl -> bol_agrees (p ++ j) t e.
Proof.
  intros He Hres Hl. unfold bol_agrees. rewrite Hl.
  destruct (startswith open_fence (skipn e t)) eqn:Es;
    [|rewrite !andb_false_r; reflexivity].
  assert (Hf : startswith fence (skipn e t) = true).
  { apply startswith_iff in Es. destruct Es as [r Es].
    apply startswith_iff. exists (str "mermaid" ++ r). rewrite Es.
    reflexivity. }
  pose proof (resumes_bare_junction t e ltac:(lia) Hres Hf) as Hn.
  rewrite (last_char_firstn_some t e nl) by (try lia; exact Hn).
  reflexivity.
Qed.

Lemma match_in_view p lo off q e x :
  length p = lo + off -> lo <= q <= e -> e <= length t ->
  match_in MERMAID_BLOCK_RE (p ++ slice t lo e ++ x) (q + off)
  = match_at MERMAID_BLOCK_RE (q + off) (last_char (p ++ slice t lo q))
             (slice t q e ++ x).
Proof.
  intros Hp Hq He.
  assert (Hl : length (p ++ slice t lo q) = q + off)
    by (rewrite length_app, slice_length; lia).
  rewrite (slice_split t lo q e) by lia.
  replace (p ++ (slice t lo q ++ slice t q e) ++ x)
    with ((p ++ slice t lo q) ++ slice t q e ++ x)
    by (rewrite <- !app_assoc; reflexivity).
  rewrite <- Hl. apply match_in_split.
Qed.

Lemma bol_agrees_long p q e :
  q + 10 <= e -> e <= length t -> bol_agrees p t q ->
  at_bol (last_char p) && startswith open_fence (slice t q e)
  = at_bol (last_char (firstn q t)) && startswith open_fence (slice t q e).
Proof.
  intros Hq He Hb. unfold bol_agrees in Hb.
  rewrite (skipn_slice t q e) in Hb by lia.
  rewrite startswith_app_long in Hb
    by (rewrite slice_length by lia; change (length open_fence) with 10; lia).
  exact Hb.
Qed.

Section Step.
Variables (p : text) (lo off e : nat) (j : text)
          (ps : list ((span * path) * text)).
Hypothesis Hp : length p = lo + off.
Hypothesis He : e <= length t.
Hypothesis Hb : bol_agrees p t lo.
Hypothesis Hres : resumes_bare t e = true.
Hypothesis Hj : no_backtick j = true.
Hypothesis Hlen : 2 <= length j.
Hypothesis Hjs : junctions_ok t md e ps.

Lemma no_new_fence_block q :
  q <= e ->
  no_new_fence (skipn 10 (slice t q e)) (skipn e t)
               (j ++ append_out t md ps e).
Proof.
  intros Hq.
  apply (no_new_fence_slice t md ps e j
           (firstn q t ++ firstn 10 (slice t q e))); auto.
  rewrite <- app_assoc, firstn_skipn. apply firstn_slice. exact Hq.
Qed.

Lemma gap_in_append q :
  lo <= q -> q + 10 <= e ->
  has_nonspace (skipn 10 (slice t q e)) = true ->
  match_in MERMAID_BLOCK_RE t q = None ->
  match_in MERMAID_BLOCK_RE
           (p ++ slice t lo e ++ j ++ append_out t md ps e) (q + off)
  = None.
Proof.
  intros Hq Hq10 Hns Hm.
  rewrite (match_in_view p lo off q e _ Hp) by lia.
  unfold match_in in Hm. rewrite (skipn_slice t q e) in Hm by lia.
  apply (match_at_none_ext q (q + off) (last_char (firstn q t)) _
                           (slice t q e) (skipn e t)).
  - rewrite slice_length by lia. lia.
  - exact Hns.
  - apply no_new_fence_block. lia.
  - apply bol_agrees_long; [lia | exact He |].
    apply bol_agrees_slice; [lia | lia | exact Hb].
  - exact Hm.
Qed.

Lemma block_in_append q c :
  lo <= q -> q < e ->
  ws_len (j ++ append_out t md ps e) = 1 ->
  match_in MERMAID_BLOCK_RE t q = Some (RMatch q e c) ->
  match_in MERMAID_BLOCK_RE
           (p ++ slice t lo e ++ j ++ append_out t md ps e) (q + off)
  = Some (RMatch (q + off) (e + off + 1) c).
Proof.
  intros Hq Hqe Hws Hm.
  assert (H15 : q + 15 <= e).
  { unfold match_in in Hm. apply match_at_mermaid_bounds in Hm.
    cbn [m_end] in Hm. lia. }
  rewrite (match_in_view p lo off q e _ Hp) by lia.
  unfold match_in in Hm. rewrite (skipn_slice t q e) in Hm by lia.
  assert (Hl : length (slice t q e) = e - q) by (apply slice_length; lia).
  replace e with (q + length (slice t q e)) in Hm at 3 by lia.
  rewrite (match_at_some_ext q (q + off) (last_char (firstn q t)) _
             (slice t q e) (skipn e t) _ c).
  - rewrite Hws, Hl. f_equal. f_equal. lia.
  - apply no_new_fence_block. lia.
  - apply bol_agrees_long; [lia | exact He |].
    apply bol_agrees_slice; [lia | lia | exact Hb].
  - exact Hm.
Qed.
End Step.

Lemma tail_in_append p lo off q :
  length p = lo + off -> lo <= q <= length t -> bol_agrees p t lo ->
  match_in MERMAID_BLOCK_RE (p ++ skipn lo t) (q + off)
  = match match_in MERMAID_BLOCK_RE t q with
    | Some m => Some (RMatch (m_start m + off) (m_end m + off) (m_group1 m))
    | None => None
    end.
Proof.
  intros Hp Hq Hb.
  assert (Hl : length (p ++ slice t lo q) = q + off)
    by (rewrite length_app, slice_length; lia).
  rewrite (skipn_slice t lo q) by lia.
  rewrite app_assoc, <- Hl, match_in_split, Hl.
  unfold match_in. rewrite !match_at_direct.
  rewrite (block_at_bol (at_bol (last_char (firstn q t)))
                        (at_bol (last_char (p ++ slice t lo q)))
                        (skipn q t))
    by (apply bol_agrees_slice; [lia | lia | exact Hb]).
  destruct (block_at (at_bol (last_char (firstn q t))) (skipn q t))
    as [[n c]|]; [|reflexivity].
  cbn [m_start m_end m_group1]. f_equal. f_equal. lia.
Qed.
End AppendScan.

Lemma last_char_appended p md rel nm :
  last_char (p ++ appended_text md rel nm) = Some nl.
Proof.
  unfold appended_text. rewrite !app_assoc. apply last_char_snoc.
Qed.

(** The locator finds in the text rewritten in append mode the blocks of
    the original text, each at its new place. *)
Lemma append_scan t md : forall ms refs lo off p,
  scan_spec MERMAID_BLOCK_RE t lo ms ->
  junctions_ok t md lo (pairs_of ms refs) ->
  length p = lo + off -> lo <= length t -> bol_agrees p t lo ->
  scan_spec MERMAID_BLOCK_RE (p ++ append_out t md (pairs_of ms refs) lo)
            (lo + off) (shifted md off refs ms).
Proof.
  induction ms as [|m ms IH]; intros refs lo off p Hs Hj Hp Hlo Hb.
  - cbn [pairs_of map combine append_out shifted scan_spec] in *.
    intros q Hq. unfold slice_from in *.
    rewrite length_app, length_skipn in Hq.
    replace q with ((q - off) + off) by lia.
    rewrite (tail_in_append t p lo off (q - off) Hp) by (try lia; exact Hb).
    rewrite Hs by lia. reflexivity.
  - cbn [scan_spec] in Hs. destruct Hs as (Hlo' & Hgap & Hm & Hs).
    pose proof (match_in_bounds _ mermaid_progress _ _ _ Hm) as [_ Hbd].
    assert (Hm' : m = RMatch (m_start m) (m_end m) (m_group1 m))
      by (destruct m; reflexivity).
    destruct refs as [|r refs].
    + rewrite pairs_of_nil_r. cbn [append_out shifted scan_spec m_start m_end].
      unfold slice_from. repeat split.
      * lia.
      * intros q Hq. replace q with ((q - off) + off) by lia.
        rewrite (tail_in_append t p lo off (q - off) Hp) by (try lia; exact Hb).
        rewrite Hgap by lia. reflexivity.
      * rewrite (tail_in_append t p lo off (m_start m) Hp)
          by (try lia; exact Hb).
        rewrite Hm. reflexivity.
      * specialize (IH [] (m_end m) off (p ++ slice t lo (m_end m)) Hs).
        rewrite pairs_of_nil_r in IH. cbn [append_out junctions_ok] in IH.
        unfold slice_from in IH.
        rewrite <- app_assoc, <- (skipn_slice t lo (m_end m)) in IH by lia.
        apply IH; [exact I | | lia |].
        -- rewrite length_app, slice_length; lia.
        -- apply bol_agrees_slice; [lia | lia | exact Hb].
    + cbn [pairs_of map combine] in Hj |- *.
      fold (pairs_of ms refs) in Hj |- *.
      cbn [junctions_ok fst snd span_of] in Hj.
      destruct Hj as (_ & He & Hres & Hfresh & Hnb & Hj).
      cbn [append_out span_of]. rewrite Hfresh.
      cbn [shifted scan_spec m_start m_end].
      set (j := appended_text md (snd r) (name (fst r))) in *.
      pose proof (appended_text_long md (snd r) (name (fst r))) as Hlen.
      fold j in Hlen.
      assert (H15 : m_start m + 15 <= m_end m).
      { unfold match_in in Hm. apply match_at_mermaid_bounds in Hm. lia. }
      assert (Hblock : has_nonspace
                         (skipn 10 (slice t (m_start m) (m_end m))) = true).
      { rewrite Hm' in Hm. cbn [m_start m_end] in Hm.
        unfold match_in in Hm.
        rewrite (skipn_slice t (m_start m) (m_end m)) in Hm by lia.
        rewrite match_at_direct in Hm.
        destruct (block_at _ _) as [[n c]|] eqn:E in Hm; [|discriminate].
        injection Hm as Hn _.
        pose proof (block_at_some _ _ _ _ E) as (Hbol & _).
        rewrite Hbol in E.
        apply (block_at_nonspace _ (skipn (m_end m) t) c).
        rewrite slice_length by lia.
        replace (m_end m - m_start m) with n by lia. exact E. }
      repeat split.
      * lia.
      * intros q Hq. replace q with ((q - off) + off) by lia.
        apply (gap_in_append t md p lo off (m_end m) j (pairs_of ms refs));
          auto; try lia.
        -- rewrite (slice_split t (q - off) (m_start m) (m_end m)) by lia.
           rewrite skipn_app. apply has_nonspace_app_r.
           apply (has_nonspace_skipn_le _ _ 10); [lia | exact Hblock].
        -- apply Hgap. lia.
      * apply (block_in_append t md p lo off (m_end m) j (pairs_of ms refs));
          auto; try lia.
        rewrite Hm. f_equal. exact Hm'.
      * specialize (IH refs (m_end m) (off + length j)
                       ((p ++ slice t lo (m_end m)) ++ j) Hs Hj).
        replace (((p ++ slice t lo (m_end m)) ++ j)
                   ++ append_out t md (pairs_of ms refs) (m_end m))
          with (p ++ slice t lo (m_end m) ++ j
                  ++ append_out t md (pairs_of ms refs) (m_end m)) in IH
          by (rewrite <- !app_assoc; reflexivity).
        apply (scan_spec_lower _ _ (m_end m + (off + length j))); [lia | |].
        -- intros q Hq.
           replace (p ++ slice t lo (m_end m) ++ j
                      ++ append_out t md (pairs_of ms refs) (m_end m))
             with ((p ++ slice t lo (m_end m)) ++ j
                     ++ append_out t md (pairs_of ms refs) (m_end m))
             by (rewrite <- !app_assoc; reflexivity).
           replace q with (length (p ++ slice t lo (m_end m))
                           + (q - (m_end m + off)))
             by (rewrite length_app, slice_length; lia).
           apply inside_appended; [exact Hnb | lia].
        -- apply IH; [| lia |].
           ++ rewrite !length_app, slice_length; lia.
           ++ apply bol_agrees_appended; [lia | exact Hres |].
              apply last_char_appended.
Qed.

Lemma append_again_rendered t md u : forall pairs pairs' last p off,
  u = p ++ append_out t md pairs last ->
  length p = last + off ->
  ends_within last pairs (length t) ->
  none_rendered t pairs = true -> short_links md pairs = true ->
  same_blocks_after md off pairs pairs' ->
  all_rendered u pairs' = true.
Proof.
  induction pairs as [|[[[s e] op] rel] ps IH];
    intros pairs' last p off Hu Hp He Hf Hs Hsame.
  - destruct pairs'; [reflexivity | destruct Hsame].
  - destruct pairs' as [|[[[s' e'] op'] rel'] ps']; [destruct Hsame|].
    cbn [same_blocks_after fst snd] in Hsame.
    destruct Hsame as (-> & -> & He' & Hsame).
    cbn [ends_within fst snd] in He. destruct He as [Hle He].
    pose proof (ends_within_le _ _ _ He) as Hte.
    cbn [none_rendered forallb fst snd] in Hf.
    apply andb_true_iff in Hf. destruct Hf as [Hf1 Hf].
    apply negb_true_iff in Hf1.
    cbn [short_links forallb snd] in Hs.
    apply andb_true_iff in Hs. destruct Hs as [Hs1 Hs].
    apply Nat.leb_le in Hs1.
    cbn [append_out] in Hu. rewrite Hf1 in Hu.
    set (j := appended_text md rel (name op)) in *.
    assert (Hx : length (p ++ slice t last e) = e + off).
    { rewrite length_app, slice_length by assumption. lia. }
    cbn [all_rendered forallb fst snd]. apply andb_true_iff. split.
    + apply (appended_text_detected u (p ++ slice t last e) md rel (name op)
               (append_out t md ps e)).
      * rewrite Hu, <- !app_assoc. reflexivity.
      * exact Hs1.
      * rewrite Hx. exact He'.
    + apply (IH ps' e (p ++ slice t last e ++ j) (off + length j)).
      * rewrite Hu, <- !app_assoc. reflexivity.
      * rewrite !length_app, slice_length by assumption. lia.
      * exact He.
      * exact Hf.
      * exact Hs.
      * exact Hsame.
Qed.

Lemma junctions_from t md : forall ms refs lo,
  scan_spec MERMAID_BLOCK_RE t lo ms ->
  none_rendered t (pairs_of ms refs) = true ->
  forallb (fun p => resumes_bare t (snd (fst (fst p)))) (pairs_of ms refs)
  = true ->
  forallb (fun p => no_backtick
                      (appended_text md (snd p) (name (snd (fst p)))))
          (pairs_of ms refs) = true ->
  junctions_ok t md lo (pairs_of ms refs).
Proof.
  induction ms as [|m ms IH]; intros refs lo Hs Hf Hr Hn; [exact I|].
  destruct refs as [|r refs]; [rewrite pairs_of_nil_r; exact I|].
  cbn [scan_spec] in Hs. destruct Hs as (Hlo & _ & Hm & Hs).
  pose proof (match_in_bounds _ mermaid_progress _ _ _ Hm) as [_ Hbd].
  cbn [pairs_of map combine] in Hf, Hr, Hn |- *.
  fold (pairs_of ms refs) in Hf, Hr, Hn |- *.
  cbn [none_rendered forallb fst snd span_of] in Hf, Hr, Hn.
  apply andb_true_iff in Hf. destruct Hf as [Hf1 Hf].
  apply negb_true_iff in Hf1.
  apply andb_true_iff in Hr. destruct Hr as [Hr1 Hr].
  apply andb_true_iff in Hn. destruct Hn as [Hn1 Hn].
  cbn [junctions_ok fst snd span_of].
  repeat split; try lia; auto.
Qed.

Lemma junctions_ends t md : forall ps lo,
  junctions_ok t md lo ps -> lo <= length t -> ends_within lo ps (length t).
Proof.
  induction ps as [|p ps IH]; intros lo Hj Hlo; [exact Hlo|].
  cbn [junctions_ok] in Hj. destruct Hj as (H1 & H2 & _ & _ & _ & Hj).
  cbn [ends_within]. split; [lia | apply IH; [exact Hj | exact H2]].
Qed.

Lemma same_blocks_shifted md : forall ms refs off,
  same_blocks_after md off (pairs_of ms refs)
                    (pairs_of (shifted md off refs ms) refs).
Proof.
  induction ms as [|m ms IH]; intros refs off; [exact I|].
  destruct refs as [|r refs]; [rewrite !pairs_of_nil_r; exact I|].
  cbn [shifted pairs_of map combine].
  fold (pairs_of ms refs).
  fold (pairs_of (shifted md
                    (off + length (appended_text md (snd r) (name (fst r))))
                    refs ms) refs).
  cbn [same_blocks_after fst snd span_of m_end].
  repeat split; [right; reflexivity | apply IH].
Qed.

Lemma shifted_group md : forall ms refs off,
  map m_group1 (shifted md off refs ms) = map m_group1 ms.
Proof.
  induction ms as [|m ms IH]; intros refs off; [reflexivity|].
  destruct refs as [|r refs]; cbn [shifted map m_group1]; rewrite IH;
    reflexivity.
Qed.

Lemma locate_and_append_out md refs t :
  locate_and_append md refs t
  = append_out t md (pairs_of (finditer MERMAID_BLOCK_RE t) refs) 0.
Proof.
  unfold locate_and_append. rewrite add_images_out, spans_of_blocks.
  reflexivity.
Qed.

Lemma appends_once_junctions md refs t :
  appends_once md refs t = true ->
  junctions_ok t md 0 (pairs_of (finditer MERMAID_BLOCK_RE t) refs).
Proof.
  unfold appends_once. intros H.
  apply andb_true_iff in H. destruct H as [H Hn].
  apply andb_true_iff in H. destruct H as [H Hr].
  apply andb_true_iff in H. destruct H as [Hf _].
  apply junctions_from; auto.
  apply finditer_scan. exact mermaid_progress.
Qed.

(** The blocks the locator finds in the text rewritten in append mode. *)
Lemma finditer_appended md refs t :
  appends_once md refs t = true ->
  finditer MERMAID_BLOCK_RE (locate_and_append md refs t)
  = shifted md 0 refs (finditer MERMAID_BLOCK_RE t).
Proof.
  intros H. rewrite locate_and_append_out.
  apply (scan_spec_finditer _ mermaid_progress).
  apply (append_scan t md (finditer MERMAID_BLOCK_RE t) refs 0 0 []).
  - apply finditer_scan. exact mermaid_progress.
  - apply appends_once_junctions. exact H.
  - reflexivity.
  - lia.
  - reflexivity.
Qed.

(* ================================================================== *)
(** * Lemmas: what the loop adds *)
(* ================================================================== *)

Lemma subseq_refl {A : Type} (l : list A) : subseq l l.
Proof. induction l; constructor; assumption. Qed.

Lemma subseq_app {A : Type} (a a' b b' : list A) :
  subseq a a' -> subseq b b' -> subseq (a ++ b) (a' ++ b').
Proof.
  intros Ha Hb. induction Ha; cbn [app]; try constructor; assumption.
Qed.

Lemma subseq_incl {A : Type} (l l' : list A) : subseq l l' -> incl l l'.
Proof.
  intros H. induction H; intros y Hy.
  - exact Hy.
  - destruct Hy as [<-|Hy]; [left; reflexivity | right; apply IHsubseq; exact Hy].
  - right. apply IHsubseq. exact Hy.
Qed.

Lemma subseq_length {A : Type} (l l' : list A) :
  subseq l l' -> length l <= length l'.
Proof. intros H. induction H; simpl; lia. Qed.

Lemma ordered_from_weaken lo lo' sps :
  lo' <= lo -> ordered_from lo sps -> ordered_from lo' sps.
Proof.
  destruct sps as [|[s e] l]; [intros; exact I|].
  cbn [ordered_from]. intros Hle (H1 & H2 & H3). repeat split; [lia | lia | exact H3].
Qed.

Lemma ordered_from_subseq sps' : forall sps lo,
  subseq sps sps' -> ordered_from lo sps' -> ordered_from lo sps.
Proof.
  intros sps lo H. revert lo.
  induction H as [|[s e] l l' H IH|[s e] l l' H IH]; intros lo Ho.
  - exact I.
  - cbn [ordered_from] in Ho |- *. destruct Ho as (H1 & H2 & H3).
    repeat split; [lia | lia | apply IH; exact H3].
  - cbn [ordered_from] in Ho. destruct Ho as (H1 & H2 & H3).
    apply IH. apply (ordered_from_weaken e); [lia | exact H3].
Qed.

Section LoopFacts.

Variable fl : flavour.
Variable fs : Type.
Variable path_exists : fs -> path -> option bool.
Variable render_mermaid : text -> path -> text -> fs -> render_result * fs.
Variables (md_file images_base rel_base : path) (fmt : text).
Variables (dry_run force : bool).

(** What one block adds to the loop state: one printed line, and either
    one pair or an error line. *)
Lemma step_adds st idx sp code st' :
  block_step fl path_exists render_mermaid md_file images_base rel_base fmt
             dry_run force st idx (sp, code) = Some st' ->
  exists ev,
    events st' = events st ++ [ev]
    /\ ((is_err ev = false
         /\ exists out_path rel,
              images_written st' = images_written st ++ [(sp, out_path)]
              /\ image_paths_rel st' = image_paths_rel st ++ [rel])
        \/ (is_err ev = true
            /\ images_written st' = images_written st
            /\ image_paths_rel st' = image_paths_rel st)).
Proof.
  unfold block_step.
  destruct (image_name_of md_file fmt idx code) as [nm|]; [|discriminate].
  destruct dry_run.
  { intros H; injection H as <-. eexists; split; [reflexivity|].
    left. split; [reflexivity|]. eexists _, _. split; reflexivity. }
  destruct (path_exists (the_fs st) _) as [there|]; [|discriminate].
  destruct (there && negb force).
  { intros H; injection H as <-. eexists; split; [reflexivity|].
    left. split; [reflexivity|]. eexists _, _. split; reflexivity. }
  destruct (render_mermaid code _ fmt (the_fs st)) as [[|msg|] w'];
    [| |discriminate];
    intros H; injection H as <-; eexists; (split; [reflexivity|]).
  - left. split; [reflexivity|]. eexists _, _. split; reflexivity.
  - right. repeat split; reflexivity.
Qed.

Lemma loop_adds blocks : forall st idx st',
  block_loop fl path_exists render_mermaid md_file images_base rel_base fmt
             dry_run force st idx blocks = Some st' ->
  exists added rels evs,
    images_written st' = images_written st ++ added
    /\ image_paths_rel st' = image_paths_rel st ++ rels
    /\ events st' = events st ++ evs
    /\ length added = length rels
    /\ length evs = length blocks
    /\ length blocks = length added + length (filter is_err evs)
    /\ subseq (map fst added) (map fst blocks).
Proof.
  induction blocks as [|[sp code] bs IH]; intros st idx st' H.
  - cbn [block_loop] in H. injection H as <-.
    exists [], [], []. rewrite !app_nil_r.
    repeat split; try reflexivity. constructor.
  - cbn [block_loop] in H.
    destruct (block_step _ _ _ _ _ _ _ _ _ st idx (sp, code)) as [st1|] eqn:E;
      [|discriminate].
    apply step_adds in E. destruct E as (ev & Hev & Hcase).
    apply IH in H.
    destruct H as (added & rels & evs & Hi & Hr & He & Hl & Hn & Hc & Hs).
    destruct Hcase as [(Herr & op & rel & Hi1 & Hr1) | (Herr & Hi1 & Hr1)].
    + exists ((sp, op) :: added), (rel :: rels), (ev :: evs).
      rewrite Hi, Hr, He, Hi1, Hr1, Hev, <- !app_assoc.
      cbn [app length map fst filter]. rewrite Herr.
      repeat split; try reflexivity; try lia.
      constructor. exact Hs.
    + exists added, rels, (ev :: evs).
      rewrite Hi, Hr, He, Hi1, Hr1, Hev, <- !app_assoc.
      cbn [app length map fst filter]. rewrite Herr. cbn [length].
      repeat split; try reflexivity; try lia.
      constructor. exact Hs.
Qed.

End LoopFacts.

Lemma blocks_bounded t :
  Forall (fun sp => snd sp <= length t) (map fst (find_mermaid_blocks t)).
Proof.
  rewrite spans_of_blocks. unfold finditer.
  destruct (finditer_from_ordered MERMAID_BLOCK_RE mermaid_progress
              t 0 None 0) as [_ Hf].
  apply Forall_map. eapply Forall_impl; [|exact Hf]. simpl; intros; lia.
Qed.

Lemma blocks_ordered t : ordered_from 0 (map fst (find_mermaid_blocks t)).
Proof.
  rewrite spans_of_blocks. unfold finditer.
  exact (proj1 (finditer_from_ordered MERMAID_BLOCK_RE mermaid_progress
                  t 0 None 0)).
Qed.

Lemma firstn_exact_app {A : Type} (a b : list A) n :
  n = length a -> firstn n (a ++ b) = a.
Proof.
  intros ->. rewrite firstn_app, Nat.sub_diag, firstn_all. cbn [firstn].
  apply app_nil_r.
Qed.


(** A span of a document's blocks is none of the spans before it and none
    of the spans after it. *)
Lemma ordered_from_starts sps : forall lo s e,
  ordered_from lo sps -> In (s, e) sps -> lo <= s /\ s < e.
Proof.
  induction sps as [|[s0 e0] l IH]; intros lo s e Ho Hin; [destruct Hin|].
  cbn [ordered_from] in Ho. destruct Ho as (H1 & H2 & H3).
  destruct Hin as [E | Hin].
  - injection E as <- <-. split; assumption.
  - destruct (IH e0 s e H3 Hin) as [H4 H5]. split; [lia | exact H5].
Qed.

Lemma ordered_from_apart a : forall lo sp b,
  ordered_from lo (a ++ sp :: b) -> ~ In sp a /\ ~ In sp b.
Proof.
  induction a as [|[s0 e0] a IH]; intros lo [s e] b Ho.
  - cbn [app ordered_from] in Ho. destruct Ho as (H1 & H2 & H3).
    split; [intros []|]. intros Hin.
    destruct (ordered_from_starts b e s e H3 Hin). lia.
  - cbn [app ordered_from] in Ho. destruct Ho as (H1 & H2 & H3).
    destruct (IH e0 (s, e) b H3) as [Ha Hb]. split; [|exact Hb].
    intros [E | Hin]; [|exact (Ha Hin)].
    injection E as -> ->.
    assert (Hin : In (s, e) (a ++ (s, e) :: b))
      by (apply in_or_app; right; left; reflexivity).
    destruct (ordered_from_starts _ e s e H3 Hin). lia.
Qed.

(* ================================================================== *)
(** * Lemmas: [process_file] after the loop *)
(* ================================================================== *)

Section AfterLoop.

Variable fl : flavour.
Variable fs : Type.
Variable path_exists : fs -> path -> option bool.
Variable render_mermaid : text -> path -> text -> fs -> render_result * fs.
Variable resolve : path -> option path.
Variable cwd : option path.
Variable relpath : path -> path -> option text.
Variables (md_file : path) (text_read : text) (out_dir : option path).
Variables (images_dir_rel : option text) (fmt mode : text).
Variables (backup force : bool) (w : fs).

(** What [process_file] returns, outside a dry run, once the placement is
    resolved and the loop has returned [st]. *)
Lemma process_file_of_loop (images_base rel_base : path)
    (st : loop_state fs) :
  find_mermaid_blocks text_read <> [] ->
  resolve_placement fl resolve cwd relpath md_file out_dir images_dir_rel
  = Some (images_base, rel_base) ->
  block_loop fl path_exists render_mermaid md_file images_base rel_base fmt
             false force (fresh w) 1 (find_mermaid_blocks text_read)
  = Some st ->
  exists o,
    process_file fl path_exists render_mermaid resolve cwd relpath md_file
      text_read out_dir images_dir_rel fmt mode false backup force w
    = Some o
    /\ blocks_found o = length (find_mermaid_blocks text_read)
    /\ images_count o = length (images_written st)
    /\ fs_after o = the_fs st
    /\ (text_eqb mode (str "render_replace") = true ->
        let new_text := replace_blocks_with_images text_read md_file
                          (images_written st) (image_paths_rel st) in
        written_back o
        = (if text_eqb new_text text_read then None else Some new_text)
        /\ printed o
           = events st ++ (if text_eqb new_text text_read then []
                           else backup_events backup ++ [EvMdUpdated]))
    /\ (text_eqb mode (str "render_replace") = false ->
        text_eqb mode (str "render_keep") = true ->
        let new_text := add_images_after_blocks text_read md_file
                          (images_written st) (image_paths_rel st) in
        written_back o
        = (if text_eqb new_text text_read then None else Some new_text)
        /\ printed o
           = events st ++ (if text_eqb new_text text_read then []
                           else backup_events backup ++ [EvMdAppended]))
    /\ (text_eqb mode (str "render_replace") = false ->
        text_eqb mode (str "render_keep") = false ->
        written_back o = None /\ printed o = events st).
Proof.
  intros Hne Hp Hl. unfold process_file.
  destruct (find_mermaid_blocks text_read) as [|b bs] eqn:Eb;
    [congruence|].
  rewrite Hp. unfold fresh in Hl. rewrite Hl. cbn [negb andb].
  destruct (text_eqb mode (str "render_replace")) eqn:E1;
    [|destruct (text_eqb mode (str "render_keep")) eqn:E2].
  - destruct (text_eqb (replace_blocks_with_images text_read md_file
                          (images_written st) (image_paths_rel st))
                       text_read) eqn:Et; cbn [negb andb];
      eexists; (split; [reflexivity|]);
      cbn [blocks_found images_count fs_after written_back printed];
      (split; [reflexivity|]); (split; [reflexivity|]);
      (split; [reflexivity|]);
      (split; [|split; intros; discriminate]);
      intros _; cbv zeta; rewrite ?app_nil_r; split; reflexivity.
  - destruct (text_eqb (add_images_after_blocks text_read md_file
                          (images_written st) (image_paths_rel st))
                       text_read) eqn:Et; cbn [negb andb];
      eexists; (split; [reflexivity|]);
      cbn [blocks_found images_count fs_after written_back printed];
      (split; [reflexivity|]); (split; [reflexivity|]);
      (split; [reflexivity|]);
      (split; [intros; discriminate|]);
      (split; [|intros; discriminate]);
      intros _ _; cbv zeta; rewrite ?app_nil_r; split; reflexivity.
  - eexists; (split; [reflexivity|]);
      cbn [blocks_found images_count fs_after written_back printed];
      (split; [reflexivity|]); (split; [reflexivity|]);
      (split; [reflexivity|]);
      (split; [intros; discriminate|]);
      (split; [intros; discriminate|]);
      intros _ _; split; reflexivity.
Qed.

(** [process_file] under a module in which [_create_backup] may be
    unbound: where the importer's [process_file] returns, it returns the
    same, unless it is to make a backup under the script: then the
    write-back raises [NameError] after the lines of the loop. *)
Lemma process_file_in_cases (bound dry_run : bool) (o : outcome fs) :
  process_file fl path_exists render_mermaid resolve cwd relpath md_file
    text_read out_dir images_dir_rel fmt mode dry_run backup force w
  = Some o ->
  process_file_in fl path_exists render_mermaid resolve cwd relpath bound
    md_file text_read out_dir images_dir_rel fmt mode dry_run backup force w
  = (if backup && negb bound
        && match written_back o with Some _ => true | None => false end
     then RaisedNameError "_create_backup"
            (firstn (length (find_mermaid_blocks text_read)) (printed o))
     else Returned o).
Proof.
  unfold process_file_in, process_file, write_back_in.
  destruct (find_mermaid_blocks text_read) as [|b bs] eqn:Eb.
  { intros H; injection H as <-. cbn [written_back].
    rewrite andb_false_r. reflexivity. }
  destruct (resolve_placement fl resolve cwd relpath md_file out_dir
              images_dir_rel) as [[ib rb]|]; [|discriminate].
  destruct (block_loop _ _ _ _ _ _ _ _ _ _ 1 (b :: bs)) as [st|] eqn:El;
    [|discriminate].
  apply loop_adds in El.
  destruct El as (added & rels & evs & _ & _ & He & _ & Hlen & _).
  cbn [events app] in He.
  assert (Hf : forall tail, firstn (length (b :: bs)) (events st ++ tail)
                            = events st).
  { intros tail. apply firstn_exact_app. rewrite He. symmetry. exact Hlen. }
  destruct backup, bound; cbn [andb negb backup_events app];
    repeat match goal with
           | |- context [if ?c then _ else _] =>
               lazymatch c with
               | context [o] => fail
               | _ => destruct c
               end
           end;
    intros H; injection H as <-; cbn [written_back printed andb];
    rewrite ?Hf; reflexivity.
Qed.

End AfterLoop.

(* ================================================================== *)
(** * Lemmas: what makes the loop raise *)
(* ================================================================== *)

Section LoopRaises.

Variable fl : flavour.
Variable fs : Type.
Variable path_exists : fs -> path -> option bool.
Variable render_mermaid : text -> path -> text -> fs -> render_result * fs.
Variables (md_file images_base rel_base : path) (fmt : text).
Variables (dry_run force : bool).

(** On sources that can be encoded, the loop lets an exception escape
    only outside a dry run, and only from [exists] or from the
    renderer. *)
Lemma loop_raises_cause blocks : forall st idx,
  Forall (fun b => encodable (snd b) = true) blocks ->
  block_loop fl path_exists render_mermaid md_file images_base rel_base fmt
             dry_run force st idx blocks = None ->
  dry_run = false
  /\ exists w' sp code image_name k,
       In (sp, code) blocks
       /\ image_name_of md_file fmt k code = Some image_name
       /\ (path_exists w' (joinpath fl images_base image_name) = None
           \/ fst (render_mermaid code (joinpath fl images_base image_name)
                                  fmt w') = RenderEscaped).
Proof.
  induction blocks as [|[sp code] bs IH]; intros st idx Hf H;
    [discriminate|].
  inversion Hf as [|? ? Hc Hbs]; subst. cbn [snd] in Hc.
  cbn [block_loop] in H.
  destruct (block_step fl path_exists render_mermaid md_file images_base
                       rel_base fmt dry_run force st idx (sp, code))
    as [st1|] eqn:Es.
  - destruct (IH st1 (S idx) Hbs H)
      as (Hd & w' & sp' & code' & nm & k & Hin & Hn & Hcause).
    split; [exact Hd|]. exists w', sp', code', nm, k.
    split; [right; exact Hin|]. split; assumption.
  - clear H IH. unfold block_step in Es.
    destruct (image_name_of md_file fmt idx code) as [nm|] eqn:En.
    2: { exfalso. unfold image_name_of, hash_text in En.
         pose proof (encodable_encode code Hc) as He.
         destruct (encode_utf8 code); [discriminate | congruence]. }
    destruct dry_run; [discriminate|]. split; [reflexivity|].
    exists (the_fs st), sp, code, nm, idx.
    split; [left; reflexivity|]. split; [exact En|].
    destruct (path_exists (the_fs st) (joinpath fl images_base nm))
      as [there|]; [|left; reflexivity].
    destruct (there && negb force); [discriminate|].
    destruct (render_mermaid code (joinpath fl images_base nm) fmt
                             (the_fs st)) as [[|msg|] w1];
      [discriminate | discriminate | right; reflexivity].
Qed.

End LoopRaises.

(* ================================================================== *)
(** * Block Locator: properties *)
(* ================================================================== *)

Example find_doc1 :
  find_mermaid_blocks doc1 = [((6, 38), str "graph TD; A-->B;")].
Proof. vm_compute. reflexivity. Qed.

(** C5.  [find_mermaid_blocks] is a function of the text alone, and its
    result is a finite list: the spans are non-empty, each ends at or before
    the start of the next (so they are sorted by start offset and do not
    overlap), all lie inside the text, and there are at most as many blocks
    as the text has characters.  The order is that of a scan from left to
    right: every span is a match of the pattern at its start, and the
    pattern matches nowhere between the end of one span and the start of
    the next, before the first or after the last. *)
Theorem find_mermaid_blocks_ordered (md_text : text) :
  ordered_from 0 (map fst (find_mermaid_blocks md_text))
  /\ Forall (fun sp => snd sp <= length md_text)
            (map fst (find_mermaid_blocks md_text))
  /\ length (find_mermaid_blocks md_text) <= length md_text
  /\ gaps_free MERMAID_BLOCK_RE md_text 0
                (map fst (find_mermaid_blocks md_text)).
Proof.
  assert (Hgaps : gaps_free MERMAID_BLOCK_RE md_text 0
                    (map fst (find_mermaid_blocks md_text))).
  { rewrite spans_of_blocks.
    exact (finditer_from_gaps MERMAID_BLOCK_RE mermaid_progress
             md_text md_text [] 0 eq_refl). }
  revert Hgaps.
  rewrite spans_of_blocks. unfold finditer. intros Hgaps.
  destruct (finditer_from_ordered MERMAID_BLOCK_RE mermaid_progress
              md_text 0 None 0) as [Ho Hf].
  assert (Hf' : Forall (fun sp => snd sp <= length md_text)
                  (map span_of (finditer_from MERMAID_BLOCK_RE 0 None md_text 0))).
  { apply Forall_map. eapply Forall_impl; [|exact Hf]. simpl; intros; lia. }
  repeat split; auto.
  destruct (ordered_from_length _ _ _ Ho Hf') as [E|H].
  - unfold find_mermaid_blocks, finditer.
    apply (f_equal (@length _)) in E. rewrite length_map in E |- *.
    rewrite E; simpl; lia.
  - unfold find_mermaid_blocks, finditer. rewrite length_map in H |- *.
    simpl in H; exact H.
Qed.

(** The same order, read pairwise. *)
Lemma ordered_from_pairwise sps : forall lo i j si ei sj ej,
  ordered_from lo sps -> i < j ->
  nth_error sps i = Some (si, ei) -> nth_error sps j = Some (sj, ej) ->
  si < ei /\ ei <= sj /\ sj < ej.
Proof.
  induction sps as [|[s e] l IH]; intros lo i j si ei sj ej Ho Hij Hi Hj.
  - destruct i; discriminate.
  - simpl in Ho; destruct Ho as (H1 & H2 & H3).
    destruct j as [|j]; [lia|]. simpl in Hj.
    destruct i as [|i].
    + simpl in Hi; inversion Hi; subst. split; [exact H2|].
      clear - H3 Hj. revert ei j H3 Hj.
      induction l as [|[s' e'] l IHl]; intros ei j H3 Hj; [destruct j; discriminate|].
      simpl in H3; destruct H3 as (A & B & C).
      destruct j as [|j]; simpl in Hj.
      * inversion Hj; subst; lia.
      * specialize (IHl e' j C Hj). lia.
    + simpl in Hi. apply (IH e i j si ei sj ej H3); [lia | exact Hi | exact Hj].
Qed.

(** C6, as the code has it.  Every block starts at the beginning of a line
    with the opening fence and the language name, followed by white space
    only up to a line break; its source is followed by a line break and
    three backticks, and the span ends after the white space that follows
    them.  Nothing is required of what comes after those backticks on their
    line.  An opening fence after which no line begins with three backticks
    is therefore not the start of any block. *)
Theorem block_is_fenced (md_text : text) (s e : nat) (code : text) :
  In ((s, e), code) (find_mermaid_blocks md_text) ->
  line_start md_text s
  /\ (exists ws1 ws2 tail,
        block_shape (skipn s md_text) ws1 code ws2 tail
        /\ slice md_text s e
           = open_fence ++ ws1 ++ nl :: code ++ close_fence ++ ws2)
  /\ contains close_fence (skipn (s + length open_fence) md_text) = true.
Proof.
  intros Hin. apply block_in_match in Hin.
  destruct Hin as (m & Hm & Hs & He & Hc).
  unfold match_in in Hm.
  pose proof (match_at_mermaid_bounds _ _ _ _ Hm) as Hb.
  apply match_at_mermaid in Hm.
  destruct Hm as (Hbol & _ & ws1 & ws2 & tail & Hshape & Hend).
  rewrite Hc in *. rewrite He in *. clear m Hs He Hc.
  rewrite length_skipn in Hb.
  assert (Hsl : s <= length md_text) by lia.
  split; [apply at_bol_line_start; assumption|].
  destruct Hshape as (Hr & F1 & F2).
  split.
  - exists ws1, ws2, tail. split; [repeat split; assumption|].
    unfold slice. rewrite Hr, Hend.
    replace (s + length (open_fence ++ ws1 ++ nl :: code ++ close_fence ++ ws2) - s)
      with (length (open_fence ++ ws1 ++ nl :: code ++ close_fence ++ ws2)) by lia.
    replace (open_fence ++ ws1 ++ nl :: code ++ close_fence ++ ws2 ++ tail)
      with ((open_fence ++ ws1 ++ nl :: code ++ close_fence ++ ws2) ++ tail).
    + apply firstn_exact.
    + rewrite <- !app_assoc; simpl. rewrite <- !app_assoc. reflexivity.
  - rewrite Nat.add_comm, <- skipn_skipn, Hr, skipn_exact.
    apply contains_iff. exists (ws1 ++ nl :: code), (ws2 ++ tail).
    rewrite <- !app_assoc; reflexivity.
Qed.

Lemma block_is_fenced_witness :
  In ((6, 38), str "graph TD; A-->B;") (find_mermaid_blocks doc1)
  /\ line_start doc1 6.
Proof.
  assert (H : In ((6, 38), str "graph TD; A-->B;") (find_mermaid_blocks doc1))
    by (vm_compute; left; reflexivity).
  split; [exact H|].
  exact (proj1 (block_is_fenced doc1 6 38 (str "graph TD; A-->B;") H)).
Defined.

(** C6, as the spec words it, fails: in [doc_tagged_close] the three
    backticks that end the block are followed by [js] on the same line, and
    the block is recognised all the same. *)
Lemma tagged_close_is_a_block :
  In ((0, 16), str "A") (find_mermaid_blocks doc_tagged_close)
  /\ forall ws1 ws2 tail,
       block_shape (skipn 0 doc_tagged_close) ws1 (str "A") ws2 tail ->
       closing_fence_alone doc_tagged_close 0 ws1 (str "A") = false.
Proof.
  split; [vm_compute; left; reflexivity|].
  intros ws1 ws2 tail (Hr & F1 & _).
  assert (E : ws1 = []).
  { change (skipn 0 doc_tagged_close)
      with (open_fence ++ [nl; 65%N; nl; backtick; backtick; backtick;
                           106%N; 115%N; nl]) in Hr.
    apply app_inv_head in Hr.
    destruct ws1 as [|w1 ws1]; [reflexivity|]. exfalso.
    simpl in Hr. injection Hr as Hw Hr. subst w1.
    destruct ws1 as [|w2 ws1]; simpl in Hr.
    - discriminate Hr.
    - injection Hr as Hw _. subst w2. simpl in F1. discriminate F1. }
  subst ws1. vm_compute. reflexivity.
Qed.

(* ================================================================== *)
(** * Rewrite Engine: append mode and the marker *)
(* ================================================================== *)

(** C10.  In append mode, when the marker prefix occurs anywhere in the 400
    characters after a block's end, whatever follows the prefix there (the
    name of another image, say), the iteration for that block adds only the
    text up to the block's end: nothing is inserted.  For a document with
    that one block the rewrite returns the text unchanged, whatever the new
    image name and reference are. *)
Theorem stale_marker_suppresses_append (md_text : text) (md_file : path)
    (start end_ : nat) (out_path : path) (rel : text)
    (pairs : list ((span * path) * text)) (parts : list text) (last : nat)
    (before rest : text) :
  slice md_text end_ (end_ + LOOKAHEAD_APPEND) = before ++ MARKER_PREFIX ++ rest ->
  append_loop md_text md_file ((((start, end_), out_path), rel) :: pairs)
              parts last
  = append_loop md_text md_file pairs (parts ++ [slice md_text last end_]) end_
  /\ add_images_after_blocks md_text md_file [((start, end_), out_path)] [rel]
     = md_text.
Proof.
  intros Hw.
  assert (Hc : contains MARKER_PREFIX (slice md_text end_ (end_ + LOOKAHEAD_APPEND))
               = true) by (rewrite Hw; apply contains_app).
  split.
  - cbn [append_loop]. rewrite Hc, orb_true_r. reflexivity.
  - rewrite add_images_out. cbn [combine append_out].
    unfold already_rendered. rewrite Hc, orb_true_r, slice_0.
    apply firstn_skipn.
Qed.

Lemma stale_marker_suppresses_append_witness :
  slice doc_stale_marker 17 (17 + LOOKAHEAD_APPEND)
  = (str "![d diagram](d-mermaid-1-6dcd4ce23d.png)" ++ [nl])
    ++ MARKER_PREFIX ++ (str "d-mermaid-1-6dcd4ce23d.png -->" ++ [nl])
  /\ add_images_after_blocks doc_stale_marker (MkPath [] [str "d.md"])
       [((0, 17), MkPath [] [str "d-mermaid-1-ae4f281df5.png"])]
       [str "d-mermaid-1-ae4f281df5.png"]
     = doc_stale_marker.
Proof.
  assert (H : slice doc_stale_marker 17 (17 + LOOKAHEAD_APPEND)
              = (str "![d diagram](d-mermaid-1-6dcd4ce23d.png)" ++ [nl])
                ++ MARKER_PREFIX ++ (str "d-mermaid-1-6dcd4ce23d.png -->" ++ [nl]))
    by (vm_compute; reflexivity).
  split; [exact H|].
  exact (proj2 (stale_marker_suppresses_append doc_stale_marker
                  (MkPath [] [str "d.md"]) 0 17
                  (MkPath [] [str "d-mermaid-1-ae4f281df5.png"])
                  (str "d-mermaid-1-ae4f281df5.png") [] [] 0 _ _ H)).
Defined.

(* ================================================================== *)
(** * Content Namer: properties *)
(* ================================================================== *)

Example doc_md_stem : stem doc_md = str "doc".
Proof. vm_compute. reflexivity. Qed.

Example hash_text_graph : hash_text (str "graph TD; A-->B;") = Some (str "9960dae465").
Proof. vm_compute. reflexivity. Qed.

(** C3, as the code has it.  The image file name of a block is the document
    stem, [-mermaid-], the decimal index, [-], ten lowercase hexadecimal
    digits, a dot and the extension; the digits are the first ten of the
    SHA-1 digest of the UTF-8 encoding of the block's source; the extension is
    [svg] when the requested format lowers to [svg] and [png] otherwise.
    (The infix is [-mermaid-], not [-diagram-].) *)
Theorem image_name_form (md_file : path) (fmt : text) (idx : nat)
    (code image_name : text) :
  image_name_of md_file fmt idx code = Some image_name ->
  exists bs h ext,
    encode_utf8 code = Some bs
    /\ h = firstn 10 (hexdigest (SHA1.digest bs))
    /\ length h = 10 /\ forallb is_lower_hex h = true
    /\ (ext = str "svg" \/ ext = str "png")
    /\ (ext = str "svg" <-> lower fmt = str "svg")
    /\ image_name
       = stem md_file ++ str "-mermaid-" ++ dec idx ++ str "-" ++ h ++ dot :: ext.
Proof.
  unfold image_name_of. destruct (hash_text code) as [h|] eqn:Eh; [|discriminate].
  intros H; inversion H; subst image_name; clear H.
  apply hash_text_form in Eh. destruct Eh as (bs & Hb & Hh & Hl & Hx).
  exists bs, h.
  destruct (text_eqb (lower fmt) (str "svg")) eqn:E.
  - exists (str "svg"). apply text_eqb_eq in E.
    repeat split; auto.
  - exists (str "png"). repeat split; auto.
    + discriminate.
    + intros F. rewrite F, text_eqb_refl in E. discriminate.
Qed.

Lemma image_name_form_witness :
  image_name_of doc_md (str "png") 1 (str "graph TD; A-->B;")
  = Some (str "doc-mermaid-1-9960dae465.png")
  /\ exists bs h ext,
       encode_utf8 (str "graph TD; A-->B;") = Some bs
       /\ h = firstn 10 (hexdigest (SHA1.digest bs))
       /\ length h = 10 /\ forallb is_lower_hex h = true
       /\ (ext = str "svg" \/ ext = str "png")
       /\ (ext = str "svg" <-> lower (str "png") = str "svg")
       /\ str "doc-mermaid-1-9960dae465.png"
          = stem doc_md ++ str "-mermaid-" ++ dec 1 ++ str "-" ++ h ++ dot :: ext.
Proof.
  assert (H : image_name_of doc_md (str "png") 1 (str "graph TD; A-->B;")
              = Some (str "doc-mermaid-1-9960dae465.png"))
    by (vm_compute; reflexivity).
  split; [exact H|].
  exact (image_name_form doc_md (str "png") 1 (str "graph TD; A-->B;") _ H).
Defined.

(** C3, as the spec words it, fails: the name of the first block of
    [a/b/doc.md] is [doc-mermaid-1-9960dae465.png], which is not of the form
    [doc-diagram-1-{hash}.{ext}] for any hash and extension. *)
Lemma image_name_is_not_diagram :
  image_name_of doc_md (str "png") 1 (str "graph TD; A-->B;")
  = Some (str "doc-mermaid-1-9960dae465.png")
  /\ forall h ext,
       str "doc-mermaid-1-9960dae465.png"
       <> stem doc_md ++ str "-diagram-" ++ dec 1 ++ str "-" ++ h ++ dot :: ext.
Proof.
  split; [vm_compute; reflexivity|].
  intros h ext H. rewrite doc_md_stem in H.
  cbv [str list_ascii_of_string map N_of_ascii N_of_digits app] in H.
  discriminate H.
Qed.

(** C4, as the code has it.  The name is a function of the source, the stem,
    the index and the format; for sources that [hash_text] accepts, two
    sources get the same name exactly when their ten-digit digests are
    equal.  Sources with different digests get different names; sources
    with equal digests share one. *)
Theorem image_name_depends_on_hash (md_file : path) (fmt : text) (idx : nat)
    (s s' h h' : text) :
  hash_text s = Some h -> hash_text s' = Some h' ->
  (image_name_of md_file fmt idx s = image_name_of md_file fmt idx s'
   <-> h = h').
Proof.
  intros Hs Hs'. unfold image_name_of. rewrite Hs, Hs'. split.
  - intros H. injection H as E.
    exact (app4_inv (stem md_file) (str "-mermaid-") (dec idx) (str "-") h h'
                    (if text_eqb (lower fmt) (str "svg")
                     then str ".svg" else str ".png") E).
  - intros ->; reflexivity.
Qed.

Lemma image_name_depends_on_hash_witness :
  hash_text source_1 = Some (str "2361a42fa3")
  /\ hash_text (str "graph TD; A-->B;") = Some (str "9960dae465")
  /\ (image_name_of doc_md (str "png") 1 source_1
      = image_name_of doc_md (str "png") 1 (str "graph TD; A-->B;")
      <-> str "2361a42fa3" = str "9960dae465").
Proof.
  assert (H1 : hash_text source_1 = Some (str "2361a42fa3"))
    by (vm_compute; reflexivity).
  assert (H2 : hash_text (str "graph TD; A-->B;") = Some (str "9960dae465"))
    by (vm_compute; reflexivity).
  split; [exact H1|]. split; [exact H2|].
  exact (image_name_depends_on_hash doc_md (str "png") 1 _ _ _ _ H1 H2).
Defined.

(** C4, as the spec words it, fails: these two different sources have the
    same ten-digit digest, and so the same file name. *)
Lemma image_name_collision :
  source_1 <> source_2
  /\ image_name_of doc_md (str "png") 1 source_1
     = Some (str "doc-mermaid-1-2361a42fa3.png")
  /\ image_name_of doc_md (str "png") 1 source_2
     = Some (str "doc-mermaid-1-2361a42fa3.png").
Proof.
  split; [discriminate|]. split; vm_compute; reflexivity.
Qed.

(* ================================================================== *)
(** * Path Resolver: properties *)
(* ================================================================== *)



(** The four placements of the document [a/b/doc.md], the current directory
    being the root: per-file, same directory, an explicit directory, and
    the default output directory. *)
Example placements_of_a_document :
  let embedded placement :=
    option_map (fun bases => rel_path_of posix (snd bases)
                               (str "doc-mermaid-1-9960dae465.png"))
               (resolve_placement posix (fun p => Some p) (Some root_dir)
                  relpath_from_root doc_md None placement) in
  embedded (Some (str " Per-File "))
  = Some (str "doc_images/doc-mermaid-1-9960dae465.png")
  /\ embedded (Some (str "."))
     = Some (str "doc-mermaid-1-9960dae465.png")
  /\ embedded (Some (str "img/sub"))
     = Some (str "img/sub/doc-mermaid-1-9960dae465.png")
  /\ embedded None
     = Some (str "../../docs/_assets/mermaid/doc-mermaid-1-9960dae465.png").
Proof. vm_compute. repeat split; reflexivity. Qed.

(* ================================================================== *)
(** * Document Processor: properties *)
(* ================================================================== *)




(** The run of the spec's example: three blocks, the renderer fails on the
    second; the first and the third are replaced by their image lines, the
    second stays, and the error is printed between the two successes. *)
Example three_blocks_second_fails :
  process_file posix listed render_fails_on_B (fun p => Some p) (Some root_dir)
    (fun _ _ => Some [dot]) doc_md doc_three_blocks None (Some (str "per-file"))
    (str "png") (str "render_replace") false false false []
  = Some (Outcome 3 2
            [EvOk image_A; EvErr 2 (str "mmdc failed: boom"); EvOk image_C;
             EvMdUpdated]
            (Some (str "![doc diagram](doc_images/doc-mermaid-1-6dcd4ce23d.png)"
                   ++ [nl] ++ open_fence ++ [nl] ++ str "B" ++ [nl] ++ fence
                   ++ [nl]
                   ++ str "![doc diagram](doc_images/doc-mermaid-3-32096c2e0e.png)"
                   ++ [nl]))
            [image_C; image_A]).
Proof. vm_compute. reflexivity. Qed.

(** C9, as the code has it.  A run of [process_file] that paired no block
    with an image (every block's rendering failed, or there was no block)
    does not write the document back, and both rewrites return the text
    unchanged when given no pair. *)
Theorem no_pairs_no_write (fl : flavour) (fs : Type)
    (path_exists : fs -> path -> option bool)
    (render_mermaid : text -> path -> text -> fs -> render_result * fs)
    (resolve : path -> option path) (cwd : option path)
    (relpath : path -> path -> option text)
    (md_file : path) (text_read : text) (out_dir : option path)
    (images_dir_rel : option text) (fmt mode : text)
    (dry_run backup force : bool) (w : fs) (o : outcome fs)
    (rels : list text) :
  process_file fl path_exists render_mermaid resolve cwd relpath md_file
    text_read out_dir images_dir_rel fmt mode dry_run backup force w = Some o ->
  images_count o = 0 ->
  written_back o = None
  /\ replace_blocks_with_images text_read md_file [] rels = text_read
  /\ add_images_after_blocks text_read md_file [] rels = text_read.
Proof.
  intros Hpf Hc.
  split; [|split; [apply replace_no_pairs | apply append_no_pairs]].
  unfold process_file in Hpf.
  destruct (find_mermaid_blocks text_read) as [|b bs].
  { injection Hpf as <-. reflexivity. }
  destruct (resolve_placement _ _ _ _ _ _ _) as [[ib rb]|]; [|discriminate].
  destruct (block_loop _ _ _ _ _ _ _ _ _ _ _ _) as [st|]; [|discriminate].
  assert (Hnil : images_written st = []).
  { destruct (images_written st) eqn:E; [reflexivity|]. exfalso.
    repeat match type of Hpf with
           | context [if ?c then _ else _] => destruct c
           end; injection Hpf as <-; simpl in Hc; discriminate. }
  rewrite Hnil in Hpf.
  rewrite replace_no_pairs, append_no_pairs in Hpf.
  rewrite text_eqb_refl in Hpf. cbn [negb andb] in Hpf.
  rewrite ?andb_false_r in Hpf.
  repeat match type of Hpf with
         | context [if ?c then _ else _] => destruct c
         end; injection Hpf as <-; reflexivity.
Qed.

Lemma no_pairs_no_write_witness :
  process_file posix nothing_exists render_always_fails (fun p => Some p) (Some root_dir)
    (fun _ _ => Some [dot]) doc_md doc1 None (Some (str "per-file")) (str "png")
    (str "render_replace") false true false tt
  = Some (Outcome 1 0 [EvErr 1 (str "mmdc not found")] None tt)
  /\ written_back (Outcome 1 0 [EvErr 1 (str "mmdc not found")] None tt) = None.
Proof.
  assert (H : process_file posix nothing_exists render_always_fails
                (fun p => Some p) (Some root_dir) (fun _ _ => Some [dot]) doc_md doc1 None
                (Some (str "per-file")) (str "png") (str "render_replace")
                false true false tt
              = Some (Outcome 1 0 [EvErr 1 (str "mmdc not found")] None tt))
    by (vm_compute; reflexivity).
  split; [exact H|].
  exact (proj1 (no_pairs_no_write posix unit nothing_exists render_always_fails
                  (fun p => Some p) (Some root_dir) (fun _ _ => Some [dot]) doc_md doc1 None
                  (Some (str "per-file")) (str "png") (str "render_replace")
                  false true false tt _ [] H eq_refl)).
Defined.

(** C9, as the spec words it, fails: here the image of the only block
    exists already, so the block is skipped and the renderer is not called;
    no file is written for any block, and yet replace mode returns a text
    different from the original, which [process_file] writes back. *)
Lemma skipped_block_is_rewritten :
  process_file posix everything_exists render_always_succeeds (fun p => Some p)
    (Some root_dir) (fun _ _ => Some [dot]) doc_md doc1 None (Some (str "per-file"))
    (str "png") (str "render_replace") false false false tt
  = Some (Outcome 1 1 [EvSkip image_doc1; EvMdUpdated] (Some doc1_replaced) tt)
  /\ replace_blocks_with_images doc1 doc_md [((6, 38), image_doc1)]
       [str "doc_images/doc-mermaid-1-9960dae465.png"]
     = doc1_replaced
  /\ doc1_replaced <> doc1.
Proof.
  split; [vm_compute; reflexivity|].
  split; [vm_compute; reflexivity|].
  vm_compute. discriminate.
Qed.

(* ================================================================== *)
(** * Rewrite Engine: replace mode run twice *)
(* ================================================================== *)

(** C1, as the code has it.  Let every located block have an image
    reference, let the document stem and the embedded paths contain no line
    break, and let the text at which copying resumes after each block begin
    a line of the original or not begin with an opening fence.  Then the
    text rewritten in replace mode contains no block, and locating and
    replacing again with the same references returns it unchanged. *)
Theorem replace_twice_is_replace_once (md_file : path)
    (refs : list (path * text)) (md_text : text) :
  length (find_mermaid_blocks md_text) <= length refs ->
  no_newline (stem md_file) = true ->
  forallb (fun r => no_newline (snd r)) refs = true ->
  resumes_cleanly_after md_text
    (combine (map fst (find_mermaid_blocks md_text)) (map fst refs)) = true ->
  find_mermaid_blocks (locate_and_replace md_file refs md_text) = []
  /\ locate_and_replace md_file refs (locate_and_replace md_file refs md_text)
     = locate_and_replace md_file refs md_text.
Proof.
  intros Hlen Hstem Hrels Hres.
  assert (Hnone : find_mermaid_blocks (locate_and_replace md_file refs md_text) = []).
  { apply no_block_iff_clean. unfold locate_and_replace.
    rewrite replace_blocks_out.
    set (spans := map fst (find_mermaid_blocks md_text)) in *.
    assert (Hl1 : length spans <= length (map fst refs))
      by (subst spans; rewrite !length_map; exact Hlen).
    assert (Hl2 : length (combine spans (map fst refs)) <= length (map snd refs)).
    { rewrite length_combine, !length_map. subst spans. rewrite length_map. lia. }
    apply (replace_out_clean md_text md_file Hstem _ 0 0).
    - rewrite <- map_map, !combine_fst_all by assumption.
      subst spans. rewrite spans_of_blocks.
      apply (finditer_from_gaps MERMAID_BLOCK_RE mermaid_progress md_text
               md_text [] 0 eq_refl).
    - lia.
    - reflexivity.
    - apply forallb_combine_snd. rewrite forallb_map_snd. exact Hrels.
    - rewrite combine_fst_all by assumption. exact Hres. }
  split; [exact Hnone|].
  unfold locate_and_replace at 1. rewrite Hnone. apply replace_no_pairs.
Qed.

Lemma replace_twice_is_replace_once_witness :
  length (find_mermaid_blocks doc1) <= length [ref_doc1]
  /\ locate_and_replace doc_md [ref_doc1] doc1 = doc1_replaced
  /\ locate_and_replace doc_md [ref_doc1] (locate_and_replace doc_md [ref_doc1] doc1)
     = locate_and_replace doc_md [ref_doc1] doc1.
Proof.
  assert (H1 : length (find_mermaid_blocks doc1) <= length [ref_doc1])
    by (vm_compute; lia).
  split; [exact H1|]. split; [vm_compute; reflexivity|].
  refine (proj2 (replace_twice_is_replace_once doc_md [ref_doc1] doc1 H1 _ _ _));
    vm_compute; reflexivity.
Defined.

(** C1, as the spec words it, fails: replacing the one block of
    [doc_indented_fence] leaves the indented fence at the start of a line,
    where it is a block; locating and replacing again with the same
    reference replaces it too, and the image line appears twice. *)
Lemma replace_twice_differs :
  find_mermaid_blocks doc_indented_fence = [((0, 19), str "A")]
  /\ locate_and_replace doc_md [ref_A] doc_indented_fence
     = str "![doc diagram](doc_images/doc-mermaid-1-6dcd4ce23d.png)" ++ [nl]
       ++ open_fence ++ [nl] ++ str "B" ++ [nl] ++ fence ++ [nl]
  /\ locate_and_replace doc_md [ref_A]
       (locate_and_replace doc_md [ref_A] doc_indented_fence)
     = str "![doc diagram](doc_images/doc-mermaid-1-6dcd4ce23d.png)" ++ [nl]
       ++ str "![doc diagram](doc_images/doc-mermaid-1-6dcd4ce23d.png)" ++ [nl]
  /\ locate_and_replace doc_md [ref_A]
       (locate_and_replace doc_md [ref_A] doc_indented_fence)
     <> locate_and_replace doc_md [ref_A] doc_indented_fence.
Proof.
  repeat split; try (vm_compute; reflexivity).
  vm_compute. discriminate.
Qed.

(* ================================================================== *)
(** * Rewrite Engine: append mode run twice *)
(* ================================================================== *)

(** Append-after applied again, at spans given from outside.  Let the ends
    of the paired spans not decrease and lie inside the text, let no paired
    block be taken for rendered already, and let every reference be short
    enough for the marker prefix of the appended text to end within the 400
    characters of the lookahead.  Applied to its own result with the same
    references, each span's end moved by the length of what was inserted
    before it and taken before or after the line break inserted at it,
    append-after returns the text unchanged. *)
Theorem append_again_at_moved_spans (md_file : path) (md_text : text)
    (images_written images_written' : list (span * path))
    (image_paths_rel : list text) :
  ends_within 0 (combine images_written image_paths_rel) (length md_text) ->
  none_rendered md_text (combine images_written image_paths_rel) = true ->
  short_links md_file (combine images_written image_paths_rel) = true ->
  same_blocks_after md_file 0 (combine images_written image_paths_rel)
                    (combine images_written' image_paths_rel) ->
  add_images_after_blocks
    (add_images_after_blocks md_text md_file images_written image_paths_rel)
    md_file images_written' image_paths_rel
  = add_images_after_blocks md_text md_file images_written image_paths_rel.
Proof.
  intros He Hf Hs Hsame. rewrite !add_images_out.
  apply (append_again_noop md_text md_file _
           (combine images_written image_paths_rel) _ 0 [] 0 0);
    auto.
Qed.

(** C2, as the code has it.  Let the blocks of a document be paired in
    order with image references, and let, for every paired block: the
    lookahead after it hold neither the file name nor the marker prefix;
    the reference be short enough for the marker prefix of the appended
    text to end within the 400 characters of the lookahead (stem and
    embedded path together at most 367 characters); the text after the
    block's span begin a line or not begin with three backticks; and the
    appended text (stem, embedded path, file name) have no backtick.  Then
    locating the blocks of the rewritten text and applying append-after to
    it with the same references changes nothing: the locator finds the same
    block sources, the lookahead after every paired block finds the file
    name or the marker prefix, and the text returned is the text of the
    first application. *)
Theorem append_twice_is_append_once (md_file : path)
    (refs : list (path * text)) (md_text : text) :
  appends_once md_file refs md_text = true ->
  map snd (find_mermaid_blocks (locate_and_append md_file refs md_text))
  = map snd (find_mermaid_blocks md_text)
  /\ all_rendered (locate_and_append md_file refs md_text)
       (pairs_of (finditer MERMAID_BLOCK_RE
                           (locate_and_append md_file refs md_text))
                 refs) = true
  /\ locate_and_append md_file refs (locate_and_append md_file refs md_text)
     = locate_and_append md_file refs md_text.
Proof.
  intros H.
  pose proof (finditer_appended md_file refs md_text H) as Hfind.
  pose proof (appends_once_junctions md_file refs md_text H) as Hj.
  pose proof (junctions_ends md_text md_file _ 0 Hj (Nat.le_0_l _)) as He.
  unfold appends_once in H.
  apply andb_true_iff in H. destruct H as [H _].
  apply andb_true_iff in H. destruct H as [H _].
  apply andb_true_iff in H. destruct H as [Hf Hs].
  split; [|split].
  - unfold find_mermaid_blocks. rewrite !map_map. cbn [snd].
    rewrite Hfind. apply shifted_group.
  - rewrite Hfind.
    apply (append_again_rendered md_text md_file _
             (pairs_of (finditer MERMAID_BLOCK_RE md_text) refs) _ 0 [] 0);
      auto.
    + apply locate_and_append_out.
    + apply same_blocks_shifted.
  - rewrite (locate_and_append_out md_file refs
               (locate_and_append md_file refs md_text)).
    rewrite Hfind.
    apply (append_again_noop md_text md_file _
             (pairs_of (finditer MERMAID_BLOCK_RE md_text) refs) _ 0 [] 0 0);
      auto.
    + apply locate_and_append_out.
    + apply same_blocks_shifted.
Qed.

Lemma append_twice_is_append_once_witness :
  appends_once doc_md [ref_doc1] doc1 = true
  /\ map fst (find_mermaid_blocks doc1) = [(6, 38)]
  /\ map fst (find_mermaid_blocks (locate_and_append doc_md [ref_doc1] doc1))
     = [(6, 39)]
  /\ map snd (find_mermaid_blocks (locate_and_append doc_md [ref_doc1] doc1))
     = map snd (find_mermaid_blocks doc1)
  /\ all_rendered (locate_and_append doc_md [ref_doc1] doc1)
       (pairs_of (finditer MERMAID_BLOCK_RE
                           (locate_and_append doc_md [ref_doc1] doc1))
                 [ref_doc1]) = true
  /\ locate_and_append doc_md [ref_doc1]
       (locate_and_append doc_md [ref_doc1] doc1)
     = locate_and_append doc_md [ref_doc1] doc1.
Proof.
  assert (H : appends_once doc_md [ref_doc1] doc1 = true)
    by (vm_compute; reflexivity).
  split; [exact H|].
  split; [vm_compute; reflexivity|]. split; [vm_compute; reflexivity|].
  exact (append_twice_is_append_once doc_md [ref_doc1] doc1 H).
Defined.

(** C2, as the spec words it, fails: with an embedded path of more than 400
    characters the text appended after the block of [doc_A] puts neither the
    marker prefix nor the file name within the 400 characters of the
    lookahead.  Applied again to its result, with the same span as with the
    span the locator finds there, append-after appends the link a second
    time. *)
Lemma long_reference_is_appended_twice :
  map fst (find_mermaid_blocks doc_A) = [(0, 17)]
  /\ map fst (find_mermaid_blocks (locate_and_append doc_md [long_ref] doc_A))
     = [(0, 18)]
  /\ length (locate_and_append doc_md [long_ref] doc_A) = 515
  /\ length (locate_and_append doc_md [long_ref]
               (locate_and_append doc_md [long_ref] doc_A)) = 1013
  /\ length (add_images_after_blocks (locate_and_append doc_md [long_ref] doc_A)
               doc_md [((0, 17), image_A)] [long_rel]) = 1013
  /\ locate_and_append doc_md [long_ref]
       (locate_and_append doc_md [long_ref] doc_A)
     <> locate_and_append doc_md [long_ref] doc_A.
Proof.
  assert (H1 : length (locate_and_append doc_md [long_ref] doc_A) = 515)
    by (vm_compute; reflexivity).
  assert (H2 : length (locate_and_append doc_md [long_ref]
                         (locate_and_append doc_md [long_ref] doc_A)) = 1013)
    by (vm_compute; reflexivity).
  split; [vm_compute; reflexivity|]. split; [vm_compute; reflexivity|].
  split; [exact H1|]. split; [exact H2|]. split; [vm_compute; reflexivity|].
  intros E. rewrite E, H1 in H2. discriminate H2.
Qed.

(* ================================================================== *)
(** * Further properties: the loop of the Document Processor *)
(* ================================================================== *)

(** X1.  The pairs the loop of [process_file] hands to the rewrite: there
    are as many embedded paths as pairs, and the spans of the pairs are
    spans of located blocks, in the order of the document, none twice: they
    are non-empty, each ends at or before the start of the next, and all lie
    inside the text. *)
Theorem paired_spans_in_document_order (fl : flavour) (fs : Type)
    (path_exists : fs -> path -> option bool)
    (render_mermaid : text -> path -> text -> fs -> render_result * fs)
    (md_file images_base rel_base : path) (fmt : text)
    (dry_run force : bool) (text_read : text) (w : fs)
    (st : loop_state fs) :
  block_loop fl path_exists render_mermaid md_file images_base rel_base fmt
             dry_run force (fresh w) 1 (find_mermaid_blocks text_read)
  = Some st ->
  length (images_written st) = length (image_paths_rel st)
  /\ subseq (map fst (images_written st))
            (map fst (find_mermaid_blocks text_read))
  /\ ordered_from 0 (map fst (images_written st))
  /\ Forall (fun sp => snd sp <= length text_read)
            (map fst (images_written st)).
Proof.
  intros H. apply loop_adds in H.
  destruct H as (added & rels & evs & Hi & Hr & _ & Hl & _ & _ & Hs).
  cbn [fresh images_written image_paths_rel app] in Hi, Hr.
  rewrite Hi, Hr. split; [exact Hl|]. split; [exact Hs|]. split.
  - apply (ordered_from_subseq _ _ _ Hs). apply blocks_ordered.
  - apply Forall_forall. intros sp Hin.
    apply (subseq_incl _ _ Hs) in Hin.
    exact (proj1 (Forall_forall _ _) (blocks_bounded text_read) sp Hin).
Qed.

Lemma paired_spans_in_document_order_witness :
  exists st,
    block_loop posix listed render_fails_on_B doc_md doc_images_dir
               (MkPath [] [str "doc_images"]) (str "png") false false
               (fresh []) 1 (find_mermaid_blocks doc_three_blocks)
    = Some st
    /\ map fst (images_written st) = [(0, 17); (34, 51)]
    /\ ordered_from 0 (map fst (images_written st)).
Proof.
  eexists. split; [vm_compute; reflexivity|].
  split; [vm_compute; reflexivity|].
  refine (proj1 (proj2 (proj2
            (paired_spans_in_document_order posix (list path) listed
               render_fails_on_B
               doc_md doc_images_dir (MkPath [] [str "doc_images"])
               (str "png") false false doc_three_blocks [] _ _)))).
  vm_compute. reflexivity.
Defined.

(** X2.  Whatever [process_file] returns, every located block is either
    paired with an image or reported on an [ERR] line: the number of blocks
    is the number of images counted plus the number of error lines. *)
Theorem every_block_is_paired_or_reported (fl : flavour) (fs : Type)
    (path_exists : fs -> path -> option bool)
    (render_mermaid : text -> path -> text -> fs -> render_result * fs)
    (resolve : path -> option path) (cwd : option path)
    (relpath : path -> path -> option text)
    (md_file : path) (text_read : text) (out_dir : option path)
    (images_dir_rel : option text) (fmt mode : text)
    (dry_run backup force : bool) (w : fs) (o : outcome fs) :
  process_file fl path_exists render_mermaid resolve cwd relpath md_file
    text_read out_dir images_dir_rel fmt mode dry_run backup force w = Some o ->
  blocks_found o = length (find_mermaid_blocks text_read)
  /\ blocks_found o = images_count o + length (filter is_err (printed o)).
Proof.
  unfold process_file.
  destruct (find_mermaid_blocks text_read) as [|b bs] eqn:Eb.
  { intros H; injection H as <-. split; reflexivity. }
  destruct (resolve_placement fl resolve cwd relpath md_file out_dir
              images_dir_rel) as [[ib rb]|]; [|discriminate].
  destruct (block_loop _ _ _ _ _ _ _ _ _ _ 1 (b :: bs)) as [st|] eqn:El;
    [|discriminate].
  apply loop_adds in El.
  destruct El as (added & rels & evs & Hi & _ & He & _ & _ & Hc & _).
  cbn [images_written events app] in Hi, He. cbn [length] in Hc.
  repeat match goal with
         | |- context [if ?c then _ else _] => destruct c
         end;
    intros H; injection H as <-;
    cbn [blocks_found images_count printed];
    rewrite Hi, He; (split; [reflexivity|]);
    try destruct backup;
    rewrite ?filter_app; cbn [backup_events app filter is_err];
    rewrite ?length_app; cbn [length]; lia.
Qed.

Lemma every_block_is_paired_or_reported_witness :
  exists o,
    process_file posix listed render_fails_on_B (fun p => Some p) (Some root_dir)
      (fun _ _ => Some [dot]) doc_md doc_three_blocks None
      (Some (str "per-file")) (str "png") (str "render_replace")
      false false false []
    = Some o
    /\ blocks_found o = 3 /\ images_count o = 2
    /\ blocks_found o = images_count o + length (filter is_err (printed o)).
Proof.
  eexists. split; [vm_compute; reflexivity|].
  split; [reflexivity|]. split; [reflexivity|].
  refine (proj2 (every_block_is_paired_or_reported posix (list path) listed
            render_fails_on_B (fun p => Some p) (Some root_dir) (fun _ _ => Some [dot]) doc_md
            doc_three_blocks None (Some (str "per-file"))
            (str "png") (str "render_replace") false false false
            [] _ _)).
  vm_compute. reflexivity.
Defined.

Lemma write_back_cases (fl : flavour) (fs : Type)
    (path_exists : fs -> path -> option bool)
    (render_mermaid : text -> path -> text -> fs -> render_result * fs)
    (resolve : path -> option path) (cwd : option path)
    (relpath : path -> path -> option text)
    (md_file : path) (text_read : text) (out_dir : option path)
    (images_dir_rel : option text) (fmt mode : text)
    (dry_run backup force : bool) (w : fs) (o : outcome fs)
    (new_text : text) :
  process_file fl path_exists render_mermaid resolve cwd relpath md_file
    text_read out_dir images_dir_rel fmt mode dry_run backup force w = Some o ->
  written_back o = Some new_text ->
  dry_run = false /\ new_text <> text_read
  /\ exists images_base rel_base st,
       resolve_placement fl resolve cwd relpath md_file out_dir images_dir_rel
       = Some (images_base, rel_base)
       /\ block_loop fl path_exists render_mermaid md_file images_base
            rel_base fmt dry_run force (fresh w) 1
            (find_mermaid_blocks text_read)
          = Some st
       /\ ((mode = str "render_replace"
            /\ new_text = replace_blocks_with_images text_read md_file
                            (images_written st) (image_paths_rel st)
            /\ In EvMdUpdated (printed o))
           \/ (mode = str "render_keep"
               /\ new_text = add_images_after_blocks text_read md_file
                               (images_written st) (image_paths_rel st)
               /\ In EvMdAppended (printed o))).
Proof.
  unfold process_file.
  destruct (find_mermaid_blocks text_read) as [|b bs].
  { intros H; injection H as <-. discriminate. }
  destruct (resolve_placement fl resolve cwd relpath md_file out_dir
              images_dir_rel) as [[ib rb]|]; [|discriminate].
  unfold fresh.
  destruct (block_loop _ _ _ _ _ _ _ _ _ _ 1 (b :: bs)) as [st|] eqn:El;
    [|discriminate].
  destruct (text_eqb mode (str "render_replace")) eqn:Em.
  - apply text_eqb_eq in Em.
    destruct (negb dry_run
              && negb (text_eqb (replace_blocks_with_images text_read md_file
                                   (images_written st) (image_paths_rel st))
                                text_read)) eqn:Ec;
      intros H; injection H as <-; cbn [written_back printed];
      [|discriminate].
    intros H; injection H as <-.
    apply andb_true_iff in Ec. destruct Ec as [Hd Hne].
    apply negb_true_iff in Hd, Hne. split; [exact Hd|]. split.
    + intros E. rewrite E, text_eqb_refl in Hne. discriminate.
    + exists ib, rb, st. split; [reflexivity|]. split; [exact El|]. left.
      repeat split; [exact Em|].
      apply in_or_app. right. apply in_or_app. right. left. reflexivity.
  - destruct (text_eqb mode (str "render_keep")) eqn:Ek.
    + apply text_eqb_eq in Ek.
      destruct (negb (text_eqb (add_images_after_blocks text_read md_file
                                  (images_written st) (image_paths_rel st))
                               text_read)
                && negb dry_run) eqn:Ec;
        intros H; injection H as <-; cbn [written_back printed];
        [|discriminate].
      intros H; injection H as <-.
      apply andb_true_iff in Ec. destruct Ec as [Hne Hd].
      apply negb_true_iff in Hd, Hne. split; [exact Hd|]. split.
      * intros E. rewrite E, text_eqb_refl in Hne. discriminate.
      * exists ib, rb, st. split; [reflexivity|]. split; [exact El|].
        right.
        repeat split; [exact Ek|].
        apply in_or_app. right. apply in_or_app. right. left. reflexivity.
    + intros H; injection H as <-. discriminate.
Qed.

(** X3.  [process_file] writes a document back only outside a dry run, only
    in the modes [render_replace] and [render_keep], and only when the
    rewritten text differs from the text read; the text written is what the
    rewrite of that mode returned, and the matching [MD] line is printed.
    In every other mode, [export_only] included, nothing is written. *)
Theorem written_text_differs (fl : flavour) (fs : Type)
    (path_exists : fs -> path -> option bool)
    (render_mermaid : text -> path -> text -> fs -> render_result * fs)
    (resolve : path -> option path) (cwd : option path)
    (relpath : path -> path -> option text)
    (md_file : path) (text_read : text) (out_dir : option path)
    (images_dir_rel : option text) (fmt mode : text)
    (dry_run backup force : bool) (w : fs) (o : outcome fs)
    (new_text : text) :
  process_file fl path_exists render_mermaid resolve cwd relpath md_file
    text_read out_dir images_dir_rel fmt mode dry_run backup force w = Some o ->
  written_back o = Some new_text ->
  dry_run = false /\ new_text <> text_read
  /\ exists images_base rel_base st,
       resolve_placement fl resolve cwd relpath md_file out_dir images_dir_rel
       = Some (images_base, rel_base)
       /\ block_loop fl path_exists render_mermaid md_file images_base
            rel_base fmt dry_run force (fresh w) 1
            (find_mermaid_blocks text_read)
          = Some st
       /\ ((mode = str "render_replace"
            /\ new_text = replace_blocks_with_images text_read md_file
                            (images_written st) (image_paths_rel st)
            /\ In EvMdUpdated (printed o))
           \/ (mode = str "render_keep"
               /\ new_text = add_images_after_blocks text_read md_file
                               (images_written st) (image_paths_rel st)
               /\ In EvMdAppended (printed o))).
Proof.
  repeat match goal with H : _ |- _ => revert H end.
  exact write_back_cases.
Qed.

Lemma written_text_differs_witness :
  exists o new_text,
    process_file posix listed render_fails_on_B (fun p => Some p) (Some root_dir)
      (fun _ _ => Some [dot]) doc_md doc_three_blocks None
      (Some (str "per-file")) (str "png") (str "render_keep")
      false true false []
    = Some o
    /\ written_back o = Some new_text
    /\ new_text <> doc_three_blocks.
Proof.
  eexists. eexists. split; [vm_compute; reflexivity|].
  split; [reflexivity|].
  refine (proj1 (proj2 (written_text_differs posix (list path) listed
            render_fails_on_B (fun p => Some p) (Some root_dir) (fun _ _ => Some [dot]) doc_md
            doc_three_blocks None (Some (str "per-file")) (str "png")
            (str "render_keep") false true false [] _ _ _ _)));
    vm_compute; reflexivity.
Defined.

Section DryRun.

Variable fl : flavour.
Variable fs : Type.
Variables path_exists path_exists' : fs -> path -> option bool.
Variables render_mermaid render_mermaid'
  : text -> path -> text -> fs -> render_result * fs.
Variables (md_file images_base rel_base : path) (fmt : text).
Variable force : bool.

Lemma dry_loop blocks : forall st idx,
  Forall (fun b => encodable (snd b) = true) blocks ->
  exists evs added rels,
    block_loop fl path_exists render_mermaid md_file images_base rel_base
               fmt true force st idx blocks
    = Some (LoopState (images_written st ++ added)
                      (image_paths_rel st ++ rels)
                      (events st ++ evs) (the_fs st))
    /\ block_loop fl path_exists' render_mermaid' md_file images_base
                  rel_base fmt true force st idx blocks
       = Some (LoopState (images_written st ++ added)
                         (image_paths_rel st ++ rels)
                         (events st ++ evs) (the_fs st))
    /\ forallb is_dry evs = true
    /\ length added = length blocks
    /\ length evs = length blocks.
Proof.
  induction blocks as [|[sp code] bs IH]; intros st idx Hf.
  - exists [], [], []. rewrite !app_nil_r. destruct st.
    repeat split; reflexivity.
  - inversion Hf as [|? ? Hc Hbs]; subst. cbn [snd] in Hc.
    cbn [block_loop block_step]. unfold image_name_of, hash_text.
    pose proof (encodable_encode code Hc) as Hn.
    destruct (encode_utf8 code) as [bs0|]; [|congruence].
    set (nm := stem md_file ++ _).
    set (st1 := record_image st sp _ _ _ _).
    destruct (IH st1 (S idx) Hbs)
      as (evs & added & rels & H1 & H2 & H3 & H4 & H5).
    exists (EvDry (joinpath fl images_base nm) :: evs),
           ((sp, joinpath fl images_base nm) :: added),
           (rel_path_of fl rel_base nm :: rels).
    rewrite H1, H2. subst st1. unfold record_image.
    cbn [images_written image_paths_rel events the_fs].
    rewrite <- !app_assoc. cbn [app forallb is_dry length].
    rewrite H3, H4, H5. repeat split; reflexivity.
Qed.

End DryRun.

Lemma dry_run_outcome (fl : flavour) (fs : Type)
    (path_exists path_exists' : fs -> path -> option bool)
    (render_mermaid render_mermaid'
       : text -> path -> text -> fs -> render_result * fs)
    (resolve : path -> option path) (cwd : option path)
    (relpath : path -> path -> option text)
    (md_file : path) (text_read : text) (out_dir : option path)
    (images_dir_rel : option text) (fmt mode : text)
    (backup force : bool) (w : fs) :
  encodable text_read = true ->
  find_mermaid_blocks text_read = []
  \/ resolve_placement fl resolve cwd relpath md_file out_dir images_dir_rel
     <> None ->
  exists o,
    process_file fl path_exists render_mermaid resolve cwd relpath md_file
      text_read out_dir images_dir_rel fmt mode true backup force w = Some o
    /\ process_file fl path_exists' render_mermaid' resolve cwd relpath
         md_file text_read out_dir images_dir_rel fmt mode true backup force w
       = Some o
    /\ fs_after o = w /\ written_back o = None
    /\ forallb is_dry (printed o) = true
    /\ length (printed o) = blocks_found o
    /\ images_count o = blocks_found o
    /\ blocks_found o = length (find_mermaid_blocks text_read).
Proof.
  intros Henc Hres. pose proof (blocks_encodable text_read Henc) as Hall.
  unfold process_file.
  destruct (find_mermaid_blocks text_read) as [|b bs] eqn:Eb.
  { eexists. repeat split; reflexivity. }
  destruct Hres as [Hres | Hres]; [discriminate|].
  destruct (resolve_placement fl resolve cwd relpath md_file out_dir
              images_dir_rel) as [[ib rb]|]; [|congruence].
  destruct (dry_loop fl fs path_exists path_exists' render_mermaid
              render_mermaid' md_file ib rb fmt force (b :: bs)
              (LoopState [] [] [] w) 1 Hall)
    as (evs & added & rels & H1 & H2 & H3 & H4 & H5).
  rewrite H1, H2. cbn [images_written image_paths_rel events the_fs app negb andb].
  rewrite !andb_false_r.
  destruct (text_eqb mode (str "render_replace"));
    [|destruct (text_eqb mode (str "render_keep"))];
    eexists; repeat split; try reflexivity; try exact H3; try exact H4;
    exact H5.
Qed.



Section SkipExisting.

Variable fl : flavour.
Variable fs : Type.
Variable path_exists : fs -> path -> option bool.
Variables render_mermaid render_mermaid'
  : text -> path -> text -> fs -> render_result * fs.
Variables (md_file images_base rel_base : path) (fmt : text).
Variable w : fs.

Lemma skip_loop blocks : forall st idx,
  the_fs st = w ->
  all_exist fl path_exists w md_file images_base fmt idx blocks = true ->
  exists evs added rels,
    block_loop fl path_exists render_mermaid md_file images_base rel_base
               fmt false false st idx blocks
    = Some (LoopState (images_written st ++ added)
                      (image_paths_rel st ++ rels)
                      (events st ++ evs) w)
    /\ block_loop fl path_exists render_mermaid' md_file images_base
                  rel_base fmt false false st idx blocks
       = Some (LoopState (images_written st ++ added)
                         (image_paths_rel st ++ rels)
                         (events st ++ evs) w)
    /\ forallb is_skip evs = true
    /\ length added = length blocks
    /\ length evs = length blocks.
Proof.
  induction blocks as [|[sp code] bs IH]; intros st idx Hw Hall.
  - exists [], [], []. rewrite !app_nil_r. destruct st.
    cbn [the_fs] in Hw. subst. repeat split; reflexivity.
  - cbn [all_exist] in Hall. unfold out_path_of in Hall.
    cbn [block_loop block_step].
    destruct (image_name_of md_file fmt idx code) as [nm|];
      [|discriminate].
    apply andb_true_iff in Hall. destruct Hall as [Hex Hall].
    rewrite Hw.
    destruct (path_exists w (joinpath fl images_base nm)) as [there|];
      [|discriminate].
    rewrite Hex. cbn [negb andb].
    set (st1 := record_image st sp _ _ _ _).
    destruct (IH st1 (S idx) eq_refl Hall)
      as (evs & added & rels & H1 & H2 & H3 & H4 & H5).
    exists (EvSkip (joinpath fl images_base nm) :: evs),
           ((sp, joinpath fl images_base nm) :: added),
           (rel_path_of fl rel_base nm :: rels).
    rewrite H1, H2. subst st1. unfold record_image.
    cbn [images_written image_paths_rel events the_fs].
    rewrite <- !app_assoc. cbn [app forallb is_skip length].
    rewrite H3, H4, H5. repeat split; reflexivity.
Qed.

End SkipExisting.



(* ================================================================== *)
(** * Further properties: the Block Locator *)
(* ================================================================== *)

Lemma startswith_contains (sub t : text) q :
  startswith sub (skipn q t) = true -> contains sub t = true.
Proof.
  intros H. apply startswith_iff in H. destruct H as [r Hr].
  apply contains_iff. exists (firstn q t), r.
  rewrite <- Hr. symmetry. apply firstn_skipn.
Qed.

Lemma no_fence_no_match (t : text) q :
  contains open_fence t = false -> match_in MERMAID_BLOCK_RE t q = None.
Proof.
  intros H. unfold match_in. rewrite match_at_direct. unfold block_at.
  destruct (startswith open_fence (skipn q t)) eqn:E.
  - apply startswith_contains in E. congruence.
  - rewrite andb_false_r. reflexivity.
Qed.

(** X9.  A text in which three backticks followed by [mermaid] do not
    occur, the empty text among them, has no block; [process_file] returns
    [(0, 0)] on it at once: nothing is printed, rendered or written, and
    the output directory is not even resolved. *)
Theorem no_opening_fence_no_block (fl : flavour) (fs : Type)
    (path_exists : fs -> path -> option bool)
    (render_mermaid : text -> path -> text -> fs -> render_result * fs)
    (resolve : path -> option path) (cwd : option path)
    (relpath : path -> path -> option text)
    (md_file : path) (text_read : text) (out_dir : option path)
    (images_dir_rel : option text) (fmt mode : text)
    (dry_run backup force : bool) (w : fs) :
  contains open_fence text_read = false ->
  find_mermaid_blocks text_read = []
  /\ process_file fl path_exists render_mermaid resolve cwd relpath md_file
       text_read out_dir images_dir_rel fmt mode dry_run backup force w
     = Some (Outcome 0 0 [] None w).
Proof.
  intros H.
  assert (E : find_mermaid_blocks text_read = []).
  { unfold find_mermaid_blocks.
    rewrite (scan_spec_finditer MERMAID_BLOCK_RE mermaid_progress text_read []);
      [reflexivity|].
    cbn [scan_spec]. intros q _. apply no_fence_no_match. exact H. }
  split; [exact E|]. unfold process_file. rewrite E. reflexivity.
Qed.

Lemma no_opening_fence_no_block_witness :
  contains open_fence (str "# Title" ++ [nl] ++ fence ++ str "python") = false
  /\ find_mermaid_blocks (str "# Title" ++ [nl] ++ fence ++ str "python") = [].
Proof.
  assert (H : contains open_fence
                (str "# Title" ++ [nl] ++ fence ++ str "python") = false)
    by (vm_compute; reflexivity).
  split; [exact H|].
  exact (proj1 (no_opening_fence_no_block posix unit nothing_exists
                  render_always_fails (fun p => Some p) (Some root_dir)
                  (fun _ _ => Some [dot]) doc_md _ None None (str "png")
                  (str "render_replace") false false false tt H)).
Defined.

(** What [\s*\n(.*?)\n```\s*] matched, read off the direct form: the white
    space [k] characters long before the line break, the first closing
    fence [j] characters after it, and the white space after the fence. *)
Lemma open_ws_inv (r : text) : forall n c,
  open_ws r = Some (n, c) ->
  exists k j,
    forallb isspace (firstn k r) = true
    /\ nth_error r k = Some nl
    /\ find close_fence (skipn (S k) r) = Some j
    /\ c = firstn j (skipn (S k) r)
    /\ n = S k + j + 4 + ws_len (skipn (S k + j + 4) r).
Proof.
  assert (Hnl : forall r n c, nl_then r = Some (n, c) ->
    exists j, nth_error r 0 = Some nl
              /\ find close_fence (skipn 1 r) = Some j
              /\ c = firstn j (skipn 1 r)
              /\ n = 1 + j + 4 + ws_len (skipn (1 + j + 4) r)).
  { intros r0 n c. unfold nl_then. destruct r0 as [|x xs]; [discriminate|].
    destruct (char_eqb x nl) eqn:Ex; [|discriminate].
    apply char_eqb_eq in Ex. subst x. unfold close_at.
    destruct (find close_fence xs) as [j|] eqn:Ef; [|discriminate].
    cbn [longer]. intros H. injection H as <- <-.
    exists j. cbn [nth_error skipn Nat.add]. repeat split. exact Ef. }
  induction r as [|x xs IH]; intros n c H.
  - cbn [open_ws] in H. apply Hnl in H. destruct H as (j & H & _). discriminate.
  - cbn [open_ws] in H.
    assert (Hzero : nl_then (x :: xs) = Some (n, c) ->
      exists k j,
        forallb isspace (firstn k (x :: xs)) = true
        /\ nth_error (x :: xs) k = Some nl
        /\ find close_fence (skipn (S k) (x :: xs)) = Some j
        /\ c = firstn j (skipn (S k) (x :: xs))
        /\ n = S k + j + 4 + ws_len (skipn (S k + j + 4) (x :: xs))).
    { intros Hn. apply Hnl in Hn. destruct Hn as (j & H1 & H2 & H3 & H4).
      exists 0, j. repeat split; assumption. }
    destruct (isspace x) eqn:Ex; [|exact (Hzero H)].
    destruct (open_ws xs) as [[n' c']|] eqn:Eo; [|exact (Hzero H)].
    cbn [longer] in H. injection H as <- <-.
    destruct (IH n' c' eq_refl) as (k & j & H1 & H2 & H3 & H4 & H5).
    exists (S k), j. cbn [firstn forallb nth_error skipn Nat.add].
    rewrite Ex, H1. repeat split; try assumption.
    rewrite H5. reflexivity.
Qed.

Lemma ws_len_stop (x : text) c :
  nth_error x (ws_len x) = Some c -> isspace c = false.
Proof.
  induction x as [|a x IH]; [discriminate|]. cbn [ws_len].
  destruct (isspace a) eqn:Ea.
  - cbn [nth_error]. exact IH.
  - cbn [nth_error]. intros H. injection H as <-. exact Ea.
Qed.

Lemma find_first_fence (r : text) j :
  find close_fence r = Some j ->
  find close_fence (firstn j r ++ close_fence) = Some j.
Proof.
  intros H. pose proof (find_some_at _ _ _ H) as [Hj Hs].
  apply startswith_iff in Hs. destruct Hs as [rest Hr].
  assert (E : r = (firstn j r ++ close_fence) ++ rest).
  { rewrite <- app_assoc, <- Hr. symmetry. apply firstn_skipn. }
  rewrite E in H.
  rewrite <- (app_nil_r (firstn j r ++ close_fence)).
  apply (find_stable close_fence (firstn j r ++ close_fence) rest [] j H).
  rewrite length_app, length_firstn. change (length close_fence) with 4. lia.
Qed.

Lemma find_at_most (sub t a b : text) :
  t = a ++ sub ++ b -> exists i, find sub t = Some i /\ i <= length a.
Proof.
  revert t. induction a as [|x a IH]; intros t ->.
  - exists 0. split; [|simpl; lia]. cbn [app].
    pose proof (startswith_app sub b) as Hs.
    destruct (sub ++ b); cbn [find]; rewrite Hs; reflexivity.
  - cbn [app find].
    destruct (startswith sub (x :: a ++ sub ++ b));
      [exists 0; split; [reflexivity | simpl; lia]|].
    destruct (IH (a ++ sub ++ b) eq_refl) as (i & Hi & Hle).
    rewrite Hi. exists (S i). split; [reflexivity | simpl; lia].
Qed.

Lemma block_direct (t : text) s e c :
  In ((s, e), c) (find_mermaid_blocks t) ->
  exists n, e = s + n
            /\ block_at (at_bol (last_char (firstn s t))) (skipn s t)
               = Some (n, c).
Proof.
  intros Hin. apply block_in_match in Hin.
  destruct Hin as (m & Hm & Hs & He & Hc).
  unfold match_in in Hm. rewrite match_at_direct in Hm.
  destruct (block_at _ _) as [[n c']|]; [|discriminate].
  injection Hm as <-. cbn [m_end m_group1] in He, Hc. subst.
  exists n. split; reflexivity.
Qed.

(** X10.  A block ends at the first closing fence: the line break followed
    by three backticks that ends a block's source is the first one after
    the line break that ends the opening line, so the source itself holds
    no line break followed by three backticks. *)
Theorem block_ends_at_first_closing_fence (md_text : text) (s e : nat)
    (code : text) :
  In ((s, e), code) (find_mermaid_blocks md_text) ->
  find close_fence (code ++ close_fence) = Some (length code)
  /\ contains close_fence code = false.
Proof.
  intros Hin. apply block_direct in Hin. destruct Hin as (n & _ & Hb).
  apply block_at_some in Hb. destruct Hb as (_ & _ & _ & Ho).
  apply open_ws_inv in Ho. destruct Ho as (k & j & _ & _ & Hf & Hc & _).
  pose proof (find_some_at _ _ _ Hf) as [Hj _].
  pose proof (find_first_fence _ _ Hf) as H1. rewrite <- Hc in H1.
  assert (Hl : length code = j) by (rewrite Hc, length_firstn; lia).
  rewrite Hl. split; [exact H1|].
  destruct (contains close_fence code) eqn:E; [|reflexivity]. exfalso.
  apply contains_iff in E. destruct E as (a & b & E).
  assert (Hr : skipn (S k) (skipn 10 (skipn s md_text))
               = a ++ close_fence ++ (b ++ skipn j (skipn (S k) (skipn 10 (skipn s md_text))))).
  { rewrite <- (firstn_skipn j (skipn (S k) (skipn 10 (skipn s md_text)))) at 1.
    rewrite <- Hc, E, <- !app_assoc. reflexivity. }
  destruct (find_at_most close_fence _ _ _ Hr) as (i & Hi & Hle).
  rewrite Hf in Hi. injection Hi as <-.
  apply (f_equal (@length char)) in E. rewrite !length_app in E.
  change (length close_fence) with 4 in E. lia.
Qed.

Lemma block_ends_at_first_closing_fence_witness :
  In ((6, 38), str "graph TD; A-->B;") (find_mermaid_blocks doc1)
  /\ contains close_fence (str "graph TD; A-->B;") = false.
Proof.
  assert (H : In ((6, 38), str "graph TD; A-->B;") (find_mermaid_blocks doc1))
    by (vm_compute; left; reflexivity).
  split; [exact H|].
  exact (proj2 (block_ends_at_first_closing_fence doc1 6 38 _ H)).
Defined.

(** X11.  A block's span takes in all the white space after the closing
    backticks, blank lines included: the span ends at the end of the text
    or before a character that is not white space. *)
Theorem block_span_takes_trailing_space (md_text : text) (s e : nat)
    (code : text) (c : char) :
  In ((s, e), code) (find_mermaid_blocks md_text) ->
  nth_error md_text e = Some c -> isspace c = false.
Proof.
  intros Hin Hc. apply block_direct in Hin. destruct Hin as (n & He & Hb).
  apply block_at_some in Hb. destruct Hb as (_ & _ & Hn & Ho).
  apply open_ws_inv in Ho. destruct Ho as (k & j & _ & _ & _ & _ & Hlen).
  rewrite !skipn_skipn in Hlen.
  set (x := skipn (S k + j + 4 + 10 + s) md_text) in *.
  apply (ws_len_stop x).
  unfold x at 1. rewrite nth_error_skipn.
  replace (S k + j + 4 + 10 + s + ws_len x) with e by lia. exact Hc.
Qed.

Lemma block_span_takes_trailing_space_witness :
  In ((0, 19), str "A") (find_mermaid_blocks doc_indented_fence)
  /\ nth_error doc_indented_fence 19 = Some backtick
  /\ isspace backtick = false.
Proof.
  assert (H : In ((0, 19), str "A") (find_mermaid_blocks doc_indented_fence))
    by (vm_compute; left; reflexivity).
  assert (H2 : nth_error doc_indented_fence 19 = Some backtick)
    by (vm_compute; reflexivity).
  split; [exact H|]. split; [exact H2|].
  exact (block_span_takes_trailing_space doc_indented_fence 0 19 _ _ H H2).
Defined.

Lemma utf8_char_none (c : char) :
  utf8_char c = None <-> is_scalar c = false.
Proof.
  unfold utf8_char, is_scalar.
  destruct (N.ltb_spec c 128); [split; [discriminate|]|].
  { destruct (N.ltb_spec c 55296); [discriminate | lia]. }
  destruct (N.ltb_spec c 2048); [split; [discriminate|]|].
  { destruct (N.ltb_spec c 55296); [discriminate | lia]. }
  destruct (N.ltb_spec c 65536).
  - destruct (N.leb_spec 55296 c), (N.leb_spec c 57343),
      (N.ltb_spec c 55296), (N.ltb_spec 57343 c), (N.ltb_spec c 1114112);
      cbn [andb orb]; split; try discriminate; try reflexivity; lia.
  - destruct (N.ltb_spec c 55296), (N.ltb_spec 57343 c),
      (N.ltb_spec c 1114112);
      cbn [andb orb]; split; try discriminate; try reflexivity; lia.
Qed.

Lemma encode_some_encodable (t : text) :
  encode_utf8 t <> None -> encodable t = true.
Proof.
  induction t as [|c t IH]; [reflexivity|]. cbn [encode_utf8 encodable forallb].
  destruct (utf8_char c) as [b|] eqn:Ec; [|congruence].
  destruct (encode_utf8 t) as [bs|]; [|congruence]. intros _.
  fold (encodable t). rewrite IH by discriminate.
  destruct (is_scalar c) eqn:Es; [reflexivity|].
  apply utf8_char_none in Es. congruence.
Qed.

(* ================================================================== *)
(** * Further properties: suffixes, the backup and the render target *)
(* ================================================================== *)

Lemma rfind_app (c : char) (a : text) : forall b i acc,
  rfind_char_from c (a ++ b) i acc
  = rfind_char_from c b (i + length a) (rfind_char_from c a i acc).
Proof.
  induction a as [|x a IH]; intros b i acc.
  - cbn [app rfind_char_from length]. rewrite Nat.add_0_r. reflexivity.
  - cbn [app rfind_char_from length]. rewrite IH.
    replace (S i + length a) with (i + S (length a)) by lia. reflexivity.
Qed.

Lemma rfind_absent (c : char) (t : text) : forall i acc,
  existsb (fun x => char_eqb x c) t = false ->
  rfind_char_from c t i acc = acc.
Proof.
  induction t as [|x t IH]; intros i acc H; [reflexivity|].
  cbn [existsb] in H. apply orb_false_iff in H. destruct H as [Hx Ht].
  cbn [rfind_char_from]. rewrite Hx. apply IH. exact Ht.
Qed.

Lemma rfind_last (c : char) (a b : text) :
  existsb (fun x => char_eqb x c) b = false ->
  rfind_char_from c (a ++ c :: b) 0 None = Some (length a).
Proof.
  intros H. rewrite rfind_app. cbn [rfind_char_from Nat.add].
  rewrite char_eqb_refl. apply rfind_absent. exact H.
Qed.

Lemma rfind_some (c : char) (t : text) : forall i acc k,
  rfind_char_from c t i acc = Some k ->
  acc = Some k \/ (i <= k < i + length t /\ nth_error t (k - i) = Some c).
Proof.
  induction t as [|x t IH]; intros i acc k H.
  - left. exact H.
  - cbn [rfind_char_from] in H. apply IH in H.
    destruct H as [H | [Hk Hn]].
    + destruct (char_eqb x c) eqn:E; [|left; exact H].
      injection H as <-. right. split; [simpl; lia|].
      rewrite Nat.sub_diag. apply char_eqb_eq in E. subst. reflexivity.
    + right. split; [simpl; lia|].
      replace (k - i) with (S (k - S i)) by lia. exact Hn.
Qed.

Lemma stem_suffix (p : path) : stem p ++ suffix p = name p.
Proof.
  unfold stem, suffix.
  destruct (rfind_char_from dot (name p) 0 None) as [i|];
    [|apply app_nil_r].
  destruct ((0 <? i) && (S i <? length (name p)));
    [apply firstn_skipn | apply app_nil_r].
Qed.

(** When the name has a suffix: it starts with a dot, has at least one more
    character, and the stem is the name without it. *)
Lemma suffix_shape (p : path) :
  suffix p <> [] ->
  startswith [dot] (suffix p) = true /\ 2 <= length (suffix p)
  /\ stem p = firstn (length (name p) - length (suffix p)) (name p).
Proof.
  unfold suffix, stem.
  destruct (rfind_char_from dot (name p) 0 None) as [i|] eqn:E;
    [|intros H; exfalso; apply H; reflexivity].
  destruct ((0 <? i) && (S i <? length (name p))) eqn:C;
    [|intros H; exfalso; apply H; reflexivity].
  intros _. apply andb_true_iff in C. destruct C as [C1 C2].
  apply Nat.ltb_lt in C1, C2.
  apply rfind_some in E. destruct E as [E | [Hi Hn]]; [discriminate|].
  rewrite Nat.sub_0_r in Hn.
  assert (Hs : skipn i (name p) = dot :: skipn (S i) (name p)).
  { rewrite <- (firstn_skipn i (name p)) in Hn at 1.
    rewrite nth_error_app2 in Hn by (rewrite length_firstn; lia).
    rewrite length_firstn in Hn.
    replace (i - Nat.min i (length (name p))) with 0 in Hn by lia.
    destruct (skipn i (name p)) as [|y l] eqn:Es; [discriminate|].
    cbn [nth_error] in Hn. injection Hn as ->.
    f_equal. replace (S i) with (1 + i) by lia.
    rewrite <- skipn_skipn, Es. reflexivity. }
  repeat split.
  - rewrite Hs. cbn [startswith]. rewrite char_eqb_refl. reflexivity.
  - rewrite length_skipn. lia.
  - rewrite length_skipn. f_equal. lia.
Qed.

Lemma existsb_app_false {A : Type} (f : A -> bool) (a b : list A) :
  existsb f (a ++ b) = false <-> existsb f a = false /\ existsb f b = false.
Proof. rewrite existsb_app. apply orb_false_iff. Qed.

Lemma text_eqb_false_cons (x : char) (t : text) : text_eqb (x :: t) [] = false.
Proof. reflexivity. Qed.

Lemma name_last (p : path) :
  name p <> [] -> parts p = removelast (parts p) ++ [name p].
Proof.
  unfold name. intros H.
  apply (@app_removelast_last text (parts p) []).
  intros E. rewrite E in H. apply H. reflexivity.
Qed.

(** Appending to the suffix appends to the name. *)
Lemma with_suffix_appends (fl : flavour) (p : path) (x : text) :
  name p <> [] ->
  existsb (is_sep fl) (name p) = false ->
  existsb (is_sep fl) x = false ->
  (suffix p = [] -> startswith [dot] x = true /\ 2 <= length x) ->
  with_suffix fl p (suffix p ++ x)
  = Some (MkPath (anchor p) (removelast (parts p) ++ [name p ++ x])).
Proof.
  intros Hn Hsep Hx Hdot. unfold with_suffix.
  assert (Hss : existsb (is_sep fl) (suffix p) = false).
  { rewrite <- (stem_suffix p) in Hsep.
    apply existsb_app_false in Hsep. exact (proj2 Hsep). }
  assert (E1 : existsb (is_sep fl) (suffix p ++ x) = false)
    by (apply existsb_app_false; split; assumption).
  rewrite E1.
  assert (E2 : negb (text_eqb (suffix p ++ x) [])
               && negb (startswith [dot] (suffix p ++ x))
               || text_eqb (suffix p ++ x) [dot] = false).
  { destruct (suffix p) as [|d sfx] eqn:Es.
    - destruct (Hdot eq_refl) as [Hd Hl]. cbn [app]. rewrite Hd.
      cbn [negb]. rewrite andb_false_r. cbn [orb].
      destruct x as [|x0 [|x1 x']]; try (simpl in Hl; lia).
      cbn [text_eqb]. rewrite andb_false_r. reflexivity.
    - assert (Hne : suffix p <> []) by (rewrite Es; discriminate).
      destruct (suffix_shape p Hne) as (Hd & Hl & _). rewrite Es in Hd, Hl.
      cbn [app startswith] in Hd |- *.
      apply andb_true_iff in Hd. destruct Hd as [Hd _]. rewrite Hd.
      cbn [andb negb orb].
      destruct sfx as [|s1 sfx']; [simpl in Hl; lia|].
      cbn [app text_eqb]. destruct (char_eqb d dot); reflexivity. }
  rewrite E2.
  destruct (name p) as [|n0 n'] eqn:En; [exfalso; apply Hn; reflexivity|].
  rewrite text_eqb_false_cons. rewrite <- En.
  f_equal. f_equal. f_equal. f_equal.
  destruct (text_eqb (suffix p) []) eqn:Et.
  - apply text_eqb_eq in Et. rewrite Et. reflexivity.
  - assert (Hne : suffix p <> []).
    { intros E. rewrite E in Et. discriminate. }
    destruct (suffix_shape p Hne) as (_ & _ & Hst).
    rewrite <- Hst, app_assoc, stem_suffix. reflexivity.
Qed.

Lemma suffix_put_back (fl : flavour) (p : path) :
  name p <> [] -> existsb (is_sep fl) (name p) = false ->
  stem p ++ suffix p = name p /\ with_suffix fl p (suffix p) = Some p.
Proof.
  intros Hn Hsep. split; [apply stem_suffix|].
  unfold with_suffix.
  assert (Hss : existsb (is_sep fl) (suffix p) = false).
  { rewrite <- (stem_suffix p) in Hsep.
    apply existsb_app_false in Hsep. exact (proj2 Hsep). }
  rewrite Hss.
  destruct (name p) as [|n0 n'] eqn:En; [exfalso; apply Hn; reflexivity|].
  rewrite text_eqb_false_cons. rewrite <- En.
  assert (Hp : forall n, n = name p ->
             Some (MkPath (anchor p) (removelast (parts p) ++ [n])) = Some p).
  { intros n ->. rewrite <- name_last by (rewrite En; discriminate).
    destruct p; reflexivity. }
  destruct (text_eqb (suffix p) []) eqn:Et.
  - apply text_eqb_eq in Et. rewrite Et. cbn [text_eqb negb andb orb].
    apply Hp. apply app_nil_r.
  - assert (Hne : suffix p <> []).
    { intros E. rewrite E in Et. discriminate. }
    destruct (suffix_shape p Hne) as (Hd & Hl & Hst).
    rewrite Hd. cbn [negb]. rewrite andb_false_r. cbn [orb].
    assert (Hdot : text_eqb (suffix p) [dot] = false).
    { destruct (suffix p) as [|a [|b l]]; try (simpl in Hl; lia).
      cbn [text_eqb]. apply andb_false_r. }
    rewrite Hdot. apply Hp. rewrite <- Hst. apply stem_suffix.
Qed.

(** X12.  A name splits into stem and suffix, and putting the suffix back
    gives the path again: for a path with a name free of separators,
    [stem + suffix] is the name and [with_suffix(suffix)] is the path. *)
Theorem suffix_round_trip (fl : flavour) (p : path) :
  name p <> [] -> existsb (is_sep fl) (name p) = false ->
  stem p ++ suffix p = name p /\ with_suffix fl p (suffix p) = Some p.
Proof.
  repeat match goal with H : _ |- _ => revert H end.
  exact suffix_put_back.
Qed.

Lemma suffix_round_trip_witness :
  stem doc_md ++ suffix doc_md = name doc_md
  /\ suffix doc_md = str ".md"
  /\ with_suffix posix doc_md (suffix doc_md) = Some doc_md.
Proof.
  assert (H1 : name doc_md <> []) by (vm_compute; discriminate).
  assert (H2 : existsb (is_sep posix) (name doc_md) = false)
    by (vm_compute; reflexivity).
  split; [exact (proj1 (suffix_round_trip posix doc_md H1 H2))|].
  split; [vm_compute; reflexivity|].
  exact (proj2 (suffix_round_trip posix doc_md H1 H2)).
Defined.

Lemma suffix_after_last_dot (p : path) (a b : text) :
  name p = a ++ dot :: b -> a <> [] -> b <> [] ->
  existsb (fun x => char_eqb x dot) b = false ->
  suffix p = dot :: b.
Proof.
  intros Hn Ha Hb Hd. unfold suffix. rewrite Hn.
  rewrite (rfind_last dot a b Hd).
  assert (C : (0 <? length a) && (S (length a) <? length (a ++ dot :: b))
              = true).
  { apply andb_true_iff. split; apply Nat.ltb_lt.
    - destruct a; [congruence | simpl; lia].
    - rewrite length_app. destruct b; [congruence | simpl; lia]. }
  rewrite C. apply skipn_exact.
Qed.



Lemma is_component_no_sep (fl : flavour) (x : text) :
  is_component fl x = true ->
  x <> [] /\ existsb (is_sep fl) x = false.
Proof.
  unfold is_component, is_part. intros H.
  apply andb_true_iff in H. destruct H as [H _].
  apply andb_true_iff in H. destruct H as [H _].
  apply andb_true_iff in H. destruct H as [H1 H2].
  apply andb_true_iff in H1. destruct H1 as [H1 _].
  apply negb_true_iff in H1, H2. split; [|exact H2].
  intros ->. discriminate.
Qed.

Lemma render_target_is_out_path (fl : flavour)
    (md_file images_base : path) (fmt : text) (idx : nat)
    (code image_name : text) :
  image_name_of md_file fmt idx code = Some image_name ->
  is_component fl image_name = true ->
  name (joinpath fl images_base image_name) = image_name
  /\ render_target fl (joinpath fl images_base image_name) fmt
     = Some (joinpath fl images_base image_name).
Proof.
  intros Hname Hc.
  destruct (is_component_no_sep fl image_name Hc) as [Hne Hsep].
  assert (Hn : name (joinpath fl images_base image_name) = image_name).
  { unfold joinpath. rewrite (path_of_component fl _ Hc).
    cbn [anchor parts]. unfold name. cbn [parts]. apply last_last. }
  split; [exact Hn|].
  unfold render_target.
  destruct (text_eqb (lower fmt) (str "svg")) eqn:Ef; [|reflexivity].
  unfold image_name_of in Hname.
  destruct (hash_text code) as [h|] eqn:Eh; [|discriminate].
  rewrite Ef in Hname. injection Hname as Hi.
  set (p := joinpath fl images_base image_name) in *.
  assert (Hs : suffix p = str ".svg").
  { apply (suffix_after_last_dot p
             (stem md_file ++ str "-mermaid-" ++ dec idx ++ str "-" ++ h)
             (str "svg")).
    - rewrite Hn, <- Hi, <- !app_assoc. reflexivity.
    - destruct (stem md_file); discriminate.
    - discriminate.
    - reflexivity. }
  rewrite <- Hs.
  apply (suffix_put_back fl p).
  - rewrite Hn. exact Hne.
  - rewrite Hn. exact Hsep.
Qed.

(* ================================================================== *)
(** * Further properties: the Gateway *)
(* ================================================================== *)

Ltac refute_run H :=
  destruct H as (?w0 & ?td & ?w1 & ?w2 & ?base & ?w3 & ?H1 & ?H2 & ?H3
                 & ?H4 & ?H5);
  repeat first
    [ discriminate
    | match goal with
      | K : (_, _) = (_, _) |- _ => injection K as ? ?; subst
      | K : Some _ = Some _ |- _ => injection K as ?; subst
      | K : inr _ = inr _ |- _ => injection K as ?; subst
      | K : ?a = _, E : ?a = _ |- _ => rewrite E in K
      end ];
  congruence.

Section RenderFacts.

Variable fl : flavour.
Variable fs : Type.
Variable host : render_host fs.
Variables (md_file images_base : path) (fmt : text) (idx : nat).
Variables (code image_name background : text).

Hypothesis named : image_name_of md_file fmt idx code = Some image_name.
Hypothesis component : is_component fl image_name = true.

(** [render_mermaid] on a block of [process_file], once the directories
    are made, the source is written and [mmdc] is found. *)
Lemma render_runs_mmdc (w w0 w1 w2 : fs) (td : path)
    (base_cmd : list text) :
  mkdir_parents host (parent (joinpath fl images_base image_name)) w = (None, w0) ->
  make_tempdir host w0 = (inr td, w1) ->
  write_source host (joinpath fl td (str "diagram.mmd")) code w1
  = (None, w2) ->
  find_mmdc host w2 = Some base_cmd ->
  render_mermaid_on fl host code (joinpath fl images_base image_name) fmt background w
  = (let '(r, w3) :=
       run_mmdc host
         (base_cmd ++ [str "-i";
                       path_str fl (joinpath fl td (str "diagram.mmd"));
                       str "-o"; path_str fl (joinpath fl images_base image_name);
                       str "-b"; background]) w2 in
     (match r with
      | MmdcExited proc =>
          match returncode proc with
          | Z0 => RenderReturned
          | _ => RenderRuntimeError
                   (str "mmdc failed: "
                    ++ strip_or (proc_stderr proc) (proc_stdout proc))
          end
      | MmdcOSError msg => RenderOSError msg
      | MmdcUnicodeDecodeError => RenderUnicodeDecodeError
      end,
      remove_tempdir host td w3)).
Proof.
  intros Hm Ht Hw Hf.
  pose proof (render_target_is_out_path fl md_file images_base fmt idx
                code image_name named component) as [_ Htarget].
  assert (Henc : encodable code = true).
  { apply encode_some_encodable. unfold image_name_of, hash_text in named.
    destruct (encode_utf8 code); [discriminate|discriminate]. }
  unfold render_mermaid_on. idtac. rewrite Hm, Ht.
  unfold render_in_tempdir. rewrite Henc, Hw, Hf. cbn [negb].
  rewrite Htarget. unfold mmdc_command.
  destruct (run_mmdc host _ w2) as [[proc|msg|] w3]; try reflexivity.
  destruct (returncode proc); reflexivity.
Qed.

(** The one exception of [render_mermaid] that [process_file] does not
    catch, with where it comes from. *)
Lemma render_escapes_from_run (w : fs) :
  let r := fst (render_mermaid_on fl host code (joinpath fl images_base image_name) fmt background w) in
  r <> RenderValueError
  /\ (seen_by_process_file r = RenderEscaped
      <-> r = RenderUnicodeDecodeError)
  /\ (r = RenderUnicodeDecodeError
      <-> exists w0 td w1 w2 base_cmd w3,
            mkdir_parents host (parent (joinpath fl images_base image_name)) w = (None, w0)
            /\ make_tempdir host w0 = (inr td, w1)
            /\ write_source host (joinpath fl td (str "diagram.mmd")) code
                            w1 = (None, w2)
            /\ find_mmdc host w2 = Some base_cmd
            /\ run_mmdc host
                  (base_cmd ++ [str "-i";
                                path_str fl
                                  (joinpath fl td (str "diagram.mmd"));
                                str "-o"; path_str fl (joinpath fl images_base image_name);
                                str "-b"; background]) w2
               = (MmdcUnicodeDecodeError, w3)).
Proof.
  intros r.
  assert (Hcases :
    (r <> RenderValueError /\ r <> RenderUnicodeDecodeError
     /\ ~ exists w0 td w1 w2 base_cmd w3,
            mkdir_parents host (parent (joinpath fl images_base image_name)) w = (None, w0)
            /\ make_tempdir host w0 = (inr td, w1)
            /\ write_source host (joinpath fl td (str "diagram.mmd")) code
                            w1 = (None, w2)
            /\ find_mmdc host w2 = Some base_cmd
            /\ run_mmdc host
                  (base_cmd ++ [str "-i";
                                path_str fl
                                  (joinpath fl td (str "diagram.mmd"));
                                str "-o"; path_str fl (joinpath fl images_base image_name);
                                str "-b"; background]) w2
               = (MmdcUnicodeDecodeError, w3))
    \/ (r = RenderUnicodeDecodeError
        /\ exists w0 td w1 w2 base_cmd w3,
              mkdir_parents host (parent (joinpath fl images_base image_name)) w = (None, w0)
              /\ make_tempdir host w0 = (inr td, w1)
              /\ write_source host (joinpath fl td (str "diagram.mmd"))
                              code w1 = (None, w2)
              /\ find_mmdc host w2 = Some base_cmd
              /\ run_mmdc host
                    (base_cmd ++ [str "-i";
                                  path_str fl
                                    (joinpath fl td (str "diagram.mmd"));
                                  str "-o"; path_str fl (joinpath fl images_base image_name);
                                  str "-b"; background]) w2
                 = (MmdcUnicodeDecodeError, w3))).
  { subst r.
    destruct (mkdir_parents host (parent (joinpath fl images_base image_name)) w) as [[msg|] w0] eqn:Em.
    { left. unfold render_mermaid_on. idtac. rewrite Em.
      cbn [fst]. split; [discriminate|]. split; [discriminate|].
      intros Hex; refute_run Hex. }
    destruct (make_tempdir host w0) as [[msg|td] w1] eqn:Et.
    { left. unfold render_mermaid_on. idtac. rewrite Em, Et.
      cbn [fst]. split; [discriminate|]. split; [discriminate|].
      intros Hex; refute_run Hex. }
    destruct (write_source host (joinpath fl td (str "diagram.mmd")) code
                           w1) as [[msg|] w2] eqn:Ew.
    { left. unfold render_mermaid_on. idtac. rewrite Em, Et.
      unfold render_in_tempdir.
      assert (Henc : encodable code = true).
      { apply encode_some_encodable.
        unfold image_name_of, hash_text in named.
        destruct (encode_utf8 code); [discriminate|discriminate]. }
      rewrite Henc, Ew. cbn [negb fst].
      split; [discriminate|]. split; [discriminate|].
      intros Hex; refute_run Hex. }
    destruct (find_mmdc host w2) as [base_cmd|] eqn:Ef.
    2: { left. unfold render_mermaid_on. idtac. rewrite Em, Et.
         unfold render_in_tempdir.
         assert (Henc : encodable code = true).
         { apply encode_some_encodable.
           unfold image_name_of, hash_text in named.
           destruct (encode_utf8 code); [discriminate|discriminate]. }
         rewrite Henc, Ew, Ef. cbn [negb fst].
         split; [discriminate|]. split; [discriminate|].
         intros Hex; refute_run Hex. }
    rewrite (render_runs_mmdc w w0 w1 w2 td base_cmd Em Et Ew Ef).
    destruct (run_mmdc host _ w2) as [[proc|msg|] w3] eqn:Er; cbn [fst].
    - left. split; [destruct (returncode proc); discriminate|].
      split; [destruct (returncode proc); discriminate|].
      intros Hex; refute_run Hex.
    - left. split; [discriminate|]. split; [discriminate|].
      intros Hex; refute_run Hex.
    - right. split; [reflexivity|].
      exists w0, td, w1, w2, base_cmd, w3. repeat split; assumption. }
  destruct Hcases as [(H1 & H2 & H3) | (H1 & H2)].
  - split; [exact H1|]. split; [split|split].
    + intros H. destruct r; try discriminate H; congruence.
    + intros H. congruence.
    + intros H. congruence.
    + intros H. contradiction.
  - split; [rewrite H1; discriminate|]. split; [split|split].
    + intros _. exact H1.
    + intros _. rewrite H1. reflexivity.
    + intros _. exact H2.
    + intros _. exact H1.
Qed.

End RenderFacts.





Section GatewayFacts.

Variable environ_get : text -> option text.
Variable os_path_exists : text -> bool.
Variable shutil_which : text -> option text.
Variable platform_system : text.
Variable os_path_join : text -> list text -> text.
Variable subprocess_run : list text -> run_outcome.

Lemma path_candidates_cases :
  path_candidates shutil_which
  = (if truthy (shutil_which (str "mmdc"))
     then match shutil_which (str "mmdc") with Some e => [e] | None => [] end
     else [])
    ++ (if truthy (shutil_which (str "mmdc.cmd"))
        then match shutil_which (str "mmdc.cmd") with
             | Some e => [e] | None => [] end
        else []).
Proof.
  unfold path_candidates, which. cbn [flat_map]. rewrite app_nil_r.
  destruct (shutil_which (str "mmdc")) as [[|x e]|],
           (shutil_which (str "mmdc.cmd")) as [[|y e']|]; reflexivity.
Qed.

Lemma candidates_nonempty c :
  In c (path_candidates shutil_which
        ++ appdata_candidates environ_get os_path_exists platform_system
                              os_path_join) ->
  (c <> [] /\ (shutil_which (str "mmdc") = Some c
               \/ shutil_which (str "mmdc.cmd") = Some c))
  \/ (text_eqb platform_system (str "Windows") = true
      /\ os_path_exists c = true
      /\ exists appdata, environ_get (str "APPDATA") = Some appdata
                         /\ appdata <> []
                         /\ c = os_path_join appdata
                                   [str "npm"; str "mmdc.cmd"]).
Proof.
  rewrite path_candidates_cases. intros H.
  apply in_app_or in H. destruct H as [H|H].
  - left. apply in_app_or in H. destruct H as [H|H].
    + destruct (shutil_which (str "mmdc")) as [[|x e]|]; cbn in H;
        try contradiction.
      destruct H as [<-|[]]. split; [discriminate | left; reflexivity].
    + destruct (shutil_which (str "mmdc.cmd")) as [[|x e]|]; cbn in H;
        try contradiction.
      destruct H as [<-|[]]. split; [discriminate | right; reflexivity].
  - right. unfold appdata_candidates in H.
    destruct (text_eqb platform_system (str "Windows")); [|contradiction].
    destruct (environ_get (str "APPDATA")) as [[|a ad]|]; cbn [truthy] in H;
      try contradiction.
    destruct (os_path_exists (os_path_join (a :: ad) _)) eqn:E;
      [|contradiction].
    destruct H as [<-|[]]. split; [reflexivity|]. split; [exact E|].
    exists (a :: ad). repeat split. discriminate.
Qed.

(** X16.  [get_mmdc_cmd] returns at most one command, and only one that
    was found: the value of [MERMAID_CLI] when it is set, not empty and
    names something that exists, and then whatever is on [PATH]; failing
    that the first of [mmdc] on [PATH], [mmdc.cmd] on [PATH] and, on
    Windows only, [mmdc.cmd] under [APPDATA]'s [npm] folder if it exists.
    A value of [MERMAID_CLI] that names nothing is passed over silently.
    [ensure_mmdc_available] holds only if a command was found, and then
    whatever status the command exits with. *)
Theorem mmdc_command_was_found :
  let cmd := get_mmdc_cmd environ_get os_path_exists shutil_which
                          platform_system os_path_join in
  let usable := env_cli_usable environ_get os_path_exists in
  let rest := path_candidates shutil_which
              ++ appdata_candidates environ_get os_path_exists
                                    platform_system os_path_join in
  (forall cli, environ_get (str "MERMAID_CLI") = Some cli ->
               usable = true -> cmd = Some [cli])
  /\ (usable = false -> cmd = match rest with
                              | [] => None
                              | c :: _ => Some [c]
                              end)
  /\ (forall c, cmd = Some c ->
       exists x, c = [x]
         /\ ((environ_get (str "MERMAID_CLI") = Some x /\ x <> []
              /\ os_path_exists x = true)
             \/ In x rest))
  /\ (text_eqb platform_system (str "Windows") = false ->
      appdata_candidates environ_get os_path_exists platform_system
                         os_path_join = [])
  /\ (ensure_mmdc_available environ_get os_path_exists shutil_which
                            platform_system os_path_join subprocess_run
      = true ->
      exists c p, cmd = Some c
                  /\ subprocess_run (c ++ [str "-v"]) = Exited p)
  /\ (forall x, In x rest ->
       (x <> [] /\ (shutil_which (str "mmdc") = Some x
                    \/ shutil_which (str "mmdc.cmd") = Some x))
       \/ (text_eqb platform_system (str "Windows") = true
           /\ os_path_exists x = true
           /\ exists appdata,
                environ_get (str "APPDATA") = Some appdata
                /\ appdata <> []
                /\ x = os_path_join appdata [str "npm"; str "mmdc.cmd"])).
Proof.
  intros cmd usable rest. subst cmd usable rest.
  unfold get_mmdc_cmd, env_cli_usable, ensure_mmdc_available.
  split; [|split; [|split; [|split; [|split]]]].
  6: intros x H.
  - intros cli -> H. rewrite H. reflexivity.
  - destruct (environ_get (str "MERMAID_CLI")) as [cli|]; [|reflexivity].
    intros ->. reflexivity.
  - intros c.
    destruct (environ_get (str "MERMAID_CLI")) as [cli|] eqn:Ee.
    + destruct (truthy (Some cli) && os_path_exists cli) eqn:Eu.
      * intros H; injection H as <-. exists cli. split; [reflexivity|].
        left. apply andb_true_iff in Eu. destruct Eu as [Et Ex].
        repeat split; [|exact Ex]. intros ->. discriminate.
      * destruct (path_candidates _ ++ appdata_candidates _ _ _ _)
          as [|c0 l]; [discriminate|].
        intros H; injection H as <-. exists c0. split; [reflexivity|].
        right. left. reflexivity.
    + destruct (path_candidates _ ++ appdata_candidates _ _ _ _)
        as [|c0 l]; [discriminate|].
      intros H; injection H as <-. exists c0. split; [reflexivity|].
      right. left. reflexivity.
  - intros H. unfold appdata_candidates. rewrite H. reflexivity.
  - fold (get_mmdc_cmd environ_get os_path_exists shutil_which
                       platform_system os_path_join).
    destruct (get_mmdc_cmd _ _ _ _ _) as [c|]; [|discriminate].
    destruct (subprocess_run (c ++ [str "-v"])) as [p| |] eqn:Er;
      try discriminate.
    intros _. exists c, p. split; [reflexivity | exact Er].
  - exact (candidates_nonempty x H).
Qed.

End GatewayFacts.

(* ================================================================== *)
(** * Further properties: the operation mode *)
(* ================================================================== *)

(** X17.  The mode [main] chooses is one of the three; it is [None], the
    error about [--replace] and [--add], only when these two are given
    together without [--render] and [--export].  Without [--render],
    [--replace] and [--add] the mode is [export_only], whatever the other
    options, and in that mode [process_file] writes no document back. *)
Theorem default_mode_exports_only (a : cli_args) :
  (op_mode_of a = None
   <-> a_render a = false /\ a_export a = false
       /\ a_replace a = true /\ a_add a = true)
  /\ (forall m, op_mode_of a = Some m ->
        m = str "render_replace" \/ m = str "render_keep"
        \/ m = str "export_only")
  /\ (a_render a = false -> a_replace a = false -> a_add a = false ->
      op_mode_of a = Some (str "export_only"))
  /\ (forall (fl : flavour) (fs : Type)
        (path_exists : fs -> path -> option bool)
        (render_mermaid : text -> path -> text -> fs -> render_result * fs)
        (resolve : path -> option path) (cwd : option path)
        (relpath : path -> path -> option text)
        (md_file : path) (text_read : text)
        (out_dir : option path) (w : fs) (o : outcome fs),
      op_mode_of a = Some (str "export_only") ->
      process_file fl path_exists render_mermaid resolve cwd relpath md_file
        text_read out_dir (a_images_dir a) (a_format a) (str "export_only")
        (a_dry_run a) (a_backup a) (a_force a) w = Some o ->
      written_back o = None).
Proof.
  unfold op_mode_of. split; [|split; [|split]].
  - destruct (a_render a), (a_export a), (a_replace a), (a_add a),
      (a_keep_source a); cbn; split;
      try discriminate; try tauto;
      intros (H1 & H2 & H3 & H4); discriminate.
  - intros m.
    destruct (a_render a), (a_export a), (a_replace a), (a_add a),
      (a_keep_source a); cbn; intros H; try discriminate;
      injection H as <-; tauto.
  - intros -> -> ->. destruct (a_export a); reflexivity.
  - intros fl fs path_exists render_mermaid resolve cwd relpath md_file
      text_read out_dir w o _ H.
    destruct (written_back o) as [t|] eqn:E; [|reflexivity].
    destruct (write_back_cases fl fs path_exists render_mermaid resolve
                cwd relpath md_file text_read out_dir (a_images_dir a)
                (a_format a) (str "export_only") (a_dry_run a) (a_backup a)
                (a_force a) w o t H E)
      as (_ & _ & ib & rb & st & _ & _ & [(Hm & _) | (Hm & _)]);
      discriminate Hm.
Qed.

(* ================================================================== *)
(** * Further properties: the Markdown files of a path *)
(* ================================================================== *)

Fixpoint node_rect_entries (P : node -> Prop) (HF : P File)
    (HD : forall es, Forall (fun e => P (node_of e)) es -> P (Dir es))
    (n : node) : P n :=
  match n with
  | File => HF
  | Dir es =>
      HD es ((fix go (es : list entry) : Forall (fun e => P (node_of e)) es :=
                match es with
                | [] => Forall_nil _
                | Entry nm c :: es' =>
                    Forall_cons (Entry nm c) (node_rect_entries P HF HD c)
                                (go es')
                end) es)
  end.

Lemma walk_dir (p : path) (es : list entry) :
  walk p (Dir es)
  = (p, es) :: flat_map (fun e => walk (child_path p (name_of e)) (node_of e))
                        es.
Proof.
  cbn [walk]. f_equal.
  induction es as [|[nm c] es IH]; [reflexivity|].
  cbn [flat_map name_of node_of]. rewrite <- IH. reflexivity.
Qed.

Lemma reaches_dir_inv es names n' :
  reaches (Dir es) names n' ->
  (names = [] /\ n' = Dir es)
  \/ exists nm c names', names = nm :: names' /\ In (Entry nm c) es
                         /\ reaches c names' n'.
Proof.
  intros H. inversion H; subst.
  - left. split; reflexivity.
  - right. eexists _, _, _. repeat split; eassumption.
Qed.

Lemma reaches_file_inv names n' : reaches File names n' -> names = [] /\ n' = File.
Proof. intros H. inversion H; subst. split; reflexivity. Qed.

(** The directories [**] visits are those below the starting point. *)
Lemma walk_spec (n : node) : forall p d es,
  In (d, es) (walk p n)
  <-> exists names, reaches n names (Dir es)
                    /\ d = MkPath (anchor p) (parts p ++ names).
Proof.
  induction n as [|es0 IH] using node_rect_entries; intros p d es.
  - cbn [walk In]. split; [intros []|].
    intros (names & H & _). apply reaches_file_inv in H.
    destruct H as [_ H]. discriminate.
  - rewrite walk_dir. cbn [In]. split.
    + intros [H|H].
      * injection H as <- <-. exists []. split; [constructor|].
        rewrite app_nil_r. destruct p; reflexivity.
      * apply in_flat_map in H. destruct H as ([nm c] & Hin & H).
        cbn [name_of node_of] in H.
        rewrite Forall_forall in IH. specialize (IH _ Hin). cbn [node_of] in IH.
        apply IH in H. destruct H as (names & Hr & ->).
        exists (nm :: names). split.
        -- econstructor; eassumption.
        -- unfold child_path. cbn [anchor parts].
           rewrite <- app_assoc. reflexivity.
    + intros (names & Hr & ->). apply reaches_dir_inv in Hr.
      destruct Hr as [(-> & E) | (nm & c & names' & -> & Hin & Hr)].
      * left. injection E as <-. rewrite app_nil_r. destruct p; reflexivity.
      * right. apply in_flat_map. exists (Entry nm c). split; [exact Hin|].
        cbn [name_of node_of].
        rewrite Forall_forall in IH. specialize (IH _ Hin). cbn [node_of] in IH.
        apply IH. exists names'. split; [exact Hr|].
        unfold child_path. cbn [anchor parts].
        rewrite <- app_assoc. reflexivity.
Qed.

Lemma glob_here_spec cs p es q n :
  In (q, n) (glob_here cs p es)
  <-> exists nm, In (Entry nm n) es /\ matches_md cs nm = true
                 /\ q = child_path p nm.
Proof.
  unfold glob_here. rewrite in_map_iff. split.
  - intros ([nm c] & H & Hin). apply filter_In in Hin.
    destruct Hin as [Hin Hm]. cbn [name_of node_of] in *.
    injection H as <- <-. exists nm. repeat split; assumption.
  - intros (nm & Hin & Hm & ->). exists (Entry nm n). split; [reflexivity|].
    apply filter_In. split; assumption.
Qed.

Lemma reaches_snoc n names : forall es nm c,
  reaches n names (Dir es) -> In (Entry nm c) es ->
  reaches n (names ++ [nm]) c.
Proof.
  intros es nm c H Hin. remember (Dir es) as d eqn:Ed.
  induction H as [n|es0 nm0 c0 names0 n' Hin0 H IH]; subst.
  - cbn [app]. econstructor; [exact Hin | constructor].
  - cbn [app]. econstructor; [exact Hin0 | apply IH; reflexivity].
Qed.

Lemma reaches_snoc_inv n : forall names nm c,
  reaches n (names ++ [nm]) c ->
  exists es, reaches n names (Dir es) /\ In (Entry nm c) es.
Proof.
  intros names. revert n. induction names as [|x names IH]; intros n nm c H.
  - cbn [app] in H. inversion H; subst.
    match goal with H' : reaches _ [] _ |- _ => inversion H'; subst end.
    eexists. split; [constructor | eassumption].
  - cbn [app] in H. inversion H; subst.
    match goal with H' : reaches _ (names ++ [nm]) _ |- _ =>
      apply IH in H'; destruct H' as (es & Hr & Hin) end.
    exists es. split; [econstructor; eassumption | exact Hin].
Qed.

Lemma iter_markdown_files_spec (cs : bool) (p : path) (n : option node)
    (recursive : bool) (q : path) :
  In q (iter_markdown_files cs p n recursive)
  <-> (n = Some File /\ q = p /\ has_markdown_suffix p = true)
      \/ (exists entries names nm,
            n = Some (Dir entries)
            /\ reaches (Dir entries) (names ++ [nm]) File
            /\ matches_md cs nm = true
            /\ q = MkPath (anchor p) (parts p ++ names ++ [nm])
            /\ (recursive = false -> names = [])).
Proof.
  unfold iter_markdown_files. destruct n as [[|entries]|].
  - destruct (has_markdown_suffix p) eqn:E; cbn [In]; split.
    + intros [<-|[]]. left. repeat split.
    + intros [(_ & -> & _) | (es & names & nm & H & _)];
        [left; reflexivity | discriminate].
    + intros [].
    + intros [(_ & _ & H) | (es & names & nm & H & _)]; discriminate.
  - rewrite in_map_iff. split.
    + intros ([q' n'] & Hq & Hin). cbn [fst] in Hq. subst q'.
      apply filter_In in Hin. destruct Hin as [Hin Hf]. cbn [snd] in Hf.
      destruct n' as [|es']; [|discriminate]. right.
      unfold path_glob in Hin. destruct recursive.
      * apply in_flat_map in Hin. destruct Hin as ([d es] & Hw & Hg).
        cbn [fst snd] in Hg. apply walk_spec in Hw.
        destruct Hw as (names & Hr & ->).
        apply glob_here_spec in Hg. destruct Hg as (nm & Hin & Hm & ->).
        exists entries, names, nm. split; [reflexivity|]. split.
        -- eapply reaches_snoc; eassumption.
        -- split; [exact Hm|]. split; [|discriminate].
           unfold child_path. cbn [anchor parts].
           rewrite <- app_assoc. reflexivity.
      * apply glob_here_spec in Hin. destruct Hin as (nm & Hin & Hm & ->).
        exists entries, [], nm. split; [reflexivity|]. split.
        -- econstructor; [exact Hin | constructor].
        -- split; [exact Hm|]. split; reflexivity.
    + intros [(H & _) | (es & names & nm & H & Hr & Hm & -> & Hrec)];
        [discriminate|].
      injection H as <-.
      exists (MkPath (anchor p) (parts p ++ names ++ [nm]), File).
      split; [reflexivity|]. apply filter_In. split; [|reflexivity].
      apply reaches_snoc_inv in Hr. destruct Hr as (es' & Hr & Hin).
      unfold path_glob. destruct recursive.
      * apply in_flat_map.
        exists (MkPath (anchor p) (parts p ++ names), es'). split.
        -- apply walk_spec. exists names. split; [exact Hr | reflexivity].
        -- cbn [fst snd]. apply glob_here_spec. exists nm.
           repeat split; try assumption.
           unfold child_path. cbn [anchor parts].
           rewrite <- app_assoc. reflexivity.
      * rewrite (Hrec eq_refl) in Hr |- *. inversion Hr; subst.
        apply glob_here_spec. exists nm. repeat split; assumption.
  - cbn [In]. split; [intros []|].
    intros [(H & _) | (es & names & nm & H & _)]; discriminate.
Qed.

(** X18.  What [iter_markdown_files] yields.  For a file: the file itself,
    if its suffix, lowered, is [.md] or [.markdown].  For a directory: the
    files below it whose name ends with [.md], those directly in it when
    the search is not recursive and those at any depth when it is; a
    directory so named is not yielded.  For anything else: nothing. *)
Theorem markdown_files_found (cs : bool) (p : path) (n : option node)
    (recursive : bool) (q : path) :
  In q (iter_markdown_files cs p n recursive)
  <-> (n = Some File /\ q = p /\ has_markdown_suffix p = true)
      \/ (exists entries names nm,
            n = Some (Dir entries)
            /\ reaches (Dir entries) (names ++ [nm]) File
            /\ matches_md cs nm = true
            /\ q = MkPath (anchor p) (parts p ++ names ++ [nm])
            /\ (recursive = false -> names = [])).
Proof.
  repeat match goal with H : _ |- _ => revert H end.
  exact iter_markdown_files_spec.
Qed.

Lemma endswith_iff (sfx t : text) :
  endswith sfx t = true <-> exists a, t = a ++ sfx.
Proof.
  unfold endswith. split.
  - intros H. apply andb_true_iff in H. destruct H as [Hl He].
    apply Nat.leb_le in Hl. apply text_eqb_eq in He.
    exists (firstn (length t - length sfx) t).
    rewrite <- He at 2. symmetry. apply firstn_skipn.
  - intros (a & ->). rewrite length_app. apply andb_true_iff. split.
    + apply Nat.leb_le. lia.
    + replace (length a + length sfx - length sfx) with (length a) by lia.
      rewrite skipn_exact. apply text_eqb_refl.
Qed.

Lemma lower_no_dot (t : text) :
  existsb (fun c => char_eqb c dot) t = false ->
  existsb (fun c => char_eqb c dot) (lower t) = false.
Proof.
  induction t as [|c t IH]; [reflexivity|]. cbn [existsb lower map].
  intros H. apply orb_false_iff in H. destruct H as [Hc Ht].
  fold (lower t). rewrite (IH Ht), orb_false_r.
  unfold lower_char. destruct ((65 <=? c) && (c <=? 90))%N eqn:E; [|exact Hc].
  apply andb_true_iff in E. destruct E as [A B]. apply N.leb_le in A, B.
  unfold char_eqb, dot. apply N.eqb_neq. lia.
Qed.

(** A name that ends with [.bak-] and a text without a dot does not end
    with [.md]. *)
Lemma backup_name_not_md (a ts : text) :
  existsb (fun c => char_eqb c dot) ts = false ->
  endswith (str ".md") (a ++ str ".bak-" ++ ts) = false.
Proof.
  intros Hd. destruct (endswith (str ".md") (a ++ str ".bak-" ++ ts)) eqn:E;
    [|reflexivity].
  exfalso. apply endswith_iff in E. destruct E as (x & E).
  apply (f_equal (@rev char)) in E. rewrite !rev_app_distr in E.
  assert (Hr : existsb (fun c => char_eqb c dot) (rev ts) = false).
  { destruct (existsb (fun c => char_eqb c dot) (rev ts)) eqn:Er;
      [|reflexivity].
    apply existsb_exists in Er. destruct Er as (c & Hin & Hc).
    apply in_rev in Hin.
    assert (Ht : existsb (fun c => char_eqb c dot) ts = true)
      by (apply existsb_exists; exists c; split; assumption).
    congruence. }
  cbn [str rev app] in E.
  destruct (rev ts) as [|t1 [|t2 [|t3 l]]]; cbn [app] in E;
    try discriminate E.
  injection E as _ _ E3 _. subst t3.
  cbn [existsb] in Hr. rewrite char_eqb_refl in Hr.
  rewrite !orb_true_r in Hr. discriminate.
Qed.

Lemma lower_app (a b : text) : lower (a ++ b) = lower a ++ lower b.
Proof. apply map_app. Qed.

Lemma name_of_child (p : path) (names : list text) (nm : text) :
  name (MkPath (anchor p) (parts p ++ names ++ [nm])) = nm.
Proof. unfold name. cbn [parts]. rewrite app_assoc. apply last_last. Qed.

(** X19.  A backup is not taken for a document: no path that
    [iter_markdown_files] yields, from a file or from a directory, has a
    name that ends with [.bak-] and a time stamp (a text without a dot), the
    name [_create_backup] gives its copy. *)
Theorem backup_is_not_yielded (cs : bool) (p : path) (n : option node)
    (recursive : bool) (q : path) (original ts : text) :
  In q (iter_markdown_files cs p n recursive) ->
  existsb (fun c => char_eqb c dot) ts = false ->
  name q <> original ++ str ".bak-" ++ ts.
Proof.
  intros Hin Hd Hn. apply iter_markdown_files_spec in Hin.
  destruct Hin as [(_ & -> & Hs) | (es & names & nm & _ & _ & Hm & -> & _)].
  - unfold has_markdown_suffix in Hs.
    destruct original as [|o0 o'].
    + assert (E : suffix p = []).
      { unfold suffix. rewrite Hn.
        change ([] ++ str ".bak-" ++ ts)
          with ([] ++ dot :: (str "bak-" ++ ts)).
        rewrite (rfind_last dot [] (str "bak-" ++ ts)) by exact Hd.
        reflexivity. }
      rewrite E in Hs. discriminate.
    + assert (E : suffix p = dot :: str "bak-" ++ ts).
      { apply (suffix_after_last_dot p (o0 :: o') (str "bak-" ++ ts)).
        - rewrite Hn. reflexivity.
        - discriminate.
        - discriminate.
        - cbn [str app existsb] in *. exact Hd. }
      rewrite E in Hs. discriminate.
  - rewrite name_of_child in Hn. subst nm. unfold matches_md in Hm.
    destruct cs.
    + rewrite backup_name_not_md in Hm by exact Hd. discriminate.
    + rewrite !lower_app in Hm.
      change (lower (str ".bak-")) with (str ".bak-") in Hm.
      rewrite backup_name_not_md in Hm by (apply lower_no_dot; exact Hd).
      discriminate.
Qed.

Lemma backup_is_not_yielded_witness :
  iter_markdown_files true (MkPath [] [str "docs"])
    (Some (Dir [Entry (str "doc.md") File;
                Entry (str "doc.md.bak-20240131-235959") File;
                Entry (str "sub") (Dir [Entry (str "deep.md") File])]))
    true
  = [MkPath [] [str "docs"; str "doc.md"];
     MkPath [] [str "docs"; str "sub"; str "deep.md"]]
  /\ name (MkPath [] [str "docs"; str "doc.md"])
     <> str "doc.md" ++ str ".bak-" ++ str "20240131-235959".
Proof.
  assert (H : iter_markdown_files true (MkPath [] [str "docs"])
    (Some (Dir [Entry (str "doc.md") File;
                Entry (str "doc.md.bak-20240131-235959") File;
                Entry (str "sub") (Dir [Entry (str "deep.md") File])]))
    true
  = [MkPath [] [str "docs"; str "doc.md"];
     MkPath [] [str "docs"; str "sub"; str "deep.md"]])
    by (vm_compute; reflexivity).
  split; [exact H|].
  apply (backup_is_not_yielded true (MkPath [] [str "docs"])
           (Some (Dir [Entry (str "doc.md") File;
                       Entry (str "doc.md.bak-20240131-235959") File;
                       Entry (str "sub") (Dir [Entry (str "deep.md") File])]))
           true
           (MkPath [] [str "docs"; str "doc.md"]) (str "doc.md")
           (str "20240131-235959")).
  - rewrite H. left. reflexivity.
  - vm_compute. reflexivity.
Defined.

(** X20.  A file whose suffix is [.markdown] is yielded when it is the path
    given, but never found in a directory: what a directory yields ends
    with [.md]. *)
Theorem markdown_suffix_only_when_given (cs : bool) (p : path)
    (entries : list entry) (recursive : bool) :
  (suffix p = str ".markdown" ->
   iter_markdown_files cs p (Some File) recursive = [p])
  /\ (forall q, In q (iter_markdown_files cs p (Some (Dir entries)) recursive) ->
        matches_md cs (name q) = true
        /\ endswith (str ".markdown") (if cs then name q else lower (name q))
           = false).
Proof.
  split.
  - intros H. unfold iter_markdown_files, has_markdown_suffix. rewrite H.
    reflexivity.
  - intros q Hin. apply iter_markdown_files_spec in Hin.
    destruct Hin as [(H & _) | (es & names & nm & _ & _ & Hm & -> & _)];
      [discriminate|].
    rewrite name_of_child. split; [exact Hm|].
    unfold matches_md in Hm.
    destruct (endswith (str ".markdown") (if cs then nm else lower nm)) eqn:E;
      [|reflexivity].
    exfalso. apply endswith_iff in Hm, E.
    destruct Hm as (x & Hx). destruct E as (y & Hy). rewrite Hx in Hy.
    apply (f_equal (@rev char)) in Hy. rewrite !rev_app_distr in Hy.
    discriminate Hy.
Qed.

Lemma markdown_suffix_only_when_given_witness :
  suffix (MkPath [] [str "notes.markdown"]) = str ".markdown"
  /\ iter_markdown_files true (MkPath [] [str "notes.markdown"]) (Some File)
       false
     = [MkPath [] [str "notes.markdown"]]
  /\ iter_markdown_files true (MkPath [] [])
       (Some (Dir [Entry (str "notes.markdown") File])) true = [].
Proof.
  assert (H : suffix (MkPath [] [str "notes.markdown"]) = str ".markdown")
    by (vm_compute; reflexivity).
  split; [exact H|]. split; [|vm_compute; reflexivity].
  exact (proj1 (markdown_suffix_only_when_given true
                  (MkPath [] [str "notes.markdown"]) [] false) H).
Defined.

(* ================================================================== *)
(** * Further properties: the order of the module's statements *)
(* ================================================================== *)

(** X21.  Run as a script, the module calls [main] before it has bound
    [_create_backup], the one function defined after the guarded statement;
    imported, it binds every name.  So under the script, with [backup] set,
    whenever [process_file] would write a document back it raises
    [NameError] instead, after the loop over the blocks has run and before
    the document is written; without [backup], and in every case under an
    importer, it does what [process_file] does. *)
Theorem backup_is_unbound_under_the_script (fl : flavour) (fs : Type)
    (path_exists : fs -> path -> option bool)
    (render_mermaid : text -> path -> text -> fs -> render_result * fs)
    (resolve : path -> option path) (cwd : option path)
    (relpath : path -> path -> option text)
    (md_file : path) (text_read : text) (out_dir : option path)
    (images_dir_rel : option text) (fmt mode : text)
    (dry_run backup force : bool) (w : fs) (o : outcome fs) :
  process_file fl path_exists render_mermaid resolve cwd relpath md_file
    text_read out_dir images_dir_rel fmt mode dry_run backup force w = Some o ->
  is_bound true "_create_backup" = false
  /\ is_bound false "_create_backup" = true
  /\ is_bound true "process_file" = true
  /\ process_file_in fl path_exists render_mermaid resolve cwd relpath
       (is_bound false "_create_backup") md_file text_read out_dir
       images_dir_rel fmt mode dry_run backup force w
     = Returned o
  /\ process_file_in fl path_exists render_mermaid resolve cwd relpath
       (is_bound true "_create_backup") md_file text_read out_dir
       images_dir_rel fmt mode dry_run backup force w
     = (if backup && match written_back o with Some _ => true | None => false end
        then RaisedNameError "_create_backup"
               (firstn (length (find_mermaid_blocks text_read)) (printed o))
        else Returned o).
Proof.
  intros H.
  split; [reflexivity|]. split; [reflexivity|]. split; [reflexivity|].
  change (is_bound false "_create_backup") with true.
  change (is_bound true "_create_backup") with false.
  split.
  - rewrite (process_file_in_cases fl fs path_exists render_mermaid resolve
               cwd relpath md_file text_read out_dir images_dir_rel fmt mode
               backup force w true dry_run o H).
    cbn [negb]. rewrite andb_false_r. reflexivity.
  - rewrite (process_file_in_cases fl fs path_exists render_mermaid resolve
               cwd relpath md_file text_read out_dir images_dir_rel fmt mode
               backup force w false dry_run o H).
    cbn [negb]. rewrite andb_true_r. reflexivity.
Qed.

Lemma backup_is_unbound_under_the_script_witness :
  exists o evs,
    process_file posix listed render_fails_on_B (fun p => Some p) (Some root_dir)
      (fun _ _ => Some [dot]) doc_md doc_three_blocks None
      (Some (str "per-file")) (str "png") (str "render_keep")
      false true false []
    = Some o
    /\ process_file_in posix listed render_fails_on_B (fun p => Some p) (Some root_dir)
         (fun _ _ => Some [dot]) (is_bound true "_create_backup") doc_md
         doc_three_blocks None (Some (str "per-file")) (str "png")
         (str "render_keep") false true false []
       = RaisedNameError "_create_backup" evs
    /\ length evs = 3.
Proof.
  eexists. eexists.
  assert (H : process_file posix listed render_fails_on_B (fun p => Some p)
                (Some root_dir) (fun _ _ => Some [dot]) doc_md doc_three_blocks None
                (Some (str "per-file")) (str "png") (str "render_keep")
                false true false []
              = Some _) by (vm_compute; reflexivity).
  split; [exact H|].
  pose proof (backup_is_unbound_under_the_script posix (list path) listed
                render_fails_on_B (fun p => Some p) (Some root_dir) (fun _ _ => Some [dot])
                doc_md doc_three_blocks None (Some (str "per-file"))
                (str "png") (str "render_keep") false true false [] _ H)
    as (_ & _ & _ & _ & Hs).
  split; [rewrite Hs; vm_compute; reflexivity | reflexivity].
Defined.

(* ================================================================== *)
(** * Further properties: reading and writing the document *)
(* ================================================================== *)


From Stdlib Require PreOmega.
From Stdlib Require Import ZifyN.

Lemma land_low (a n b : N) : (b < 2 ^ n)%N -> N.land (a * 2 ^ n) b = 0%N.
Proof.
  intros Hb. apply N.bits_inj. intros i. rewrite N.land_spec, N.bits_0.
  destruct (N.lt_ge_cases i n) as [Hi|Hi].
  - rewrite N.mul_pow2_bits_low by exact Hi. reflexivity.
  - destruct (N.eq_dec b 0) as [->|Hb0];
      [rewrite N.bits_0; apply andb_false_r|].
    rewrite (N.bits_above_log2 b i); [apply andb_false_r|].
    apply N.log2_lt_pow2 in Hb; lia.
Qed.

Lemma lor_add (a n b : N) :
  (b < 2 ^ n)%N -> N.lor (a * 2 ^ n) b = (a * 2 ^ n + b)%N.
Proof.
  intros Hb. pose proof (land_low a n b Hb) as H.
  rewrite <- N.lxor_lor by exact H. symmetry.
  apply N.add_nocarry_lxor. exact H.
Qed.

Lemma lor_lead (lead n x : N) (q : N) :
  lead = (q * 2 ^ n)%N -> (x < 2 ^ n)%N -> N.lor lead x = (lead + x)%N.
Proof. intros -> Hx. apply lor_add. exact Hx. Qed.

Lemma land_63 (a : N) : N.land a 63 = (a mod 64)%N.
Proof. exact (N.land_ones a 6). Qed.

Lemma land_31 (a : N) : N.land a 31 = (a mod 32)%N.
Proof. exact (N.land_ones a 5). Qed.

Lemma land_15 (a : N) : N.land a 15 = (a mod 16)%N.
Proof. exact (N.land_ones a 4). Qed.

Lemma land_7 (a : N) : N.land a 7 = (a mod 8)%N.
Proof. exact (N.land_ones a 3). Qed.

Lemma shiftr_6 (a : N) : N.shiftr a 6 = (a / 64)%N.
Proof. exact (N.shiftr_div_pow2 a 6). Qed.

Lemma shiftr_12 (a : N) : N.shiftr a 12 = (a / 4096)%N.
Proof. exact (N.shiftr_div_pow2 a 12). Qed.

Lemma shiftr_18 (a : N) : N.shiftr a 18 = (a / 262144)%N.
Proof. exact (N.shiftr_div_pow2 a 18). Qed.

Lemma shiftl_6 (a : N) : N.shiftl a 6 = (a * 2 ^ 6)%N.
Proof. exact (N.shiftl_mul_pow2 a 6). Qed.

Lemma shiftl_12 (a : N) : N.shiftl a 12 = (a * 2 ^ 12)%N.
Proof. exact (N.shiftl_mul_pow2 a 12). Qed.

Lemma shiftl_18 (a : N) : N.shiftl a 18 = (a * 2 ^ 18)%N.
Proof. exact (N.shiftl_mul_pow2 a 18). Qed.

(** The encoder and the decoder in arithmetic. *)
Lemma utf8_char_2 (c : char) :
  (128 <= c < 2048)%N ->
  utf8_char c = Some [(192 + c / 64)%N; (128 + c mod 64)%N].
Proof.
  intros H. unfold utf8_char.
  destruct (N.ltb_spec c 128); [lia|].
  destruct (N.ltb_spec c 2048); [|lia].
  rewrite shiftr_6, land_63.
  rewrite (lor_lead 192 5 (c / 64) 6) by (try reflexivity; change (2 ^ 5)%N with 32%N; lia).
  rewrite (lor_lead 128 6 (c mod 64) 2) by (try reflexivity; change (2 ^ 6)%N with 64%N; lia).
  reflexivity.
Qed.

Lemma utf8_char_3 (c : char) :
  (2048 <= c < 65536)%N -> (c < 55296 \/ 57343 < c)%N ->
  utf8_char c = Some [(224 + c / 4096)%N; (128 + (c / 64) mod 64)%N;
                      (128 + c mod 64)%N].
Proof.
  intros H Hs. unfold utf8_char.
  destruct (N.ltb_spec c 128); [lia|].
  destruct (N.ltb_spec c 2048); [lia|].
  destruct (N.ltb_spec c 65536); [|lia].
  destruct ((55296 <=? c) && (c <=? 57343))%N eqn:E.
  { apply andb_true_iff in E. destruct E as [A B].
    apply N.leb_le in A, B. lia. }
  rewrite shiftr_12, shiftr_6, !land_63.
  rewrite (lor_lead 224 4 (c / 4096) 14) by (try reflexivity; change (2 ^ 4)%N with 16%N; lia).
  rewrite !(lor_lead 128 6 _ 2) by (try reflexivity; change (2 ^ 6)%N with 64%N; lia).
  reflexivity.
Qed.

Lemma utf8_char_4 (c : char) :
  (65536 <= c < 1114112)%N ->
  utf8_char c = Some [(240 + c / 262144)%N; (128 + (c / 4096) mod 64)%N;
                      (128 + (c / 64) mod 64)%N; (128 + c mod 64)%N].
Proof.
  intros H. unfold utf8_char.
  destruct (N.ltb_spec c 128); [lia|].
  destruct (N.ltb_spec c 2048); [lia|].
  destruct (N.ltb_spec c 65536); [lia|].
  destruct (N.ltb_spec c 1114112); [|lia].
  rewrite shiftr_18, shiftr_12, shiftr_6, !land_63.
  rewrite (lor_lead 240 3 (c / 262144) 30) by (try reflexivity; change (2 ^ 3)%N with 8%N; lia).
  rewrite !(lor_lead 128 6 _ 2) by (try reflexivity; change (2 ^ 6)%N with 64%N; lia).
  reflexivity.
Qed.


Lemma is_cont_range (b : byte) : is_cont b = true <-> (128 <= b <= 191)%N.
Proof.
  unfold is_cont. rewrite andb_true_iff, !N.leb_le. tauto.
Qed.

Lemma decode2_some (b0 b1 : byte) (c : char) :
  decode2 b0 b1 = Some c ->
  (194 <= b0 <= 223)%N /\ (128 <= b1 <= 191)%N
  /\ c = ((b0 mod 32) * 64 + b1 mod 64)%N.
Proof.
  unfold decode2.
  destruct ((194 <=? b0) && (b0 <=? 223) && is_cont b1)%N eqn:E;
    [|discriminate].
  apply andb_true_iff in E. destruct E as [E E1].
  apply andb_true_iff in E. destruct E as [A B].
  apply N.leb_le in A, B. apply is_cont_range in E1.
  intros H. injection H as <-.
  rewrite land_31, land_63, shiftl_6.
  rewrite lor_add by (change (2 ^ 6)%N with 64%N; lia).
  repeat split; try lia.
Qed.

Lemma decode3_some (b0 b1 b2 : byte) (c : char) :
  decode3 b0 b1 b2 = Some c ->
  (224 <= b0 <= 239)%N /\ (128 <= b1 <= 191)%N /\ (128 <= b2 <= 191)%N
  /\ (b0 = 224 -> 160 <= b1)%N /\ (b0 = 237 -> b1 <= 159)%N
  /\ c = ((b0 mod 16) * 4096 + (b1 mod 64) * 64 + b2 mod 64)%N.
Proof.
  unfold decode3.
  match goal with |- (if ?g then _ else _) = _ -> _ =>
    destruct g eqn:E; [|discriminate] end.
  repeat (apply andb_true_iff in E; destruct E as [E ?]).
  repeat match goal with
         | H : negb _ = true |- _ => apply negb_true_iff in H
         | H : is_cont _ = true |- _ => apply is_cont_range in H
         | H : (_ <=? _)%N = true |- _ => apply N.leb_le in H
         end.
  intros Hc. injection Hc as <-.
  rewrite land_15, !land_63, shiftl_12, shiftl_6.
  rewrite (lor_add (b1 mod 64) 6) by (change (2 ^ 6)%N with 64%N; lia).
  rewrite lor_add by (change (2 ^ 6)%N with 64%N;
                      change (2 ^ 12)%N with 4096%N; lia).
  repeat split; try lia.
  - intros ->. rewrite N.eqb_refl in *. cbn [andb] in *.
    match goal with H : (_ <? _)%N = false |- _ => apply N.ltb_ge in H end.
    lia.
  - intros ->. rewrite N.eqb_refl in *. cbn [andb] in *.
    match goal with H : (_ <? _)%N = false |- _ => apply N.ltb_ge in H end.
    lia.
Qed.

Lemma decode4_some (b0 b1 b2 b3 : byte) (c : char) :
  decode4 b0 b1 b2 b3 = Some c ->
  (240 <= b0 <= 244)%N /\ (128 <= b1 <= 191)%N /\ (128 <= b2 <= 191)%N
  /\ (128 <= b3 <= 191)%N
  /\ (b0 = 240 -> 144 <= b1)%N /\ (b0 = 244 -> b1 <= 143)%N
  /\ c = ((b0 mod 8) * 262144 + (b1 mod 64) * 4096 + (b2 mod 64) * 64
          + b3 mod 64)%N.
Proof.
  unfold decode4.
  match goal with |- (if ?g then _ else _) = _ -> _ =>
    destruct g eqn:E; [|discriminate] end.
  repeat (apply andb_true_iff in E; destruct E as [E ?]).
  repeat match goal with
         | H : negb _ = true |- _ => apply negb_true_iff in H
         | H : is_cont _ = true |- _ => apply is_cont_range in H
         | H : (_ <=? _)%N = true |- _ => apply N.leb_le in H
         end.
  intros Hc. injection Hc as <-.
  rewrite land_7, !land_63, shiftl_18, shiftl_12, shiftl_6.
  rewrite (lor_add (b2 mod 64) 6) by (change (2 ^ 6)%N with 64%N; lia).
  rewrite (lor_add (b1 mod 64) 12)
    by (change (2 ^ 6)%N with 64%N; change (2 ^ 12)%N with 4096%N; lia).
  rewrite lor_add
    by (change (2 ^ 6)%N with 64%N; change (2 ^ 12)%N with 4096%N;
        change (2 ^ 18)%N with 262144%N; lia).
  repeat split; try lia.
  - intros ->. rewrite N.eqb_refl in *. cbn [andb] in *.
    match goal with H : (_ <? _)%N = false |- _ => apply N.ltb_ge in H end.
    lia.
  - intros ->. rewrite N.eqb_refl in *. cbn [andb] in *.
    match goal with H : (_ <? _)%N = false |- _ => apply N.ltb_ge in H end.
    lia.
Qed.

Lemma decode2_encoded (c : char) :
  (128 <= c < 2048)%N ->
  decode2 (192 + c / 64)%N (128 + c mod 64)%N = Some c.
Proof.
  intros H. unfold decode2, is_cont.
  destruct (N.leb_spec 194 (192 + c / 64))%N; [|lia].
  destruct (N.leb_spec (192 + c / 64) 223)%N; [|lia].
  destruct (N.leb_spec 128 (128 + c mod 64))%N; [|lia].
  destruct (N.leb_spec (128 + c mod 64) 191)%N; [|lia].
  cbn [andb]. rewrite land_31, land_63, shiftl_6.
  rewrite lor_add by (change (2 ^ 6)%N with 64%N; lia).
  f_equal. change (2 ^ 6)%N with 64%N. lia.
Qed.

Lemma decode3_encoded (c : char) :
  (2048 <= c < 65536)%N -> (c < 55296 \/ 57343 < c)%N ->
  decode3 (224 + c / 4096)%N (128 + (c / 64) mod 64)%N (128 + c mod 64)%N
  = Some c.
Proof.
  intros H Hs. unfold decode3, is_cont.
  destruct (N.leb_spec 224 (224 + c / 4096))%N; [|lia].
  destruct (N.leb_spec (224 + c / 4096) 239)%N; [|lia].
  destruct (N.leb_spec 128 (128 + (c / 64) mod 64))%N; [|lia].
  destruct (N.leb_spec (128 + (c / 64) mod 64) 191)%N; [|lia].
  destruct (N.leb_spec 128 (128 + c mod 64))%N; [|lia].
  destruct (N.leb_spec (128 + c mod 64) 191)%N; [|lia].
  cbn [andb].
  assert (G1 : ((224 + c / 4096 =? 224)
                && (128 + (c / 64) mod 64 <? 160))%N = false).
  { destruct (N.eqb_spec (224 + c / 4096) 224)%N; [|reflexivity].
    destruct (N.ltb_spec (128 + (c / 64) mod 64) 160)%N; [lia | reflexivity]. }
  assert (G2 : ((224 + c / 4096 =? 237)
                && (159 <? 128 + (c / 64) mod 64))%N = false).
  { destruct (N.eqb_spec (224 + c / 4096) 237)%N; [|reflexivity].
    destruct (N.ltb_spec 159 (128 + (c / 64) mod 64))%N; [lia | reflexivity]. }
  rewrite G1, G2. cbn [negb andb].
  rewrite land_15, !land_63, shiftl_12, shiftl_6.
  rewrite (lor_add _ 6) by (change (2 ^ 6)%N with 64%N; lia).
  rewrite lor_add by (change (2 ^ 6)%N with 64%N;
                      change (2 ^ 12)%N with 4096%N; lia).
  f_equal. change (2 ^ 6)%N with 64%N. change (2 ^ 12)%N with 4096%N. lia.
Qed.

Lemma decode4_encoded (c : char) :
  (65536 <= c < 1114112)%N ->
  decode4 (240 + c / 262144)%N (128 + (c / 4096) mod 64)%N
          (128 + (c / 64) mod 64)%N (128 + c mod 64)%N = Some c.
Proof.
  intros H. unfold decode4, is_cont.
  destruct (N.leb_spec 240 (240 + c / 262144))%N; [|lia].
  destruct (N.leb_spec (240 + c / 262144) 244)%N; [|lia].
  destruct (N.leb_spec 128 (128 + (c / 4096) mod 64))%N; [|lia].
  destruct (N.leb_spec (128 + (c / 4096) mod 64) 191)%N; [|lia].
  destruct (N.leb_spec 128 (128 + (c / 64) mod 64))%N; [|lia].
  destruct (N.leb_spec (128 + (c / 64) mod 64) 191)%N; [|lia].
  destruct (N.leb_spec 128 (128 + c mod 64))%N; [|lia].
  destruct (N.leb_spec (128 + c mod 64) 191)%N; [|lia].
  cbn [andb].
  assert (G1 : ((240 + c / 262144 =? 240)
                && (128 + (c / 4096) mod 64 <? 144))%N = false).
  { destruct (N.eqb_spec (240 + c / 262144) 240)%N; [|reflexivity].
    destruct (N.ltb_spec (128 + (c / 4096) mod 64) 144)%N; [lia | reflexivity]. }
  assert (G2 : ((240 + c / 262144 =? 244)
                && (143 <? 128 + (c / 4096) mod 64))%N = false).
  { destruct (N.eqb_spec (240 + c / 262144) 244)%N; [|reflexivity].
    destruct (N.ltb_spec 143 (128 + (c / 4096) mod 64))%N; [lia | reflexivity]. }
  rewrite G1, G2. cbn [negb andb].
  rewrite land_7, !land_63, shiftl_18, shiftl_12, shiftl_6.
  rewrite (lor_add _ 6) by (change (2 ^ 6)%N with 64%N; lia).
  rewrite (lor_add _ 12)
    by (change (2 ^ 6)%N with 64%N; change (2 ^ 12)%N with 4096%N; lia).
  rewrite lor_add
    by (change (2 ^ 6)%N with 64%N; change (2 ^ 12)%N with 4096%N;
        change (2 ^ 18)%N with 262144%N; lia).
  f_equal. change (2 ^ 6)%N with 64%N. change (2 ^ 12)%N with 4096%N.
  change (2 ^ 18)%N with 262144%N. lia.
Qed.

(** The shape of the encoding of one code point. *)
Lemma utf8_char_cases (c : char) (bs : list byte) :
  utf8_char c = Some bs ->
  ((c < 128)%N /\ bs = [c])
  \/ ((128 <= c < 2048)%N /\ bs = [(192 + c / 64)%N; (128 + c mod 64)%N])
  \/ ((2048 <= c < 65536)%N /\ (c < 55296 \/ 57343 < c)%N
      /\ bs = [(224 + c / 4096)%N; (128 + (c / 64) mod 64)%N;
               (128 + c mod 64)%N])
  \/ ((65536 <= c < 1114112)%N
      /\ bs = [(240 + c / 262144)%N; (128 + (c / 4096) mod 64)%N;
               (128 + (c / 64) mod 64)%N; (128 + c mod 64)%N]).
Proof.
  intros H.
  assert (Hs : is_scalar c = true).
  { destruct (is_scalar c) eqn:E; [reflexivity|].
    apply utf8_char_none in E. congruence. }
  unfold is_scalar in Hs.
  destruct (N.lt_ge_cases c 128) as [H1|H1].
  { left. split; [exact H1|]. unfold utf8_char in H.
    destruct (N.ltb_spec c 128); [|lia]. congruence. }
  destruct (N.lt_ge_cases c 2048) as [H2|H2].
  { right; left. split; [lia|]. rewrite utf8_char_2 in H by lia. congruence. }
  assert (Hr : (c < 55296 \/ 57343 < c /\ c < 1114112)%N).
  { apply orb_true_iff in Hs. destruct Hs as [Hs|Hs].
    - left. apply N.ltb_lt. exact Hs.
    - right. apply andb_true_iff in Hs. destruct Hs as [A B].
      split; apply N.ltb_lt; assumption. }
  destruct (N.lt_ge_cases c 65536) as [H3|H3].
  { right; right; left. split; [lia|]. split; [lia|].
    rewrite utf8_char_3 in H by lia. congruence. }
  right; right; right. split; [lia|].
  rewrite utf8_char_4 in H by lia. congruence.
Qed.

Lemma decode_encoded_char (c : char) (bs rest : list byte) :
  utf8_char c = Some bs ->
  decode_utf8 (bs ++ rest) = cons_char (Some c) (decode_utf8 rest).
Proof.
  intros H. apply utf8_char_cases in H.
  destruct H as [(H1 & ->) | [(H1 & ->) | [(H1 & H2 & ->) | (H1 & ->)]]];
    cbn [app decode_utf8].
  - destruct (N.ltb_spec c 128)%N; [reflexivity | lia].
  - destruct (N.ltb_spec (192 + c / 64) 128)%N; [lia|].
    destruct (N.ltb_spec (192 + c / 64) 224)%N; [|lia].
    rewrite decode2_encoded by exact H1. reflexivity.
  - destruct (N.ltb_spec (224 + c / 4096) 128)%N; [lia|].
    destruct (N.ltb_spec (224 + c / 4096) 224)%N; [lia|].
    destruct (N.ltb_spec (224 + c / 4096) 240)%N; [|lia].
    rewrite decode3_encoded by assumption. reflexivity.
  - destruct (N.ltb_spec (240 + c / 262144) 128)%N; [lia|].
    destruct (N.ltb_spec (240 + c / 262144) 224)%N; [lia|].
    destruct (N.ltb_spec (240 + c / 262144) 240)%N; [lia|].
    rewrite decode4_encoded by assumption. reflexivity.
Qed.

Lemma encode_then_decode (t : text) : forall bs,
  encode_utf8 t = Some bs -> decode_utf8 bs = Some t.
Proof.
  induction t as [|c t IH]; intros bs H.
  - injection H as <-. reflexivity.
  - cbn [encode_utf8] in H.
    destruct (utf8_char c) as [b|] eqn:Ec; [|discriminate].
    destruct (encode_utf8 t) as [bs'|]; [|discriminate].
    injection H as <-.
    rewrite (decode_encoded_char c b bs' Ec), (IH bs' eq_refl). reflexivity.
Qed.

Lemma encoded_decoded2 (b0 b1 : byte) (c : char) :
  decode2 b0 b1 = Some c -> utf8_char c = Some [b0; b1].
Proof.
  intros H. apply decode2_some in H. destruct H as (H0 & H1 & ->).
  rewrite utf8_char_2 by lia. f_equal. f_equal; [lia|]. f_equal. lia.
Qed.

Lemma encoded_decoded3 (b0 b1 b2 : byte) (c : char) :
  decode3 b0 b1 b2 = Some c -> utf8_char c = Some [b0; b1; b2].
Proof.
  intros H. apply decode3_some in H.
  destruct H as (H0 & H1 & H2 & H3 & H4 & ->).
  assert (A : (b0 = 224 \/ b0 <> 224)%N) by lia.
  assert (B : (b0 = 237 \/ b0 <> 237)%N) by lia.
  rewrite utf8_char_3.
  - f_equal. f_equal; [lia|]. f_equal; [lia|]. f_equal. lia.
  - destruct A as [A|A]; [specialize (H3 A)|]; lia.
  - destruct B as [B|B]; [specialize (H4 B)|]; lia.
Qed.

Lemma encoded_decoded4 (b0 b1 b2 b3 : byte) (c : char) :
  decode4 b0 b1 b2 b3 = Some c -> utf8_char c = Some [b0; b1; b2; b3].
Proof.
  intros H. apply decode4_some in H.
  destruct H as (H0 & H1 & H2 & H3 & H4 & H5 & ->).
  assert (A : (b0 = 240 \/ b0 <> 240)%N) by lia.
  assert (B : (b0 = 244 \/ b0 <> 244)%N) by lia.
  rewrite utf8_char_4.
  - f_equal. f_equal; [lia|]. f_equal; [lia|]. f_equal; [lia|]. f_equal. lia.
  - destruct A as [A|A]; [specialize (H4 A)|];
      (destruct B as [B|B]; [specialize (H5 B)|]); lia.
Qed.

Lemma cons_char_some (r : option char) (o : option text) (t : text) :
  cons_char r o = Some t ->
  exists c t', r = Some c /\ o = Some t' /\ t = c :: t'.
Proof.
  destruct r as [c|], o as [t'|]; try discriminate.
  intros H. injection H as <-. exists c, t'. repeat split.
Qed.

Lemma decode_then_encode_upto (n : nat) : forall bs t,
  length bs <= n -> decode_utf8 bs = Some t -> encode_utf8 t = Some bs.
Proof.
  induction n as [|n IH]; intros bs t Hn H.
  - destruct bs; [|simpl in Hn; lia]. injection H as <-. reflexivity.
  - destruct bs as [|b0 r0]; [injection H as <-; reflexivity|].
    cbn [decode_utf8] in H. cbn [length] in Hn.
    destruct (N.ltb_spec b0 128) as [L1|L1].
    { apply cons_char_some in H. destruct H as (c & t' & Hc & Ht & ->).
      injection Hc as <-. apply IH in Ht; [|lia].
      cbn [encode_utf8]. rewrite Ht. unfold utf8_char.
      destruct (N.ltb_spec b0 128); [reflexivity | lia]. }
    destruct (N.ltb_spec b0 224) as [L2|L2].
    { destruct r0 as [|b1 r1]; [discriminate|].
      apply cons_char_some in H. destruct H as (c & t' & Hc & Ht & ->).
      cbn [length] in Hn. apply IH in Ht; [|lia].
      cbn [encode_utf8]. rewrite Ht, (encoded_decoded2 _ _ _ Hc). reflexivity. }
    destruct (N.ltb_spec b0 240) as [L3|L3].
    { destruct r0 as [|b1 [|b2 r2]]; try discriminate.
      apply cons_char_some in H. destruct H as (c & t' & Hc & Ht & ->).
      cbn [length] in Hn. apply IH in Ht; [|lia].
      cbn [encode_utf8]. rewrite Ht, (encoded_decoded3 _ _ _ _ Hc). reflexivity. }
    destruct r0 as [|b1 [|b2 [|b3 r3]]]; try discriminate.
    apply cons_char_some in H. destruct H as (c & t' & Hc & Ht & ->).
    cbn [length] in Hn. apply IH in Ht; [|lia].
    cbn [encode_utf8]. rewrite Ht, (encoded_decoded4 _ _ _ _ _ Hc). reflexivity.
Qed.

Lemma decode_then_encode (bs : list byte) (t : text) :
  decode_utf8 bs = Some t -> encode_utf8 t = Some bs.
Proof. apply (decode_then_encode_upto (length bs)). lia. Qed.


Lemma translate_no_cr (t : text) :
  no_cr t = true -> translate_newlines t = t.
Proof.
  unfold no_cr. induction t as [|c t IH]; [reflexivity|].
  cbn [existsb translate_newlines]. intros H.
  apply negb_true_iff, orb_false_iff in H. destruct H as [Hc Ht].
  rewrite Hc. f_equal. apply IH. rewrite Ht. reflexivity.
Qed.

Lemma translate_upto (n : nat) : forall t,
  length t <= n ->
  no_cr (translate_newlines t) = true
  /\ (encodable t = true -> encodable (translate_newlines t) = true).
Proof.
  unfold no_cr.
  induction n as [|n IH]; intros t Hn.
  - destruct t; [|simpl in Hn; lia]. split; [reflexivity | auto].
  - destruct t as [|c t]; [split; [reflexivity | auto]|].
    cbn [length] in Hn. cbn [translate_newlines].
    destruct (char_eqb c cr) eqn:Ec.
    + destruct t as [|d t'].
      * split; [reflexivity | reflexivity].
      * cbn [length] in Hn. destruct (char_eqb d nl) eqn:Ed.
        -- destruct (IH t' ltac:(lia)) as [H1 H2]. split.
           ++ cbn [existsb]. change (char_eqb nl cr) with false.
              cbn [orb]. exact H1.
           ++ cbn [encodable forallb]. intros H.
              apply andb_true_iff in H. destruct H as [_ H].
              apply andb_true_iff in H. destruct H as [_ H].
              change (is_scalar nl) with true. cbn [andb]. apply H2. exact H.
        -- destruct (IH (d :: t') ltac:(simpl; lia)) as [H1 H2]. split.
           ++ cbn [existsb]. change (char_eqb nl cr) with false.
              cbn [orb]. exact H1.
           ++ cbn [encodable forallb]. intros H.
              apply andb_true_iff in H. destruct H as [_ H].
              change (is_scalar nl) with true. cbn [andb]. apply H2. exact H.
    + destruct (IH t ltac:(lia)) as [H1 H2]. split.
      * cbn [existsb]. rewrite Ec. cbn [orb]. exact H1.
      * cbn [encodable forallb]. intros H.
        apply andb_true_iff in H. destruct H as [Hc H].
        rewrite Hc. cbn [andb]. apply H2. exact H.
Qed.

Lemma read_text_clean (content : list byte) (t : text) :
  read_text content = Some t -> encodable t = true /\ no_cr t = true.
Proof.
  unfold read_text.
  destruct (decode_utf8 content) as [t0|] eqn:Ed; [|discriminate].
  intros H. injection H as <-.
  destruct (translate_upto (length t0) t0 (Nat.le_refl _)) as [H1 H2].
  split; [|exact H1]. apply H2. apply encode_some_encodable.
  rewrite (decode_then_encode _ _ Ed). discriminate.
Qed.



(** X7.  What [write_text] writes, [read_text] reads back: the text written,
    with every [\r\n] and every other [\r] turned into [\n]; a text without
    carriage return is read back as it was written.  In the other
    direction, bytes that decode are the bytes [write_text] writes for the
    text they decode to: the decoder accepts nothing but encodings. *)
Theorem written_text_reads_back (t : text) (content : list byte) :
  (write_text t = Some content ->
   read_text content = Some (translate_newlines t)
   /\ (no_cr t = true -> read_text content = Some t))
  /\ (decode_utf8 content = Some t -> write_text t = Some content).
Proof.
  unfold write_text, read_text. split.
  - intros H. rewrite (encode_then_decode t content H).
    split; [reflexivity|].
    intros Hc. rewrite (translate_no_cr t Hc). reflexivity.
  - apply decode_then_encode.
Qed.

Lemma written_text_reads_back_witness :
  write_text doc1_replaced <> None
  /\ forall content, write_text doc1_replaced = Some content ->
       read_text content = Some doc1_replaced.
Proof.
  split; [vm_compute; discriminate|].
  intros content H.
  refine (proj2 (proj1 (written_text_reads_back doc1_replaced content) H) _).
  vm_compute. reflexivity.
Defined.

(** X8.  [hash_text] raises exactly on a source that has a code point
    [str.encode] refuses: a surrogate, U+D800 to U+DFFF (or, in this model
    of text, a number above U+10FFFF, which is no code point). *)
Theorem hash_text_raises_on_surrogates (s : text) :
  (hash_text s = None <-> encodable s = false)
  /\ (encodable s = false <->
      exists c, In c s /\ ((55296 <= c <= 57343)%N \/ (1114112 <= c)%N)).
Proof.
  split.
  - unfold hash_text. split.
    + intros H. destruct (encodable s) eqn:E; [|reflexivity].
      apply encodable_encode in E.
      destruct (encode_utf8 s); [discriminate | congruence].
    + intros E. destruct (encode_utf8 s) as [bs|] eqn:Eb; [|reflexivity].
      rewrite encode_some_encodable in E by (rewrite Eb; discriminate).
      discriminate.
  - unfold encodable. split.
    + intros H.
      assert (Hex : existsb (fun c => negb (is_scalar c)) s = true).
      { clear -H. induction s as [|c s IH]; [discriminate|].
        cbn [forallb existsb] in *. destruct (is_scalar c); [|reflexivity].
        cbn [andb negb orb] in *. apply IH. exact H. }
      apply existsb_exists in Hex. destruct Hex as (c & Hin & Hc).
      exists c. split; [exact Hin|]. apply negb_true_iff in Hc.
      unfold is_scalar in Hc. apply orb_false_iff in Hc. destruct Hc as [A B].
      apply N.ltb_ge in A. apply andb_false_iff in B.
      destruct B as [B|B]; apply N.ltb_ge in B; lia.
    + intros (c & Hin & Hc).
      destruct (forallb is_scalar s) eqn:E; [|reflexivity].
      rewrite forallb_forall in E. specialize (E c Hin).
      unfold is_scalar in E. apply orb_true_iff in E.
      destruct E as [E|E]; [apply N.ltb_lt in E; lia|].
      apply andb_true_iff in E. destruct E as [A B].
      apply N.ltb_lt in A, B. lia.
Qed.

(* ================================================================== *)
(** * Further properties: [main] *)
(* ================================================================== *)

Section MainFacts.

Variable fl : flavour.
Variable fs : Type.
Variable path_exists : fs -> path -> option bool.
Variable render_mermaid : text -> path -> text -> fs -> render_result * fs.
Variable resolve : path -> option path.
Variable cwd : option path.
Variable relpath : path -> path -> option text.
Variable read_bytes : fs -> path -> option (list byte).
Variable write_bytes : path -> list byte -> fs -> option fs.
Variable copy2 : path -> path -> fs -> option text * fs.
Variable strftime_now : fs -> text.
Variable create_backup_bound : bool.
Variable out_dir : option path.
Variable images_dir_rel : option text.
Variables fmt mode : text.
Variables dry_run backup force : bool.

Lemma main_loop_totals (files : list path) :
  forall total_blocks total_files lines w tb tf lines' w',
  main_loop fl path_exists render_mermaid resolve cwd relpath read_bytes
    write_bytes copy2 strftime_now create_backup_bound out_dir
    images_dir_rel fmt mode dry_run backup force files total_blocks
    total_files lines w
  = Done (tb, tf, lines', w') ->
  exists outs,
    processed fl path_exists render_mermaid resolve cwd relpath read_bytes
      write_bytes copy2 strftime_now create_backup_bound out_dir
      images_dir_rel fmt mode dry_run backup force files w outs w'
    /\ lines' = lines ++ map (fun mo => MainFile (fst mo) (printed (snd mo)))
                             (combine files outs)
    /\ tb = total_blocks + list_sum (map (@blocks_found fs) outs)
    /\ tf = total_files
            + length (filter (fun o => 0 <? blocks_found o) outs).
Proof.
  induction files as [|md rest IH]; intros total_blocks total_files lines w
    tb tf lines' w' H.
  - cbn [main_loop] in H. injection H as <- <- <- <-.
    exists []. cbn [combine map list_sum filter length app].
    rewrite app_nil_r, !Nat.add_0_r.
    repeat split; constructor.
  - cbn [main_loop] in H.
    destruct (process_file_io fl path_exists render_mermaid resolve cwd
                relpath read_bytes write_bytes copy2 strftime_now
                create_backup_bound md out_dir images_dir_rel fmt mode
                dry_run backup force w) as [o|e] eqn:Eo; [|discriminate].
    destruct (0 <? blocks_found o) eqn:Eb;
      apply IH in H; destruct H as (outs & Hp & Hl & Htb & Htf);
      exists (o :: outs);
      (split; [eapply processed_cons; [exact Eo | exact Hp]|]);
      cbn [combine map list_sum filter length fst snd]; rewrite Eb;
      cbn [length]; rewrite Hl, <- app_assoc;
      (split; [reflexivity|]);
      first [apply Nat.ltb_lt in Eb | apply Nat.ltb_ge in Eb];
      unfold list_sum in *; cbn [fold_right]; split; lia.
Qed.

End MainFacts.

Lemma process_file_in_dry (fl : flavour) (fs : Type)
    (path_exists : fs -> path -> option bool)
    (render_mermaid : text -> path -> text -> fs -> render_result * fs)
    (resolve : path -> option path) (cwd : option path)
    (relpath : path -> path -> option text)
    (bound : bool) (md_file : path) (text_read : text)
    (out_dir : option path) (images_dir_rel : option text) (fmt mode : text)
    (backup force : bool) (w : fs) :
  process_file_in fl path_exists render_mermaid resolve cwd relpath bound
    md_file text_read out_dir images_dir_rel fmt mode true backup force w
  = match process_file fl path_exists render_mermaid resolve cwd relpath
            md_file text_read out_dir images_dir_rel fmt mode true backup
            force w with
    | Some o => Returned o
    | None => RaisedBeforeWrite
    end.
Proof.
  unfold process_file_in, process_file.
  destruct (find_mermaid_blocks text_read) as [|b bs]; [reflexivity|].
  destruct (resolve_placement fl resolve cwd relpath md_file out_dir
              images_dir_rel) as [[ib rb]|]; [|reflexivity].
  destruct (block_loop _ _ _ _ _ _ _ _ _ _ 1 (b :: bs)) as [st|];
    [|reflexivity].
  cbn [negb andb]. rewrite !andb_false_r.
  destruct (text_eqb mode (str "render_replace"));
    [|destruct (text_eqb mode (str "render_keep"))]; reflexivity.
Qed.

(** X22.  The exit status of [main].  It returns 2, with one line on
    [stderr] and no file read or written, exactly when [--replace] and
    [--add] conflict or, outside a dry run, [mmdc] is not available.
    Otherwise, unless an exception escapes, it returns 0 whatever became of
    the blocks: [process_file] was called once for each file yielded, in
    order, each call from the state the one before left, and the last line
    gives as files updated the number of files in which a block was found,
    written back or not, and as diagrams processed the number of blocks
    found, rendered or not. *)
Theorem main_exit_status (fl : flavour) (fs : Type)
    (path_exists : fs -> path -> option bool)
    (render_mermaid : text -> path -> text -> fs -> render_result * fs)
    (resolve : path -> option path) (cwd : option path)
    (relpath : path -> path -> option text)
    (read_bytes : fs -> path -> option (list byte))
    (write_bytes : path -> list byte -> fs -> option fs)
    (copy2 : path -> path -> fs -> option text * fs)
    (strftime_now : fs -> text)
    (create_backup_bound : bool) (environ_get : text -> option text)
    (os_path_exists : text -> bool) (shutil_which : text -> option text)
    (platform_system : text) (os_path_join : text -> list text -> text)
    (subprocess_run : list text -> run_outcome)
    (a : cli_args) (files : list path) (w : fs)
    (code : N) (lines : list main_line) (w' : fs) :
  main_on fl path_exists render_mermaid resolve cwd relpath read_bytes
    write_bytes copy2 strftime_now create_backup_bound environ_get
    os_path_exists shutil_which platform_system os_path_join subprocess_run
    a files w
  = Done (code, lines, w') ->
  let mmdc := ensure_mmdc_available environ_get os_path_exists shutil_which
                platform_system os_path_join subprocess_run in
  exists out_dir,
  main_out_dir fl resolve a = Done out_dir
  /\
  ((code = 2%N /\ w' = w
   /\ ((op_mode_of a = None /\ lines = [MainModeError])
       \/ (op_mode_of a <> None /\ a_dry_run a = false /\ mmdc = false
           /\ lines = [MainMmdcMissing])))
  \/ (code = 0%N
      /\ exists op_mode outs,
           op_mode_of a = Some op_mode
           /\ (a_dry_run a = true \/ mmdc = true)
           /\ processed fl path_exists render_mermaid resolve cwd relpath
                read_bytes write_bytes copy2 strftime_now create_backup_bound
                out_dir (a_images_dir a) (a_format a) op_mode (a_dry_run a)
                (a_backup a) (a_force a) files w outs w'
           /\ lines
              = map (fun mo => MainFile (fst mo) (printed (snd mo)))
                    (combine files outs)
                ++ [MainDone
                      (length (filter (fun o => 0 <? blocks_found o) outs))
                      (list_sum (map (@blocks_found fs) outs))])).
Proof.
  intros H mmdc. unfold main_on in H. fold mmdc in H.
  destruct (main_out_dir fl resolve a) as [out_dir|e]; [|discriminate].
  exists out_dir. split; [reflexivity|].
  destruct (op_mode_of a) as [op_mode|] eqn:Em.
  - destruct (negb (a_dry_run a) && negb mmdc) eqn:Ec.
    + injection H as <- <- <-. left.
      apply andb_true_iff in Ec. destruct Ec as [Hd Hm].
      apply negb_true_iff in Hd, Hm.
      split; [reflexivity|]. split; [reflexivity|]. right.
      repeat split; try assumption. discriminate.
    + destruct (main_loop _ _ _ _ _ _ _ _ _ _ _ _ _ _ _ _ _ _ _ _ _ _ _)
        as [[[[tb tf] ls] w1]|e] eqn:El; [|discriminate].
      injection H as <- <- <-. right. split; [reflexivity|].
      apply main_loop_totals in El.
      destruct El as (outs & Hp & Hl & Htb & Htf).
      exists op_mode, outs. split; [reflexivity|].
      split.
      { apply andb_false_iff in Ec. destruct Ec as [Hd | Hm].
        - left. apply negb_false_iff in Hd. exact Hd.
        - right. apply negb_false_iff in Hm. exact Hm. }
      split; [exact Hp|].
      rewrite Hl, Htb, Htf. reflexivity.
  - injection H as <- <- <-. left.
    split; [reflexivity|]. split; [reflexivity|]. left. split; reflexivity.
Qed.

Lemma main_exit_status_witness :
  exists code lines w',
    main_on posix listed render_fails_on_B (fun p => Some p) (Some root_dir)
      relpath_from_root one_document accept_write copy_made
      (fun _ => str "20240131-235959") true
      (fun _ => None) (fun _ => false)
      (fun c => if text_eqb c (str "mmdc") then Some (str "/bin/mmdc")
                else None)
      (str "Linux") (fun d _ => d) (fun _ => Exited (Completed Z0 [] []))
      (args_render_keep false true) [doc_md] []
    = Done (code, lines, w')
    /\ main_out_dir posix (fun p => Some p) (args_render_keep false true)
       = Done None
    /\ (code = 2%N \/ (code = 0%N /\ exists outs, length outs = 1
                        /\ lines = map (fun mo => MainFile (fst mo)
                                                   (printed (snd mo)))
                                       (combine [doc_md] outs)
                                   ++ [MainDone
                      (length (filter (fun o => 0 <? blocks_found o) outs))
                      (list_sum (map (@blocks_found (list path)) outs))])).
Proof.
  destruct (main_on posix listed render_fails_on_B (fun p => Some p)
      (Some root_dir) relpath_from_root one_document accept_write copy_made
      (fun _ => str "20240131-235959") true
      (fun _ => None) (fun _ => false)
      (fun c => if text_eqb c (str "mmdc") then Some (str "/bin/mmdc")
                else None)
      (str "Linux") (fun d _ => d) (fun _ => Exited (Completed Z0 [] []))
      (args_render_keep false true) [doc_md] [])
    as [[[code lines] w']|e] eqn:E.
  2: { vm_compute in E. discriminate E. }
  exists code, lines, w'. split; [reflexivity|]. split; [reflexivity|].
  destruct (main_exit_status _ _ _ _ _ _ _ _ _ _ _ _ _ _ _ _ _ _ _ _ _ _ _ _ E)
    as (out_dir & _ & [(Hc & _) | (Hc & op_mode & outs & _ & _ & Hp & Hl)]).
  - left. exact Hc.
  - right. split; [exact Hc|]. exists outs. split; [|exact Hl].
    inversion Hp as [|? ? ? ? ? ? ? Hr]; subst. inversion Hr; subst.
    reflexivity.
Defined.

Section DryMain.

Variable fl : flavour.
Variable fs : Type.
Variable path_exists : fs -> path -> option bool.
Variable render_mermaid : text -> path -> text -> fs -> render_result * fs.
Variable resolve : path -> option path.
Variable cwd : option path.
Variable relpath : path -> path -> option text.
Variable read_bytes : fs -> path -> option (list byte).
Variable write_bytes : path -> list byte -> fs -> option fs.
Variable copy2 : path -> path -> fs -> option text * fs.
Variable strftime_now : fs -> text.
Variable create_backup_bound : bool.
Variable out_dir : option path.
Variable images_dir_rel : option text.
Variables fmt mode : text.
Variables backup force : bool.
Variable w : fs.
Variable doc : path -> text.

Lemma dry_main_loop (files : list path) :
  (forall md, In md files ->
     exists content, read_bytes w md = Some content
                     /\ read_text content = Some (doc md)) ->
  (forall md, In md files ->
     find_mermaid_blocks (doc md) = []
     \/ resolve_placement fl resolve cwd relpath md out_dir images_dir_rel
        <> None) ->
  forall total_blocks total_files lines,
  exists new,
    main_loop fl path_exists render_mermaid resolve cwd relpath read_bytes
      write_bytes copy2 strftime_now create_backup_bound out_dir
      images_dir_rel fmt mode true backup force files total_blocks
      total_files lines w
    = Done (total_blocks + list_sum (map (blocks_in doc) files),
            total_files
            + length (filter (fun md => 0 <? blocks_in doc md) files),
            lines ++ new, w)
    /\ length new = length files
    /\ forallb is_dry_line new = true.
Proof.
  induction files as [|md rest IH];
    intros Hr Hp total_blocks total_files lines.
  - exists []. cbn. rewrite app_nil_r, !Nat.add_0_r.
    repeat split; reflexivity.
  - destruct (Hr md (or_introl eq_refl)) as (content & Hb & Ht).
    destruct (read_text_clean _ _ Ht) as [Henc _].
    destruct (dry_run_outcome fl fs path_exists path_exists render_mermaid
                render_mermaid resolve cwd relpath md (doc md) out_dir
                images_dir_rel fmt mode backup force w Henc
                (Hp md (or_introl eq_refl)))
      as (o & Ho & _ & Hw & Hwb & Hdry & _ & _ & Hn).
    assert (Eo : process_file_io fl path_exists render_mermaid resolve cwd
                   relpath read_bytes write_bytes copy2 strftime_now
                   create_backup_bound md out_dir images_dir_rel fmt mode
                   true backup force w = Done o).
    { unfold process_file_io. rewrite Hb, Ht, process_file_in_dry, Ho, Hwb.
      reflexivity. }
    cbn [main_loop]. rewrite Eo, Hw.
    assert (Hrest : forall md', In md' rest ->
              exists content', read_bytes w md' = Some content'
                               /\ read_text content' = Some (doc md'))
      by (intros md' Hin; apply Hr; right; exact Hin).
    assert (Hprest : forall md', In md' rest ->
              find_mermaid_blocks (doc md') = []
              \/ resolve_placement fl resolve cwd relpath md' out_dir
                                   images_dir_rel <> None)
      by (intros md' Hin; apply Hp; right; exact Hin).
    cbn [map filter]. unfold list_sum. cbn [fold_right].
    fold (list_sum (map (blocks_in doc) rest)).
    fold (blocks_in doc md) in Hn. rewrite Hn.
    destruct (0 <? blocks_in doc md) eqn:Eb.
    + destruct (IH Hrest Hprest (total_blocks + blocks_in doc md)
                  (total_files + 1) (lines ++ [MainFile md (printed o)]))
        as (new & Hl & Hlen & Hd).
      exists (MainFile md (printed o) :: new).
      rewrite Hl. cbn [length forallb is_dry_line].
      rewrite Hdry, Hd, Hlen, <- app_assoc.
      repeat split; try reflexivity.
      match goal with
      | |- Done (?x, ?y, _, _) = Done (?x', ?y', _, _) =>
          replace x with x' by lia; replace y with y' by lia
      end.
      reflexivity.
    + destruct (IH Hrest Hprest total_blocks total_files
                  (lines ++ [MainFile md (printed o)]))
        as (new & Hl & Hlen & Hd).
      apply Nat.ltb_ge in Eb.
      exists (MainFile md (printed o) :: new).
      rewrite Hl. cbn [length forallb is_dry_line].
      rewrite Hdry, Hd, Hlen, <- app_assoc.
      repeat split; try reflexivity.
      match goal with
      | |- Done (?x, ?y, _, _) = Done (?x', ?y', _, _) =>
          replace x with x' by lia; replace y with y' by lia
      end.
      reflexivity.
Qed.

(** The loop over [pre ++ rest] is the loop over [rest] from what the
    loop over [pre] left. *)
Lemma main_loop_app (dry_run : bool) (pre rest : list path) :
  forall total_blocks total_files lines w0,
  main_loop fl path_exists render_mermaid resolve cwd relpath read_bytes
    write_bytes copy2 strftime_now create_backup_bound out_dir
    images_dir_rel fmt mode dry_run backup force (pre ++ rest)
    total_blocks total_files lines w0
  = match main_loop fl path_exists render_mermaid resolve cwd relpath
            read_bytes write_bytes copy2 strftime_now create_backup_bound
            out_dir images_dir_rel fmt mode dry_run backup force pre
            total_blocks total_files lines w0 with
    | Raise e => Raise e
    | Done (tb, tf, ls, w1) =>
        main_loop fl path_exists render_mermaid resolve cwd relpath
          read_bytes write_bytes copy2 strftime_now create_backup_bound
          out_dir images_dir_rel fmt mode dry_run backup force rest
          tb tf ls w1
    end.
Proof.
  induction pre as [|md pre IH]; intros total_blocks total_files lines w0;
    [reflexivity|].
  cbn [app main_loop].
  destruct (process_file_io fl path_exists render_mermaid resolve cwd
              relpath read_bytes write_bytes copy2 strftime_now
              create_backup_bound md out_dir images_dir_rel fmt mode
              dry_run backup force w0) as [o|e]; [|reflexivity].
  destruct (0 <? blocks_found o); apply IH.
Qed.

(** The first file with a block whose placement cannot be resolved
    stops the dry run. *)
Lemma dry_main_loop_raises (pre rest : list path) (md : path) :
  (forall md', In md' (pre ++ [md]) ->
     exists content, read_bytes w md' = Some content
                     /\ read_text content = Some (doc md')) ->
  (forall md', In md' pre ->
     find_mermaid_blocks (doc md') = []
     \/ resolve_placement fl resolve cwd relpath md' out_dir images_dir_rel
        <> None) ->
  find_mermaid_blocks (doc md) <> [] ->
  resolve_placement fl resolve cwd relpath md out_dir images_dir_rel
  = None ->
  forall total_blocks total_files lines,
  main_loop fl path_exists render_mermaid resolve cwd relpath read_bytes
    write_bytes copy2 strftime_now create_backup_bound out_dir
    images_dir_rel fmt mode true backup force (pre ++ md :: rest)
    total_blocks total_files lines w
  = Raise BeforeWrite.
Proof.
  intros Hr Hp Hb Hn total_blocks total_files lines.
  rewrite main_loop_app.
  assert (Hrp : forall md', In md' pre ->
            exists content, read_bytes w md' = Some content
                            /\ read_text content = Some (doc md'))
    by (intros md' Hin; apply Hr; apply in_or_app; left; exact Hin).
  destruct (dry_main_loop pre Hrp Hp total_blocks total_files lines)
    as (new & Hl & _). rewrite Hl.
  assert (Hrm : In md (pre ++ [md]))
    by (apply in_or_app; right; left; reflexivity).
  destruct (Hr md Hrm) as (content & Hc & Ht).
  cbn [main_loop]. unfold process_file_io, process_file_in.
  rewrite Hc, Ht.
  destruct (find_mermaid_blocks (doc md)); [congruence|].
  rewrite Hn. reflexivity.
Qed.

End DryMain.



(* ================================================================== *)
(** * Further properties: replacing after appending *)
(* ================================================================== *)

Lemma contains_skipn_false (sub x : text) i :
  contains sub x = false -> contains sub (skipn i x) = false.
Proof.
  intros H. destruct (contains sub (skipn i x)) eqn:E; [|reflexivity].
  apply contains_iff in E. destruct E as (a & b & E).
  assert (C : contains sub x = true).
  { apply contains_iff. exists (firstn i x ++ a), b.
    rewrite <- app_assoc, <- E. symmetry. apply firstn_skipn. }
  congruence.
Qed.

Lemma startswith_over_gap (sub x rest : text) (c : char) :
  existsb (char_eqb c) sub = false -> contains sub x = false ->
  startswith sub (x ++ c :: rest) = false.
Proof.
  intros Hc Hx.
  destruct (startswith sub (x ++ c :: rest)) eqn:E; [|reflexivity].
  exfalso. destruct (Nat.le_gt_cases (length sub) (length x)) as [Hl | Hl].
  - rewrite startswith_app_long in E by exact Hl.
    unfold contains in Hx.
    destruct x; cbn [find] in Hx; rewrite E in Hx; discriminate.
  - apply startswith_iff in E. destruct E as [r E].
    assert (Hn : nth_error sub (length x) = Some c).
    { assert (H1 : nth_error (x ++ c :: rest) (length x) = Some c).
      { rewrite nth_error_app2 by lia. rewrite Nat.sub_diag. reflexivity. }
      rewrite E, nth_error_app1 in H1 by lia. exact H1. }
    apply nth_error_In in Hn.
    assert (existsb (char_eqb c) sub = true).
    { apply existsb_exists. exists c. split; [exact Hn | apply char_eqb_refl]. }
    congruence.
Qed.

(** The first occurrence of [sub] in a text that holds none before a
    character [sub] does not have. *)
Lemma find_after_gap (sub : text) (c : char) : forall x b,
  existsb (char_eqb c) sub = false -> contains sub x = false ->
  find sub (x ++ c :: sub ++ b) = Some (length x + 1).
Proof.
  induction x as [|a x IH]; intros b Hc Hx.
  - pose proof (startswith_over_gap sub [] (sub ++ b) c Hc Hx) as Hs.
    cbn [app] in Hs |- *. cbn [find]. rewrite Hs.
    assert (H0 : find sub (sub ++ b) = Some 0).
    { pose proof (startswith_app sub b) as H.
      destruct (sub ++ b); cbn [find]; rewrite H; reflexivity. }
    rewrite H0. reflexivity.
  - pose proof (startswith_over_gap sub (a :: x) (sub ++ b) c Hc Hx) as Hs.
    cbn [app] in Hs |- *. cbn [find]. rewrite Hs.
    rewrite (IH b Hc (contains_skipn_false sub (a :: x) 1 Hx)).
    reflexivity.
Qed.

Lemma appended_text_image_line (md : path) (rel nm : text) :
  appended_text md rel nm
  = nl :: (image_line md rel ++ MARKER_PREFIX ++ nm)
          ++ space :: str "-->" ++ [nl].
Proof.
  unfold appended_text, image_line.
  change (str " -->") with (space :: str "-->").
  cbn [app]. rewrite <- !app_assoc. reflexivity.
Qed.

(** What [replace_blocks_with_images] skips when the lookahead begins one
    character into an appended text: the rest of that text. *)
Lemma skip_after_appended (md : path) (rel nm rest : text) :
  contains (str "-->") (image_line md rel ++ MARKER_PREFIX ++ nm) = false ->
  length (appended_text md rel nm) <= LOOKAHEAD_REPLACE + 1 ->
  replace_skip_extra
    (firstn LOOKAHEAD_REPLACE (skipn 1 (appended_text md rel nm) ++ rest)) nm
  = length (appended_text md rel nm) - 1.
Proof.
  intros Hc Hlen.
  assert (Hal : length (appended_text md rel nm)
                = length (image_line md rel ++ MARKER_PREFIX ++ nm) + 6).
  { rewrite appended_text_image_line. cbn [length]. rewrite length_app.
    cbn [length]. rewrite length_app. simpl. lia. }
  rewrite Hal in *. rewrite appended_text_image_line.
  set (x := image_line md rel ++ MARKER_PREFIX ++ nm) in *.
  unfold LOOKAHEAD_REPLACE in *. cbn [skipn].
  set (r' := firstn (600 - length x - 5) rest).
  assert (Hla : firstn 600 ((x ++ space :: str "-->" ++ [nl]) ++ rest)
                = x ++ space :: str "-->" ++ nl :: r').
  { rewrite <- app_assoc, firstn_app.
    assert (Hx : length x <= 600) by (clear - Hlen; lia).
    rewrite (firstn_all2 x Hx).
    f_equal. rewrite firstn_app.
    change (length (space :: str "-->" ++ [nl])) with 5.
    rewrite firstn_all2; [reflexivity|].
    change (5 <= 600 - length x). lia. }
  rewrite Hla. clear Hla. unfold replace_skip_extra.
  destruct (find_at_most (MARKER_PREFIX ++ nm)
              (x ++ space :: str "-->" ++ nl :: r') (image_line md rel)
              (space :: str "-->" ++ nl :: r'))
    as (i & Hi & Hil).
  { unfold x. rewrite <- !app_assoc. reflexivity. }
  rewrite Hi. unfold find_from.
  assert (Hix : i <= length x) by (unfold x; rewrite length_app; lia).
  assert (Hlt : (length (x ++ space :: str "-->" ++ nl :: r') <? i) = false).
  { apply Nat.ltb_ge. rewrite length_app. lia. }
  rewrite Hlt, skipn_app.
  replace (i - length x) with 0 by lia. cbn [skipn].
  rewrite (find_after_gap (str "-->") space (skipn i x) (nl :: r') eq_refl
             (contains_skipn_false _ _ _ Hc)).
  cbn [option_map]. rewrite length_skipn.
  replace (i + (length x - i + 1) + 3) with (length x + 4) by lia.
  assert (Hl2 : (length x + 4 <? length (x ++ space :: str "-->" ++ nl :: r'))
                = true).
  { apply Nat.ltb_lt. rewrite length_app. simpl. lia. }
  rewrite Hl2. unfold slice.
  replace (length x + 4 + 1 - (length x + 4)) with 1 by lia.
  rewrite skipn_app, skipn_all2 by lia.
  replace (length x + 4 - length x) with 4 by lia.
  cbn [app]. change (skipn 4 (space :: str "-->" ++ nl :: r')) with (nl :: r').
  cbn [firstn]. rewrite text_eqb_refl. cbn [andb]. lia.
Qed.

Lemma locate_and_replace_out md refs t :
  locate_and_replace md refs t
  = replace_out t md (pairs_of (finditer MERMAID_BLOCK_RE t) refs) 0.
Proof.
  unfold locate_and_replace. rewrite replace_blocks_out, spans_of_blocks.
  reflexivity.
Qed.

Lemma skipn_exact_app (A : Type) (p r : list A) n :
  length p = n -> skipn n (p ++ r) = r.
Proof.
  intros <-. rewrite skipn_app, skipn_all, Nat.sub_diag. reflexivity.
Qed.

(** Replacing in the text [p ++ append_out ...] appending produced, from
    the offset that stands for [lo], gives what replacing in the original
    gives from [lo]: [off] is the length of what was inserted before. *)
Lemma replace_after_append t md : forall ms refs lo off p,
  scan_spec MERMAID_BLOCK_RE t lo ms ->
  junctions_ok t md lo (pairs_of ms refs) ->
  forallb (migrates_pair md t) (pairs_of ms refs) = true ->
  length p = lo + off ->
  replace_out (p ++ append_out t md (pairs_of ms refs) lo) md
              (pairs_of (shifted md off refs ms) refs) (lo + off)
  = replace_out t md (pairs_of ms refs) lo.
Proof.
  induction ms as [|m ms IH]; intros refs lo off p Hs Hj Hm Hp.
  - cbn [pairs_of map combine shifted append_out replace_out].
    unfold slice_from. apply skipn_exact_app. exact Hp.
  - destruct refs as [|[op rel] refs].
    + rewrite !pairs_of_nil_r. cbn [append_out replace_out].
      unfold slice_from. apply skipn_exact_app. exact Hp.
    + destruct m as [s e g].
      cbn [scan_spec m_start m_end] in Hs.
      destruct Hs as (Hlo & _ & Hmatch & Hs).
      pose proof (match_in_bounds _ mermaid_progress _ _ _ Hmatch)
        as [_ Hbd]. cbn [m_end] in Hbd.
      cbn [shifted fst snd m_start m_end m_group1].
      cbn [pairs_of map combine fst snd] in Hj, Hm |- *.
      unfold span_of at 1 in Hj. unfold span_of at 1 in Hm.
      unfold span_of at 1.
      cbn [m_start m_end fst snd] in Hj, Hm |- *.
      fold (pairs_of ms refs) in Hj, Hm |- *.
      fold (pairs_of (shifted md
                        (off + length (appended_text md rel (name op)))
                        refs ms) refs).
      cbn [junctions_ok fst snd] in Hj.
      destruct Hj as (Hle & Het & _ & Hfresh & _ & Hj).
      cbn [forallb] in Hm. apply andb_true_iff in Hm.
      destruct Hm as [Hpair Hm]. unfold migrates_pair in Hpair.
      cbn [fst snd] in Hpair.
      apply andb_true_iff in Hpair. destruct Hpair as [Hpair Hno].
      apply andb_true_iff in Hpair. destruct Hpair as [Hzero Hshort].
      apply Nat.eqb_eq in Hzero. apply Nat.leb_le in Hshort.
      apply negb_true_iff in Hno.
      cbn [append_out replace_out]. unfold span_of.
      cbn [m_start m_end]. rewrite Hfresh, Hzero, Nat.add_0_r.
      set (a := appended_text md rel (name op)) in *.
      set (rest := append_out t md (pairs_of ms refs) e).
      set (u := p ++ slice t lo e ++ a ++ rest).
      assert (Hsl : length (slice t lo e) = e - lo)
        by (apply slice_length; lia).
      (* the gap before the block *)
      assert (Hgap : slice u (lo + off) (s + off) = slice t lo s).
      { unfold u, slice at 1. rewrite (skipn_exact_app _ _ _ _ Hp).
        replace (s + off - (lo + off)) with (s - lo) by lia.
        rewrite firstn_app, Hsl.
        replace (s - lo - (e - lo)) with 0 by lia.
        cbn [firstn]. rewrite app_nil_r.
        unfold slice. rewrite firstn_firstn.
        replace (Nat.min (s - lo) (e - lo)) with (s - lo) by lia.
        reflexivity. }
      (* what is skipped after it *)
      assert (Hskip : replace_skip_extra
                        (slice u (e + off + 1)
                               (e + off + 1 + LOOKAHEAD_REPLACE)) (name op)
                      = length a - 1).
      { unfold slice.
        replace (e + off + 1 + LOOKAHEAD_REPLACE - (e + off + 1))
          with LOOKAHEAD_REPLACE by lia.
        assert (Hsk : skipn (e + off + 1) u = skipn 1 a ++ rest).
        { unfold u.
          replace (e + off + 1) with (1 + (e + off)) by lia.
          rewrite <- skipn_skipn, app_assoc.
          rewrite (skipn_exact_app _ (p ++ slice t lo e) (a ++ rest) (e + off))
            by (rewrite length_app, Hsl; lia).
          pose proof (appended_text_long md rel (name op)) as Hl2.
          fold a in Hl2. rewrite skipn_app.
          replace (1 - length a) with 0 by lia. reflexivity. }
        rewrite Hsk. apply skip_after_appended; assumption. }
      rewrite Hgap, Hskip.
      pose proof (appended_text_long md rel (name op)) as Hl2. fold a in Hl2.
      replace (e + off + 1 + (length a - 1)) with (e + (off + length a))
        by lia.
      f_equal. f_equal.
      replace u with ((p ++ slice t lo e ++ a) ++ rest)
        by (unfold u; rewrite <- !app_assoc; reflexivity).
      apply IH; try assumption.
      rewrite !length_app, Hsl. lia.
Qed.

(** X24.  Replacing after appending is replacing.  Under the conditions of
    idempotent appending, and when for every paired block the replacing
    rewrite skips nothing after the block in the original text, the
    appended text is at most 601 characters long, and image line, marker
    prefix and file name together hold no [-->]: locating the blocks of the
    text append mode produced and replacing them gives the text that
    replacing the blocks of the original gives.  The image line and the
    marker that were appended are taken away with the block. *)
Theorem replace_after_append_is_replace (md_file : path)
    (refs : list (path * text)) (md_text : text) :
  appends_once md_file refs md_text = true ->
  migrates md_file refs md_text = true ->
  locate_and_replace md_file refs (locate_and_append md_file refs md_text)
  = locate_and_replace md_file refs md_text.
Proof.
  intros Ha Hm.
  rewrite (locate_and_replace_out md_file refs
             (locate_and_append md_file refs md_text)).
  rewrite (finditer_appended md_file refs md_text Ha).
  rewrite locate_and_append_out, locate_and_replace_out.
  apply (replace_after_append md_text md_file
           (finditer MERMAID_BLOCK_RE md_text) refs 0 0 []).
  - apply finditer_scan. exact mermaid_progress.
  - apply appends_once_junctions. exact Ha.
  - exact Hm.
  - reflexivity.
Qed.

Lemma replace_after_append_is_replace_witness :
  appends_once doc_md [ref_doc1] doc1 = true
  /\ migrates doc_md [ref_doc1] doc1 = true
  /\ locate_and_append doc_md [ref_doc1] doc1 <> doc1
  /\ locate_and_replace doc_md [ref_doc1]
       (locate_and_append doc_md [ref_doc1] doc1)
     = locate_and_replace doc_md [ref_doc1] doc1.
Proof.
  assert (Ha : appends_once doc_md [ref_doc1] doc1 = true)
    by (vm_compute; reflexivity).
  assert (Hm : migrates doc_md [ref_doc1] doc1 = true)
    by (vm_compute; reflexivity).
  split; [exact Ha|]. split; [exact Hm|]. split.
  - vm_compute. discriminate.
  - exact (replace_after_append_is_replace doc_md [ref_doc1] doc1 Ha Hm).
Defined.
